(** * Rock Ridge record system of pyiso (src/pyiso/rockridge.py)

    A shallow embedding of the Rock Ridge codecs, the entry aggregator
    ([RockRidgeBase]), the layout algorithm ([RockRidge.new]) and the query
    API, followed by the properties of the specification that concern them.

    Python values are modelled as follows:
    - [str] (Python 2 byte strings) as [list ascii];
    - Python integers as [Z];
    - [None]-able attributes as [option];
    - raised exceptions as the [Raise] case of the error monad [M]. *)

From Stdlib Require Import String Ascii.
From Stdlib Require Import ZArith List Bool Lia.
From Stdlib Require Import DecimalString HexadecimalString.
Import ListNotations.

Local Open Scope Z_scope.

(** ** Python primitives *)

Module Py.

(** The exceptions the module can raise: its own [PyIsoException], and the
    interpreter's [struct.error], [AttributeError] (attribute access on
    [None]) and [IndexError].

    One message of the module is built with [hexdump], a function of the
    utils module, which is not part of the sources at hand and of which the
    spec says nothing: [PyIsoException_hexdump msg arg] is the
    [PyIsoException] whose message is [msg] followed by [hexdump(arg)], the
    call left as it stands. *)
Inductive exn : Type :=
| PyIsoException (msg : string)
| PyIsoException_hexdump (msg : string) (arg : list ascii)
| StructError
| AttributeError
| IndexError.

Inductive M (A : Type) : Type :=
| Ok (a : A)
| Raise (e : exn).
Arguments Ok {A} a.
Arguments Raise {A} e.

Definition bind {A B : Type} (m : M A) (k : A -> M B) : M B :=
  match m with
  | Ok a => k a
  | Raise e => Raise e
  end.

Definition raises {A : Type} (m : M A) : Prop := exists e, m = Raise e.

Definition str : Type := list ascii.

Definition lit (x : string) : str := list_ascii_of_string x.

Definition len (x : str) : Z := Z.of_nat (length x).

(** [ord] and [chr] on single bytes. *)
Definition ord (c : ascii) : Z := Z.of_N (N_of_ascii c).
Definition chr (z : Z) : ascii := ascii_of_N (Z.to_N z).

(** ["%d" % z] and ["%x" % z] *)
Definition fmt_d (z : Z) : string :=
  DecimalString.NilZero.string_of_int (Z.to_int z).
Definition fmt_x (z : Z) : string :=
  match z with
  | Zneg p =>
      String "-" (HexadecimalString.NilZero.string_of_uint (Pos.to_hex_uint p))
  | _ => HexadecimalString.NilZero.string_of_uint (N.to_hex_uint (Z.to_N z))
  end.

(** Index normalisation of a Python slice bound. *)
Definition norm_idx (n i : Z) : Z :=
  if i <? 0 then Z.max 0 (i + n) else Z.min i n.

(** [x[lo:hi]] *)
Definition slice (x : str) (lo hi : Z) : str :=
  let l := norm_idx (len x) lo in
  let h := norm_idx (len x) hi in
  firstn (Z.to_nat (h - l)) (skipn (Z.to_nat l) x).

(** [x[lo:]] and [x[:hi]] *)
Definition slice_from (x : str) (lo : Z) : str :=
  skipn (Z.to_nat (norm_idx (len x) lo)) x.
Definition slice_to (x : str) (hi : Z) : str :=
  firstn (Z.to_nat (norm_idx (len x) hi)) x.

(** [x[i]]; a negative index counts from the end. *)
Definition index (x : str) (i : Z) : M ascii :=
  let j := if i <? 0 then i + len x else i in
  if (0 <=? j) && (j <? len x)
  then Ok (nth (Z.to_nat j) x zero)
  else Raise IndexError.

Definition str_eqb (a b : str) : bool :=
  if list_eq_dec ascii_dec a b then true else false.

(** [x.split('/')] *)
Fixpoint split_aux (cur : str) (x : str) : list str :=
  match x with
  | [] => [rev cur]
  | c :: r =>
      if Ascii.eqb c "/"%char
      then rev cur :: split_aux [] r
      else split_aux (c :: cur) r
  end.
Definition split (x : str) : list str := split_aux [] x.

(** *** struct.pack / struct.unpack with the "=" (standard size, native
    order) prefix.  The host is taken to be little-endian, the only kind
    on which the module writes a conforming volume. *)

Definition pack_B (x : Z) : M str :=
  if (0 <=? x) && (x <? 256) then Ok [chr x] else Raise StructError.

Definition le32 (x : Z) : str :=
  [chr (x mod 256); chr ((x / 256) mod 256);
   chr ((x / 65536) mod 256); chr ((x / 16777216) mod 256)].

Definition pack_L (x : Z) : M str :=
  if (0 <=? x) && (x <? 4294967296) then Ok (le32 x) else Raise StructError.

(** [struct.unpack] insists on a buffer of exactly the format's size. *)
Definition calcsize_check (buf : str) (n : Z) : M unit :=
  if len buf =? n then Ok tt else Raise StructError.

Definition get_B (buf : str) (i : nat) : Z := ord (nth i buf zero).

Definition get_L (buf : str) (i : nat) : Z :=
  get_B buf i + 256 * get_B buf (i + 1)
  + 65536 * get_B buf (i + 2) + 16777216 * get_B buf (i + 3).

End Py.
Import Py.

Declare Scope py_scope.
Delimit Scope py_scope with py.
Notation "x <- m ;; k" := (bind m (fun x => k))
  (at level 61, m at next level, right associativity) : py_scope.
Notation "m ;;; k" := (bind m (fun _ => k))
  (at level 61, right associativity) : py_scope.
Local Open Scope py_scope.

Definition SU_ENTRY_VERSION : Z := 1.

(** ** Collaborators outside rockridge.py *)

(** Modelled from the spec: [swab_32bit] comes from the utils module, which
    is not part of the sources at hand.  The spec calls it the byte swap of
    a 32-bit value ([be_value == byte_swap(le_value)]): the four bytes of
    the argument in reverse order. *)
Definition swab_32bit (x : Z) : Z :=
  (x mod 256) * 16777216 + ((x / 256) mod 256) * 65536
  + ((x / 65536) mod 256) * 256 + (x / 16777216) mod 256.

(** Modelled from the spec: the date codec (module dates) is not part of the
    sources at hand.  The spec gives it two binary forms, the 7-byte
    directory-record style and the 17-byte volume-descriptor style, with
    [decode]/[encode] between bytes and a timestamp.  A timestamp is kept
    here as the bytes of its binary form; decoding fails on a buffer that
    does not have the size of the form. *)
Inductive datetype : Type := DirectoryRecordDate | VolumeDescriptorDate.

Record Date : Type := mkDate { date_type : datetype; date_raw : str }.

Definition date_size (t : datetype) : Z :=
  match t with DirectoryRecordDate => 7 | VolumeDescriptorDate => 17 end.

Definition Date_parse (t : datetype) (datestr : str) : M Date :=
  if len datestr =? date_size t then Ok (mkDate t datestr)
  else Raise StructError.

Definition Date_record (d : Date) : str := date_raw d.

(** [datetype().new()] stamps the current time; the clock is an input. *)
Definition clock : Type := datetype -> str.
Definition Date_new (now : clock) (t : datetype) : Date := mkDate t (now t).

(** ** Small helpers for the Python idioms of the module *)

(** [flags & (1 << i)] used as a condition. *)
Definition bit_set (flags i : Z) : bool :=
  negb (Z.land flags (Z.shiftl 1 i) =? 0).

(** [x in [...]] on integers. *)
Definition Z_in (x : Z) (l : list Z) : bool := existsb (Z.eqb x) l.

(** [struct.pack] of a run of "B" fields and of a run of "L" fields. *)
Fixpoint pack_Bs (xs : list Z) : M str :=
  match xs with
  | [] => Ok []
  | x :: r => a <- pack_B x ;; b <- pack_Bs r ;; Ok (a ++ b)
  end.

Fixpoint pack_Ls (xs : list Z) : M str :=
  match xs with
  | [] => Ok []
  | x :: r => a <- pack_L x ;; b <- pack_Ls r ;; Ok (a ++ b)
  end.

Definition PyIso {A : Type} (msg : string) : M A := Raise (PyIsoException msg).

(** [o.<attribute>]: an [AttributeError] when [o] is [None]. *)
Definition getattr {A : Type} (o : option A) : M A :=
  match o with
  | Some a => Ok a
  | None => Raise AttributeError
  end.

(** ** Record codecs

    Every [parse] below is the source's [parse] run on a freshly created
    object, which is how [RockRidgeBase._parse] uses it, and a value of a
    record type is a record object that [parse] or [new] has initialized.
    The object of a [parse] that raised stays in the slot it was assigned
    to, not initialized.  The CE record is given that state as well
    ([RRCERecord] keeps the two attributes of its class): the entry reaches
    through it to the continuation without asking whether it is
    initialized.  For the other slots the parse loop tells which of them is
    left with such an object ([Abort]). *)

(** *** SP *)
Record RRSPRecord : Type := mkSP { bytes_to_skip : Z }.

Definition RRSPRecord_length : Z := 7.

Definition RRSPRecord_parse (rrstr : str) : M RRSPRecord :=
  let buf := slice rrstr 2 7 in
  calcsize_check buf 5 ;;;
  let su_len := get_B buf 0 in
  let check_byte1 := get_B buf 2 in
  let check_byte2 := get_B buf 3 in
  let skip := get_B buf 4 in
  if negb (su_len =? RRSPRecord_length)
  then PyIso "Invalid length on rock ridge extension"
  else if negb (check_byte1 =? 190) || negb (check_byte2 =? 239)
  then PyIso "Invalid check bytes on rock ridge extension"
  else Ok (mkSP skip).

Definition RRSPRecord_new : RRSPRecord := mkSP 0.

Definition RRSPRecord_record (r : RRSPRecord) : M str :=
  p <- pack_Bs [RRSPRecord_length; SU_ENTRY_VERSION; 190; 239; bytes_to_skip r] ;;
  Ok (lit "SP" ++ p).

(** *** RR *)
Record RRRRRecord : Type := mkRRf { rr_flags : Z }.

Definition RRRRRecord_length : Z := 5.

Definition RRRRRecord_parse (rrstr : str) : M RRRRRecord :=
  let buf := slice rrstr 2 5 in
  calcsize_check buf 3 ;;;
  let su_len := get_B buf 0 in
  let flags := get_B buf 2 in
  if negb (su_len =? RRRRRecord_length)
  then PyIso "Invalid length on rock ridge extension"
  else Ok (mkRRf flags).

Definition RRRRRecord_new : RRRRRecord := mkRRf 0.

Definition rr_field_bit (fieldname : string) : M Z :=
  if String.eqb fieldname "PX" then Ok 0
  else if String.eqb fieldname "PN" then Ok 1
  else if String.eqb fieldname "SL" then Ok 2
  else if String.eqb fieldname "NM" then Ok 3
  else if String.eqb fieldname "CL" then Ok 4
  else if String.eqb fieldname "PL" then Ok 5
  else if String.eqb fieldname "RE" then Ok 6
  else if String.eqb fieldname "TF" then Ok 7
  else PyIso ("Unknown RR field name " ++ fieldname)%string.

Definition RRRRRecord_append_field (r : RRRRRecord) (fieldname : string)
  : M RRRRRecord :=
  bit <- rr_field_bit fieldname ;;
  Ok (mkRRf (Z.lor (rr_flags r) (Z.shiftl 1 bit))).

Definition RRRRRecord_record (r : RRRRRecord) : M str :=
  p <- pack_Bs [RRRRRecord_length; SU_ENTRY_VERSION; rr_flags r] ;;
  Ok (lit "RR" ++ p).

(** *** PX *)
Record RRPXRecord : Type := mkPX {
  posix_file_mode : Z;
  posix_file_links : Z;
  posix_user_id : Z;
  posix_group_id : Z;
  posix_serial_number : Z
}.

Definition RRPXRecord_parse (rrstr : str) : M RRPXRecord :=
  let hdr := slice rrstr 2 4 in
  calcsize_check hdr 2 ;;;
  let su_len := get_B hdr 0 in
  if su_len =? 36 then
    let buf := slice rrstr 4 36 in
    calcsize_check buf 32 ;;;
    Ok (mkPX (get_L buf 0) (get_L buf 8) (get_L buf 16) (get_L buf 24) 0)
  else if su_len =? 44 then
    let buf := slice rrstr 4 44 in
    calcsize_check buf 40 ;;;
    Ok (mkPX (get_L buf 0) (get_L buf 8) (get_L buf 16) (get_L buf 24)
             (get_L buf 32))
  else PyIso "Invalid length on rock ridge extension".

Definition RRPXRecord_new (isdir : bool) (symlink_path : option str)
  : RRPXRecord :=
  let mode :=
    if isdir then 16749                      (* 040555 *)
    else match symlink_path with
         | Some _ => 41325                   (* 0120555 *)
         | None => 33060                     (* 0100444 *)
         end in
  mkPX mode 1 0 0 0.

(** [RRPXRecord.length(rr_version="1.09")] *)
Definition RRPXRecord_length_v (rr_version : string) : Z :=
  if String.eqb rr_version "1.09" then 36 else 44.

(** [RRPXRecord.length()], the call every caller in the module makes. *)
Definition RRPXRecord_length : Z := RRPXRecord_length_v "1.09".

(** [RRPXRecord.record(rr_version="1.09")]; the length byte is written from
    [RRPXRecord.length()] without the version. *)
Definition RRPXRecord_record_v (r : RRPXRecord) (rr_version : string)
  : M str :=
  h <- pack_Bs [RRPXRecord_length; SU_ENTRY_VERSION] ;;
  b <- pack_Ls [posix_file_mode r; swab_32bit (posix_file_mode r);
                posix_file_links r; swab_32bit (posix_file_links r);
                posix_user_id r; swab_32bit (posix_user_id r);
                posix_group_id r; swab_32bit (posix_group_id r)] ;;
  let ret := lit "PX" ++ h ++ b in
  if negb (String.eqb rr_version "1.09") then
    t <- pack_Ls [posix_serial_number r; swab_32bit (posix_serial_number r)] ;;
    Ok (ret ++ t)
  else Ok ret.

Definition RRPXRecord_record (r : RRPXRecord) : M str :=
  RRPXRecord_record_v r "1.09".

(** *** ER *)
Record RRERRecord : Type := mkER { ext_id : str; ext_des : str; ext_src : str }.

Definition RRERRecord_length (id des src : str) : Z :=
  8 + len id + len des + len src.

Definition RRERRecord_parse (rrstr : str) : M RRERRecord :=
  let buf := slice rrstr 2 8 in
  calcsize_check buf 6 ;;;
  let len_id := get_B buf 2 in
  let len_des := get_B buf 3 in
  let len_src := get_B buf 4 in
  let tmp := 8 in
  let id := slice rrstr tmp (tmp + len_id) in
  let tmp := tmp + len_id in
  let des := if 0 <? len_des then slice rrstr tmp (tmp + len_des) else [] in
  let tmp := if 0 <? len_des then tmp + len_des else tmp in
  let src := slice rrstr tmp (tmp + len_src) in
  Ok (mkER id des src).

Definition RRERRecord_new (id des src : str) : RRERRecord := mkER id des src.

Definition RRERRecord_record (r : RRERRecord) : M str :=
  p <- pack_Bs [RRERRecord_length (ext_id r) (ext_des r) (ext_src r);
                SU_ENTRY_VERSION; len (ext_id r); len (ext_des r);
                len (ext_src r); 1] ;;
  Ok (lit "ER" ++ p ++ ext_id r ++ ext_des r ++ ext_src r).

(** *** ES *)
Record RRESRecord : Type := mkES { extension_sequence : Z }.

Definition RRESRecord_length : Z := 5.

Definition RRESRecord_parse (rrstr : str) : M RRESRecord :=
  let buf := slice rrstr 2 5 in
  calcsize_check buf 3 ;;;
  if negb (get_B buf 0 =? RRESRecord_length)
  then PyIso "Invalid length on rock ridge extension"
  else Ok (mkES (get_B buf 2)).

Definition RRESRecord_record (r : RRESRecord) : M str :=
  p <- pack_Bs [RRESRecord_length; SU_ENTRY_VERSION; extension_sequence r] ;;
  Ok (lit "ES" ++ p).

(** *** PN *)
Record RRPNRecord : Type := mkPN { dev_t_high : Z; dev_t_low : Z }.

Definition RRPNRecord_length : Z := 20.

Definition RRPNRecord_parse (rrstr : str) : M RRPNRecord :=
  let buf := slice rrstr 2 20 in
  calcsize_check buf 18 ;;;
  if negb (get_B buf 0 =? RRPNRecord_length)
  then PyIso "Invalid length on rock ridge extension"
  else Ok (mkPN (get_L buf 2) (get_L buf 10)).

Definition RRPNRecord_record (r : RRPNRecord) : M str :=
  h <- pack_Bs [RRPNRecord_length; SU_ENTRY_VERSION] ;;
  b <- pack_Ls [dev_t_high r; swab_32bit (dev_t_high r);
                dev_t_low r; swab_32bit (dev_t_low r)] ;;
  Ok (lit "PN" ++ h ++ b).

(** *** SL *)
Record RRSLRecord : Type := mkSL { symlink_components : list str; sl_flags : Z }.

Definition is_special_comp (comp : str) : bool :=
  str_eqb comp (lit ".") || str_eqb comp (lit "..") || str_eqb comp (lit "/").

Definition RRSLRecord_component_length (symlink_component : str) : Z :=
  if is_special_comp symlink_component then 2
  else 2 + len symlink_component.

Definition RRSLRecord_length (comps : list str) : Z :=
  fold_left (fun length comp => length + RRSLRecord_component_length comp)
            comps 5.

(** The component loop of [RRSLRecord.parse].  Each round lowers [data_len]
    by at least two, so [fuel] rounds with [data_len <= fuel] at the start
    always reach the loop exit; the [O] branch is that exit
    (see [sl_parse_loop_fuel]). *)
Fixpoint sl_parse_loop (fuel : nat) (rrstr : str) (cr_offset data_len : Z)
  (name : str) (comps : list str) : M (list str) :=
  if 0 <? data_len then
    match fuel with
    | O => Ok comps
    | S fuel' =>
        let buf := slice rrstr cr_offset (cr_offset + 2) in
        calcsize_check buf 2 ;;;
        let cr_flags := get_B buf 0 in
        let len_cp := get_B buf 1 in
        let data_len := data_len - 2 in
        let cr_offset := cr_offset + 2 in
        let dots := bit_set cr_flags 1 || bit_set cr_flags 2
                    || bit_set cr_flags 3 in
        if negb (Z_in cr_flags [0; 1; 2; 4; 8])
        then PyIso ("Invalid Rock Ridge symlink flags 0x" ++ fmt_x cr_flags)%string
        else if dots && negb (len_cp =? 0)
        then PyIso "Rock Ridge symlinks to dot or dotdot should have zero length"
        else if dots && negb (str_eqb name [])
        then PyIso "Cannot have RockRidge symlink that is both a continuation and dot or dotdot"
        else
          let name :=
            if bit_set cr_flags 1 then name ++ lit "."
            else if bit_set cr_flags 2 then name ++ lit ".."
            else if bit_set cr_flags 3 then name ++ lit "/"
            else name ++ slice rrstr cr_offset (cr_offset + len_cp) in
          let comps' := if negb (bit_set cr_flags 0)
                        then comps ++ [name] else comps in
          let name' := if negb (bit_set cr_flags 0) then [] else name in
          sl_parse_loop fuel' rrstr (cr_offset + len_cp) (data_len - len_cp)
                        name' comps'
    end
  else Ok comps.

Definition RRSLRecord_parse (rrstr : str) : M RRSLRecord :=
  let buf := slice rrstr 2 5 in
  calcsize_check buf 3 ;;;
  let su_len := get_B buf 0 in
  let flags := get_B buf 2 in
  comps <- sl_parse_loop (Z.to_nat (su_len - 5)) rrstr 5 (su_len - 5) [] [] ;;
  Ok (mkSL comps flags).

(** [RRSLRecord.new(symlink_path=None)] *)
Definition RRSLRecord_new (symlink_path : option str) : RRSLRecord :=
  match symlink_path with
  | Some p => mkSL (split p) 0
  | None => mkSL [] 0
  end.

Definition RRSLRecord_current_length (r : RRSLRecord) : Z :=
  RRSLRecord_length (symlink_components r).

Definition RRSLRecord_add_component (r : RRSLRecord) (symlink_comp : str)
  : M RRSLRecord :=
  if 255 <? RRSLRecord_current_length r + 2 + len symlink_comp
  then PyIso "Symlink would be longer than 255"
  else Ok (mkSL (symlink_components r ++ [symlink_comp]) (sl_flags r)).

(** [RRSLRecord.__str__] *)
Definition RRSLRecord_str (r : RRSLRecord) : str :=
  let ret :=
    fold_left (fun ret comp =>
                 let ret := ret ++ comp in
                 if negb (str_eqb comp (lit "/")) then ret ++ lit "/" else ret)
              (symlink_components r) [] in
  slice_to ret (-1).

Definition sl_component_record (comp : str) : M str :=
  if str_eqb comp (lit ".") then pack_Bs [Z.shiftl 1 1; 0]
  else if str_eqb comp (lit "..") then pack_Bs [Z.shiftl 1 2; 0]
  else if str_eqb comp (lit "/") then pack_Bs [Z.shiftl 1 3; 0]
  else p <- pack_Bs [0; len comp] ;; Ok (p ++ comp).

Fixpoint sl_components_record (comps : list str) : M str :=
  match comps with
  | [] => Ok []
  | comp :: r =>
      a <- sl_component_record comp ;;
      b <- sl_components_record r ;;
      Ok (a ++ b)
  end.

Definition RRSLRecord_record (r : RRSLRecord) : M str :=
  h <- pack_Bs [RRSLRecord_length (symlink_components r); SU_ENTRY_VERSION;
                sl_flags r] ;;
  b <- sl_components_record (symlink_components r) ;;
  Ok (lit "SL" ++ h ++ b).

(** *** NM *)
Record RRNMRecord : Type := mkNM { posix_name_flags : Z; posix_name : str }.

Definition RRNMRecord_length (rr_name : str) : Z := 5 + len rr_name.

Definition RRNMRecord_parse (rrstr : str) : M RRNMRecord :=
  let buf := slice rrstr 2 5 in
  calcsize_check buf 3 ;;;
  let su_len := get_B buf 0 in
  let flags := get_B buf 2 in
  let name_len := su_len - 5 in
  if negb (Z_in (Z.land flags 7) [0; 1; 2; 4])
  then PyIso "Invalid Rock Ridge NM flags"
  else if negb (name_len =? 0) then
    if bit_set flags 1 || bit_set flags 2 || bit_set flags 5
    then PyIso ("Invalid name in Rock Ridge NM entry (0x" ++ fmt_x flags
                ++ " " ++ fmt_d name_len ++ ")")%string
    else Ok (mkNM flags ([] ++ slice rrstr 5 (5 + name_len)))
  else Ok (mkNM flags []).

Definition RRNMRecord_new (rr_name : str) : RRNMRecord := mkNM 0 rr_name.

Definition RRNMRecord_record (r : RRNMRecord) : M str :=
  p <- pack_Bs [RRNMRecord_length (posix_name r); SU_ENTRY_VERSION;
                posix_name_flags r] ;;
  Ok (lit "NM" ++ p ++ posix_name r).

Definition RRNMRecord_set_continued (r : RRNMRecord) : RRNMRecord :=
  mkNM (Z.lor (posix_name_flags r) (Z.shiftl 1 0)) (posix_name r).

(** *** CL *)
Record RRCLRecord : Type := mkCL { child_log_block_num : Z }.

Definition RRCLRecord_length : Z := 12.

Definition RRCLRecord_parse (rrstr : str) : M RRCLRecord :=
  let buf := slice rrstr 2 12 in
  calcsize_check buf 10 ;;;
  let su_len := get_B buf 0 in
  let child_log_block_num_le := get_L buf 2 in
  let child_log_block_num_be := get_L buf 6 in
  if negb (su_len =? RRCLRecord_length)
  then PyIso "Invalid length on rock ridge extension"
  else if negb (child_log_block_num_le =? swab_32bit child_log_block_num_be)
  then PyIso "Little endian block num does not equal big endian; corrupt ISO"
  else Ok (mkCL child_log_block_num_le).

Definition RRCLRecord_new : RRCLRecord := mkCL 0.

Definition RRCLRecord_record (r : RRCLRecord) : M str :=
  h <- pack_Bs [RRCLRecord_length; SU_ENTRY_VERSION] ;;
  b <- pack_Ls [child_log_block_num r; swab_32bit (child_log_block_num r)] ;;
  Ok (lit "CL" ++ h ++ b).

Definition RRCLRecord_set_log_block_num (r : RRCLRecord) (bl : Z)
  : RRCLRecord := mkCL bl.

(** *** PL *)
Record RRPLRecord : Type := mkPL { parent_log_block_num : Z }.

Definition RRPLRecord_length : Z := 12.

Definition RRPLRecord_parse (rrstr : str) : M RRPLRecord :=
  let buf := slice rrstr 2 12 in
  calcsize_check buf 10 ;;;
  let su_len := get_B buf 0 in
  let parent_log_block_num_le := get_L buf 2 in
  let parent_log_block_num_be := get_L buf 6 in
  if negb (su_len =? RRPLRecord_length)
  then PyIso "Invalid length on rock ridge extension"
  else if negb (parent_log_block_num_le =? swab_32bit parent_log_block_num_be)
  then PyIso "Little endian block num does not equal big endian; corrupt ISO"
  else Ok (mkPL parent_log_block_num_le).

Definition RRPLRecord_new : RRPLRecord := mkPL 0.

Definition RRPLRecord_record (r : RRPLRecord) : M str :=
  h <- pack_Bs [RRPLRecord_length; SU_ENTRY_VERSION] ;;
  b <- pack_Ls [parent_log_block_num r; swab_32bit (parent_log_block_num r)] ;;
  Ok (lit "PL" ++ h ++ b).

Definition RRPLRecord_set_log_block_num (r : RRPLRecord) (bl : Z)
  : RRPLRecord := mkPL bl.

(** *** TF *)
Record RRTFRecord : Type := mkTF {
  creation_time : option Date;
  access_time : option Date;
  modification_time : option Date;
  attribute_change_time : option Date;
  backup_time : option Date;
  expiration_time : option Date;
  effective_time : option Date;
  time_flags : Z
}.

Definition RRTFRecord_length (flags : Z) : Z :=
  let tf_each_size := if bit_set flags 7 then 17 else 7 in
  let tf_num :=
    fold_left (fun n i => if bit_set flags i then n + 1 else n)
              [0; 1; 2; 3; 4; 5; 6] 0 in
  5 + tf_each_size * tf_num.

(** One of the seven [if self.time_flags & (1 << i): ...] blocks of
    [RRTFRecord.parse]: the decoded field and the advanced cursor. *)
Definition tf_parse_field (flags i : Z) (t : datetype) (rrstr : str) (tmp : Z)
  : M (option Date * Z) :=
  if bit_set flags i then
    d <- Date_parse t (slice rrstr tmp (tmp + date_size t)) ;;
    Ok (Some d, tmp + date_size t)
  else Ok (None, tmp).

Definition RRTFRecord_parse (rrstr : str) : M RRTFRecord :=
  let buf := slice rrstr 2 5 in
  calcsize_check buf 3 ;;;
  let su_len := get_B buf 0 in
  let flags := get_B buf 2 in
  if su_len <? 5 then PyIso "Not enough bytes in the TF record"
  else
    let t := if bit_set flags 7 then VolumeDescriptorDate
             else DirectoryRecordDate in
    let tmp := 5 in
    f0 <- tf_parse_field flags 0 t rrstr tmp ;;
    f1 <- tf_parse_field flags 1 t rrstr (snd f0) ;;
    f2 <- tf_parse_field flags 2 t rrstr (snd f1) ;;
    f3 <- tf_parse_field flags 3 t rrstr (snd f2) ;;
    f4 <- tf_parse_field flags 4 t rrstr (snd f3) ;;
    f5 <- tf_parse_field flags 5 t rrstr (snd f4) ;;
    f6 <- tf_parse_field flags 6 t rrstr (snd f5) ;;
    Ok (mkTF (fst f0) (fst f1) (fst f2) (fst f3) (fst f4) (fst f5) (fst f6)
             flags).

Definition tf_new_field (now : clock) (flags i : Z) (t : datetype)
  : option Date :=
  if bit_set flags i then Some (Date_new now t) else None.

Definition RRTFRecord_new (now : clock) (flags : Z) : RRTFRecord :=
  let t := if bit_set flags 7 then VolumeDescriptorDate
           else DirectoryRecordDate in
  mkTF (tf_new_field now flags 0 t) (tf_new_field now flags 1 t)
       (tf_new_field now flags 2 t) (tf_new_field now flags 3 t)
       (tf_new_field now flags 4 t) (tf_new_field now flags 5 t)
       (tf_new_field now flags 6 t) flags.

Definition tf_record_field (d : option Date) : str :=
  match d with
  | Some d => Date_record d
  | None => []
  end.

Definition RRTFRecord_record (r : RRTFRecord) : M str :=
  h <- pack_Bs [RRTFRecord_length (time_flags r); SU_ENTRY_VERSION;
                time_flags r] ;;
  Ok (lit "TF" ++ h
      ++ tf_record_field (creation_time r)
      ++ tf_record_field (access_time r)
      ++ tf_record_field (modification_time r)
      ++ tf_record_field (attribute_change_time r)
      ++ tf_record_field (backup_time r)
      ++ tf_record_field (expiration_time r)
      ++ tf_record_field (effective_time r)).

(** *** SF *)
Record RRSFRecord : Type := mkSF {
  virtual_file_size_high : Z;
  virtual_file_size_low : Z;
  table_depth : Z
}.

Definition RRSFRecord_length : Z := 21.

Definition RRSFRecord_parse (rrstr : str) : M RRSFRecord :=
  let buf := slice rrstr 2 21 in
  calcsize_check buf 19 ;;;
  if negb (get_B buf 0 =? RRSFRecord_length)
  then PyIso "Invalid length on rock ridge extension"
  else Ok (mkSF (get_L buf 2) (get_L buf 10) (get_B buf 18)).

Definition RRSFRecord_record (r : RRSFRecord) : M str :=
  h <- pack_Bs [RRSFRecord_length; SU_ENTRY_VERSION] ;;
  b <- pack_Ls [virtual_file_size_high r; swab_32bit (virtual_file_size_high r);
                virtual_file_size_low r; swab_32bit (virtual_file_size_low r)] ;;
  d <- pack_B (table_depth r) ;;
  Ok (lit "SF" ++ h ++ b ++ d).

(** *** RE *)
Record RRRERecord : Type := mkRE { }.

Definition RRRERecord_length : Z := 4.

Definition RRRERecord_parse (rrstr : str) : M RRRERecord :=
  let buf := slice rrstr 2 4 in
  calcsize_check buf 2 ;;;
  if negb (get_B buf 0 =? 4)
  then PyIso "Invalid length on rock ridge extension"
  else Ok mkRE.

Definition RRRERecord_new : RRRERecord := mkRE.

Definition RRRERecord_record (r : RRRERecord) : M str :=
  p <- pack_Bs [RRRERecord_length; SU_ENTRY_VERSION] ;;
  Ok (lit "RE" ++ p).

(** ** The entry aggregator and its continuation *)

(** Modelled from the spec: the directory-record object an entry refers to
    through [child_link] / [parent_link] belongs to the directory-record
    layer, which is not part of the sources at hand.  The entry only reads
    "that object's eventual extent location" from it, by calling its
    [extent_location()]; the object is kept as what that call gives, a
    block number or the exception the call ends with. *)
Record DirectoryRecord : Type := mkDR {
  DirectoryRecord_extent_location : M Z
}.

(** [RockRidgeBase], [RRCERecord] and [RockRidgeContinuation] refer to each
    other: an entry may hold a CE record, which owns a continuation, which is
    an entry with an extent location, an offset and a length of its own
    (inheritance in the source, the embedded [cont_base] here). *)
Inductive RockRidgeBase : Type := mkBase {
  sp_record : option RRSPRecord;
  rr_record : option RRRRRecord;
  ce_record : option RRCERecord;
  px_record : option RRPXRecord;
  er_record : option RRERRecord;
  es_record : option RRESRecord;
  pn_record : option RRPNRecord;
  sl_records : list RRSLRecord;
  nm_record : option RRNMRecord;
  cl_record : option RRCLRecord;
  pl_record : option RRPLRecord;
  tf_record : option RRTFRecord;
  sf_record : option RRSFRecord;
  re_record : option RRRERecord;
  child_link : option DirectoryRecord;
  parent_link : option DirectoryRecord;
  rr_bytes_to_skip : option Z;
  su_entry_version : option Z;
  initialized : bool
}
with RRCERecord : Type := mkCE {
  continuation_entry : option RockRidgeContinuation;
  ce_initialized : bool
}
with RockRidgeContinuation : Type := mkCont {
  cont_base : RockRidgeBase;
  orig_extent_loc : option Z;
  new_extent_loc : option Z;
  continue_offset : Z;
  continue_length : Z
}.

(** Attribute assignment [self.<field> = v]. *)
Definition set_sp_record (v : option RRSPRecord) (e : RockRidgeBase)
  : RockRidgeBase :=
  mkBase v (rr_record e) (ce_record e) (px_record e) (er_record e)
  (es_record e) (pn_record e) (sl_records e) (nm_record e) (cl_record e)
  (pl_record e) (tf_record e) (sf_record e) (re_record e) (child_link e)
  (parent_link e) (rr_bytes_to_skip e) (su_entry_version e) (initialized e).
Definition set_rr_record (v : option RRRRRecord) (e : RockRidgeBase)
  : RockRidgeBase :=
  mkBase (sp_record e) v (ce_record e) (px_record e) (er_record e)
  (es_record e) (pn_record e) (sl_records e) (nm_record e) (cl_record e)
  (pl_record e) (tf_record e) (sf_record e) (re_record e) (child_link e)
  (parent_link e) (rr_bytes_to_skip e) (su_entry_version e) (initialized e).
Definition set_ce_record (v : option RRCERecord) (e : RockRidgeBase)
  : RockRidgeBase :=
  mkBase (sp_record e) (rr_record e) v (px_record e) (er_record e)
  (es_record e) (pn_record e) (sl_records e) (nm_record e) (cl_record e)
  (pl_record e) (tf_record e) (sf_record e) (re_record e) (child_link e)
  (parent_link e) (rr_bytes_to_skip e) (su_entry_version e) (initialized e).
Definition set_px_record (v : option RRPXRecord) (e : RockRidgeBase)
  : RockRidgeBase :=
  mkBase (sp_record e) (rr_record e) (ce_record e) v (er_record e)
  (es_record e) (pn_record e) (sl_records e) (nm_record e) (cl_record e)
  (pl_record e) (tf_record e) (sf_record e) (re_record e) (child_link e)
  (parent_link e) (rr_bytes_to_skip e) (su_entry_version e) (initialized e).
Definition set_er_record (v : option RRERRecord) (e : RockRidgeBase)
  : RockRidgeBase :=
  mkBase (sp_record e) (rr_record e) (ce_record e) (px_record e) v
  (es_record e) (pn_record e) (sl_records e) (nm_record e) (cl_record e)
  (pl_record e) (tf_record e) (sf_record e) (re_record e) (child_link e)
  (parent_link e) (rr_bytes_to_skip e) (su_entry_version e) (initialized e).
Definition set_es_record (v : option RRESRecord) (e : RockRidgeBase)
  : RockRidgeBase :=
  mkBase (sp_record e) (rr_record e) (ce_record e) (px_record e) (er_record
  e) v (pn_record e) (sl_records e) (nm_record e) (cl_record e) (pl_record
  e) (tf_record e) (sf_record e) (re_record e) (child_link e) (parent_link
  e) (rr_bytes_to_skip e) (su_entry_version e) (initialized e).
Definition set_pn_record (v : option RRPNRecord) (e : RockRidgeBase)
  : RockRidgeBase :=
  mkBase (sp_record e) (rr_record e) (ce_record e) (px_record e) (er_record
  e) (es_record e) v (sl_records e) (nm_record e) (cl_record e) (pl_record
  e) (tf_record e) (sf_record e) (re_record e) (child_link e) (parent_link
  e) (rr_bytes_to_skip e) (su_entry_version e) (initialized e).
Definition set_sl_records (v : list RRSLRecord) (e : RockRidgeBase)
  : RockRidgeBase :=
  mkBase (sp_record e) (rr_record e) (ce_record e) (px_record e) (er_record
  e) (es_record e) (pn_record e) v (nm_record e) (cl_record e) (pl_record e)
  (tf_record e) (sf_record e) (re_record e) (child_link e) (parent_link e)
  (rr_bytes_to_skip e) (su_entry_version e) (initialized e).
Definition set_nm_record (v : option RRNMRecord) (e : RockRidgeBase)
  : RockRidgeBase :=
  mkBase (sp_record e) (rr_record e) (ce_record e) (px_record e) (er_record
  e) (es_record e) (pn_record e) (sl_records e) v (cl_record e) (pl_record
  e) (tf_record e) (sf_record e) (re_record e) (child_link e) (parent_link
  e) (rr_bytes_to_skip e) (su_entry_version e) (initialized e).
Definition set_cl_record (v : option RRCLRecord) (e : RockRidgeBase)
  : RockRidgeBase :=
  mkBase (sp_record e) (rr_record e) (ce_record e) (px_record e) (er_record
  e) (es_record e) (pn_record e) (sl_records e) (nm_record e) v (pl_record
  e) (tf_record e) (sf_record e) (re_record e) (child_link e) (parent_link
  e) (rr_bytes_to_skip e) (su_entry_version e) (initialized e).
Definition set_pl_record (v : option RRPLRecord) (e : RockRidgeBase)
  : RockRidgeBase :=
  mkBase (sp_record e) (rr_record e) (ce_record e) (px_record e) (er_record
  e) (es_record e) (pn_record e) (sl_records e) (nm_record e) (cl_record e)
  v (tf_record e) (sf_record e) (re_record e) (child_link e) (parent_link e)
  (rr_bytes_to_skip e) (su_entry_version e) (initialized e).
Definition set_tf_record (v : option RRTFRecord) (e : RockRidgeBase)
  : RockRidgeBase :=
  mkBase (sp_record e) (rr_record e) (ce_record e) (px_record e) (er_record
  e) (es_record e) (pn_record e) (sl_records e) (nm_record e) (cl_record e)
  (pl_record e) v (sf_record e) (re_record e) (child_link e) (parent_link e)
  (rr_bytes_to_skip e) (su_entry_version e) (initialized e).
Definition set_sf_record (v : option RRSFRecord) (e : RockRidgeBase)
  : RockRidgeBase :=
  mkBase (sp_record e) (rr_record e) (ce_record e) (px_record e) (er_record
  e) (es_record e) (pn_record e) (sl_records e) (nm_record e) (cl_record e)
  (pl_record e) (tf_record e) v (re_record e) (child_link e) (parent_link e)
  (rr_bytes_to_skip e) (su_entry_version e) (initialized e).
Definition set_re_record (v : option RRRERecord) (e : RockRidgeBase)
  : RockRidgeBase :=
  mkBase (sp_record e) (rr_record e) (ce_record e) (px_record e) (er_record
  e) (es_record e) (pn_record e) (sl_records e) (nm_record e) (cl_record e)
  (pl_record e) (tf_record e) (sf_record e) v (child_link e) (parent_link e)
  (rr_bytes_to_skip e) (su_entry_version e) (initialized e).
Definition set_child_link (v : option DirectoryRecord) (e : RockRidgeBase)
  : RockRidgeBase :=
  mkBase (sp_record e) (rr_record e) (ce_record e) (px_record e) (er_record
  e) (es_record e) (pn_record e) (sl_records e) (nm_record e) (cl_record e)
  (pl_record e) (tf_record e) (sf_record e) (re_record e) v (parent_link e)
  (rr_bytes_to_skip e) (su_entry_version e) (initialized e).
Definition set_parent_link (v : option DirectoryRecord) (e : RockRidgeBase)
  : RockRidgeBase :=
  mkBase (sp_record e) (rr_record e) (ce_record e) (px_record e) (er_record
  e) (es_record e) (pn_record e) (sl_records e) (nm_record e) (cl_record e)
  (pl_record e) (tf_record e) (sf_record e) (re_record e) (child_link e) v
  (rr_bytes_to_skip e) (su_entry_version e) (initialized e).
Definition set_rr_bytes_to_skip (v : option Z) (e : RockRidgeBase)
  : RockRidgeBase :=
  mkBase (sp_record e) (rr_record e) (ce_record e) (px_record e) (er_record
  e) (es_record e) (pn_record e) (sl_records e) (nm_record e) (cl_record e)
  (pl_record e) (tf_record e) (sf_record e) (re_record e) (child_link e)
  (parent_link e) v (su_entry_version e) (initialized e).
Definition set_su_entry_version (v : option Z) (e : RockRidgeBase)
  : RockRidgeBase :=
  mkBase (sp_record e) (rr_record e) (ce_record e) (px_record e) (er_record
  e) (es_record e) (pn_record e) (sl_records e) (nm_record e) (cl_record e)
  (pl_record e) (tf_record e) (sf_record e) (re_record e) (child_link e)
  (parent_link e) (rr_bytes_to_skip e) v (initialized e).
Definition set_initialized (v : bool) (e : RockRidgeBase)
  : RockRidgeBase :=
  mkBase (sp_record e) (rr_record e) (ce_record e) (px_record e) (er_record
  e) (es_record e) (pn_record e) (sl_records e) (nm_record e) (cl_record e)
  (pl_record e) (tf_record e) (sf_record e) (re_record e) (child_link e)
  (parent_link e) (rr_bytes_to_skip e) (su_entry_version e) v.

(** [RockRidgeBase.__init__] *)
Definition RockRidgeBase_init : RockRidgeBase :=
  mkBase None None None None None None None [] None None None None None None
         None None None None false.

(** [RockRidgeContinuation.__init__] *)
Definition RockRidgeContinuation_init : RockRidgeContinuation :=
  mkCont (set_initialized true (set_su_entry_version (Some 1) RockRidgeBase_init))
         None None 0 0.

Definition RockRidgeContinuation_extent_location (c : RockRidgeContinuation)
  : M Z :=
  match new_extent_loc c, orig_extent_loc c with
  | None, None => PyIso "No extent assigned to Rock Ridge Continuation!"
  | None, Some o => Ok o
  | Some n, _ => Ok n
  end.

Definition RockRidgeContinuation_offset (c : RockRidgeContinuation) : Z :=
  continue_offset c.

Definition RockRidgeContinuation_length (c : RockRidgeContinuation) : Z :=
  continue_length c.

Definition RockRidgeContinuation_increment_length
  (c : RockRidgeContinuation) (length : Z) : RockRidgeContinuation :=
  mkCont (cont_base c) (orig_extent_loc c) (new_extent_loc c)
         (continue_offset c) (continue_length c + length).

(** Assignment to an attribute of the continuation inherited from
    [RockRidgeBase]. *)
Definition cont_update (f : RockRidgeBase -> RockRidgeBase)
  (c : RockRidgeContinuation) : RockRidgeContinuation :=
  mkCont (f (cont_base c)) (orig_extent_loc c) (new_extent_loc c)
         (continue_offset c) (continue_length c).

(** *** CE *)
Definition RRCERecord_length : Z := 28.


Definition RRCERecord_parse (rrstr : str) : M RRCERecord :=
  let buf := slice rrstr 2 28 in
  calcsize_check buf 26 ;;;
  let su_len := get_B buf 0 in
  let bl_cont_area_le := get_L buf 2 in
  let offset_cont_area_le := get_L buf 10 in
  let len_cont_area_le := get_L buf 18 in
  if negb (su_len =? RRCERecord_length)
  then PyIso "Invalid length on rock ridge extension"
  else
    let c := RockRidgeContinuation_init in
    let c := mkCont (cont_base c) (Some bl_cont_area_le) (new_extent_loc c)
                    (continue_offset c) (continue_length c) in
    let c := mkCont (cont_base c) (orig_extent_loc c) (new_extent_loc c)
                    offset_cont_area_le (continue_length c) in
    Ok (mkCE (Some (RockRidgeContinuation_increment_length c len_cont_area_le))
             true).

Definition RRCERecord_new : RRCERecord :=
  mkCE (Some RockRidgeContinuation_init) true.

(** [<ce>.continuation_entry.<...>], a change [g] made to the continuation
    the record owns: an [AttributeError] on [None] when it owns none. *)
Definition ce_update_cont
  (g : RockRidgeContinuation -> RockRidgeContinuation) (ce : RRCERecord)
  : M RRCERecord :=
  c <- getattr (continuation_entry ce) ;;
  Ok (mkCE (Some (g c)) (ce_initialized ce)).

(** [add_record(record_name, obj, length)]: [setattr] on the continuation,
    given here as the assignment it performs, then [increment_length].  The
    method does not ask whether the record is initialized. *)
Definition RRCERecord_add_record (ce : RRCERecord)
  (assign : RockRidgeBase -> RockRidgeBase) (length : Z) : M RRCERecord :=
  ce_update_cont (fun c => RockRidgeContinuation_increment_length
                             (cont_update assign c) length) ce.

Definition RRCERecord_record (ce : RRCERecord) : M str :=
  if negb (ce_initialized ce) then PyIso "CE record not yet initialized!"
  else
    c <- getattr (continuation_entry ce) ;;
    loc <- RockRidgeContinuation_extent_location c ;;
    let offset := RockRidgeContinuation_offset c in
    let cont_len := RockRidgeContinuation_length c in
    h <- pack_Bs [RRCERecord_length; SU_ENTRY_VERSION] ;;
    b <- pack_Ls [loc; swab_32bit loc; offset; swab_32bit offset;
                  cont_len; swab_32bit cont_len] ;;
    Ok (lit "CE" ++ h ++ b).

(** *** [RockRidgeBase._parse] *)

(** The state of the [while True] loop: the entry being filled, the cursor
    and the count of bytes still to be read. *)
Record parse_state : Type := mkPS {
  ps_entry : RockRidgeBase;
  ps_offset : Z;
  ps_left : Z
}.

(** What the [if rtype == ...] chain does in one round: an assignment to
    the entry, or an exception.  An exception may come after the round has
    put a newly created record object in a slot: [Abort (Some slot) x] says
    that the attribute [slot] is left holding such an object, which is not
    initialized, and [Abort None x] that the round changed nothing. *)
Inductive dispatch : Type :=
| Assign (assign : RockRidgeBase -> RockRidgeBase)
| Abort (slot : option string) (x : exn).

(** [self.<slot> = R(); self.<slot>.parse(record[offset:])] *)
Definition decode {R : Type} (slot : string) (parsed : M R)
  (set : option R -> RockRidgeBase -> RockRidgeBase) : dispatch :=
  match parsed with
  | Ok r => Assign (set (Some r))
  | Raise x => Abort (Some slot) x
  end.

(** The [if rtype == ...] chain.  An SL record is decoded first and
    appended to the list second. *)
Definition parse_dispatch (rtype : str) (su_len left : Z) (rest : str)
  (is_first_dir_record_of_root : bool) : dispatch :=
  if str_eqb rtype (lit "SP") then
    if (left <? 7) || negb is_first_dir_record_of_root
    then Abort None (PyIsoException "Invalid SUSP SP record")
    else decode "sp_record" (RRSPRecord_parse rest) set_sp_record
  else if str_eqb rtype (lit "RR") then
    decode "rr_record" (RRRRRecord_parse rest) set_rr_record
  else if str_eqb rtype (lit "CE") then
    decode "ce_record" (RRCERecord_parse rest) set_ce_record
  else if str_eqb rtype (lit "PX") then
    decode "px_record" (RRPXRecord_parse rest) set_px_record
  else if str_eqb rtype (lit "PD") then
    Assign (fun e => e)
  else if str_eqb rtype (lit "ST") then
    if negb (su_len =? 4)
    then Abort None (PyIsoException "Invalid length on rock ridge extension")
    else Assign (fun e => e)
  else if str_eqb rtype (lit "ER") then
    decode "er_record" (RRERRecord_parse rest) set_er_record
  else if str_eqb rtype (lit "ES") then
    decode "es_record" (RRESRecord_parse rest) set_es_record
  else if str_eqb rtype (lit "PN") then
    decode "pn_record" (RRPNRecord_parse rest) set_pn_record
  else if str_eqb rtype (lit "SL") then
    match RRSLRecord_parse rest with
    | Ok r => Assign (fun e => set_sl_records (sl_records e ++ [r]) e)
    | Raise x => Abort None x
    end
  else if str_eqb rtype (lit "NM") then
    decode "nm_record" (RRNMRecord_parse rest) set_nm_record
  else if str_eqb rtype (lit "CL") then
    decode "cl_record" (RRCLRecord_parse rest) set_cl_record
  else if str_eqb rtype (lit "PL") then
    decode "pl_record" (RRPLRecord_parse rest) set_pl_record
  else if str_eqb rtype (lit "RE") then
    decode "re_record" (RRRERecord_parse rest) set_re_record
  else if str_eqb rtype (lit "TF") then
    decode "tf_record" (RRTFRecord_parse rest) set_tf_record
  else if str_eqb rtype (lit "SF") then
    decode "sf_record" (RRSFRecord_parse rest) set_sf_record
  else Abort None (PyIsoException_hexdump "Unknown SUSP record " rtype).

(** What one round of the loop does: leave the loop, raise, or go round
    again.  [Fail e slot x] is the exception [x] raised on the entry [e],
    with [slot] as in [Abort]. *)
Inductive parse_step : Type :=
| Break (e : RockRidgeBase)
| Fail (e : RockRidgeBase) (slot : option string) (x : exn)
| Continue (st : parse_state).

(** The [su_len] byte of the header at the cursor. *)
Definition declared_su_len (record : str) (st : parse_state) : Z :=
  get_B (slice record (ps_offset st) (ps_offset st + 4)) 2.

(** The body of the loop. *)
Definition parse_iter (record : str) (is_first_dir_record_of_root : bool)
  (st : parse_state) : parse_step :=
  let offset := ps_offset st in
  let left := ps_left st in
  let e := ps_entry st in
  if left =? 0 then Break e
  else if left =? 1 then
    match index record offset with
    | Raise x => Fail e None x
    | Ok c =>
        if negb (Ascii.eqb c zero)
        then Fail e None (PyIsoException "Invalid pad byte")
        else Break e
    end
  else if left <? 4
  then Fail e None
            (PyIsoException "Not enough bytes left in the System Use field")
  else
    let hdr := slice record offset (offset + 4) in
    match calcsize_check hdr 4 with
    | Raise x => Fail e None x
    | Ok _ =>
        let rtype := firstn 2 hdr in
        let su_len := get_B hdr 2 in
        let su_entry_version := get_B hdr 3 in
        if negb (su_entry_version =? SU_ENTRY_VERSION)
        then Fail e None
                  (PyIsoException
                     ("Invalid RR version " ++ fmt_d su_entry_version ++ "!"))
        else
          match parse_dispatch rtype su_len left (slice_from record offset)
                               is_first_dir_record_of_root with
          | Abort slot x => Fail e slot x
          | Assign assign =>
              Continue (mkPS (assign e) (offset + su_len) (left - su_len))
          end
    end.

(** How a parse ends: the object is filled in, or an exception is raised
    and the object left as the parse got to make it, [o] and [slot] as in
    [Fail]. *)
Inductive parsed (T : Type) : Type :=
| Parsed (o : T)
| Aborted (o : T) (slot : option string) (x : exn).
Arguments Parsed {T} o.
Arguments Aborted {T} o slot x.

(** The loop itself, for at most [fuel] rounds; [None] when the loop is
    still running after them. *)
Fixpoint parse_loop (fuel : nat) (record : str)
  (is_first_dir_record_of_root : bool) (st : parse_state)
  : option (parsed RockRidgeBase) :=
  match fuel with
  | O => None
  | S fuel' =>
      match parse_iter record is_first_dir_record_of_root st with
      | Break e => Some (Parsed e)
      | Fail e slot x => Some (Aborted e slot x)
      | Continue st' => parse_loop fuel' record is_first_dir_record_of_root st'
      end
  end.

Definition parse_start (self : RockRidgeBase) (record : str)
  (bytes_to_skip : Z) : parse_state :=
  mkPS (set_rr_bytes_to_skip (Some bytes_to_skip) self)
       (0 + bytes_to_skip) (len record).

Definition _parse (fuel : nat) (self : RockRidgeBase) (record : str)
  (bytes_to_skip : Z) (is_first_dir_record_of_root : bool)
  : option (parsed RockRidgeBase) :=
  match parse_loop fuel record is_first_dir_record_of_root
                   (parse_start self record bytes_to_skip) with
  | None => None
  | Some (Aborted e slot x) => Some (Aborted e slot x)
  | Some (Parsed e) =>
      Some (Parsed (set_initialized true (set_su_entry_version (Some 1) e)))
  end.

(** [RockRidge.parse] *)
Definition RockRidge_parse (fuel : nat) (self : RockRidgeBase) (record : str)
  (is_first_dir_record_of_root : bool) (bytes_to_skip : Z)
  : option (parsed RockRidgeBase) :=
  if initialized self
  then Some (Aborted self None
               (PyIsoException "Rock Ridge extension already initialized"))
  else _parse fuel self record bytes_to_skip is_first_dir_record_of_root.

(** [RockRidgeContinuation.parse] *)
Definition RockRidgeContinuation_parse (fuel : nat)
  (self : RockRidgeContinuation) (record : str) (bytes_to_skip : Z)
  : option (parsed RockRidgeContinuation) :=
  let self' e := mkCont e (orig_extent_loc self) None (continue_offset self)
                        (continue_length self) in
  match _parse fuel (cont_base self) record bytes_to_skip false with
  | None => None
  | Some (Aborted e slot x) => Some (Aborted (self' e) slot x)
  | Some (Parsed e) => Some (Parsed (self' e))
  end.

(** *** [RockRidgeBase.record] *)

(** [if self.x_record is not None: ret += self.x_record.record()] *)
Definition append_record {A : Type} (rec : A -> M str) (o : option A)
  (ret : str) : M str :=
  match o with
  | Some r => b <- rec r ;; Ok (ret ++ b)
  | None => Ok ret
  end.

(** [for sl_record in self.sl_records: ret += sl_record.record()] *)
Fixpoint append_records {A : Type} (rec : A -> M str) (l : list A)
  (ret : str) : M str :=
  match l with
  | [] => Ok ret
  | r :: l' => b <- rec r ;; append_records rec l' (ret ++ b)
  end.

Definition RockRidgeBase_record (self : RockRidgeBase) : M str :=
  if negb (initialized self)
  then PyIso "Rock Ridge extension not yet initialized"
  else
    let ret := [] in
    ret <- append_record RRSPRecord_record (sp_record self) ret ;;
    ret <- append_record RRRRRecord_record (rr_record self) ret ;;
    ret <- append_record RRNMRecord_record (nm_record self) ret ;;
    ret <- append_record RRPXRecord_record (px_record self) ret ;;
    ret <- append_records RRSLRecord_record (sl_records self) ret ;;
    ret <- append_record RRTFRecord_record (tf_record self) ret ;;
    ret <- append_record RRCLRecord_record (cl_record self) ret ;;
    ret <- append_record RRPLRecord_record (pl_record self) ret ;;
    ret <- append_record RRRERecord_record (re_record self) ret ;;
    ret <- append_record RRCERecord_record (ce_record self) ret ;;
    ret <- append_record RRERRecord_record (er_record self) ret ;;
    Ok ret.

(** ** [RockRidge.new]: the layout algorithm *)

Definition ALLOWED_DR_SIZE : Z := 254.
Definition TF_FLAGS : Z := 14.
Definition EXT_ID : str := lit "RRIP_1991A".
Definition EXT_DES : str :=
  lit "THE ROCK RIDGE INTERCHANGE PROTOCOL PROVIDES SUPPORT FOR POSIX FILE SYSTEM SEMANTICS".
Definition EXT_SRC : str :=
  lit "PLEASE CONTACT DISC PUBLISHER FOR SPECIFICATION SOURCE.  SEE PUBLISHER IDENTIFIER IN PRIMARY VOLUME DESCRIPTOR FOR CONTACT INFORMATION.".

(** The arguments of [new], and the clock its TF record reads. *)
Record new_args : Type := mkArgs {
  is_first_dir_record_of_root : bool;
  rr_name : option str;
  isdir : bool;
  symlink_path : option str;
  rr_version : string;
  rr_relocated_child : bool;
  rr_relocated : bool;
  rr_relocated_parent : bool;
  curr_dr_len : Z
}.

(** [tmp_dr_len]: the length if every record went into the directory
    record. *)
Definition new_estimate (a : new_args) : Z :=
  let tmp_dr_len := curr_dr_len a in
  let tmp_dr_len := if is_first_dir_record_of_root a
                    then tmp_dr_len + RRSPRecord_length else tmp_dr_len in
  let tmp_dr_len := if String.eqb (rr_version a) "1.09"
                    then tmp_dr_len + RRRRRecord_length else tmp_dr_len in
  let tmp_dr_len := match rr_name a with
                    | Some n => tmp_dr_len + RRNMRecord_length n
                    | None => tmp_dr_len
                    end in
  let tmp_dr_len := tmp_dr_len + RRPXRecord_length in
  let tmp_dr_len := match symlink_path a with
                    | Some p => tmp_dr_len + RRSLRecord_length (split p)
                    | None => tmp_dr_len
                    end in
  let tmp_dr_len := tmp_dr_len + RRTFRecord_length TF_FLAGS in
  let tmp_dr_len := if rr_relocated_child a
                    then tmp_dr_len + RRCLRecord_length else tmp_dr_len in
  let tmp_dr_len := if rr_relocated a
                    then tmp_dr_len + RRRERecord_length else tmp_dr_len in
  let tmp_dr_len := if rr_relocated_parent a
                    then tmp_dr_len + RRPLRecord_length else tmp_dr_len in
  let tmp_dr_len := if is_first_dir_record_of_root a
                    then tmp_dr_len + RRERRecord_length EXT_ID EXT_DES EXT_SRC
                    else tmp_dr_len in
  tmp_dr_len.

(** The entry under construction together with [this_dr_len]. *)
Definition layout : Type := (RockRidgeBase * Z)%type.

(** [self.ce_record.<...>]: an [AttributeError] when there is no CE
    record. *)
Definition update_ce (f : RRCERecord -> M RRCERecord) (e : RockRidgeBase)
  : M RockRidgeBase :=
  match ce_record e with
  | Some ce => ce' <- f ce ;; Ok (set_ce_record (Some ce') e)
  | None => Raise AttributeError
  end.

(** The placement every fixed-length record goes through: into the
    continuation when it would take the directory record over
    [ALLOWED_DR_SIZE], into the entry otherwise. *)
Definition place (assign : RockRidgeBase -> RockRidgeBase) (thislen : Z)
  (st : layout) : M layout :=
  let (e, this_dr_len) := st in
  if ALLOWED_DR_SIZE <? this_dr_len + thislen then
    e' <- update_ce (fun ce => RRCERecord_add_record ce assign thislen) e ;;
    Ok (e', this_dr_len)
  else Ok (assign e, this_dr_len + thislen).

(** [if self.rr_record is not None: self.rr_record.append_field(name)] *)
Definition mark_field (fieldname : string) (st : layout) : M layout :=
  let (e, this_dr_len) := st in
  match rr_record e with
  | Some rr =>
      rr' <- RRRRRecord_append_field rr fieldname ;;
      Ok (set_rr_record (Some rr') e, this_dr_len)
  | None => Ok st
  end.

Definition new_ce (a : new_args) (st : layout) : layout :=
  let (e, this_dr_len) := st in
  if ALLOWED_DR_SIZE <? new_estimate a
  then (set_ce_record (Some RRCERecord_new) e, this_dr_len + RRCERecord_length)
  else st.

Definition new_sp (a : new_args) (st : layout) : M layout :=
  if is_first_dir_record_of_root a
  then place (set_sp_record (Some RRSPRecord_new)) RRSPRecord_length st
  else Ok st.

Definition new_rr (a : new_args) (st : layout) : M layout :=
  if String.eqb (rr_version a) "1.09"
  then place (set_rr_record (Some RRRRRecord_new)) RRRRRecord_length st
  else Ok st.

Definition new_nm (a : new_args) (st : layout) : M layout :=
  match rr_name a with
  | None => Ok st
  | Some name =>
      let (e, this_dr_len) := st in
      st' <-
        (if ALLOWED_DR_SIZE <? this_dr_len + RRNMRecord_length name then
           let len_here := ALLOWED_DR_SIZE - this_dr_len - 5 in
           let here := slice_to name len_here in
           let e := set_nm_record
                      (Some (RRNMRecord_set_continued (RRNMRecord_new here)))
                      e in
           let this_dr_len := this_dr_len + RRNMRecord_length here in
           let there := slice_from name len_here in
           e <- update_ce
                  (fun ce => RRCERecord_add_record ce
                               (set_nm_record (Some (RRNMRecord_new there)))
                               (RRNMRecord_length there)) e ;;
           Ok (e, this_dr_len)
         else
           Ok (set_nm_record (Some (RRNMRecord_new name)) e,
               this_dr_len + RRNMRecord_length name)) ;;
      mark_field "NM" st'
  end.

Definition new_px (a : new_args) (st : layout) : M layout :=
  st <- place (set_px_record (Some (RRPXRecord_new (isdir a) (symlink_path a))))
              RRPXRecord_length st ;;
  mark_field "PX" st.

(** *** The SL stage

    [curr_sl] is an alias of the record object that was last appended to
    [self.sl_records] or to the continuation's [sl_records], and
    [meta_record_len] an alias of [this_dr_len] or of the continuation; the
    two always point to the same side.  The state keeps which side that is
    ([sl_in_cont]) and the object's content ([sl_curr]); a mutation of the
    object is written through to the list that holds it. *)
Record sl_state : Type := mkSLS {
  sl_entry : RockRidgeBase;
  sl_dr_len : Z;
  sl_curr : RRSLRecord;
  sl_in_cont : bool
}.

Definition replace_last {A : Type} (l : list A) (x : A) : list A :=
  removelast l ++ [x].

(** [....continuation_entry.sl_records.append(sl)] *)
Definition cont_append_sl (sl : RRSLRecord) (e : RockRidgeBase)
  : M RockRidgeBase :=
  update_ce (ce_update_cont
               (cont_update
                  (fun b => set_sl_records (sl_records b ++ [sl]) b))) e.

(** [meta_record_len.increment_length(n)] *)
Definition meta_increment (n : Z) (st : sl_state) : M sl_state :=
  if sl_in_cont st then
    e <- update_ce (ce_update_cont
                      (fun c => RockRidgeContinuation_increment_length c n))
                   (sl_entry st) ;;
    Ok (mkSLS e (sl_dr_len st) (sl_curr st) true)
  else Ok (mkSLS (sl_entry st) (sl_dr_len st + n) (sl_curr st) false).

(** [curr_sl.add_component(comp)], seen through the list holding the
    object. *)
Definition curr_add_component (comp : str) (st : sl_state) : M sl_state :=
  sl <- RRSLRecord_add_component (sl_curr st) comp ;;
  if sl_in_cont st then
    e <- update_ce (ce_update_cont
                      (cont_update
                         (fun b => set_sl_records
                                     (replace_last (sl_records b) sl) b)))
                   (sl_entry st) ;;
    Ok (mkSLS e (sl_dr_len st) sl true)
  else
    Ok (mkSLS (set_sl_records (replace_last (sl_records (sl_entry st)) sl)
                              (sl_entry st))
              (sl_dr_len st) sl false).

(** A fresh SL record for [rest], appended to the continuation, which
    becomes the side both aliases point to. *)
Definition curr_move_to_cont (rest : str) (st : sl_state) : M sl_state :=
  let sl := RRSLRecord_new (Some rest) in
  e <- cont_append_sl sl (sl_entry st) ;;
  meta_increment (5 + RRSLRecord_component_length rest)
                 (mkSLS e (sl_dr_len st) sl true).

(** The body of [for comp in symlink_path.split('/')]. *)
Definition new_sl_comp (comp : str) (st : sl_state) : M sl_state :=
  if RRSLRecord_current_length (sl_curr st) + 2 + len comp <? 255 then
    st <- curr_add_component comp st ;;
    meta_increment (RRSLRecord_component_length comp) st
  else if RRSLRecord_current_length (sl_curr st) + 2 + 1 <? 255 then
    let len_here := 255 - RRSLRecord_current_length (sl_curr st) - 2 in
    st <- curr_add_component (slice_to comp len_here) st ;;
    st <- meta_increment
            (RRSLRecord_component_length (slice_to comp len_here)) st ;;
    curr_move_to_cont (slice_from comp len_here) st
  else
    curr_move_to_cont comp st.

Fixpoint new_sl_comps (comps : list str) (st : sl_state) : M sl_state :=
  match comps with
  | [] => Ok st
  | comp :: r => st <- new_sl_comp comp st ;; new_sl_comps r st
  end.

Definition new_sl (a : new_args) (st : layout) : M layout :=
  match symlink_path a with
  | None => Ok st
  | Some path =>
      let (e, this_dr_len) := st in
      let curr_sl := RRSLRecord_new None in
      st <-
        (if this_dr_len + 5 + 2 + 1 <? ALLOWED_DR_SIZE then
           Ok (mkSLS (set_sl_records (sl_records e ++ [curr_sl]) e)
                     this_dr_len curr_sl false)
         else
           e <- cont_append_sl curr_sl e ;;
           Ok (mkSLS e this_dr_len curr_sl true)) ;;
      st <- meta_increment 5 st ;;
      st <- new_sl_comps (split path) st ;;
      mark_field "SL" (sl_entry st, sl_dr_len st)
  end.

Definition new_tf (now : clock) (st : layout) : M layout :=
  st <- place (set_tf_record (Some (RRTFRecord_new now TF_FLAGS)))
              (RRTFRecord_length TF_FLAGS) st ;;
  mark_field "TF" st.

Definition new_cl (a : new_args) (st : layout) : M layout :=
  if rr_relocated_child a
  then place (set_cl_record (Some RRCLRecord_new)) RRCLRecord_length st
  else Ok st.

Definition new_re (a : new_args) (st : layout) : M layout :=
  if rr_relocated a
  then place (set_re_record (Some RRRERecord_new)) RRRERecord_length st
  else Ok st.

Definition new_pl (a : new_args) (st : layout) : M layout :=
  if rr_relocated_parent a
  then place (set_pl_record (Some RRPLRecord_new)) RRPLRecord_length st
  else Ok st.

Definition new_er (a : new_args) (st : layout) : M layout :=
  if is_first_dir_record_of_root a
  then place (set_er_record (Some (RRERRecord_new EXT_ID EXT_DES EXT_SRC)))
             (RRERRecord_length EXT_ID EXT_DES EXT_SRC) st
  else Ok st.

(** [new] up to, and without, the closing
    [this_dr_len.increment_length(this_dr_len.length() % 2)]. *)
Definition RockRidge_new_layout (now : clock) (self : RockRidgeBase)
  (a : new_args) : M layout :=
  if initialized self
  then PyIso "Rock Ridge extension already initialized"
  else if negb (String.eqb (rr_version a) "1.09")
          && negb (String.eqb (rr_version a) "1.12")
  then PyIso "Only Rock Ridge versions 1.09 and 1.12 are implemented"
  else
    let self := set_su_entry_version (Some 1) self in
    let st := new_ce a (self, curr_dr_len a) in
    st <- new_sp a st ;;
    st <- new_rr a st ;;
    st <- new_nm a st ;;
    st <- new_px a st ;;
    st <- new_sl a st ;;
    st <- new_tf now st ;;
    st <- new_cl a st ;;
    st <- new_re a st ;;
    st <- new_pl a st ;;
    st <- new_er a st ;;
    Ok (set_initialized true (fst st), snd st).

(** [RockRidge.new]: the entry and the returned directory-record length. *)
Definition RockRidge_new (now : clock) (self : RockRidgeBase) (a : new_args)
  : M layout :=
  st <- RockRidge_new_layout now self a ;;
  Ok (fst st, snd st + snd st mod 2).

(** ** Query and mutation API *)

Definition not_initialized {A : Type} : M A :=
  PyIso "Rock Ridge extension not yet initialized".

Definition RockRidge_name (self : RockRidgeBase) : M str :=
  if negb (initialized self) then not_initialized
  else
    let ret := [] in
    let ret := match nm_record self with
               | Some nm => ret ++ posix_name nm
               | None => ret
               end in
    match ce_record self with
    | Some ce =>
        c <- getattr (continuation_entry ce) ;;
        match nm_record (cont_base c) with
        | Some nm => Ok (ret ++ posix_name nm)
        | None => Ok ret
        end
    | None => Ok ret
    end.

Definition is_nil {A : Type} (l : list A) : bool :=
  match l with [] => true | _ => false end.

Definition RockRidge_is_symlink (self : RockRidgeBase) : M bool :=
  if negb (initialized self) then not_initialized
  else if negb (is_nil (sl_records self)) then Ok true
  else match ce_record self with
       | Some ce =>
           c <- getattr (continuation_entry ce) ;;
           if negb (is_nil (sl_records (cont_base c)))
           then Ok true else Ok false
       | None => Ok false
       end.

(** [for rec in ...: recstr = str(rec); ret += recstr;
     if recstr != "/": ret += "/"] *)
Definition join_sl_records (recs : list RRSLRecord) (ret : str) : str :=
  fold_left (fun ret rec =>
               let recstr := RRSLRecord_str rec in
               let ret := ret ++ recstr in
               if negb (str_eqb recstr (lit "/")) then ret ++ lit "/" else ret)
            recs ret.

(** [self.ce_record is not None and
     not self.ce_record.continuation_entry.sl_records] *)
Definition cont_lacks_sl (self : RockRidgeBase) : M bool :=
  match ce_record self with
  | Some ce =>
      c <- getattr (continuation_entry ce) ;;
      Ok (is_nil (sl_records (cont_base c)))
  | None => Ok false
  end.

Definition RockRidge_symlink_path (self : RockRidgeBase) : M str :=
  if negb (initialized self) then not_initialized
  else
    not_a_symlink <- (if is_nil (sl_records self) then Ok true
                      else cont_lacks_sl self) ;;
    if not_a_symlink
    then PyIso "Entry is not a symlink!"
    else
      let ret := join_sl_records (sl_records self) [] in
      match ce_record self with
      | Some ce =>
          c <- getattr (continuation_entry ce) ;;
          Ok (slice_to (join_sl_records (sl_records (cont_base c)) ret) (-1))
      | None => Ok (slice_to ret (-1))
      end.

Definition RockRidge_has_child_link_record (self : RockRidgeBase) : M bool :=
  if negb (initialized self) then not_initialized
  else
    let ret := match cl_record self with Some _ => true | None => false end in
    match ce_record self with
    | Some ce =>
        if ret then Ok true
        else
          c <- getattr (continuation_entry ce) ;;
          Ok (match cl_record (cont_base c) with
              | Some _ => true
              | None => false
              end)
    | None => Ok ret
    end.

Definition RockRidge_update_child_link (self : RockRidgeBase)
  : M RockRidgeBase :=
  if negb (initialized self) then not_initialized
  else
    match child_link self with
    | None => PyIso "No child link found!"
    | Some link =>
        match cl_record self with
        | Some cl =>
            bl <- DirectoryRecord_extent_location link ;;
            Ok (set_cl_record (Some (RRCLRecord_set_log_block_num cl bl)) self)
        | None =>
            match ce_record self with
            | Some ce =>
                c <- getattr (continuation_entry ce) ;;
                match cl_record (cont_base c) with
                | Some cl =>
                    bl <- DirectoryRecord_extent_location link ;;
                    Ok (set_ce_record
                          (Some (mkCE
                                   (Some (cont_update
                                            (set_cl_record
                                               (Some (RRCLRecord_set_log_block_num
                                                        cl bl)))
                                            c))
                                   (ce_initialized ce)))
                          self)
                | None => PyIso "Could not find child link record!"
                end
            | None => PyIso "Could not find child link record!"
            end
        end
    end.

Definition RockRidge_child_link_block_num (self : RockRidgeBase) : M Z :=
  if negb (initialized self) then not_initialized
  else
    match cl_record self with
    | Some cl => Ok (child_log_block_num cl)
    | None =>
        match ce_record self with
        | Some ce =>
            c <- getattr (continuation_entry ce) ;;
            match cl_record (cont_base c) with
            | Some cl => Ok (child_log_block_num cl)
            | None => PyIso "This RR record has no child link record"
            end
        | None => PyIso "This RR record has no child link record"
        end
    end.

(** *** File links *)

(** [<px>.posix_file_links = f(<px>.posix_file_links)] *)
Definition px_update_links (f : Z -> Z) (px : RRPXRecord) : RRPXRecord :=
  mkPX (posix_file_mode px) (f (posix_file_links px)) (posix_user_id px)
       (posix_group_id px) (posix_serial_number px).

(** The assignment the three file-link methods end with: to the PX record
    of the entry when it has one, to that of the continuation otherwise.
    Without a CE record the methods raise; a CE record without a
    continuation and a continuation without a PX record each give an
    [AttributeError] on [None]. *)
Definition update_file_links (f : Z -> Z) (self : RockRidgeBase)
  : M RockRidgeBase :=
  match px_record self with
  | None =>
      match ce_record self with
      | None => PyIso "No Rock Ridge file links and no continuation entry"
      | Some ce =>
          c <- getattr (continuation_entry ce) ;;
          px <- getattr (px_record (cont_base c)) ;;
          Ok (set_ce_record
                (Some (mkCE
                         (Some (cont_update
                                  (set_px_record (Some (px_update_links f px)))
                                  c))
                         (ce_initialized ce)))
                self)
      end
  | Some px => Ok (set_px_record (Some (px_update_links f px)) self)
  end.

Definition RockRidge_add_to_file_links (self : RockRidgeBase)
  : M RockRidgeBase :=
  if negb (initialized self) then not_initialized
  else update_file_links (fun n => n + 1) self.

Definition RockRidge_remove_from_file_links (self : RockRidgeBase)
  : M RockRidgeBase :=
  if negb (initialized self) then not_initialized
  else update_file_links (fun n => n - 1) self.

(** The first half of [copy_file_links]: the link count of [src]. *)
Definition src_file_links (src : RockRidgeBase) : M Z :=
  match px_record src with
  | None =>
      match ce_record src with
      | None => PyIso "No Rock Ridge file links and no continuation entry"
      | Some ce =>
          c <- getattr (continuation_entry ce) ;;
          px <- getattr (px_record (cont_base c)) ;;
          Ok (posix_file_links px)
      end
  | Some px => Ok (posix_file_links px)
  end.

Definition RockRidge_copy_file_links (self src : RockRidgeBase)
  : M RockRidgeBase :=
  if negb (initialized self) then not_initialized
  else
    num_links <- src_file_links src ;;
    update_file_links (fun _ => num_links) self.

(** *** Relocation *)

Definition RockRidge_relocated_record (self : RockRidgeBase) : M bool :=
  if negb (initialized self) then not_initialized
  else
    let ret := match re_record self with Some _ => true | None => false end in
    match ce_record self with
    | Some ce =>
        if ret then Ok true
        else
          c <- getattr (continuation_entry ce) ;;
          Ok (match re_record (cont_base c) with
              | Some _ => true
              | None => false
              end)
    | None => Ok ret
    end.

Definition RockRidge_update_parent_link (self : RockRidgeBase)
  : M RockRidgeBase :=
  if negb (initialized self) then not_initialized
  else
    match parent_link self with
    | None => PyIso "No parent link found!"
    | Some link =>
        match pl_record self with
        | Some pl =>
            bl <- DirectoryRecord_extent_location link ;;
            Ok (set_pl_record (Some (RRPLRecord_set_log_block_num pl bl)) self)
        | None =>
            match ce_record self with
            | Some ce =>
                c <- getattr (continuation_entry ce) ;;
                match pl_record (cont_base c) with
                | Some pl =>
                    bl <- DirectoryRecord_extent_location link ;;
                    Ok (set_ce_record
                          (Some (mkCE
                                   (Some (cont_update
                                            (set_pl_record
                                               (Some (RRPLRecord_set_log_block_num
                                                        pl bl)))
                                            c))
                                   (ce_initialized ce)))
                          self)
                | None => PyIso "Could not find parent link record!"
                end
            | None => PyIso "Could not find parent link record!"
            end
        end
    end.

(** * Vocabulary of the properties

    Observations of entries, validity of record values, and the inputs the
    properties below are stated and evaluated on. *)

(** The big-endian bytes of a 32-bit value. *)
Definition be32 (x : Z) : str := rev (le32 x).

(** The bytes a slot contributes: the record's encoding when the slot is
    filled, nothing when it is [None]. *)
Definition slot_bytes {A : Type} (rec : A -> M str) (o : option A) : M str :=
  match o with
  | Some r => rec r
  | None => Ok []
  end.

(** An entry whose slots were assigned ER first, then PX, then NM. *)
Definition entry_er_px_nm : RockRidgeBase :=
  set_initialized true
    (set_nm_record (Some (RRNMRecord_new (lit "foo")))
       (set_px_record (Some (RRPXRecord_new false None))
          (set_er_record (Some (RRERRecord_new (lit "A") (lit "B") (lit "C")))
             RockRidgeBase_init))).

(** Every update [new] makes to a CE record has this shape: an assignment
    [g] to the slots of the continuation it owns, and a new length. *)
Definition ce_step (g : RockRidgeBase -> RockRidgeBase) (length : Z)
  (ce : RRCERecord) : RRCERecord :=
  mkCE (option_map
          (fun c => mkCont (g (cont_base c)) (orig_extent_loc c)
                           (new_extent_loc c) (continue_offset c) length)
          (continuation_entry ce))
       (ce_initialized ce).

(** The continuation of the entry, as the entry it is: what
    [self.ce_record.continuation_entry] gives when there is a CE record and
    the record owns a continuation. *)
Definition continuation (e : RockRidgeBase) : option RockRidgeBase :=
  match ce_record e with
  | Some ce => option_map cont_base (continuation_entry ce)
  | None => None
  end.

(** The CE record of the entry, when it has one, owns a continuation: the
    record was initialized, by [parse] or by [new]. *)
Definition ce_owns (e : RockRidgeBase) : bool :=
  match ce_record e with
  | Some ce =>
      match continuation_entry ce with Some _ => true | None => false end
  | None => true
  end.

(** [proj] is the same after the assignment [f], made to the entry or to
    its continuation. *)
Definition safe {T : Type} (proj : RockRidgeBase -> T)
  (f : RockRidgeBase -> RockRidgeBase) : Prop :=
  (forall e, proj (f e) = proj e)
  /\ (forall e ce length, ce_record e = Some ce ->
        proj (set_ce_record (Some (ce_step f length ce)) e) = proj e).

(** The stages of [new] one after the other: the layout after each. *)
Record new_trace : Type := mkTrace {
  t_ce : layout; t_sp : layout; t_rr : layout; t_nm : layout;
  t_px : layout; t_sl : layout; t_tf : layout; t_cl : layout;
  t_re : layout; t_pl : layout; t_er : layout
}.

Definition trace_of (now : clock) (a : new_args) (t : new_trace) : Prop :=
  new_sp a (t_ce t) = Ok (t_sp t)
  /\ new_rr a (t_sp t) = Ok (t_rr t)
  /\ new_nm a (t_rr t) = Ok (t_nm t)
  /\ new_px a (t_nm t) = Ok (t_px t)
  /\ new_sl a (t_px t) = Ok (t_sl t)
  /\ new_tf now (t_sl t) = Ok (t_tf t)
  /\ new_cl a (t_tf t) = Ok (t_cl t)
  /\ new_re a (t_cl t) = Ok (t_re t)
  /\ new_pl a (t_re t) = Ok (t_pl t)
  /\ new_er a (t_pl t) = Ok (t_er t).

(** An observation no slot assignment of a run of stages changes is the
    same after the run: the stages up to TF, and the stages after CL. *)
Definition prelude_safe {T : Type} (proj : RockRidgeBase -> T) : Prop :=
  (forall v, safe proj (set_sp_record v))
  /\ (forall v, safe proj (set_rr_record v))
  /\ (forall v, safe proj (set_nm_record v))
  /\ (forall v, safe proj (set_px_record v))
  /\ (forall F, safe proj (fun b => set_sl_records (F b) b))
  /\ safe proj (fun b => b)
  /\ (forall v, safe proj (set_tf_record v)).

Definition coda_safe {T : Type} (proj : RockRidgeBase -> T) : Prop :=
  (forall v, safe proj (set_re_record v))
  /\ (forall v, safe proj (set_pl_record v))
  /\ (forall v, safe proj (set_er_record v)).

(** The block number [child_link_block_num()] looks for: that of the CL
    record of the entry or, failing that, of its continuation. *)
Definition cl_view (e : RockRidgeBase) : option Z :=
  match cl_record e with
  | Some cl => Some (child_log_block_num cl)
  | None =>
      match continuation e with
      | Some c => option_map child_log_block_num (cl_record c)
      | None => None
      end
  end.

(** The clock used in the examples: every timestamp is a run of zero
    bytes. *)
Definition epoch : clock := fun t => repeat zero (Z.to_nat (date_size t)).

Definition args_relocated_child : new_args :=
  mkArgs false (Some (lit "foo")) true None "1.09" true false false 34.

(** Running [new] on a fresh entry: the returned entry and length. *)
Definition new_fresh (a : new_args) : M layout :=
  RockRidge_new epoch RockRidgeBase_init a.

(** The running directory-record length before the closing padding. *)
Definition new_fresh_length (a : new_args) : M Z :=
  st <- RockRidge_new_layout epoch RockRidgeBase_init a ;; Ok (snd st).

Definition has_ce (e : RockRidgeBase) : bool :=
  match ce_record e with Some _ => true | None => false end.

(** A symlink to a single 200-byte component, for a file named "foo" whose
    directory record is 40 bytes long so far. *)
Definition args_long_symlink : new_args :=
  mkArgs false (Some (lit "foo")) false (Some (repeat "a"%char 200)) "1.09"
         false false false 40.

Definition args_v112 : new_args :=
  mkArgs false (Some (lit "foo")) false None "1.12" false false false 34.

Definition args_split_symlink : new_args :=
  mkArgs false None false (Some (repeat "a"%char 300)) "1.09"
         false false false 34.

(** A 150-byte name and the symlink target "foo": PX and TF go to the
    continuation, the SL record stays in the entry. *)
Definition args_symlink_inline : new_args :=
  mkArgs false (Some (repeat "n"%char 150)) false (Some (lit "foo")) "1.09"
         false false false 34.

(** A 200-byte name and the symlink target "foo": the name fills the
    directory record and the SL record goes to the continuation. *)
Definition args_symlink_in_cont : new_args :=
  mkArgs false (Some (repeat "n"%char 200)) false (Some (lit "foo")) "1.09"
         false false false 34.

(** The loop states a run of [_parse] goes through. *)
Inductive parse_reach (record : str) (flag : bool) (s0 : parse_state)
  : parse_state -> Prop :=
| reach_start : parse_reach record flag s0 s0
| reach_round st st' :
    parse_reach record flag s0 st ->
    parse_iter record flag st = Continue st' ->
    parse_reach record flag s0 st'.

(** A padding record that declares length 0. *)
Definition pd_zero_len : str := lit "PD" ++ [chr 0; chr 1].

(** A single RR record with no flag set. *)
Definition rr_only : str := lit "RR" ++ [chr 5; chr 1; chr 0].

(** A 32-bit field as the records carry it: the value little-endian, then
    its byte-swapped, big-endian copy. *)
Definition dual (x : Z) : str := le32 x ++ be32 x.

(** The two copies of the block number in the bytes handed to
    [RRCLRecord.parse] / [RRPLRecord.parse]. *)
Definition link_le (rrstr : str) : Z := get_L (slice rrstr 2 12) 2.
Definition link_be (rrstr : str) : Z := get_L (slice rrstr 2 12) 6.

(** A CL record whose second copy of the block number repeats the
    little-endian bytes instead of swapping them. *)
Definition cl_unswapped : str := lit "CL" ++ map chr [12; 1] ++ le32 5 ++ le32 5.

(** Records of the other four kinds in which the second copy of the first
    dual-endian field repeats the little-endian bytes of the value 5. *)
Definition px_unswapped : str :=
  lit "PX" ++ map chr [36; 1] ++ le32 5 ++ le32 5 ++ repeat zero 24.
Definition pn_unswapped : str :=
  lit "PN" ++ map chr [20; 1] ++ le32 5 ++ le32 5 ++ repeat zero 8.
Definition ce_unswapped : str :=
  lit "CE" ++ map chr [28; 1] ++ le32 5 ++ le32 5 ++ repeat zero 16.
Definition sf_unswapped : str :=
  lit "SF" ++ map chr [21; 1] ++ le32 5 ++ le32 5 ++ repeat zero 9.

Definition is_byte (x : Z) : Prop := 0 <= x < 256.
Definition is_u32 (x : Z) : Prop := 0 <= x < 4294967296.

(** The CE record as its decoder builds it: a continuation with nothing in
    it yet, known by its extent of origin, its offset and its length. *)
Definition ce_pointer (loc offset length : Z) : RRCERecord :=
  mkCE (Some (mkCont (cont_base RockRidgeContinuation_init) (Some loc) None
                     offset length))
       true.

Definition valid_NM (r : RRNMRecord) : Prop :=
  is_byte (posix_name_flags r)
  /\ Z_in (Z.land (posix_name_flags r) 7) [0; 1; 2; 4] = true
  /\ (posix_name r <> [] ->
      bit_set (posix_name_flags r) 1 || bit_set (posix_name_flags r) 2
      || bit_set (posix_name_flags r) 5 = false)
  /\ RRNMRecord_length (posix_name r) <= 255.

Definition valid_ER (r : RRERRecord) : Prop :=
  RRERRecord_length (ext_id r) (ext_des r) (ext_src r) <= 255.

Definition tf_datetype (flags : Z) : datetype :=
  if bit_set flags 7 then VolumeDescriptorDate else DirectoryRecordDate.

Definition valid_date (t : datetype) (d : Date) : Prop :=
  date_type d = t /\ len (date_raw d) = date_size t.

(** The timestamp is there exactly when its flag bit is set. *)
Definition valid_tf_field (flags i : Z) (o : option Date) : Prop :=
  if bit_set flags i
  then exists d, o = Some d /\ valid_date (tf_datetype flags) d
  else o = None.

Definition valid_TF (r : RRTFRecord) : Prop :=
  is_byte (time_flags r)
  /\ valid_tf_field (time_flags r) 0 (creation_time r)
  /\ valid_tf_field (time_flags r) 1 (access_time r)
  /\ valid_tf_field (time_flags r) 2 (modification_time r)
  /\ valid_tf_field (time_flags r) 3 (attribute_change_time r)
  /\ valid_tf_field (time_flags r) 4 (backup_time r)
  /\ valid_tf_field (time_flags r) 5 (expiration_time r)
  /\ valid_tf_field (time_flags r) 6 (effective_time r).

Definition sl_special_flag (f : Z) : str :=
  if bit_set f 1 then lit "."
  else if bit_set f 2 then lit ".."
  else lit "/".

Definition valid_SL (r : RRSLRecord) : Prop :=
  is_byte (sl_flags r) /\ RRSLRecord_length (symlink_components r) <= 255.

(** [v] encodes, and decoding the encoding gives [v] back, whether the
    decoder is handed the record alone or, as [_parse] does, the record and
    whatever follows it in the System Use area. *)
Definition round_trips {A : Type} (record : A -> M str) (parse : str -> M A)
  (v : A) : Prop :=
  exists b, record v = Ok b
            /\ parse b = Ok v
            /\ forall rest, parse (b ++ rest) = Ok v.

Definition valid_PX (r : RRPXRecord) : Prop :=
  is_u32 (posix_file_mode r) /\ is_u32 (posix_file_links r)
  /\ is_u32 (posix_user_id r) /\ is_u32 (posix_group_id r).

(** The symlink record of the target "../a/./b" and the first half of a
    split name. *)
Definition sl_example : RRSLRecord :=
  mkSL [lit ".."; lit "a"; lit "."; lit "b"] 0.
Definition nm_example : RRNMRecord :=
  RRNMRecord_set_continued (RRNMRecord_new (lit "foo")).

(** A CE record as [new] creates it, once the allocator has given its
    continuation the extent 30 and a PX record has been placed in it. *)
Definition ce_allocated : RRCERecord :=
  mkCE (Some (mkCont (set_px_record (Some (RRPXRecord_new false None))
                                    (cont_base RockRidgeContinuation_init))
                     None (Some 30) 0 36))
       true.

(** The header the loop of [_parse] reads at the cursor of [st], when the
    state lets it read one: the tag, the declared length and the version. *)
Definition header_at (record : str) (st : parse_state)
  : option (str * Z * Z) :=
  let hdr := slice record (ps_offset st) (ps_offset st + 4) in
  if (4 <=? ps_left st) && (len hdr =? 4)
  then Some (firstn 2 hdr, get_B hdr 2, get_B hdr 3)
  else None.

(** The tags [_parse] dispatches on. *)
Definition known_tags : list str :=
  map lit ["SP"; "RR"; "CE"; "PX"; "PD"; "ST"; "ER"; "ES"; "PN"; "SL"; "NM";
           "CL"; "PL"; "RE"; "TF"; "SF"]%string.

(** [_parse] raises [x] when given enough rounds. *)
Definition parse_raises (self : RockRidgeBase) (record : str)
  (bytes_to_skip : Z) (flag : bool) (x : exn) : Prop :=
  exists fuel e slot,
    _parse fuel self record bytes_to_skip flag = Some (Aborted e slot x).

Definition zz_record : str := lit "ZZ" ++ [chr 4; chr 1].
Definition rr_version_2 : str := lit "RR" ++ [chr 5; chr 2; chr 0].
Definition sp_wellformed : str := lit "SP" ++ map chr [7; 1; 190; 239; 0].
Definition pd_overshoot : str := lit "PD" ++ [chr 10; chr 1].

(** A five-byte NM record that names the current directory: flags 2, no
    name bytes. *)
Definition nm_current_dir : str := lit "NM" ++ map chr [5; 1; 2].

(** A component record of an SL record as it is on the volume: whether it
    is marked as continued (flag bit 0), and its bytes. *)
Definition sl_piece : Type := (bool * str)%type.

Definition sl_piece_bytes (p : sl_piece) : str :=
  [chr (if fst p then 1 else 0); chr (len (snd p))] ++ snd p.

(** What [RRSLRecord.parse] makes of a run of such component records, with
    [name] gathered so far: a piece marked as continued is joined to the
    next one, and what is still gathered when the run ends is dropped. *)
Fixpoint sl_merge (pieces : list sl_piece) (name : str) : list str :=
  match pieces with
  | [] => []
  | (continued, p) :: r =>
      if continued then sl_merge r (name ++ p)
      else (name ++ p) :: sl_merge r []
  end.

Definition sl_pieces_record (flags : Z) (pieces : list sl_piece) : str :=
  lit "SL"
  ++ map chr [5 + len (concat (map sl_piece_bytes pieces)); 1; flags]
  ++ concat (map sl_piece_bytes pieces).

(** An SL record whose only component record has flags 3: continued and
    current directory at once. *)
Definition sl_bad_flags : str := lit "SL" ++ map chr [7; 1; 0; 3; 0].

(** An entry with a PX record only in its continuation, as [new] leaves it
    for a long name. *)
Definition entry_px_in_cont : RockRidgeBase :=
  set_initialized true
    (set_ce_record
       (Some (ce_step (set_px_record (Some (RRPXRecord_new false None))) 36
                      RRCERecord_new))
       RockRidgeBase_init).

(** An entry with a CE record and an empty continuation, and no PX record
    in either. *)
Definition entry_cont_no_px : RockRidgeBase :=
  set_initialized true (set_ce_record (Some RRCERecord_new) RockRidgeBase_init).

(** The two NM slots [name()] reads: that of the entry and that of its
    continuation. *)
Definition nm_slots (e : RockRidgeBase)
  : option RRNMRecord * option RRNMRecord :=
  (nm_record e,
   match continuation e with
   | Some c => nm_record c
   | None => None
   end).

Definition slot_name (o : option RRNMRecord) : str :=
  match o with Some nm => posix_name nm | None => [] end.

(** A 300-byte name for a file whose directory record is 34 bytes so far:
    the name is split between the entry and the continuation. *)
Definition args_long_name : new_args :=
  mkArgs false (Some (repeat "n"%char 100 ++ repeat "m"%char 200)) false None
         "1.09" false false false 34.

(** Whether a CL record, and whether an RE record, is held by the entry or
    by its continuation. *)
Definition holds_cl (e : RockRidgeBase) : bool * bool :=
  (match cl_record e with Some _ => true | None => false end,
   match continuation e with
   | Some c => match cl_record c with Some _ => true | None => false end
   | None => false
   end).

Definition holds_re (e : RockRidgeBase) : bool * bool :=
  (match re_record e with Some _ => true | None => false end,
   match continuation e with
   | Some c => match re_record c with Some _ => true | None => false end
   | None => false
   end).

(** A relocated directory whose directory record is 250 bytes long so far:
    every record but the CE record goes to the continuation. *)
Definition args_relocated_full : new_args :=
  mkArgs false (Some (lit "dir")) true None "1.09" true true false 250.

(** Whether the entry or its continuation holds an SL record: what
    [is_symlink()] looks at. *)
Definition cont_has_sl (e : RockRidgeBase) : bool :=
  match continuation e with
  | Some c => negb (is_nil (sl_records c))
  | None => false
  end.

Definition has_sl (e : RockRidgeBase) : bool :=
  negb (is_nil (sl_records e)) || cont_has_sl e.

(** A symlink whose only component is cut in two: the first SL record is in
    the entry, the second in the continuation. *)
Definition args_symlink_cut : new_args :=
  mkArgs false None false (Some (repeat "a"%char 300)) "1.09"
         false false false 34.

(** The entry [new] builds when no continuation is needed: every record
    sits in the entry itself, the symlink in one SL record. *)
Definition rr_inline (a : new_args) : option RRRRRecord :=
  if String.eqb (rr_version a) "1.09" then
    let f := 0 in
    let f := match rr_name a with
             | Some _ => Z.lor f (Z.shiftl 1 3)
             | None => f
             end in
    let f := Z.lor f (Z.shiftl 1 0) in
    let f := match symlink_path a with
             | Some _ => Z.lor f (Z.shiftl 1 2)
             | None => f
             end in
    Some (mkRRf (Z.lor f (Z.shiftl 1 7)))
  else None.

Definition entry_inline (now : clock) (a : new_args) : RockRidgeBase :=
  mkBase (if is_first_dir_record_of_root a then Some RRSPRecord_new else None)
         (rr_inline a)
         None
         (Some (RRPXRecord_new (isdir a) (symlink_path a)))
         (if is_first_dir_record_of_root a
          then Some (RRERRecord_new EXT_ID EXT_DES EXT_SRC) else None)
         None None
         (match symlink_path a with
          | Some p => [RRSLRecord_new (Some p)]
          | None => []
          end)
         (option_map RRNMRecord_new (rr_name a))
         (if rr_relocated_child a then Some RRCLRecord_new else None)
         (if rr_relocated_parent a then Some RRPLRecord_new else None)
         (Some (RRTFRecord_new now TF_FLAGS))
         None
         (if rr_relocated a then Some RRRERecord_new else None)
         None None None (Some 1) true.

(** The arguments leave room for every record in the directory record. *)
Definition fits (a : new_args) : Prop :=
  (rr_version a = "1.09"%string \/ rr_version a = "1.12"%string)
  /\ 0 <= curr_dr_len a
  /\ new_estimate a <= ALLOWED_DR_SIZE.

(** A symlink "usr/../lib/libc.so" for a file named "libc.so". *)
Definition args_small_symlink : new_args :=
  mkArgs false (Some (lit "libc.so")) false (Some (lit "usr/../lib/libc.so"))
         "1.09" false false false 34.

(** One record of a System Use area as the parse loop meets it: bytes that
    open with a header declaring their own length and version 1, read by
    the loop as the assignment [assign] whatever follows them. *)
Definition chunk (flag : bool) (b : str)
  (assign : RockRidgeBase -> RockRidgeBase) : Prop :=
  4 <= len b
  /\ get_B b 2 = len b
  /\ get_B b 3 = SU_ENTRY_VERSION
  /\ forall rest left,
       parse_dispatch (firstn 2 b) (len b) left (b ++ rest) flag
       = Assign assign.

(** An area made of such records, and the assignments they add up to. *)
Definition chunks_for (flag : bool) (area : str)
  (f : RockRidgeBase -> RockRidgeBase) : Prop :=
  exists cs : list (str * (RockRidgeBase -> RockRidgeBase)),
    Forall (fun c => chunk flag (fst c) (snd c)) cs
    /\ area = concat (map fst cs)
    /\ forall e, fold_left (fun e c => snd c e) cs e = f e.

(** The block number [update_parent_link()] writes: that of the PL record
    of the entry or, failing that, of its continuation. *)
Definition pl_view (e : RockRidgeBase) : option Z :=
  match pl_record e with
  | Some pl => Some (parent_log_block_num pl)
  | None =>
      match continuation e with
      | Some c => option_map parent_log_block_num (pl_record c)
      | None => None
      end
  end.

(** A relocated directory's ".." entry, whose directory record is 250
    bytes long so far: the PL record goes to the continuation. *)
Definition args_relocated_parent : new_args :=
  mkArgs false (Some (lit "dir")) true None "1.09" false false true 250.

(** The flags of the RR record of the entry and of the RR record of its
    continuation, where there is one. *)
Definition rr_pair (e : RockRidgeBase) : option Z * option Z :=
  (option_map rr_flags (rr_record e),
   match continuation e with
   | Some c => option_map rr_flags (rr_record c)
   | None => None
   end).

(** [append_field] seen on such a pair: only the entry's own RR record is
    ever marked. *)
Definition rr_mark (bit : Z) (p : option Z * option Z)
  : option Z * option Z :=
  (option_map (fun f => Z.lor f (Z.shiftl 1 bit)) (fst p), snd p).

(** A relocated directory whose directory record is 222 bytes long so far:
    with the CE record in, the RR record no longer fits and goes to the
    continuation. *)
Definition args_rr_in_cont : new_args :=
  mkArgs false (Some (lit "dir")) true None "1.09" true false false 222.

(** What [record()] writes for an entry, counted with the [length()] of
    each record class: the records of the filled slots, in the order
    [record()] takes them. *)
Definition opt_size {A : Type} (length : A -> Z) (o : option A) : Z :=
  match o with Some r => length r | None => 0 end.

Definition sl_size (l : list RRSLRecord) : Z :=
  fold_left (fun n r => n + RRSLRecord_length (symlink_components r)) l 0.

Definition entry_size (e : RockRidgeBase) : Z :=
  opt_size (fun _ => RRSPRecord_length) (sp_record e)
  + opt_size (fun _ => RRRRRecord_length) (rr_record e)
  + opt_size (fun r => RRNMRecord_length (posix_name r)) (nm_record e)
  + opt_size (fun _ => RRPXRecord_length) (px_record e)
  + sl_size (sl_records e)
  + opt_size (fun r => RRTFRecord_length (time_flags r)) (tf_record e)
  + opt_size (fun _ => RRCLRecord_length) (cl_record e)
  + opt_size (fun _ => RRPLRecord_length) (pl_record e)
  + opt_size (fun _ => RRRERecord_length) (re_record e)
  + opt_size (fun _ => RRCERecord_length) (ce_record e)
  + opt_size (fun r => RRERRecord_length (ext_id r) (ext_des r) (ext_src r))
             (er_record e).

(** The layout keeps its books: the running length is the current length
    plus what the entry holds, and the length of the continuation is what
    the continuation holds. *)
Definition accounted (curr : Z) (st : layout) : Prop :=
  snd st = curr + entry_size (fst st)
  /\ forall ce,
       ce_record (fst st) = Some ce ->
       exists c,
         continuation_entry ce = Some c
         /\ continue_length c = entry_size (cont_base c).



(** A slot as the entry has it and as its continuation has it. *)
Definition both {T : Type} (p : RockRidgeBase -> T) (e : RockRidgeBase)
  : T * option T :=
  (p e, option_map p (continuation e)).

(** The slot is filled neither in the entry nor in its continuation. *)
Definition vacant {A : Type} (p : RockRidgeBase -> option A)
  (e : RockRidgeBase) : Prop :=
  p e = None /\ forall c, continuation e = Some c -> p c = None.

(** The SL stage keeps its books too, and its alias [curr_sl] is the last
    SL record of the side it writes to. *)
Definition sl_side (st : sl_state) : option RockRidgeBase :=
  if sl_in_cont st then continuation (sl_entry st) else Some (sl_entry st).

Definition sl_tracked (curr : Z) (st : sl_state) : Prop :=
  accounted curr (sl_entry st, sl_dr_len st)
  /\ exists side pre,
       sl_side st = Some side /\ sl_records side = pre ++ [sl_curr st].

(** A name and a symlink that both spill into the continuation. *)
Definition args_spill : new_args :=
  mkArgs false (Some (repeat "n"%char 250)) false
         (Some (repeat "a"%char 245 ++ lit "/bb/../."))
         "1.12" false true true 0.

(** * Properties *)

(** ** Bytes and [struct] *)

Arguments chr : simpl never.
Arguments ord : simpl never.

Lemma ord_range (c : ascii) : 0 <= ord c < 256.
Proof.
  unfold ord.
  pose proof (N_ascii_bounded c). lia.
Qed.

Lemma ord_chr (x : Z) : 0 <= x < 256 -> ord (chr x) = x.
Proof.
  intros H. unfold ord, chr.
  rewrite N_ascii_embedding by lia. lia.
Qed.

Lemma chr_ord (c : ascii) : chr (ord c) = c.
Proof.
  unfold ord, chr. rewrite N2Z.id. apply ascii_N_embedding.
Qed.

Lemma le32_decode (x : Z) :
  0 <= x < 4294967296 ->
  ord (chr (x mod 256)) + 256 * ord (chr ((x / 256) mod 256))
  + 65536 * ord (chr ((x / 65536) mod 256))
  + 16777216 * ord (chr ((x / 16777216) mod 256)) = x.
Proof.
  intros H.
  rewrite !ord_chr by (apply Z.mod_pos_bound; lia).
  Z.div_mod_to_equations; lia.
Qed.

Lemma byte_digits (b0 b1 b2 b3 : Z) :
  0 <= b0 < 256 -> 0 <= b1 < 256 -> 0 <= b2 < 256 -> 0 <= b3 < 256 ->
  let x := b0 + 256 * b1 + 65536 * b2 + 16777216 * b3 in
  x mod 256 = b0 /\ (x / 256) mod 256 = b1 /\ (x / 65536) mod 256 = b2
  /\ (x / 16777216) mod 256 = b3.
Proof.
  intros H0 H1 H2 H3 x. subst x.
  repeat split; Z.div_mod_to_equations; lia.
Qed.

Lemma swab_32bit_digits (x : Z) :
  swab_32bit x =
  (x / 16777216) mod 256 + 256 * ((x / 65536) mod 256)
  + 65536 * ((x / 256) mod 256) + 16777216 * (x mod 256).
Proof. unfold swab_32bit. ring. Qed.

Lemma swab_32bit_range (x : Z) : 0 <= swab_32bit x < 4294967296.
Proof.
  rewrite swab_32bit_digits.
  pose proof (Z.mod_pos_bound x 256).
  pose proof (Z.mod_pos_bound (x / 256) 256).
  pose proof (Z.mod_pos_bound (x / 65536) 256).
  pose proof (Z.mod_pos_bound (x / 16777216) 256).
  lia.
Qed.

Lemma le32_swab (x : Z) : le32 (swab_32bit x) = rev (le32 x).
Proof.
  rewrite swab_32bit_digits.
  pose proof (Z.mod_pos_bound x 256).
  pose proof (Z.mod_pos_bound (x / 256) 256).
  pose proof (Z.mod_pos_bound (x / 65536) 256).
  pose proof (Z.mod_pos_bound (x / 16777216) 256).
  destruct (byte_digits ((x / 16777216) mod 256) ((x / 65536) mod 256)
                        ((x / 256) mod 256) (x mod 256))
    as (E0 & E1 & E2 & E3); try lia.
  unfold le32. cbv zeta in E0, E1, E2, E3. rewrite E0, E1, E2, E3.
  reflexivity.
Qed.

Lemma swab_32bit_involutive (x : Z) :
  0 <= x < 4294967296 -> swab_32bit (swab_32bit x) = x.
Proof.
  intros H.
  rewrite (swab_32bit_digits (swab_32bit x)).
  rewrite (swab_32bit_digits x).
  pose proof (Z.mod_pos_bound x 256).
  pose proof (Z.mod_pos_bound (x / 256) 256).
  pose proof (Z.mod_pos_bound (x / 65536) 256).
  pose proof (Z.mod_pos_bound (x / 16777216) 256).
  destruct (byte_digits ((x / 16777216) mod 256) ((x / 65536) mod 256)
                        ((x / 256) mod 256) (x mod 256))
    as (E0 & E1 & E2 & E3); try lia.
  cbv zeta in E0, E1, E2, E3. rewrite E0, E1, E2, E3.
  clear E0 E1 E2 E3.
  Z.div_mod_to_equations; lia.
Qed.

Lemma pack_B_ok (x : Z) : 0 <= x < 256 -> pack_B x = Ok [chr x].
Proof.
  intros H. unfold pack_B.
  replace ((0 <=? x) && (x <? 256)) with true; [reflexivity|].
  symmetry. apply andb_true_iff. split; [apply Z.leb_le | apply Z.ltb_lt]; lia.
Qed.

Lemma pack_L_ok (x : Z) : 0 <= x < 4294967296 -> pack_L x = Ok (le32 x).
Proof.
  intros H. unfold pack_L.
  replace ((0 <=? x) && (x <? 4294967296)) with true; [reflexivity|].
  symmetry. apply andb_true_iff. split; [apply Z.leb_le | apply Z.ltb_lt]; lia.
Qed.

Lemma pack_Bs_ok (xs : list Z) :
  Forall (fun x => 0 <= x < 256) xs -> pack_Bs xs = Ok (map chr xs).
Proof.
  induction 1 as [|x r Hx _ IH]; [reflexivity|].
  cbn [pack_Bs map]. rewrite pack_B_ok by exact Hx. cbn [bind].
  rewrite IH. reflexivity.
Qed.

Lemma pack_Ls_ok (xs : list Z) :
  Forall (fun x => 0 <= x < 4294967296) xs ->
  pack_Ls xs = Ok (concat (map le32 xs)).
Proof.
  induction 1 as [|x r Hx _ IH]; [reflexivity|].
  cbn [pack_Ls map concat]. rewrite pack_L_ok by exact Hx. cbn [bind].
  rewrite IH. reflexivity.
Qed.

Lemma pack_dual (x : Z) :
  0 <= x < 4294967296 ->
  pack_Ls [x; swab_32bit x] = Ok (le32 x ++ be32 x).
Proof.
  intros H. rewrite pack_Ls_ok.
  - cbn [map concat]. rewrite le32_swab, app_nil_r. reflexivity.
  - repeat constructor; try lia; apply swab_32bit_range.
Qed.

(** ** Slices *)

Lemma len_nonneg (x : str) : 0 <= len x.
Proof. unfold len. lia. Qed.

Lemma len_app (x y : str) : len (x ++ y) = len x + len y.
Proof. unfold len. rewrite length_app. lia. Qed.

Lemma slice_spec (x : str) (lo hi : Z) :
  0 <= lo -> lo <= hi -> hi <= len x ->
  slice x lo hi = firstn (Z.to_nat (hi - lo)) (skipn (Z.to_nat lo) x).
Proof.
  intros H0 H1 H2. unfold slice, norm_idx.
  destruct (Z.ltb_spec lo 0); [lia|].
  destruct (Z.ltb_spec hi 0); [lia|].
  rewrite !Z.min_l by lia. reflexivity.
Qed.

Lemma slice_app_l (x rest : str) (lo hi : Z) :
  0 <= lo -> lo <= hi -> hi <= len x ->
  slice (x ++ rest) lo hi = slice x lo hi.
Proof.
  intros H0 H1 H2.
  rewrite !slice_spec by (rewrite ?len_app; pose proof (len_nonneg rest); lia).
  unfold len in H2.
  rewrite skipn_app, firstn_app.
  replace (Z.to_nat lo - length x)%nat with 0%nat by lia.
  rewrite length_skipn.
  replace (Z.to_nat (hi - lo) - (length x - Z.to_nat lo))%nat with 0%nat by lia.
  cbn [skipn firstn]. rewrite app_nil_r. reflexivity.
Qed.

Lemma slice_middle (pre x post : str) :
  slice (pre ++ x ++ post) (len pre) (len pre + len x) = x.
Proof.
  rewrite slice_spec.
  - replace (len pre + len x - len pre) with (len x) by lia.
    unfold len. rewrite !Nat2Z.id.
    rewrite skipn_app, skipn_all, Nat.sub_diag. cbn [app skipn].
    rewrite firstn_app, firstn_all, Nat.sub_diag. cbn [firstn].
    apply app_nil_r.
  - apply len_nonneg.
  - pose proof (len_nonneg x). lia.
  - rewrite !len_app. pose proof (len_nonneg post). lia.
Qed.

(** ** Serialization order (RockRidgeBase.record) *)

Lemma append_record_slot {A : Type} (rec : A -> M str) (o : option A)
  (ret b : str) :
  slot_bytes rec o = Ok b -> append_record rec o ret = Ok (ret ++ b).
Proof.
  destruct o as [r|]; cbn [slot_bytes append_record].
  - intros ->. reflexivity.
  - intros [= <-]. rewrite app_nil_r. reflexivity.
Qed.

Lemma append_records_all {A : Type} (rec : A -> M str) (l : list A)
  (bs : list str) :
  Forall2 (fun r b => rec r = Ok b) l bs ->
  forall ret, append_records rec l ret = Ok (ret ++ concat bs).
Proof.
  induction 1 as [|r b l bs Hr _ IH]; intros ret; cbn [append_records concat].
  - rewrite app_nil_r. reflexivity.
  - rewrite Hr. cbn [bind]. rewrite IH, app_assoc. reflexivity.
Qed.

(** C8. The output of [record()] on an initialized entry (primary entry or
    continuation alike, both being [RockRidgeBase]) is the concatenation of
    the encodings of the filled slots in the order SP, RR, NM, PX, every SL
    record in list order, TF, CL, PL, RE, CE, ER; an empty slot contributes
    no bytes.  The statement is about an arbitrary entry, whatever order its
    slots were assigned in. *)
Theorem record_canonical_order
  (self : RockRidgeBase) (sp rr nm px tf cl pl re ce er : str)
  (sl : list str) :
  initialized self = true ->
  slot_bytes RRSPRecord_record (sp_record self) = Ok sp ->
  slot_bytes RRRRRecord_record (rr_record self) = Ok rr ->
  slot_bytes RRNMRecord_record (nm_record self) = Ok nm ->
  slot_bytes RRPXRecord_record (px_record self) = Ok px ->
  Forall2 (fun r b => RRSLRecord_record r = Ok b) (sl_records self) sl ->
  slot_bytes RRTFRecord_record (tf_record self) = Ok tf ->
  slot_bytes RRCLRecord_record (cl_record self) = Ok cl ->
  slot_bytes RRPLRecord_record (pl_record self) = Ok pl ->
  slot_bytes RRRERecord_record (re_record self) = Ok re ->
  slot_bytes RRCERecord_record (ce_record self) = Ok ce ->
  slot_bytes RRERRecord_record (er_record self) = Ok er ->
  RockRidgeBase_record self
  = Ok (sp ++ rr ++ nm ++ px ++ concat sl ++ tf ++ cl ++ pl ++ re ++ ce ++ er).
Proof.
  intros Hi Hsp Hrr Hnm Hpx Hsl Htf Hcl Hpl Hre Hce Her.
  unfold RockRidgeBase_record. rewrite Hi. cbn [negb].
  rewrite (append_record_slot _ _ _ _ Hsp); cbn [bind].
  rewrite (append_record_slot _ _ _ _ Hrr); cbn [bind].
  rewrite (append_record_slot _ _ _ _ Hnm); cbn [bind].
  rewrite (append_record_slot _ _ _ _ Hpx); cbn [bind].
  rewrite (append_records_all _ _ _ Hsl); cbn [bind].
  rewrite (append_record_slot _ _ _ _ Htf); cbn [bind].
  rewrite (append_record_slot _ _ _ _ Hcl); cbn [bind].
  rewrite (append_record_slot _ _ _ _ Hpl); cbn [bind].
  rewrite (append_record_slot _ _ _ _ Hre); cbn [bind].
  rewrite (append_record_slot _ _ _ _ Hce); cbn [bind].
  rewrite (append_record_slot _ _ _ _ Her); cbn [bind].
  cbn [app]. rewrite <- !app_assoc. reflexivity.
Qed.

(** Slots are independent: assigning two of them in either order gives the
    same entry, hence the same bytes. *)
Lemma slot_assignments_commute (e : RockRidgeBase) (er : option RRERRecord)
  (px : option RRPXRecord) (nm : option RRNMRecord) :
  set_nm_record nm (set_px_record px (set_er_record er e))
  = set_er_record er (set_px_record px (set_nm_record nm e)).
Proof. reflexivity. Qed.

Lemma record_canonical_order_witness :
  exists nm px er,
    RRNMRecord_record (RRNMRecord_new (lit "foo")) = Ok nm
    /\ RRPXRecord_record (RRPXRecord_new false None) = Ok px
    /\ RRERRecord_record (RRERRecord_new (lit "A") (lit "B") (lit "C")) = Ok er
    /\ RockRidgeBase_record entry_er_px_nm = Ok (nm ++ px ++ er).
Proof.
  eexists _, _, _.
  split; [vm_compute; reflexivity|].
  split; [vm_compute; reflexivity|].
  split; [vm_compute; reflexivity|].
  refine (record_canonical_order entry_er_px_nm [] [] _ _ [] [] [] [] [] _ []
            eq_refl eq_refl eq_refl eq_refl eq_refl (Forall2_nil _) eq_refl
            eq_refl eq_refl eq_refl eq_refl eq_refl).
Defined.

(** ** Name and symlink queries *)




(** ** Frame properties of the layout stages

    What a stage of [new] leaves alone.  A stage assigns slots of the entry
    or, through the CE record, slots of the continuation, and adds to the
    continuation's length.  An observation [proj] of the entry that no such
    assignment changes is the same after the stage. *)

Section Frames.

Context {T : Type} (proj : RockRidgeBase -> T).

Lemma update_ce_frame g (lenf : RockRidgeContinuation -> Z) e e' :
  safe proj g ->
  update_ce (ce_update_cont
               (fun c => mkCont (g (cont_base c)) (orig_extent_loc c)
                                (new_extent_loc c) (continue_offset c)
                                (lenf c))) e = Ok e' ->
  proj e' = proj e.
Proof.
  intros [_ Hg]. unfold update_ce, ce_update_cont.
  destruct (ce_record e) as [ce|] eqn:E; [|discriminate].
  destruct (continuation_entry ce) as [c|] eqn:Ec; [|discriminate].
  cbn [getattr bind]. intros [= <-].
  pose proof (Hg e ce (lenf c) E) as H. unfold ce_step in H.
  rewrite Ec in H. exact H.
Qed.

Lemma place_frame assign n e dr e' dr' :
  safe proj assign ->
  place assign n (e, dr) = Ok (e', dr') -> proj e' = proj e.
Proof.
  intros Ha. unfold place.
  destruct (ALLOWED_DR_SIZE <? dr + n).
  - destruct (update_ce _ e) as [e1|] eqn:E; [|discriminate].
    cbn [bind]. intros [= <- _].
    exact (update_ce_frame assign
             (fun c => continue_length c + n)
             _ _ Ha E).
  - intros [= <- _]. apply Ha.
Qed.

Lemma mark_field_frame name e dr e' dr' :
  (forall v, safe proj (set_rr_record v)) ->
  mark_field name (e, dr) = Ok (e', dr') -> proj e' = proj e.
Proof.
  intros Hrr. unfold mark_field.
  destruct (rr_record e) as [rr|].
  - destruct (RRRRRecord_append_field rr name); [|discriminate].
    cbn [bind]. intros [= <- _]. apply Hrr.
  - intros [= <- _]. reflexivity.
Qed.

Lemma new_sp_frame a e dr e' dr' :
  (forall v, safe proj (set_sp_record v)) ->
  new_sp a (e, dr) = Ok (e', dr') -> proj e' = proj e.
Proof.
  intros H. unfold new_sp. destruct (is_first_dir_record_of_root a).
  - apply place_frame, H.
  - intros [= <- _]. reflexivity.
Qed.

Lemma new_rr_frame a e dr e' dr' :
  (forall v, safe proj (set_rr_record v)) ->
  new_rr a (e, dr) = Ok (e', dr') -> proj e' = proj e.
Proof.
  intros H. unfold new_rr. destruct (String.eqb (rr_version a) "1.09").
  - apply place_frame, H.
  - intros [= <- _]. reflexivity.
Qed.

Lemma new_nm_frame a e dr e' dr' :
  (forall v, safe proj (set_rr_record v)) ->
  (forall v, safe proj (set_nm_record v)) ->
  new_nm a (e, dr) = Ok (e', dr') -> proj e' = proj e.
Proof.
  intros Hrr Hnm. unfold new_nm. destruct (rr_name a) as [name|].
  - destruct (ALLOWED_DR_SIZE <? dr + RRNMRecord_length name).
    + destruct (update_ce _ _) as [e1|] eqn:E; [|discriminate].
      cbn [bind]. intros Hm.
      rewrite (mark_field_frame _ _ _ _ _ Hrr Hm).
      rewrite (update_ce_frame _
                 (fun c => continue_length c + _)
                 _ _ (Hnm _) E).
      apply Hnm.
    + cbn [bind]. intros Hm.
      rewrite (mark_field_frame _ _ _ _ _ Hrr Hm). apply Hnm.
  - intros [= <- _]. reflexivity.
Qed.

Lemma new_px_frame a e dr e' dr' :
  (forall v, safe proj (set_rr_record v)) ->
  (forall v, safe proj (set_px_record v)) ->
  new_px a (e, dr) = Ok (e', dr') -> proj e' = proj e.
Proof.
  intros Hrr Hpx. unfold new_px.
  destruct (place _ _ _) as [[e1 dr1]|] eqn:E; [|discriminate].
  cbn [bind]. intros Hm.
  rewrite (mark_field_frame _ _ _ _ _ Hrr Hm).
  eapply place_frame; [apply Hpx | apply E].
Qed.

Lemma new_tf_frame now e dr e' dr' :
  (forall v, safe proj (set_rr_record v)) ->
  (forall v, safe proj (set_tf_record v)) ->
  new_tf now (e, dr) = Ok (e', dr') -> proj e' = proj e.
Proof.
  intros Hrr Htf. unfold new_tf.
  destruct (place _ _ _) as [[e1 dr1]|] eqn:E; [|discriminate].
  cbn [bind]. intros Hm.
  rewrite (mark_field_frame _ _ _ _ _ Hrr Hm).
  eapply place_frame; [apply Htf | apply E].
Qed.

Lemma new_cl_frame a e dr e' dr' :
  (forall v, safe proj (set_cl_record v)) ->
  new_cl a (e, dr) = Ok (e', dr') -> proj e' = proj e.
Proof.
  intros H. unfold new_cl. destruct (rr_relocated_child a).
  - apply place_frame, H.
  - intros [= <- _]. reflexivity.
Qed.

Lemma new_re_frame a e dr e' dr' :
  (forall v, safe proj (set_re_record v)) ->
  new_re a (e, dr) = Ok (e', dr') -> proj e' = proj e.
Proof.
  intros H. unfold new_re. destruct (rr_relocated a).
  - apply place_frame, H.
  - intros [= <- _]. reflexivity.
Qed.

Lemma new_pl_frame a e dr e' dr' :
  (forall v, safe proj (set_pl_record v)) ->
  new_pl a (e, dr) = Ok (e', dr') -> proj e' = proj e.
Proof.
  intros H. unfold new_pl. destruct (rr_relocated_parent a).
  - apply place_frame, H.
  - intros [= <- _]. reflexivity.
Qed.

Lemma new_er_frame a e dr e' dr' :
  (forall v, safe proj (set_er_record v)) ->
  new_er a (e, dr) = Ok (e', dr') -> proj e' = proj e.
Proof.
  intros H. unfold new_er. destruct (is_first_dir_record_of_root a).
  - apply place_frame, H.
  - intros [= <- _]. reflexivity.
Qed.

(** The SL stage. *)

Hypothesis Hsl : forall F, safe proj (fun b => set_sl_records (F b) b).
Hypothesis Hid : safe proj (fun b => b).

Lemma meta_increment_frame n st st' :
  meta_increment n st = Ok st' -> proj (sl_entry st') = proj (sl_entry st).
Proof.
  unfold meta_increment. destruct (sl_in_cont st).
  - destruct (update_ce _ _) as [e1|] eqn:E; [|discriminate].
    cbn [bind]. intros [= <-].
    exact (update_ce_frame (fun b => b)
             (fun c => continue_length c + n)
             _ _ Hid E).
  - intros [= <-]. reflexivity.
Qed.

Lemma curr_add_component_frame comp st st' :
  curr_add_component comp st = Ok st' ->
  proj (sl_entry st') = proj (sl_entry st).
Proof.
  unfold curr_add_component.
  destruct (RRSLRecord_add_component _ _) as [sl|]; [|discriminate].
  cbn [bind]. destruct (sl_in_cont st).
  - destruct (update_ce _ _) as [e1|] eqn:E; [|discriminate].
    cbn [bind]. intros [= <-].
    exact (update_ce_frame
             (fun b => set_sl_records (replace_last (sl_records b) sl) b)
             (fun c => continue_length c)
             _ _ (Hsl _) E).
  - intros [= <-]. apply (Hsl (fun _ => _)).
Qed.

Lemma cont_append_sl_frame sl e e' :
  cont_append_sl sl e = Ok e' -> proj e' = proj e.
Proof.
  intros E.
  exact (update_ce_frame
           (fun b => set_sl_records (sl_records b ++ [sl]) b)
           (fun c => continue_length c)
           _ _ (Hsl _) E).
Qed.

Lemma curr_move_to_cont_frame rest st st' :
  curr_move_to_cont rest st = Ok st' ->
  proj (sl_entry st') = proj (sl_entry st).
Proof.
  unfold curr_move_to_cont.
  destruct (cont_append_sl _ _) as [e1|] eqn:E; [|discriminate].
  cbn [bind]. intros Hm.
  rewrite (meta_increment_frame _ _ _ Hm). eapply cont_append_sl_frame, E.
Qed.

Lemma new_sl_comp_frame comp st st' :
  new_sl_comp comp st = Ok st' -> proj (sl_entry st') = proj (sl_entry st).
Proof.
  unfold new_sl_comp.
  destruct (_ <? 255).
  - destruct (curr_add_component _ _) as [s1|] eqn:E1; [|discriminate].
    cbn [bind]. intros Hm.
    rewrite (meta_increment_frame _ _ _ Hm).
    eapply curr_add_component_frame, E1.
  - destruct (_ <? 255).
    + destruct (curr_add_component _ _) as [s1|] eqn:E1; [|discriminate].
      cbn [bind].
      destruct (meta_increment _ s1) as [s2|] eqn:E2; [|discriminate].
      cbn [bind]. intros Hm.
      rewrite (curr_move_to_cont_frame _ _ _ Hm).
      rewrite (meta_increment_frame _ _ _ E2).
      eapply curr_add_component_frame, E1.
    + apply curr_move_to_cont_frame.
Qed.

Lemma new_sl_comps_frame comps : forall st st',
  new_sl_comps comps st = Ok st' -> proj (sl_entry st') = proj (sl_entry st).
Proof.
  induction comps as [|comp r IH]; intros st st'; cbn [new_sl_comps].
  - intros [= <-]. reflexivity.
  - destruct (new_sl_comp comp st) as [s1|] eqn:E; [|discriminate].
    cbn [bind]. intros Hr. rewrite (IH _ _ Hr).
    eapply new_sl_comp_frame, E.
Qed.

Lemma new_sl_frame a e dr e' dr' :
  (forall v, safe proj (set_rr_record v)) ->
  new_sl a (e, dr) = Ok (e', dr') -> proj e' = proj e.
Proof.
  intros Hrr. unfold new_sl. destruct (symlink_path a) as [path|].
  - destruct (_ <? ALLOWED_DR_SIZE).
    + cbn [bind].
      destruct (meta_increment 5 _) as [s1|] eqn:E1; [|discriminate].
      cbn [bind].
      destruct (new_sl_comps _ s1) as [s2|] eqn:E2; [|discriminate].
      cbn [bind]. intros Hm.
      rewrite (mark_field_frame _ _ _ _ _ Hrr Hm).
      rewrite (new_sl_comps_frame _ _ _ E2).
      rewrite (meta_increment_frame _ _ _ E1). cbn [sl_entry].
      apply (Hsl (fun _ => _)).
    + destruct (cont_append_sl _ e) as [e1|] eqn:E0; [|discriminate].
      cbn [bind].
      destruct (meta_increment 5 _) as [s1|] eqn:E1; [|discriminate].
      cbn [bind].
      destruct (new_sl_comps _ s1) as [s2|] eqn:E2; [|discriminate].
      cbn [bind]. intros Hm.
      rewrite (mark_field_frame _ _ _ _ _ Hrr Hm).
      rewrite (new_sl_comps_frame _ _ _ E2).
      rewrite (meta_increment_frame _ _ _ E1). cbn [sl_entry].
      eapply cont_append_sl_frame, E0.
  - intros [= <- _]. reflexivity.
Qed.

End Frames.

Ltac bind_step H x E :=
  match type of H with
  | bind ?m _ = Ok _ =>
      destruct m as [x|] eqn:E; [cbn [bind] in H | discriminate H]
  end.

Lemma new_layout_trace now self a e n :
  RockRidge_new_layout now self a = Ok (e, n) ->
  initialized self = false
  /\ exists t,
      trace_of now a t
      /\ t_ce t = new_ce a (set_su_entry_version (Some 1) self, curr_dr_len a)
      /\ e = set_initialized true (fst (t_er t)) /\ n = snd (t_er t).
Proof.
  unfold RockRidge_new_layout.
  destruct (initialized self); [discriminate|].
  destruct (negb _ && negb _); [discriminate|].
  intros H.
  bind_step H s1 E1. bind_step H s2 E2. bind_step H s3 E3.
  bind_step H s4 E4. bind_step H s5 E5. bind_step H s6 E6.
  bind_step H s7 E7. bind_step H s8 E8. bind_step H s9 E9.
  bind_step H s10 E10.
  injection H as <- <-.
  split; [reflexivity|].
  exists (mkTrace (new_ce a (set_su_entry_version (Some 1) self, curr_dr_len a))
                  s1 s2 s3 s4 s5 s6 s7 s8 s9 s10).
  unfold trace_of. cbn [t_ce t_sp t_rr t_nm t_px t_sl t_tf t_cl t_re t_pl t_er].
  repeat split; assumption.
Qed.

Lemma new_trace_prelude {T : Type} (proj : RockRidgeBase -> T) now a t :
  trace_of now a t -> prelude_safe proj ->
  proj (fst (t_tf t)) = proj (fst (t_ce t)).
Proof.
  intros (E1 & E2 & E3 & E4 & E5 & E6 & _)
         (Hsp & Hrr & Hnm & Hpx & Hsl & Hid & Htf).
  destruct t as [[e0 d0] [e1 d1] [e2 d2] [e3 d3] [e4 d4] [e5 d5] [e6 d6]
                 s7 s8 s9 s10].
  cbn [t_ce t_sp t_rr t_nm t_px t_sl t_tf fst] in *.
  rewrite (new_tf_frame proj _ _ _ _ _ Hrr Htf E6).
  rewrite (new_sl_frame proj Hsl Hid _ _ _ _ _ Hrr E5).
  rewrite (new_px_frame proj _ _ _ _ _ Hrr Hpx E4).
  rewrite (new_nm_frame proj _ _ _ _ _ Hrr Hnm E3).
  rewrite (new_rr_frame proj _ _ _ _ _ Hrr E2).
  apply (new_sp_frame proj _ _ _ _ _ Hsp E1).
Qed.

Lemma new_trace_coda {T : Type} (proj : RockRidgeBase -> T) now a t :
  trace_of now a t -> coda_safe proj ->
  proj (fst (t_er t)) = proj (fst (t_cl t)).
Proof.
  intros (_ & _ & _ & _ & _ & _ & _ & E8 & E9 & E10) (Hre & Hpl & Her).
  destruct t as [s0 s1 s2 s3 s4 s5 s6 [e7 d7] [e8 d8] [e9 d9] [e10 d10]].
  cbn [t_cl t_re t_pl t_er fst] in *.
  rewrite (new_er_frame proj _ _ _ _ _ Her E10).
  rewrite (new_pl_frame proj _ _ _ _ _ Hpl E9).
  apply (new_re_frame proj _ _ _ _ _ Hre E8).
Qed.

Ltac solve_safe :=
  repeat match goal with
         | |- _ /\ _ => split
         | |- forall _, _ => intro
         end;
  lazymatch goal with
  | H : ce_record _ = Some ?ce |- _ =>
      try unfold continuation; cbn; try rewrite H;
      try destruct (continuation_entry ce); reflexivity
  | |- _ => reflexivity
  end.

(** What an update of the continuation through the CE record amounts to,
    when it goes through. *)
Lemma update_ce_cont_inv (G : RockRidgeContinuation -> RockRidgeContinuation)
  (e e' : RockRidgeBase) :
  update_ce (ce_update_cont G) e = Ok e' ->
  exists ce c,
    ce_record e = Some ce /\ continuation_entry ce = Some c
    /\ e' = set_ce_record (Some (mkCE (Some (G c)) (ce_initialized ce))) e.
Proof.
  unfold update_ce, ce_update_cont.
  destruct (ce_record e) as [ce|]; [|discriminate].
  destruct (continuation_entry ce) as [c|] eqn:Ec; [|discriminate].
  cbn [getattr bind]. intros H. injection H as <-.
  exists ce, c. repeat split. exact Ec.
Qed.

Lemma update_ce_cont_eq (G : RockRidgeContinuation -> RockRidgeContinuation)
  (e : RockRidgeBase) (ce : RRCERecord) (c : RockRidgeContinuation) :
  ce_record e = Some ce -> continuation_entry ce = Some c ->
  update_ce (ce_update_cont G) e
  = Ok (set_ce_record (Some (mkCE (Some (G c)) (ce_initialized ce))) e).
Proof.
  intros Ece Ec. unfold update_ce, ce_update_cont. rewrite Ece, Ec.
  reflexivity.
Qed.

(** A second update through a CE record that was just put in place. *)
Ltac step_cont :=
  match goal with
  | |- context [update_ce (ce_update_cont ?G)
                          (set_ce_record (Some (mkCE (Some ?c) ?i)) ?e)] =>
      rewrite (update_ce_cont_eq G
                 (set_ce_record (Some (mkCE (Some c) i)) e)
                 (mkCE (Some c) i) c eq_refl eq_refl)
  end.
Ltac step_cont_in H :=
  match type of H with
  | context [update_ce (ce_update_cont ?G)
                       (set_ce_record (Some (mkCE (Some ?c) ?i)) ?e)] =>
      rewrite (update_ce_cont_eq G
                 (set_ce_record (Some (mkCE (Some c) i)) e)
                 (mkCE (Some c) i) c eq_refl eq_refl) in H
  end.

(** The continuation after an assignment to the entry that leaves the CE
    record alone, and after one made through the CE record. *)
Lemma continuation_assign (f : RockRidgeBase -> RockRidgeBase)
  (e : RockRidgeBase) :
  ce_record (f e) = ce_record e -> continuation (f e) = continuation e.
Proof. intros H. unfold continuation. rewrite H. reflexivity. Qed.

Lemma continuation_ce_step (g : RockRidgeBase -> RockRidgeBase) (length : Z)
  (ce : RRCERecord) (e : RockRidgeBase) :
  continuation (set_ce_record (Some (ce_step g length ce)) e)
  = option_map g (option_map cont_base (continuation_entry ce)).
Proof.
  unfold continuation. cbn. destruct (continuation_entry ce); reflexivity.
Qed.

(** Safety of an observation of the entry and of its continuation, from
    what the assignment leaves alone in an entry ([Hf]) and from its
    leaving the CE record alone ([Hc]). *)
Ltac safe_cont Hf Hc :=
  split;
  [ intros b; unfold continuation; rewrite ?Hf, ?Hc; reflexivity
  | let ce := fresh "ce" in
    let Hce := fresh "Hce" in
    intros b ce ? Hce; unfold continuation; cbn; rewrite ?Hf, ?Hce;
    destruct (continuation_entry ce); cbn; rewrite ?Hf; reflexivity ].

(** [new] leaves the entry with a CE record that owns a continuation, if
    with any, when it is given such an entry. *)
Lemma safe_ce_owns (f : RockRidgeBase -> RockRidgeBase) :
  (forall b, ce_record (f b) = ce_record b) -> safe ce_owns f.
Proof.
  intros Hc. unfold safe, ce_owns. split.
  - intros b. rewrite Hc. reflexivity.
  - intros b ce l Hce. cbn. rewrite Hce.
    destruct (continuation_entry ce); reflexivity.
Qed.

Lemma new_layout_ce_owns (now : clock) (self : RockRidgeBase) (a : new_args)
  (e : RockRidgeBase) (n : Z) :
  RockRidge_new_layout now self a = Ok (e, n) ->
  ce_owns self = true -> ce_owns e = true.
Proof.
  intros E Hself. apply new_layout_trace in E.
  destruct E as (_ & t & Ht & H0 & -> & _).
  change (ce_owns (set_initialized true (fst (t_er t))))
    with (ce_owns (fst (t_er t))).
  destruct Ht as (E1 & E2 & E3 & E4 & E5 & E6 & E7 & E8 & E9 & E10).
  destruct t as [[e0 d0] [e1 d1] [e2 d2] [e3 d3] [e4 d4] [e5 d5] [e6 d6]
                 [e7 d7] [e8 d8] [e9 d9] [e10 d10]].
  cbn [t_ce t_sp t_rr t_nm t_px t_sl t_tf t_cl t_re t_pl t_er fst] in *.
  assert (S : forall f, (forall b, ce_record (f b) = ce_record b) ->
                        safe ce_owns f) by exact safe_ce_owns.
  rewrite (new_er_frame ce_owns _ _ _ _ _
             ltac:(intros; apply S; reflexivity) E10).
  rewrite (new_pl_frame ce_owns _ _ _ _ _
             ltac:(intros; apply S; reflexivity) E9).
  rewrite (new_re_frame ce_owns _ _ _ _ _
             ltac:(intros; apply S; reflexivity) E8).
  rewrite (new_cl_frame ce_owns _ _ _ _ _
             ltac:(intros; apply S; reflexivity) E7).
  rewrite (new_tf_frame ce_owns _ _ _ _ _
             ltac:(intros; apply S; reflexivity)
             ltac:(intros; apply S; reflexivity) E6).
  rewrite (new_sl_frame ce_owns
             ltac:(intros; apply S; reflexivity)
             ltac:(apply S; reflexivity) _ _ _ _ _
             ltac:(intros; apply S; reflexivity) E5).
  rewrite (new_px_frame ce_owns _ _ _ _ _
             ltac:(intros; apply S; reflexivity)
             ltac:(intros; apply S; reflexivity) E4).
  rewrite (new_nm_frame ce_owns _ _ _ _ _
             ltac:(intros; apply S; reflexivity)
             ltac:(intros; apply S; reflexivity) E3).
  rewrite (new_rr_frame ce_owns _ _ _ _ _
             ltac:(intros; apply S; reflexivity) E2).
  rewrite (new_sp_frame ce_owns _ _ _ _ _
             ltac:(intros; apply S; reflexivity) E1).
  unfold new_ce in H0.
  destruct (ALLOWED_DR_SIZE <? new_estimate a); injection H0 as -> _;
    [reflexivity | exact Hself].
Qed.

Lemma new_ce_owns (now : clock) (a : new_args) (e : RockRidgeBase) (n : Z) :
  RockRidge_new now RockRidgeBase_init a = Ok (e, n) -> ce_owns e = true.
Proof.
  unfold RockRidge_new. intros H.
  destruct (RockRidge_new_layout now RockRidgeBase_init a) as [[e1 n1]|] eqn:E;
    [|discriminate].
  cbn [bind fst snd] in H. injection H as <- _.
  exact (new_layout_ce_owns _ _ _ _ _ E eq_refl).
Qed.

(** ** Child link (C6) *)

Lemma child_link_block_num_view (e : RockRidgeBase) (bl : Z) :
  initialized e = true -> cl_view e = Some bl ->
  RockRidge_child_link_block_num e = Ok bl.
Proof.
  intros Hi. unfold cl_view, continuation, RockRidge_child_link_block_num.
  rewrite Hi. cbn [negb].
  destruct (cl_record e) as [cl|]; [intros [= <-]; reflexivity|].
  destruct (ce_record e) as [ce|]; [|discriminate].
  destruct (continuation_entry ce) as [c|]; [|discriminate].
  cbn [option_map getattr bind].
  destruct (cl_record _) as [cl|]; [intros [= <-]; reflexivity|discriminate].
Qed.

Lemma update_child_link_view (e : RockRidgeBase) (link : DirectoryRecord)
  (old bl : Z) :
  initialized e = true -> cl_view e = Some old ->
  child_link e = Some link -> DirectoryRecord_extent_location link = Ok bl ->
  exists e', RockRidge_update_child_link e = Ok e'
             /\ initialized e' = true /\ cl_view e' = Some bl.
Proof.
  intros Hi Hv Hl Hd. unfold RockRidge_update_child_link.
  rewrite Hi, Hl. cbn [negb].
  rewrite Hd. cbn [bind].
  unfold cl_view, continuation in Hv.
  destruct (cl_record e) as [cl|] eqn:Ecl.
  - eexists. split; [reflexivity|]. split; [exact Hi|]. reflexivity.
  - destruct (ce_record e) as [ce|] eqn:Ece; [|discriminate].
    destruct (continuation_entry ce) as [c|] eqn:Ec; [|discriminate].
    cbn [option_map getattr bind] in *.
    destruct (cl_record (cont_base _)) as [cl|] eqn:Ecc; [|discriminate].
    eexists. split; [reflexivity|]. split; [exact Hi|].
    unfold cl_view, continuation. cbn. rewrite Ecl. reflexivity.
Qed.

Lemma prelude_safe_cl_record : prelude_safe cl_record.
Proof. unfold prelude_safe, safe. solve_safe. Qed.

Lemma coda_safe_cl_view : coda_safe cl_view.
Proof. unfold coda_safe, safe, cl_view. solve_safe. Qed.

Lemma prelude_safe_child_link : prelude_safe child_link.
Proof. unfold prelude_safe, safe. solve_safe. Qed.

Lemma coda_safe_child_link : coda_safe child_link.
Proof. unfold coda_safe, safe. solve_safe. Qed.

Lemma new_cl_places (a : new_args) (e : RockRidgeBase) (dr : Z)
  (e' : RockRidgeBase) (dr' : Z) :
  rr_relocated_child a = true -> cl_record e = None ->
  new_cl a (e, dr) = Ok (e', dr') -> cl_view e' = Some 0.
Proof.
  intros Ha Hcl. unfold new_cl, place. rewrite Ha.
  destruct (ALLOWED_DR_SIZE <? dr + RRCLRecord_length).
  - destruct (update_ce _ e) as [e1|] eqn:E; [|discriminate].
    cbn [bind]. intros [= <- _].
    apply update_ce_cont_inv in E. destruct E as (ce & c & Ece & Ec & ->).
    unfold cl_view, continuation. cbn. rewrite Hcl. reflexivity.
  - intros [= <- _]. reflexivity.
Qed.

(** C6, as the source has it.  On an entry that [new()] built with the
    relocated-child flag set, [child_link_block_num()] does not raise before
    any extent assignment: it returns 0, the placeholder [RRCLRecord.new]
    stores.  What raises at that point is [update_child_link()], since no
    child link has been set.  Once the allocator has set the child link to a
    directory record with an assigned extent and called
    [update_child_link()], [child_link_block_num()] returns that extent. *)
Theorem child_link_block_num_after_new
  (now : clock) (a : new_args) (e : RockRidgeBase) (n : Z) :
  RockRidge_new now RockRidgeBase_init a = Ok (e, n) ->
  rr_relocated_child a = true ->
  RockRidge_child_link_block_num e = Ok 0
  /\ RockRidge_update_child_link e
     = Raise (PyIsoException "No child link found!")
  /\ forall link bl,
      DirectoryRecord_extent_location link = Ok bl ->
      exists e',
        RockRidge_update_child_link (set_child_link (Some link) e) = Ok e'
        /\ RockRidge_child_link_block_num e' = Ok bl.
Proof.
  intros Hnew Ha. unfold RockRidge_new in Hnew.
  destruct (RockRidge_new_layout now RockRidgeBase_init a) as [[e1 n1]|] eqn:E;
    [|discriminate].
  cbn [bind fst snd] in Hnew. injection Hnew as <- _.
  apply new_layout_trace in E.
  destruct E as (_ & t & Ht & H0 & -> & _).
  assert (Hpre : cl_record (fst (t_tf t)) = None).
  { rewrite (new_trace_prelude cl_record _ _ _ Ht prelude_safe_cl_record).
    rewrite H0. unfold new_ce.
    destruct (ALLOWED_DR_SIZE <? new_estimate a); reflexivity. }
  assert (Hview : cl_view (fst (t_er t)) = Some 0).
  { rewrite (new_trace_coda cl_view _ _ _ Ht coda_safe_cl_view).
    destruct Ht as (_ & _ & _ & _ & _ & _ & E7 & _).
    destruct (t_tf t) as [e6 d6], (t_cl t) as [e7 d7].
    eapply new_cl_places; [exact Ha | exact Hpre | exact E7]. }
  assert (Hlink : child_link (fst (t_er t)) = None).
  { rewrite (new_trace_coda child_link _ _ _ Ht coda_safe_child_link).
    assert (Hcl : child_link (fst (t_cl t)) = child_link (fst (t_tf t))).
    { destruct Ht as (_ & _ & _ & _ & _ & _ & E7 & _).
      destruct (t_tf t) as [e6 d6], (t_cl t) as [e7 d7].
      apply (new_cl_frame child_link _ _ _ _ _ ltac:(unfold safe; solve_safe) E7). }
    rewrite Hcl.
    rewrite (new_trace_prelude child_link _ _ _ Ht prelude_safe_child_link).
    rewrite H0. unfold new_ce.
    destruct (ALLOWED_DR_SIZE <? new_estimate a); reflexivity. }
  split; [|split].
  - apply child_link_block_num_view; [reflexivity|]. exact Hview.
  - unfold RockRidge_update_child_link. cbn [initialized set_initialized negb].
    change (child_link (set_initialized true (fst (t_er t))))
      with (child_link (fst (t_er t))).
    rewrite Hlink. reflexivity.
  - intros link bl Hd.
    destruct (update_child_link_view
                (set_child_link (Some link) (set_initialized true (fst (t_er t))))
                link 0 bl) as (e' & He' & Hi' & Hv'); try reflexivity.
    + exact Hview.
    + exact Hd.
    + exists e'. split; [exact He'|].
      apply child_link_block_num_view; assumption.
Qed.

Lemma child_link_block_num_after_new_witness :
  exists e n,
    RockRidge_new epoch RockRidgeBase_init args_relocated_child = Ok (e, n)
    /\ RockRidge_child_link_block_num e = Ok 0
    /\ exists e',
        RockRidge_update_child_link
          (set_child_link (Some (mkDR (Ok 25))) e) = Ok e'
        /\ RockRidge_child_link_block_num e' = Ok 25.
Proof.
  destruct (RockRidge_new epoch RockRidgeBase_init args_relocated_child)
    as [[e n]|x] eqn:E; [|vm_compute in E; discriminate E].
  exists e, n. split; [reflexivity|].
  destruct (child_link_block_num_after_new epoch args_relocated_child e n E
              eq_refl) as (H0 & _ & Hup).
  split; [exact H0|].
  exact (Hup (mkDR (Ok 25)) 25 eq_refl).
Defined.

(** C6 as the spec states it fails: on the entry [new()] builds for a
    relocated child, [child_link_block_num()] returns rather than raises. *)
Lemma child_link_block_num_does_not_raise :
  exists e n,
    RockRidge_new epoch RockRidgeBase_init args_relocated_child = Ok (e, n)
    /\ ~ raises (RockRidge_child_link_block_num e).
Proof.
  eexists _, _. split; [vm_compute; reflexivity|].
  intros [x Hx]. vm_compute in Hx. discriminate Hx.
Qed.

(** ** The layout budget (C1) *)

Lemma prelude_safe_has_ce : prelude_safe has_ce.
Proof. unfold prelude_safe, safe, has_ce. solve_safe. Qed.

Lemma coda_safe_has_ce : coda_safe has_ce.
Proof. unfold coda_safe, safe, has_ce. solve_safe. Qed.

(** The part of C1 that holds: a CE record is created exactly when the
    estimate is over the allowed size. *)
Lemma new_ce_iff_estimate (now : clock) (self e : RockRidgeBase)
  (a : new_args) (n : Z) :
  ce_record self = None ->
  RockRidge_new_layout now self a = Ok (e, n) ->
  has_ce e = true <-> ALLOWED_DR_SIZE < new_estimate a.
Proof.
  intros Hself E. apply new_layout_trace in E.
  destruct E as (_ & t & Ht & H0 & -> & _).
  change (has_ce (set_initialized true (fst (t_er t))))
    with (has_ce (fst (t_er t))).
  rewrite (new_trace_coda has_ce _ _ _ Ht coda_safe_has_ce).
  assert (Hcl : has_ce (fst (t_cl t)) = has_ce (fst (t_tf t))).
  { destruct Ht as (_ & _ & _ & _ & _ & _ & E7 & _).
    destruct (t_tf t) as [e6 d6], (t_cl t) as [e7 d7].
    apply (new_cl_frame has_ce _ _ _ _ _
             ltac:(unfold safe, has_ce; solve_safe) E7). }
  rewrite Hcl.
  rewrite (new_trace_prelude has_ce _ _ _ Ht prelude_safe_has_ce).
  rewrite H0. unfold new_ce.
  destruct (Z.ltb_spec ALLOWED_DR_SIZE (new_estimate a)) as [Hlt|Hge];
    cbn [fst]; unfold has_ce; cbn.
  - split; [intros _; exact Hlt | reflexivity].
  - rewrite Hself. split; [discriminate | lia].
Qed.

(** C1 fails on the code.  The SL stage puts the symlink record into the
    directory record when the record header and a one-byte component would
    fit, and then adds every component to it up to the 255-byte limit of the
    SL record itself, without looking at [ALLOWED_DR_SIZE] again, as every
    other placement does.  Here the estimate is 322, a CE record is
    created, and the directory-record length before the padding is 324. *)
Theorem new_symlink_exceeds_budget :
  new_estimate args_long_symlink = 322
  /\ new_fresh_length args_long_symlink = Ok 324
  /\ exists e n, new_fresh args_long_symlink = Ok (e, n)
                 /\ n = 324 /\ has_ce e = true
                 /\ map RRSLRecord_current_length (sl_records e) = [207].
Proof.
  split; [vm_compute; reflexivity|].
  split; [vm_compute; reflexivity|].
  eexists _, _. split; [vm_compute; reflexivity|].
  repeat split; vm_compute; reflexivity.
Qed.

(** ** Protocol version and PX (C5) *)

Lemma pack_Bs_inv (xs : list Z) (b : str) :
  pack_Bs xs = Ok b -> b = map chr xs.
Proof.
  revert b. induction xs as [|x r IH]; intros b; cbn [pack_Bs map].
  - intros [= <-]. reflexivity.
  - unfold pack_B. destruct ((0 <=? x) && (x <? 256)); [|discriminate].
    cbn [bind]. destruct (pack_Bs r) as [b'|]; [|discriminate].
    cbn [bind]. intros [= <-]. rewrite (IH b' eq_refl). reflexivity.
Qed.

Lemma pack_Ls_inv (xs : list Z) (b : str) :
  pack_Ls xs = Ok b -> b = concat (map le32 xs).
Proof.
  revert b. induction xs as [|x r IH]; intros b; cbn [pack_Ls map concat].
  - intros [= <-]. reflexivity.
  - unfold pack_L. destruct ((0 <=? x) && (x <? 4294967296)); [|discriminate].
    cbn [bind]. destruct (pack_Ls r) as [b'|]; [|discriminate].
    cbn [bind]. intros [= <-]. rewrite (IH b' eq_refl). reflexivity.
Qed.

(** Whatever the PX record holds, [record()] as the entry calls it writes
    36 bytes with 36 in the length byte. *)
Lemma RRPXRecord_record_length (r : RRPXRecord) (b : str) :
  RRPXRecord_record r = Ok b -> len b = 36 /\ get_B b 2 = 36.
Proof.
  unfold RRPXRecord_record, RRPXRecord_record_v.
  destruct (pack_Bs _) as [h|] eqn:Eh; [|discriminate].
  destruct (pack_Ls _) as [l|] eqn:El; [|discriminate].
  apply pack_Bs_inv in Eh. apply pack_Ls_inv in El. subst h l.
  cbn [bind]. intros [= <-]. split; reflexivity.
Qed.

(** C5 fails on the code.  [RockRidge.new] budgets [RRPXRecord.length()]
    and [RockRidgeBase.record] calls [px_record.record()], both without the
    protocol version, so that the default "1.09" applies: for version "1.12"
    the budget is 36 bytes (34 + NM 8 + PX 36 + TF 26 = 104, where the
    44-byte form would give 112) and the emitted PX record has 36 bytes,
    with length byte 36 and no serial number. *)
Theorem new_v112_px_is_36_bytes :
  exists e px,
    new_fresh args_v112 = Ok (e, 104)
    /\ px_record e = Some px
    /\ exists b, RRPXRecord_record px = Ok b
                 /\ len b = 36 /\ get_B b 2 = 36
                 /\ exists nm tf, RockRidgeBase_record e = Ok (nm ++ b ++ tf)
                                  /\ len nm = 8 /\ len tf = 26.
Proof.
  eexists _, _. split; [vm_compute; reflexivity|].
  split; [vm_compute; reflexivity|].
  eexists. split; [vm_compute; reflexivity|].
  split; [reflexivity|]. split; [reflexivity|].
  eexists (map chr [78; 77; 8; 1; 0; 102; 111; 111]), (_ :: _).
  split; [vm_compute; reflexivity|].
  split; reflexivity.
Qed.

(** ** Symlink reconstruction (C4, C7) *)

(** C4 fails on the code.  A component that does not fit the current SL
    record is cut at the byte that fills the record, and the rest starts a
    new SL record in the continuation; neither piece is marked as continued.
    [symlink_path()] joins the records with "/", so the cut shows up as a
    separator: the 300-byte single-component path comes back as 248 bytes,
    "/", and 52 bytes. *)
Theorem symlink_split_inserts_separator :
  exists e n,
    new_fresh args_split_symlink = Ok (e, n)
    /\ RockRidge_symlink_path e
       = Ok (repeat "a"%char 248 ++ lit "/" ++ repeat "a"%char 52)
    /\ RockRidge_symlink_path e <> Ok (repeat "a"%char 300).
Proof.
  eexists _, _. split; [vm_compute; reflexivity|].
  split; [vm_compute; reflexivity|].
  vm_compute. discriminate.
Qed.

(** C7 fails on the code.  [symlink_path()] raises when the entry has no SL
    record of its own, and also when there is a CE record whose continuation
    has none: in both cases below an SL record exists, [is_symlink()]
    answers [True], and [symlink_path()] raises. *)
Theorem symlink_path_raises_on_symlinks :
  (exists e n,
      new_fresh args_symlink_inline = Ok (e, n)
      /\ map symlink_components (sl_records e) = [[lit "foo"]]
      /\ RockRidge_is_symlink e = Ok true
      /\ RockRidge_symlink_path e
         = Raise (PyIsoException "Entry is not a symlink!"))
  /\ (exists e n c,
         new_fresh args_symlink_in_cont = Ok (e, n)
         /\ continuation e = Some c
         /\ map symlink_components (sl_records c) = [[lit "foo"]]
         /\ RockRidge_is_symlink e = Ok true
         /\ RockRidge_symlink_path e
            = Raise (PyIsoException "Entry is not a symlink!")).
Proof.
  split.
  - eexists _, _. split; [vm_compute; reflexivity|].
    repeat split; vm_compute; reflexivity.
  - eexists _, _, _. split; [vm_compute; reflexivity|].
    split; [vm_compute; reflexivity|].
    repeat split; vm_compute; reflexivity.
Qed.

(** ** Termination of the parse loop (C9) *)

(** A round that goes on has read a header, with at least four bytes
    declared left, and has moved the cursor and the count by the header's
    [su_len]. *)
Lemma parse_iter_continue (record : str) (flag : bool) (st st' : parse_state) :
  parse_iter record flag st = Continue st' ->
  4 <= ps_left st
  /\ ps_left st' = ps_left st - declared_su_len record st
  /\ ps_offset st' = ps_offset st + declared_su_len record st.
Proof.
  unfold parse_iter, declared_su_len.
  destruct (Z.eqb_spec (ps_left st) 0); [discriminate|].
  destruct (Z.eqb_spec (ps_left st) 1).
  { destruct (index _ _); [destruct (negb _)|]; discriminate. }
  destruct (Z.ltb_spec (ps_left st) 4); [discriminate|].
  destruct (calcsize_check _ 4); [|discriminate].
  destruct (negb _); [discriminate|].
  destruct (parse_dispatch _ _ _ _ _); [|discriminate].
  intros [= <-]. cbn [ps_left ps_offset]. repeat split; lia.
Qed.

(** Whether a round goes on, and where to, does not depend on the entry
    filled so far. *)
Lemma parse_iter_entry (record : str) (flag : bool) (st st' : parse_state)
  (e : RockRidgeBase) :
  parse_iter record flag st = Continue st' ->
  exists e',
    parse_iter record flag (mkPS e (ps_offset st) (ps_left st))
    = Continue (mkPS e' (ps_offset st') (ps_left st')).
Proof.
  unfold parse_iter. cbn [ps_left ps_offset ps_entry].
  destruct (ps_left st =? 0); [discriminate|].
  destruct (ps_left st =? 1).
  { destruct (index _ _); [destruct (negb _)|]; discriminate. }
  destruct (ps_left st <? 4); [discriminate|].
  destruct (calcsize_check _ 4); [|discriminate].
  destruct (negb _); [discriminate|].
  destruct (parse_dispatch _ _ _ _ _) as [assign|]; [|discriminate].
  intros [= <-]. exists (assign e). reflexivity.
Qed.

Lemma parse_loop_terminates (record : str) (flag : bool) (s0 : parse_state) :
  (forall st st',
      parse_reach record flag s0 st ->
      parse_iter record flag st = Continue st' ->
      1 <= declared_su_len record st) ->
  forall fuel st,
    parse_reach record flag s0 st ->
    ps_left st <= Z.of_nat fuel ->
    exists r, parse_loop (S fuel) record flag st = Some r.
Proof.
  intros Hpos. induction fuel as [|fuel IH]; intros st Hreach Hleft.
  - cbn [parse_loop].
    destruct (parse_iter record flag st) as [e|e slot x|st'] eqn:E;
      [eexists; reflexivity | eexists; reflexivity |].
    apply parse_iter_continue in E. lia.
  - change (parse_loop (S (S fuel)) record flag st)
      with (match parse_iter record flag st with
            | Break e => Some (Parsed e)
            | Fail e slot x => Some (Aborted e slot x)
            | Continue st' => parse_loop (S fuel) record flag st'
            end).
    destruct (parse_iter record flag st) as [e|e slot x|st'] eqn:E;
      [eexists; reflexivity | eexists; reflexivity |].
    apply IH.
    + eapply reach_round; eassumption.
    + pose proof (Hpos st st' Hreach E).
      apply parse_iter_continue in E. lia.
Qed.

Lemma parse_loop_diverges (record : str) (flag : bool) (st st' : parse_state) :
  parse_iter record flag st = Continue st' ->
  declared_su_len record st = 0 ->
  forall fuel, parse_loop fuel record flag st = None.
Proof.
  intros E H0 fuel. revert st st' E H0.
  induction fuel as [|fuel IH]; intros st st' E H0; [reflexivity|].
  cbn [parse_loop]. rewrite E.
  destruct (parse_iter_continue _ _ _ _ E) as (_ & Hl & Ho).
  rewrite H0, Z.sub_0_r in Hl. rewrite H0, Z.add_0_r in Ho.
  destruct (parse_iter_entry _ _ _ _ (ps_entry st') E) as (e' & E').
  rewrite <- Ho, <- Hl in E'.
  assert (Hst : mkPS (ps_entry st') (ps_offset st') (ps_left st') = st')
    by (destruct st'; reflexivity).
  rewrite Hst in E'.
  apply (IH st' _ E').
  unfold declared_su_len in *. rewrite Ho. exact H0.
Qed.

(** C9.  [_parse] comes to an end (a result or an exception) within
    [len(record) + 1] rounds on every input on which each header the loop
    dispatches declares [su_len >= 1].  The precondition is needed: a round
    that dispatches a header with [su_len = 0] leaves cursor and count where
    they were, and the loop never ends; the four bytes "PD", 0, 1 are such
    an input. *)
Theorem parse_terminates_on_positive_su_len :
  (forall (self : RockRidgeBase) (record : str) (bytes_to_skip : Z)
          (flag : bool),
      (forall st st',
          parse_reach record flag (parse_start self record bytes_to_skip) st ->
          parse_iter record flag st = Continue st' ->
          1 <= declared_su_len record st) ->
      exists r,
        _parse (S (length record)) self record bytes_to_skip flag = Some r)
  /\ (forall (self : RockRidgeBase) (record : str) (bytes_to_skip : Z)
             (flag : bool) st',
         parse_iter record flag (parse_start self record bytes_to_skip)
         = Continue st' ->
         declared_su_len record (parse_start self record bytes_to_skip) = 0 ->
         forall fuel, _parse fuel self record bytes_to_skip flag = None)
  /\ (forall self fuel, _parse fuel self pd_zero_len 0 false = None).
Proof.
  split; [|split].
  - intros self record skip flag Hpos.
    destruct (parse_loop_terminates record flag _ Hpos (length record)
                (parse_start self record skip)) as (r & Hr).
    + constructor.
    + unfold parse_start, len. cbn [ps_left]. lia.
    + unfold _parse. rewrite Hr.
      destruct r; eexists; reflexivity.
  - intros self record skip flag st' E H0 fuel.
    unfold _parse. rewrite (parse_loop_diverges _ _ _ _ E H0). reflexivity.
  - intros self fuel. unfold _parse.
    rewrite (parse_loop_diverges pd_zero_len false
               (parse_start self pd_zero_len 0)
               (mkPS (set_rr_bytes_to_skip (Some 0) self) 0 4));
      reflexivity.
Qed.

Lemma parse_terminates_on_positive_su_len_witness :
  exists r, _parse 6 RockRidgeBase_init rr_only 0 false = Some r.
Proof.
  apply (proj1 parse_terminates_on_positive_su_len
               RockRidgeBase_init rr_only 0 false).
  intros st st' Hreach.
  assert (Hst : (ps_offset st = 0 /\ ps_left st = 5)
                \/ (ps_offset st = 5 /\ ps_left st = 0)).
  { induction Hreach as [|s1 s2 _ IH E].
    - left. split; reflexivity.
    - destruct (parse_iter_continue _ _ _ _ E) as (H4 & Hl & Ho).
      destruct IH as [[Io Il]|[Io Il]]; [|lia].
      right. unfold declared_su_len in Hl, Ho. rewrite Io in Hl, Ho.
      change (get_B (slice rr_only 0 (0 + 4)) 2) with 5 in Hl, Ho. lia. }
  intros E. destruct (parse_iter_continue _ _ _ _ E) as (H4 & _).
  destruct Hst as [[Io Il]|[Io Il]]; [|lia].
  unfold declared_su_len. rewrite Io.
  change (get_B (slice rr_only 0 (0 + 4)) 2) with 5. lia.
Defined.

(** ** Dual-endian fields (C3) *)

Lemma Ok_inj {A : Type} (a b : A) : Ok a = Ok b -> a = b.
Proof. intros H. injection H as H. exact H. Qed.

Ltac ok_subst := let H := fresh in intros H; apply Ok_inj in H; subst.

Ltac norm_app :=
  repeat (rewrite app_nil_r || rewrite <- app_assoc); try reflexivity.

Lemma get_B_range (buf : str) (i : nat) : 0 <= get_B buf i < 256.
Proof. apply ord_range. Qed.

Lemma get_L_range (buf : str) (i : nat) : 0 <= get_L buf i < 4294967296.
Proof.
  unfold get_L.
  pose proof (get_B_range buf i). pose proof (get_B_range buf (i + 1)).
  pose proof (get_B_range buf (i + 2)). pose proof (get_B_range buf (i + 3)).
  lia.
Qed.

Lemma pack_Ls_dual_inv (xs : list Z) (b : str) :
  pack_Ls (flat_map (fun x => [x; swab_32bit x]) xs) = Ok b ->
  b = concat (map dual xs).
Proof.
  intros H. apply pack_Ls_inv in H. subst b.
  induction xs as [|x r IH]; [reflexivity|].
  cbn [flat_map map concat app]. rewrite IH. unfold dual, be32.
  rewrite le32_swab, <- app_assoc. reflexivity.
Qed.

Lemma swab_mismatch (le be : Z) :
  0 <= le < 4294967296 -> 0 <= be < 4294967296 ->
  be <> swab_32bit le -> (le =? swab_32bit be) = false.
Proof.
  intros Hle Hbe Hne. apply Z.eqb_neq. intros ->.
  apply Hne. symmetry. apply swab_32bit_involutive, Hbe.
Qed.

(** C3, as the source has it.  The six records with dual-endian fields
    always encode each such field as the little-endian value followed by its
    byte-swapped copy.  Of the six decoders only CL and PL compare the two
    copies, and they raise on every input where the big-endian copy is not
    the byte swap of the little-endian one. *)
Theorem dual_endian_fields :
  (forall r b, RRCLRecord_record r = Ok b ->
     b = lit "CL" ++ map chr [12; 1] ++ dual (child_log_block_num r))
  /\ (forall r b, RRPLRecord_record r = Ok b ->
        b = lit "PL" ++ map chr [12; 1] ++ dual (parent_log_block_num r))
  /\ (forall r v b, RRPXRecord_record_v r v = Ok b ->
        b = lit "PX" ++ map chr [36; 1]
            ++ dual (posix_file_mode r) ++ dual (posix_file_links r)
            ++ dual (posix_user_id r) ++ dual (posix_group_id r)
            ++ (if String.eqb v "1.09" then []
                else dual (posix_serial_number r)))
  /\ (forall r b, RRPNRecord_record r = Ok b ->
        b = lit "PN" ++ map chr [20; 1]
            ++ dual (dev_t_high r) ++ dual (dev_t_low r))
  /\ (forall ce b, RRCERecord_record ce = Ok b ->
        exists c loc,
          continuation_entry ce = Some c
          /\ RockRidgeContinuation_extent_location c = Ok loc
          /\ b = lit "CE" ++ map chr [28; 1] ++ dual loc
                 ++ dual (continue_offset c) ++ dual (continue_length c))
  /\ (forall r b, RRSFRecord_record r = Ok b ->
        b = lit "SF" ++ map chr [21; 1]
            ++ dual (virtual_file_size_high r)
            ++ dual (virtual_file_size_low r) ++ [chr (table_depth r)])
  /\ (forall rrstr, link_be rrstr <> swab_32bit (link_le rrstr) ->
        raises (RRCLRecord_parse rrstr))
  /\ (forall rrstr, link_be rrstr <> swab_32bit (link_le rrstr) ->
        raises (RRPLRecord_parse rrstr)).
Proof.
  repeat apply conj.
  - intros r b. unfold RRCLRecord_record.
    destruct (pack_Bs _) as [h|] eqn:Eh; [|discriminate].
    destruct (pack_Ls _) as [l|] eqn:El; [|discriminate].
    apply pack_Bs_inv in Eh.
    apply (pack_Ls_dual_inv [_]) in El. subst h l.
    cbn [bind map concat]. ok_subst. norm_app.
  - intros r b. unfold RRPLRecord_record.
    destruct (pack_Bs _) as [h|] eqn:Eh; [|discriminate].
    destruct (pack_Ls _) as [l|] eqn:El; [|discriminate].
    apply pack_Bs_inv in Eh.
    apply (pack_Ls_dual_inv [_]) in El. subst h l.
    cbn [bind map concat]. ok_subst. norm_app.
  - intros r v b. unfold RRPXRecord_record_v.
    destruct (pack_Bs _) as [h|] eqn:Eh; [|discriminate].
    destruct (pack_Ls _) as [l|] eqn:El; [|discriminate].
    apply pack_Bs_inv in Eh.
    apply (pack_Ls_dual_inv [_; _; _; _]) in El. subst h l.
    cbn [bind map concat].
    destruct (String.eqb v "1.09"); cbn [negb].
    + ok_subst. norm_app.
    + destruct (pack_Ls _) as [t|] eqn:Et; [|discriminate].
      apply (pack_Ls_dual_inv [_]) in Et. subst t.
      cbn [bind map concat]. ok_subst. norm_app.
  - intros r b. unfold RRPNRecord_record.
    destruct (pack_Bs _) as [h|] eqn:Eh; [|discriminate].
    destruct (pack_Ls _) as [l|] eqn:El; [|discriminate].
    apply pack_Bs_inv in Eh.
    apply (pack_Ls_dual_inv [_; _]) in El. subst h l.
    cbn [bind map concat]. ok_subst.
    norm_app.
  - intros ce b. unfold RRCERecord_record.
    destruct (ce_initialized ce); [|discriminate]. cbn [negb].
    destruct (continuation_entry ce) as [c|]; [|discriminate].
    cbn [getattr bind].
    destruct (RockRidgeContinuation_extent_location _) as [loc|] eqn:Eloc;
      [|discriminate].
    cbn [bind].
    destruct (pack_Bs _) as [h|] eqn:Eh; [|discriminate].
    destruct (pack_Ls _) as [l|] eqn:El; [|discriminate].
    apply pack_Bs_inv in Eh.
    apply (pack_Ls_dual_inv [_; _; _]) in El. subst h l.
    cbn [bind map concat]. ok_subst. exists c, loc.
    split; [reflexivity|]. split; [exact Eloc|].
    norm_app.
  - intros r b. unfold RRSFRecord_record.
    destruct (pack_Bs _) as [h|] eqn:Eh; [|discriminate].
    destruct (pack_Ls _) as [l|] eqn:El; [|discriminate].
    apply pack_Bs_inv in Eh.
    apply (pack_Ls_dual_inv [_; _]) in El. subst h l.
    cbn [bind map concat].
    destruct (pack_B _) as [d|] eqn:Ed; [|discriminate].
    unfold pack_B in Ed. destruct (_ && _) in Ed; [|discriminate].
    apply Ok_inj in Ed. subst d. cbn [bind]. ok_subst.
    norm_app.
  - intros rrstr Hne. unfold RRCLRecord_parse.
    destruct (calcsize_check _ 10); [|eexists; reflexivity].
    cbn [bind]. destruct (negb (_ =? RRCLRecord_length));
      [eexists; reflexivity|].
    fold (link_le rrstr). fold (link_be rrstr).
    rewrite swab_mismatch by (apply get_L_range || exact Hne).
    eexists. reflexivity.
  - intros rrstr Hne. unfold RRPLRecord_parse.
    destruct (calcsize_check _ 10); [|eexists; reflexivity].
    cbn [bind]. destruct (negb (_ =? RRPLRecord_length));
      [eexists; reflexivity|].
    fold (link_le rrstr). fold (link_be rrstr).
    rewrite swab_mismatch by (apply get_L_range || exact Hne).
    eexists. reflexivity.
Qed.

Lemma dual_endian_fields_witness :
  RRCLRecord_record (mkCL 5) = Ok (lit "CL" ++ map chr [12; 1] ++ dual 5)
  /\ raises (RRCLRecord_parse cl_unswapped).
Proof.
  destruct dual_endian_fields as (Hcl & _ & _ & _ & _ & _ & Hparse & _).
  split.
  - destruct (RRCLRecord_record (mkCL 5)) as [b|] eqn:E;
      [|vm_compute in E; discriminate E].
    rewrite (Hcl _ _ E). reflexivity.
  - apply Hparse. vm_compute. discriminate.
Defined.

(** C3 as the spec states it fails: the PX, PN, CE and SF decoders do not
    look at the big-endian copies and accept a record in which a copy is
    not the byte swap of the value. *)
Lemma decoders_accept_unswapped_copy :
  swab_32bit 5 <> 5
  /\ Forall (fun rrstr => get_L rrstr 4 = 5 /\ get_L rrstr 8 = 5)
            [px_unswapped; pn_unswapped; ce_unswapped; sf_unswapped]
  /\ RRPXRecord_parse px_unswapped = Ok (mkPX 5 0 0 0 0)
  /\ RRPNRecord_parse pn_unswapped = Ok (mkPN 5 0)
  /\ (exists ce c, RRCERecord_parse ce_unswapped = Ok ce
                   /\ continuation_entry ce = Some c
                   /\ orig_extent_loc c = Some 5)
  /\ RRSFRecord_parse sf_unswapped = Ok (mkSF 5 0 0).
Proof.
  split; [vm_compute; discriminate|].
  split; [repeat constructor; vm_compute; reflexivity|].
  split; [vm_compute; reflexivity|].
  split; [vm_compute; reflexivity|].
  split; [|vm_compute; reflexivity].
  eexists _, _. repeat split; vm_compute; reflexivity.
Qed.
(** ** Round trips (C2) *)

Lemma calcsize_check_ok (buf : str) (n : Z) :
  len buf = n -> calcsize_check buf n = Ok tt.
Proof. intros H. unfold calcsize_check. rewrite H, Z.eqb_refl. reflexivity. Qed.

Lemma slice_at (pre x post : str) (lo hi : Z) :
  lo = len pre -> hi = lo + len x -> slice (pre ++ x ++ post) lo hi = x.
Proof. intros -> ->. apply slice_middle. Qed.

(** Slices with literal bounds of a string whose first bytes are spelled
    out. *)
Ltac slice_lit :=
  repeat match goal with
         | |- context [slice ?x ?lo ?hi] =>
             rewrite (slice_spec x lo hi)
               by (try (unfold len; cbn [length]); lia);
             let n := eval vm_compute in (Z.to_nat (hi - lo)) in
             change (Z.to_nat (hi - lo)) with n;
             let m := eval vm_compute in (Z.to_nat lo) in
             change (Z.to_nat lo) with m;
             cbn [firstn skipn]
         end.

Ltac spell :=
  cbn [lit list_ascii_of_string map app concat le32 bind].

Create HintDb rr_consts.
#[local] Hint Unfold SU_ENTRY_VERSION RRSPRecord_length RRRRRecord_length
  RRPXRecord_length RRPXRecord_length_v RRESRecord_length RRPNRecord_length
  RRCLRecord_length RRPLRecord_length RRSFRecord_length RRRERecord_length
  RRCERecord_length RRNMRecord_length RRERRecord_length is_byte is_u32
  : rr_consts.

Ltac range_ok :=
  repeat match goal with |- Forall _ _ => constructor end;
  autounfold with rr_consts in *; cbn [String.eqb Ascii.eqb Bool.eqb] in *;
  first [lia | apply swab_32bit_range].

Lemma RRSPRecord_round_trip (r : RRSPRecord) (rest : str) :
  is_byte (bytes_to_skip r) ->
  exists b, RRSPRecord_record r = Ok b /\ RRSPRecord_parse (b ++ rest) = Ok r.
Proof.
  intros H. unfold RRSPRecord_record.
  rewrite pack_Bs_ok by range_ok.
  spell. eexists. split; [reflexivity|].
  unfold RRSPRecord_parse. cbv zeta. spell. slice_lit.
  rewrite calcsize_check_ok by reflexivity. cbn [bind].
  unfold get_B. cbn [nth]. rewrite !ord_chr by range_ok.
  destruct r. reflexivity.
Qed.

Lemma RRPXRecord_round_trip (r : RRPXRecord) (rest : str) :
  is_u32 (posix_file_mode r) -> is_u32 (posix_file_links r) ->
  is_u32 (posix_user_id r) -> is_u32 (posix_group_id r) ->
  posix_serial_number r = 0 ->
  exists b, RRPXRecord_record r = Ok b /\ RRPXRecord_parse (b ++ rest) = Ok r.
Proof.
  intros H1 H2 H3 H4 H5. unfold RRPXRecord_record, RRPXRecord_record_v.
  rewrite pack_Bs_ok by range_ok. rewrite pack_Ls_ok by range_ok.
  cbn [String.eqb Ascii.eqb Bool.eqb negb].
  spell. eexists. split; [reflexivity|].
  unfold RRPXRecord_parse. cbv zeta. spell. slice_lit.
  rewrite calcsize_check_ok by reflexivity. cbn [bind].
  unfold get_B at 1. cbn [nth]. rewrite ord_chr by range_ok.
  change (RRPXRecord_length =? 36) with true. cbv iota.
  rewrite calcsize_check_ok by reflexivity. cbn [bind].
  unfold get_L, get_B. cbn [nth Nat.add].
  rewrite !le32_decode by assumption.
  destruct r. cbn in H5. subst. reflexivity.
Qed.

Lemma RRRRRecord_round_trip (r : RRRRRecord) (rest : str) :
  is_byte (rr_flags r) ->
  exists b, RRRRRecord_record r = Ok b /\ RRRRRecord_parse (b ++ rest) = Ok r.
Proof.
  intros H. unfold RRRRRecord_record.
  rewrite pack_Bs_ok by range_ok.
  spell. eexists. split; [reflexivity|].
  unfold RRRRRecord_parse. cbv zeta. spell. slice_lit.
  rewrite calcsize_check_ok by reflexivity. cbn [bind].
  unfold get_B. cbn [nth]. rewrite !ord_chr by range_ok.
  destruct r. reflexivity.
Qed.

Lemma RRESRecord_round_trip (r : RRESRecord) (rest : str) :
  is_byte (extension_sequence r) ->
  exists b, RRESRecord_record r = Ok b /\ RRESRecord_parse (b ++ rest) = Ok r.
Proof.
  intros H. unfold RRESRecord_record.
  rewrite pack_Bs_ok by range_ok.
  spell. eexists. split; [reflexivity|].
  unfold RRESRecord_parse. cbv zeta. spell. slice_lit.
  rewrite calcsize_check_ok by reflexivity. cbn [bind].
  unfold get_B. cbn [nth]. rewrite !ord_chr by range_ok.
  destruct r. reflexivity.
Qed.

Lemma RRPNRecord_round_trip (r : RRPNRecord) (rest : str) :
  is_u32 (dev_t_high r) -> is_u32 (dev_t_low r) ->
  exists b, RRPNRecord_record r = Ok b /\ RRPNRecord_parse (b ++ rest) = Ok r.
Proof.
  intros H1 H2. unfold RRPNRecord_record.
  rewrite pack_Bs_ok by range_ok. rewrite pack_Ls_ok by range_ok.
  spell. eexists. split; [reflexivity|].
  unfold RRPNRecord_parse. cbv zeta. spell. slice_lit.
  rewrite calcsize_check_ok by reflexivity. cbn [bind].
  unfold get_L, get_B. cbn [nth Nat.add].
  rewrite ord_chr by range_ok. rewrite !le32_decode by assumption.
  destruct r. reflexivity.
Qed.

Lemma RRCLRecord_round_trip (r : RRCLRecord) (rest : str) :
  is_u32 (child_log_block_num r) ->
  exists b, RRCLRecord_record r = Ok b /\ RRCLRecord_parse (b ++ rest) = Ok r.
Proof.
  intros H. unfold RRCLRecord_record.
  rewrite pack_Bs_ok by range_ok. rewrite pack_Ls_ok by range_ok.
  spell. eexists. split; [reflexivity|].
  unfold RRCLRecord_parse. cbv zeta. spell. slice_lit.
  rewrite calcsize_check_ok by reflexivity. cbn [bind].
  unfold get_L, get_B. cbn [nth Nat.add].
  rewrite ord_chr by range_ok.
  rewrite (le32_decode (swab_32bit _)) by apply swab_32bit_range.
  rewrite le32_decode by assumption.
  rewrite swab_32bit_involutive by assumption. rewrite !Z.eqb_refl.
  destruct r. reflexivity.
Qed.

Lemma RRPLRecord_round_trip (r : RRPLRecord) (rest : str) :
  is_u32 (parent_log_block_num r) ->
  exists b, RRPLRecord_record r = Ok b /\ RRPLRecord_parse (b ++ rest) = Ok r.
Proof.
  intros H. unfold RRPLRecord_record.
  rewrite pack_Bs_ok by range_ok. rewrite pack_Ls_ok by range_ok.
  spell. eexists. split; [reflexivity|].
  unfold RRPLRecord_parse. cbv zeta. spell. slice_lit.
  rewrite calcsize_check_ok by reflexivity. cbn [bind].
  unfold get_L, get_B. cbn [nth Nat.add].
  rewrite ord_chr by range_ok.
  rewrite (le32_decode (swab_32bit _)) by apply swab_32bit_range.
  rewrite le32_decode by assumption.
  rewrite swab_32bit_involutive by assumption. rewrite !Z.eqb_refl.
  destruct r. reflexivity.
Qed.

Lemma RRSFRecord_round_trip (r : RRSFRecord) (rest : str) :
  is_u32 (virtual_file_size_high r) -> is_u32 (virtual_file_size_low r) ->
  is_byte (table_depth r) ->
  exists b, RRSFRecord_record r = Ok b /\ RRSFRecord_parse (b ++ rest) = Ok r.
Proof.
  intros H1 H2 H3. unfold RRSFRecord_record.
  rewrite pack_Bs_ok by range_ok. rewrite pack_Ls_ok by range_ok.
  rewrite pack_B_ok by range_ok.
  spell. eexists. split; [reflexivity|].
  unfold RRSFRecord_parse. cbv zeta. spell. slice_lit.
  rewrite calcsize_check_ok by reflexivity. cbn [bind].
  unfold get_L, get_B. cbn [nth Nat.add].
  rewrite !le32_decode by assumption. rewrite !ord_chr by range_ok.
  destruct r. reflexivity.
Qed.

Lemma RRRERecord_round_trip (r : RRRERecord) (rest : str) :
  exists b, RRRERecord_record r = Ok b /\ RRRERecord_parse (b ++ rest) = Ok r.
Proof.
  unfold RRRERecord_record.
  rewrite pack_Bs_ok by range_ok.
  spell. eexists. split; [reflexivity|].
  unfold RRRERecord_parse. cbv zeta. spell. slice_lit.
  rewrite calcsize_check_ok by reflexivity. cbn [bind].
  unfold get_B. cbn [nth]. rewrite !ord_chr by range_ok.
  destruct r. reflexivity.
Qed.

Lemma RRCERecord_round_trip (loc offset length : Z) (rest : str) :
  is_u32 loc -> is_u32 offset -> is_u32 length ->
  exists b, RRCERecord_record (ce_pointer loc offset length) = Ok b
            /\ RRCERecord_parse (b ++ rest) = Ok (ce_pointer loc offset length).
Proof.
  intros H1 H2 H3. unfold RRCERecord_record, ce_pointer.
  cbn [continuation_entry ce_initialized negb getattr
         RockRidgeContinuation_extent_location
         new_extent_loc orig_extent_loc RockRidgeContinuation_offset
         RockRidgeContinuation_length continue_offset continue_length bind].
  rewrite pack_Bs_ok by range_ok. rewrite pack_Ls_ok by range_ok.
  spell. eexists. split; [reflexivity|].
  unfold RRCERecord_parse. cbv zeta. spell. slice_lit.
  rewrite calcsize_check_ok by reflexivity. cbn [bind].
  unfold get_L, get_B. cbn [nth Nat.add].
  rewrite ord_chr by range_ok. rewrite !le32_decode by assumption.
  reflexivity.
Qed.

(** *** NM *)

Lemma len_zero (x : str) : len x = 0 -> x = [].
Proof. destruct x; [reflexivity|]. unfold len. cbn [length]. lia. Qed.

Lemma RRNMRecord_round_trip (r : RRNMRecord) (rest : str) :
  valid_NM r ->
  exists b, RRNMRecord_record r = Ok b /\ RRNMRecord_parse (b ++ rest) = Ok r.
Proof.
  intros (Hf & Hin & Hbits & Hlen). destruct r as [flags name].
  cbn [posix_name posix_name_flags] in *.
  pose proof (len_nonneg name) as Hn.
  unfold RRNMRecord_record. cbn [posix_name posix_name_flags].
  rewrite pack_Bs_ok by range_ok.
  spell. eexists. split; [reflexivity|].
  unfold RRNMRecord_parse. cbv zeta. spell.
  rewrite (slice_spec _ 2 5)
    by (try (unfold len; cbn [length]); lia).
  change (Z.to_nat (5 - 2)) with 3%nat. change (Z.to_nat 2) with 2%nat.
  cbn [firstn skipn].
  rewrite calcsize_check_ok by reflexivity. cbn [bind].
  unfold get_B. cbn [nth]. rewrite !ord_chr by range_ok.
  rewrite Hin. cbn [negb].
  unfold RRNMRecord_length.
  replace (5 + len name - 5) with (len name) by lia.
  destruct (Z.eqb_spec (len name) 0) as [E|E]; cbn [negb].
  - rewrite (len_zero _ E). reflexivity.
  - rewrite Hbits by (intros ->; apply E; reflexivity).
    match goal with
    | |- context [slice (?a :: ?b :: ?c :: ?d :: ?e :: ?x ++ ?y) _ _] =>
        change (a :: b :: c :: d :: e :: x ++ y)
          with ([a; b; c; d; e] ++ x ++ y)
    end.
    rewrite slice_at by reflexivity. reflexivity.
Qed.

(** *** ER *)

Lemma slice_shape (rrstr pre x post : str) (lo hi : Z) :
  rrstr = pre ++ x ++ post -> lo = len pre -> hi = lo + len x ->
  slice rrstr lo hi = x.
Proof. intros ->. apply slice_at. Qed.

Lemma RRERRecord_round_trip (r : RRERRecord) (rest : str) :
  valid_ER r ->
  exists b, RRERRecord_record r = Ok b /\ RRERRecord_parse (b ++ rest) = Ok r.
Proof.
  unfold valid_ER. destruct r as [id des src]. cbn [ext_id ext_des ext_src].
  intros Hlen. unfold RRERRecord_length in Hlen.
  pose proof (len_nonneg id). pose proof (len_nonneg des).
  pose proof (len_nonneg src).
  unfold RRERRecord_record. cbn [ext_id ext_des ext_src].
  rewrite pack_Bs_ok by range_ok.
  spell. eexists. split; [reflexivity|].
  unfold RRERRecord_parse. cbv zeta. spell. rewrite <- !app_assoc.
  rewrite (slice_spec _ 2 8) by (try (unfold len; cbn [length]); lia).
  change (Z.to_nat (8 - 2)) with 6%nat. change (Z.to_nat 2) with 2%nat.
  cbn [firstn skipn].
  rewrite calcsize_check_ok by reflexivity. cbn [bind].
  unfold get_B. cbn [nth]. rewrite !ord_chr by range_ok.
  match goal with |- context [slice ?S 8 _] => set (rrstr := S) end.
  rewrite (slice_shape rrstr (firstn 8 rrstr) id (des ++ src ++ rest))
    by reflexivity.
  assert (Hdes : (if 0 <? len des
                  then slice rrstr (8 + len id) (8 + len id + len des)
                  else []) = des).
  { destruct (Z.ltb_spec 0 (len des)).
    - apply (slice_shape rrstr (firstn 8 rrstr ++ id) des (src ++ rest));
        [reflexivity | rewrite len_app; reflexivity | reflexivity].
    - symmetry. apply len_zero. lia. }
  rewrite Hdes.
  assert (Htmp : (if 0 <? len des then 8 + len id + len des else 8 + len id)
                 = 8 + len id + len des).
  { destruct (Z.ltb_spec 0 (len des)); lia. }
  rewrite Htmp.
  rewrite (slice_shape rrstr ((firstn 8 rrstr ++ id) ++ des) src rest).
  - reflexivity.
  - subst rrstr. cbn [firstn app]. rewrite <- app_assoc. reflexivity.
  - rewrite !len_app. reflexivity.
  - reflexivity.
Qed.

(** *** TF *)

Lemma RRTFRecord_length_range (flags : Z) :
  5 <= RRTFRecord_length flags <= 124.
Proof.
  unfold RRTFRecord_length. cbn [fold_left].
  destruct (bit_set flags 7), (bit_set flags 0), (bit_set flags 1),
    (bit_set flags 2), (bit_set flags 3), (bit_set flags 4),
    (bit_set flags 5), (bit_set flags 6); lia.
Qed.

Lemma tf_parse_field_ok (flags i : Z) (rrstr pre post : str)
  (o : option Date) (tmp : Z) :
  rrstr = pre ++ tf_record_field o ++ post -> tmp = len pre ->
  valid_tf_field flags i o ->
  tf_parse_field flags i (tf_datetype flags) rrstr tmp
  = Ok (o, len (pre ++ tf_record_field o)).
Proof.
  intros Hs -> Hv. unfold tf_parse_field, valid_tf_field in *.
  destruct (bit_set flags i).
  - destruct Hv as (d & -> & Ht & Hl). cbn [tf_record_field] in *.
    unfold Date_record in *.
    rewrite (slice_shape rrstr pre (date_raw d) post)
      by (try assumption; try reflexivity; rewrite Hl; reflexivity).
    unfold Date_parse. rewrite Hl, Z.eqb_refl. cbn [bind].
    rewrite len_app, Hl. destruct d as [t raw]. cbn in Ht. subst t.
    reflexivity.
  - subst o. cbn [tf_record_field]. rewrite app_nil_r. reflexivity.
Qed.

Lemma RRTFRecord_round_trip (r : RRTFRecord) (rest : str) :
  valid_TF r ->
  exists b, RRTFRecord_record r = Ok b /\ RRTFRecord_parse (b ++ rest) = Ok r.
Proof.
  destruct r as [o0 o1 o2 o3 o4 o5 o6 flags].
  unfold valid_TF.
  cbn [time_flags creation_time access_time modification_time
         attribute_change_time backup_time expiration_time effective_time].
  intros (Hf & H0 & H1 & H2 & H3 & H4 & H5 & H6).
  pose proof (RRTFRecord_length_range flags) as Hlen.
  unfold RRTFRecord_record.
  cbn [time_flags creation_time access_time modification_time
         attribute_change_time backup_time expiration_time effective_time].
  rewrite pack_Bs_ok by (range_ok; lia).
  spell. eexists. split; [reflexivity|].
  unfold RRTFRecord_parse. cbv zeta. spell. rewrite <- !app_assoc.
  rewrite (slice_spec _ 2 5) by (try (unfold len; cbn [length]); lia).
  change (Z.to_nat (5 - 2)) with 3%nat. change (Z.to_nat 2) with 2%nat.
  cbn [firstn skipn].
  rewrite calcsize_check_ok by reflexivity. cbn [bind].
  unfold get_B. cbn [nth]. rewrite !ord_chr by (range_ok; lia).
  destruct (Z.ltb_spec (RRTFRecord_length flags) 5) as [Hlt|_]; [lia|].
  fold (tf_datetype flags).
  match goal with
  | |- context [tf_parse_field _ _ _ ?S 5] => set (rrstr := S)
  end.
  set (p0 := firstn 5 rrstr).
  set (f0 := tf_record_field o0) in *. set (f1 := tf_record_field o1) in *.
  set (f2 := tf_record_field o2) in *. set (f3 := tf_record_field o3) in *.
  set (f4 := tf_record_field o4) in *. set (f5 := tf_record_field o5) in *.
  set (f6 := tf_record_field o6) in *.
  assert (S0 : rrstr = p0 ++ f0 ++ f1 ++ f2 ++ f3 ++ f4 ++ f5 ++ f6 ++ rest)
    by reflexivity.
  rewrite (tf_parse_field_ok flags 0 rrstr p0 _ o0 5 S0 eq_refl H0).
  cbn [bind fst snd]. fold f0.
  rewrite (tf_parse_field_ok flags 1 rrstr (p0 ++ f0)
             (f2 ++ f3 ++ f4 ++ f5 ++ f6 ++ rest) o1 _
             ltac:(rewrite S0, <- ?app_assoc; reflexivity) eq_refl H1).
  cbn [bind fst snd]. fold f1.
  rewrite (tf_parse_field_ok flags 2 rrstr ((p0 ++ f0) ++ f1)
             (f3 ++ f4 ++ f5 ++ f6 ++ rest) o2 _
             ltac:(rewrite S0, <- ?app_assoc; reflexivity) eq_refl H2).
  cbn [bind fst snd]. fold f2.
  rewrite (tf_parse_field_ok flags 3 rrstr (((p0 ++ f0) ++ f1) ++ f2)
             (f4 ++ f5 ++ f6 ++ rest) o3 _
             ltac:(rewrite S0, <- ?app_assoc; reflexivity) eq_refl H3).
  cbn [bind fst snd]. fold f3.
  rewrite (tf_parse_field_ok flags 4 rrstr ((((p0 ++ f0) ++ f1) ++ f2) ++ f3)
             (f5 ++ f6 ++ rest) o4 _
             ltac:(rewrite S0, <- ?app_assoc; reflexivity) eq_refl H4).
  cbn [bind fst snd]. fold f4.
  rewrite (tf_parse_field_ok flags 5 rrstr
             (((((p0 ++ f0) ++ f1) ++ f2) ++ f3) ++ f4)
             (f6 ++ rest) o5 _
             ltac:(rewrite S0, <- ?app_assoc; reflexivity) eq_refl H5).
  cbn [bind fst snd]. fold f5.
  rewrite (tf_parse_field_ok flags 6 rrstr
             ((((((p0 ++ f0) ++ f1) ++ f2) ++ f3) ++ f4) ++ f5)
             rest o6 _
             ltac:(rewrite S0, <- ?app_assoc; reflexivity) eq_refl H6).
  cbn [bind fst snd]. reflexivity.
Qed.

(** *** SL *)

Lemma str_eqb_eq (a b : str) : str_eqb a b = true <-> a = b.
Proof.
  unfold str_eqb. destruct (list_eq_dec ascii_dec a b); split;
    intros; congruence.
Qed.

(** The fuel of [sl_parse_loop] is enough, and its [O] branch is the loop
    exit, as soon as it covers [data_len]: any two such amounts of fuel give
    the same outcome. *)
Lemma sl_parse_loop_fuel (rrstr : str) : forall fuel fuel' off dl name comps,
  dl <= Z.of_nat fuel -> dl <= Z.of_nat fuel' ->
  sl_parse_loop fuel rrstr off dl name comps
  = sl_parse_loop fuel' rrstr off dl name comps.
Proof.
  induction fuel as [|fuel IH]; intros fuel' off dl name comps H1 H2.
  - destruct fuel'; cbn [sl_parse_loop];
      destruct (Z.ltb_spec 0 dl); try reflexivity; lia.
  - destruct fuel' as [|fuel'].
    + cbn [sl_parse_loop]. destruct (Z.ltb_spec 0 dl); try reflexivity; lia.
    + cbn [sl_parse_loop]. destruct (Z.ltb_spec 0 dl); [|reflexivity].
      cbv zeta. destruct (calcsize_check _ 2); [|reflexivity]. cbn [bind].
      destruct (negb (Z_in _ _)); [reflexivity|].
      destruct (_ && negb (_ =? 0)); [reflexivity|].
      destruct (_ && negb (str_eqb name [])); [reflexivity|].
      match goal with
      | |- context [get_B ?b 1] => pose proof (get_B_range b 1)
      end.
      apply IH; lia.
Qed.

(** One round of the loop on a component record that is not marked as
    continued. *)
Lemma sl_parse_loop_round (fuel : nat) (rrstr : str) (off dl f l : Z)
  (acc : list str) (nm : str) :
  0 < dl ->
  slice rrstr off (off + 2) = [chr f; chr l] ->
  is_byte l ->
  (f = 0 /\ nm = slice rrstr (off + 2) (off + 2 + l)
   \/ (f = 2 \/ f = 4 \/ f = 8) /\ l = 0 /\ nm = sl_special_flag f) ->
  sl_parse_loop (S fuel) rrstr off dl [] acc
  = sl_parse_loop fuel rrstr (off + 2 + l) (dl - 2 - l) [] (acc ++ [nm]).
Proof.
  intros Hdl Hs Hl Hcase. cbn [sl_parse_loop].
  destruct (Z.ltb_spec 0 dl); [|lia]. cbv zeta. rewrite Hs.
  rewrite calcsize_check_ok by reflexivity. cbn [bind].
  unfold get_B. cbn [nth].
  destruct Hcase as [(Hf & Hn)|(Hf & Hl0 & Hn)].
  - subst f nm. rewrite (ord_chr 0) by lia. rewrite (ord_chr l) by exact Hl.
    reflexivity.
  - subst l nm. rewrite (ord_chr 0) by lia.
    destruct Hf as [Hf|[Hf|Hf]]; subst f; reflexivity.
Qed.

Lemma sl_parse_loop_components : forall comps pre post acc fuel body,
  Forall (fun c => len c < 256) comps ->
  sl_components_record comps = Ok body ->
  len body <= Z.of_nat fuel ->
  sl_parse_loop fuel (pre ++ body ++ post) (len pre) (len body) [] acc
  = Ok (acc ++ comps).
Proof.
  induction comps as [|c r IH]; intros pre post acc fuel body Hall Hrec Hfuel.
  - cbn [sl_components_record] in Hrec. apply Ok_inj in Hrec. subst body.
    rewrite app_nil_r. destruct fuel; reflexivity.
  - inversion Hall as [|c' r' Hc Hr]; subst c' r'.
    cbn [sl_components_record] in Hrec.
    destruct (sl_component_record c) as [a|] eqn:Ea; [|discriminate].
    destruct (sl_components_record r) as [b|] eqn:Eb; [|discriminate].
    cbn [bind] in Hrec. apply Ok_inj in Hrec. subst body.
    pose proof (len_nonneg c) as Hc0. pose proof (len_nonneg b) as Hb0.
    assert (Hround : exists f l,
               len a = 2 + l /\ is_byte l
               /\ slice (pre ++ (a ++ b) ++ post) (len pre) (len pre + 2)
                  = [chr f; chr l]
               /\ (f = 0 /\ c = slice (pre ++ (a ++ b) ++ post)
                                      (len pre + 2) (len pre + 2 + l)
                   \/ (f = 2 \/ f = 4 \/ f = 8) /\ l = 0
                      /\ c = sl_special_flag f)).
    { unfold sl_component_record in Ea.
      destruct (str_eqb c (lit ".")) eqn:E1.
      { apply str_eqb_eq in E1. apply pack_Bs_inv in Ea. subst a c.
        exists 2, 0. repeat split; try (unfold is_byte; lia).
        - apply (slice_shape _ pre [chr 2; chr 0] (b ++ post));
            [rewrite <- app_assoc; reflexivity | reflexivity | reflexivity].
        - right. repeat split. left. reflexivity. }
      destruct (str_eqb c (lit "..")) eqn:E2.
      { apply str_eqb_eq in E2. apply pack_Bs_inv in Ea. subst a c.
        exists 4, 0. repeat split; try (unfold is_byte; lia).
        - apply (slice_shape _ pre [chr 4; chr 0] (b ++ post));
            [rewrite <- app_assoc; reflexivity | reflexivity | reflexivity].
        - right. repeat split. right. left. reflexivity. }
      destruct (str_eqb c (lit "/")) eqn:E3.
      { apply str_eqb_eq in E3. apply pack_Bs_inv in Ea. subst a c.
        exists 8, 0. repeat split; try (unfold is_byte; lia).
        - apply (slice_shape _ pre [chr 8; chr 0] (b ++ post));
            [rewrite <- app_assoc; reflexivity | reflexivity | reflexivity].
        - right. repeat split. right. right. reflexivity. }
      destruct (pack_Bs [0; len c]) as [p|] eqn:Ep; [|discriminate].
      apply pack_Bs_inv in Ep. cbn [bind] in Ea. apply Ok_inj in Ea.
      subst p a. exists 0, (len c).
      split; [rewrite len_app; reflexivity|].
      split; [unfold is_byte; lia|].
      split.
      - apply (slice_shape _ pre [chr 0; chr (len c)] (c ++ b ++ post));
          [|reflexivity | reflexivity].
        cbn [map app]. rewrite <- !app_assoc. reflexivity.
      - left. split; [reflexivity|]. symmetry.
        apply (slice_shape _ (pre ++ [chr 0; chr (len c)]) c (b ++ post));
          [|rewrite len_app; reflexivity | reflexivity].
        cbn [map app]. rewrite <- !app_assoc. reflexivity. }
    destruct Hround as (f & l & Hla & Hl & Hs & Hcase).
    rewrite len_app in Hfuel.
    destruct fuel as [|fuel]; [unfold is_byte in Hl; lia|].
    rewrite (sl_parse_loop_round fuel _ (len pre) (len (a ++ b)) f l acc c).
    + replace (len pre + 2 + l) with (len (pre ++ a))
        by (rewrite len_app; lia).
      replace (len (a ++ b) - 2 - l) with (len b) by (rewrite len_app; lia).
      replace (pre ++ (a ++ b) ++ post) with ((pre ++ a) ++ b ++ post)
        by (rewrite <- !app_assoc; reflexivity).
      rewrite (IH (pre ++ a) post (acc ++ [c]) fuel b Hr eq_refl)
        by (unfold is_byte in Hl; lia).
      rewrite <- app_assoc. reflexivity.
    + rewrite len_app. unfold is_byte in Hl. lia.
    + exact Hs.
    + exact Hl.
    + destruct Hcase as [(Hf & Hn)|(Hf & Hl0 & Hn)].
      * left. split; [exact Hf | exact Hn].
      * right. repeat split; assumption.
Qed.

Lemma RRSLRecord_length_fold (comps : list str) : forall base,
  fold_left (fun length comp => length + RRSLRecord_component_length comp)
            comps base
  = base + (RRSLRecord_length comps - 5).
Proof.
  unfold RRSLRecord_length.
  induction comps as [|c r IH]; intros base; cbn [fold_left]; [lia|].
  rewrite IH, (IH (5 + _)). lia.
Qed.

Lemma RRSLRecord_length_cons (c : str) (r : list str) :
  RRSLRecord_length (c :: r)
  = RRSLRecord_component_length c + RRSLRecord_length r.
Proof.
  unfold RRSLRecord_length at 1. cbn [fold_left].
  rewrite RRSLRecord_length_fold. lia.
Qed.

Lemma RRSLRecord_component_length_bounds (c : str) :
  2 <= RRSLRecord_component_length c
  /\ len c <= RRSLRecord_component_length c.
Proof.
  unfold RRSLRecord_component_length, is_special_comp.
  pose proof (len_nonneg c).
  destruct (str_eqb c (lit ".")) eqn:E1;
    [apply str_eqb_eq in E1; subst c; cbn; lia|].
  destruct (str_eqb c (lit "..")) eqn:E2;
    [apply str_eqb_eq in E2; subst c; cbn; lia|].
  destruct (str_eqb c (lit "/")) eqn:E3;
    [apply str_eqb_eq in E3; subst c; cbn; lia|].
  cbn [orb]. lia.
Qed.

Lemma RRSLRecord_length_lower (comps : list str) :
  5 <= RRSLRecord_length comps.
Proof.
  induction comps as [|c r IH]; [unfold RRSLRecord_length; cbn; lia|].
  rewrite RRSLRecord_length_cons.
  pose proof (RRSLRecord_component_length_bounds c). lia.
Qed.

Lemma sl_component_record_ok (c : str) :
  len c < 256 ->
  exists a, sl_component_record c = Ok a
            /\ len a = RRSLRecord_component_length c.
Proof.
  intros Hc. pose proof (len_nonneg c) as Hc0.
  unfold sl_component_record, RRSLRecord_component_length, is_special_comp.
  destruct (str_eqb c (lit "."));
    [exists [chr 2; chr 0]; split; reflexivity|].
  destruct (str_eqb c (lit ".."));
    [exists [chr 4; chr 0]; split; reflexivity|].
  destruct (str_eqb c (lit "/"));
    [exists [chr 8; chr 0]; split; reflexivity|].
  cbn [orb]. rewrite pack_Bs_ok by (repeat constructor; lia).
  cbn [bind map]. eexists. split; [reflexivity|].
  rewrite len_app. change (len [chr 0; chr (len c)]) with 2. lia.
Qed.

Lemma sl_components_record_ok (comps : list str) :
  RRSLRecord_length comps <= 255 ->
  Forall (fun c => len c < 256) comps
  /\ exists body, sl_components_record comps = Ok body
                  /\ len body = RRSLRecord_length comps - 5.
Proof.
  induction comps as [|c r IH]; intros Hlen.
  - split; [constructor|]. exists []. split; reflexivity.
  - rewrite RRSLRecord_length_cons in Hlen |- *.
    pose proof (RRSLRecord_component_length_bounds c) as [Hc2 Hcl].
    pose proof (RRSLRecord_length_lower r) as Hr5.
    destruct IH as (Hall & body & Hbody & Hblen); [lia|].
    assert (Hc : len c < 256) by lia.
    split; [constructor; [exact Hc | exact Hall]|].
    destruct (sl_component_record_ok c Hc) as (a & Ha & Hal).
    cbn [sl_components_record]. rewrite Ha, Hbody. cbn [bind].
    eexists. split; [reflexivity|]. rewrite len_app. lia.
Qed.

Lemma RRSLRecord_round_trip (r : RRSLRecord) (rest : str) :
  valid_SL r ->
  exists b, RRSLRecord_record r = Ok b /\ RRSLRecord_parse (b ++ rest) = Ok r.
Proof.
  destruct r as [comps flags]. unfold valid_SL.
  cbn [sl_flags symlink_components]. intros (Hf & Hlen).
  pose proof (RRSLRecord_length_lower comps) as H5.
  destruct (sl_components_record_ok comps Hlen) as (Hall & body & Hbody & Hbl).
  unfold RRSLRecord_record. cbn [sl_flags symlink_components].
  rewrite pack_Bs_ok by (range_ok; lia).
  rewrite Hbody. spell. eexists. split; [reflexivity|].
  unfold RRSLRecord_parse. cbv zeta. spell.
  rewrite (slice_spec _ 2 5) by (try (unfold len; cbn [length]); lia).
  change (Z.to_nat (5 - 2)) with 3%nat. change (Z.to_nat 2) with 2%nat.
  cbn [firstn skipn].
  rewrite calcsize_check_ok by reflexivity. cbn [bind].
  unfold get_B. cbn [nth]. rewrite !ord_chr by (range_ok; lia).
  rewrite <- Hbl.
  match goal with
  | |- context [sl_parse_loop _ (?a :: ?b :: ?c :: ?d :: ?e :: ?x ++ ?y)] =>
      change (a :: b :: c :: d :: e :: x ++ y) with ([a; b; c; d; e] ++ x ++ y);
      change 5 with (len [a; b; c; d; e]) at 1
  end.
  rewrite (sl_parse_loop_components comps _ rest [] _ body Hall Hbody)
    by lia.
  reflexivity.
Qed.

(** *** All codecs *)

Lemma round_trips_intro {A : Type} (record : A -> M str)
  (parse : str -> M A) (v : A) :
  (forall rest, exists b, record v = Ok b /\ parse (b ++ rest) = Ok v) ->
  round_trips record parse v.
Proof.
  intros H. destruct (H []) as (b & Hb & Hp). exists b.
  split; [exact Hb|]. split.
  - rewrite app_nil_r in Hp. exact Hp.
  - intros rest. destruct (H rest) as (b' & Hb' & Hp').
    rewrite Hb in Hb'. apply Ok_inj in Hb'. subst b'. exact Hp'.
Qed.

(** C2, as the source has it.  Decoding the encoding of a valid value gives
    the value back for the SP, RR, ER, ES, PN, SL, NM, CL, PL, TF, SF and RE
    codecs.  For PX it does so for the values whose serial number is 0, the
    serial number being the one field [record()] does not write; for CE, the
    encoding being that of extent, offset and length only, for the values
    the decoder builds.  Valid means that every integer fits its field,
    that a variable-length record is at most 255 bytes long, that the NM
    flags are ones the decoder admits, and that a TF record holds exactly
    the timestamps its flags announce, each in the form they select. *)
Theorem codecs_round_trip :
  (forall r, is_byte (bytes_to_skip r) ->
             round_trips RRSPRecord_record RRSPRecord_parse r)
  /\ (forall r, is_byte (rr_flags r) ->
                round_trips RRRRRecord_record RRRRRecord_parse r)
  /\ (forall r, valid_PX r -> posix_serial_number r = 0 ->
                round_trips RRPXRecord_record RRPXRecord_parse r)
  /\ (forall r, valid_ER r ->
                round_trips RRERRecord_record RRERRecord_parse r)
  /\ (forall r, is_byte (extension_sequence r) ->
                round_trips RRESRecord_record RRESRecord_parse r)
  /\ (forall r, is_u32 (dev_t_high r) -> is_u32 (dev_t_low r) ->
                round_trips RRPNRecord_record RRPNRecord_parse r)
  /\ (forall r, valid_SL r ->
                round_trips RRSLRecord_record RRSLRecord_parse r)
  /\ (forall r, valid_NM r ->
                round_trips RRNMRecord_record RRNMRecord_parse r)
  /\ (forall r, is_u32 (child_log_block_num r) ->
                round_trips RRCLRecord_record RRCLRecord_parse r)
  /\ (forall r, is_u32 (parent_log_block_num r) ->
                round_trips RRPLRecord_record RRPLRecord_parse r)
  /\ (forall r, valid_TF r ->
                round_trips RRTFRecord_record RRTFRecord_parse r)
  /\ (forall r, is_u32 (virtual_file_size_high r) ->
                is_u32 (virtual_file_size_low r) -> is_byte (table_depth r) ->
                round_trips RRSFRecord_record RRSFRecord_parse r)
  /\ (forall r, round_trips RRRERecord_record RRRERecord_parse r)
  /\ (forall loc offset length,
         is_u32 loc -> is_u32 offset -> is_u32 length ->
         round_trips RRCERecord_record RRCERecord_parse
                     (ce_pointer loc offset length))
  /\ (forall ce c loc,
         ce_initialized ce = true -> continuation_entry ce = Some c ->
         RockRidgeContinuation_extent_location c = Ok loc ->
         is_u32 loc -> is_u32 (continue_offset c) ->
         is_u32 (continue_length c) ->
         exists b,
           RRCERecord_record ce = Ok b
           /\ forall rest,
               RRCERecord_parse (b ++ rest)
               = Ok (ce_pointer loc (continue_offset c) (continue_length c))).
Proof.
  repeat apply conj; intros;
    try (apply round_trips_intro; intros rest);
    [ | | | | | | | | | | | | | |
      match goal with
      | Hi : ce_initialized ?ce = true, Hc : continuation_entry ?ce = Some ?c,
        Hloc : RockRidgeContinuation_extent_location ?c = Ok ?loc,
        H1 : is_u32 ?loc, H2 : is_u32 (continue_offset ?c),
        H3 : is_u32 (continue_length ?c) |- _ =>
          destruct (round_trips_intro RRCERecord_record RRCERecord_parse _
                      (fun rest => RRCERecord_round_trip _ _ _ rest H1 H2 H3))
            as (b & Hb & _ & Hp);
          exists b; split; [|exact Hp];
          rewrite <- Hb; unfold RRCERecord_record, ce_pointer;
          rewrite Hi, Hc;
          cbn [negb getattr bind continuation_entry ce_initialized];
          rewrite Hloc; reflexivity
      end ].
  - apply RRSPRecord_round_trip; assumption.
  - apply RRRRRecord_round_trip; assumption.
  - match goal with H : valid_PX _ |- _ => destruct H as (? & ? & ? & ?) end.
    apply RRPXRecord_round_trip; assumption.
  - apply RRERRecord_round_trip; assumption.
  - apply RRESRecord_round_trip; assumption.
  - apply RRPNRecord_round_trip; assumption.
  - apply RRSLRecord_round_trip; assumption.
  - apply RRNMRecord_round_trip; assumption.
  - apply RRCLRecord_round_trip; assumption.
  - apply RRPLRecord_round_trip; assumption.
  - apply RRTFRecord_round_trip; assumption.
  - apply RRSFRecord_round_trip; assumption.
  - apply RRRERecord_round_trip.
  - apply RRCERecord_round_trip; assumption.
Qed.

Lemma codecs_round_trip_witness :
  round_trips RRSLRecord_record RRSLRecord_parse sl_example
  /\ round_trips RRNMRecord_record RRNMRecord_parse nm_example
  /\ round_trips RRPXRecord_record RRPXRecord_parse (RRPXRecord_new true None).
Proof.
  destruct codecs_round_trip
    as (_ & _ & Hpx & _ & _ & _ & Hsl & Hnm & _).
  split; [|split].
  - apply Hsl. split; [unfold is_byte; cbn; lia | vm_compute; discriminate].
  - apply Hnm. unfold valid_NM, is_byte. cbn.
    repeat split; try lia; try reflexivity.
  - apply Hpx; [|reflexivity].
    unfold valid_PX, is_u32. cbn. lia.
Defined.

(** C2 as the spec states it fails.  The CE record carries the extent,
    offset and length of its continuation and nothing else: decoding its
    encoding gives a record that points to the same place but is not the
    value encoded.  A PX record with serial number 7, as decoded from a
    44-byte record, is a valid value; [record()] writes its 36-byte form and
    the decoder gives it back with serial number 0.  Asked for the "1.12"
    form, [record()] appends the serial number but still declares 36 bytes,
    and the decoder again stops short of it. *)
Lemma ce_and_px_do_not_round_trip :
  let v := mkPX 33060 1 0 0 7 in
  (exists b, RRCERecord_record ce_allocated = Ok b
             /\ RRCERecord_parse b = Ok (ce_pointer 30 0 36)
             /\ RRCERecord_parse b <> Ok ce_allocated)
  /\ valid_PX v
  /\ (exists b44, RRPXRecord_parse b44 = Ok v)
  /\ (exists b, RRPXRecord_record v = Ok b
                /\ RRPXRecord_parse b = Ok (mkPX 33060 1 0 0 0)
                /\ RRPXRecord_parse b <> Ok v)
  /\ (exists b, RRPXRecord_record_v v "1.12" = Ok b
                /\ len b = 44
                /\ RRPXRecord_parse b = Ok (mkPX 33060 1 0 0 0)).
Proof.
  cbv zeta.
  split.
  { eexists. split; [vm_compute; reflexivity|].
    split; [vm_compute; reflexivity | vm_compute; discriminate]. }
  split; [unfold valid_PX, is_u32; cbn; lia|].
  split.
  - exists (lit "PX" ++ map chr [44; 1] ++ dual 33060 ++ dual 1 ++ dual 0
                ++ dual 0 ++ dual 7).
    vm_compute. reflexivity.
  - split.
    + eexists. split; [vm_compute; reflexivity|].
      split; [vm_compute; reflexivity | vm_compute; discriminate].
    + eexists. split; [vm_compute; reflexivity|].
      split; vm_compute; reflexivity.
Qed.

(** * Further properties of the codecs *)

(** ** Encoded length and declared length *)

Lemma len_map_chr (xs : list Z) : len (map chr xs) = Z.of_nat (length xs).
Proof. unfold len. rewrite length_map. reflexivity. Qed.

Lemma len_concat_le32 (xs : list Z) :
  len (concat (map le32 xs)) = 4 * Z.of_nat (length xs).
Proof.
  induction xs as [|x r IH]; [reflexivity|].
  cbn [map concat length]. rewrite len_app, IH.
  change (len (le32 x)) with 4. lia.
Qed.

Lemma pack_B_inv (x : Z) (a : str) :
  pack_B x = Ok a -> 0 <= x < 256 /\ a = [chr x].
Proof.
  unfold pack_B.
  destruct (Z.leb_spec 0 x); [|discriminate].
  destruct (Z.ltb_spec x 256); [|discriminate].
  cbn [andb]. intros Hok. apply Ok_inj in Hok. split; [lia | congruence].
Qed.

(** A record made of a two-byte tag, a run of "B" fields whose first is the
    declared length, and a run of "L" fields. *)
Lemma fixed_record_length (tag : string) (su_len : Z) (bs ls : list Z)
  (h l : str) :
  length (lit tag) = 2%nat ->
  pack_Bs (su_len :: bs) = Ok h -> pack_Ls ls = Ok l ->
  len (lit tag ++ h ++ l)
  = 3 + Z.of_nat (length bs) + 4 * Z.of_nat (length ls)
  /\ get_B (lit tag ++ h ++ l) 2 = su_len.
Proof.
  intros Ht Hh Hl.
  assert (Hb : 0 <= su_len < 256).
  { cbn [pack_Bs] in Hh.
    destruct (pack_B su_len) as [a|] eqn:E; [|discriminate].
    apply pack_B_inv in E. tauto. }
  apply pack_Bs_inv in Hh. apply pack_Ls_inv in Hl. subst h l.
  split.
  - rewrite !len_app, len_map_chr, len_concat_le32. unfold len. rewrite Ht.
    cbn [length]. lia.
  - destruct (lit tag) as [|t0 [|t1 [|]]]; try discriminate Ht.
    cbn [map app]. unfold get_B. cbn [nth]. apply ord_chr. exact Hb.
Qed.

(** X1.  Every fixed-length record encodes to exactly the number of bytes
    its [length()] gives, and declares that number in its length byte. *)
Theorem fixed_codecs_length_agreement :
  (forall r b, RRSPRecord_record r = Ok b ->
     len b = RRSPRecord_length /\ get_B b 2 = RRSPRecord_length)
  /\ (forall r b, RRRRRecord_record r = Ok b ->
        len b = RRRRRecord_length /\ get_B b 2 = RRRRRecord_length)
  /\ (forall r b, RRCERecord_record r = Ok b ->
        len b = RRCERecord_length /\ get_B b 2 = RRCERecord_length)
  /\ (forall r b, RRESRecord_record r = Ok b ->
        len b = RRESRecord_length /\ get_B b 2 = RRESRecord_length)
  /\ (forall r b, RRPNRecord_record r = Ok b ->
        len b = RRPNRecord_length /\ get_B b 2 = RRPNRecord_length)
  /\ (forall r b, RRCLRecord_record r = Ok b ->
        len b = RRCLRecord_length /\ get_B b 2 = RRCLRecord_length)
  /\ (forall r b, RRPLRecord_record r = Ok b ->
        len b = RRPLRecord_length /\ get_B b 2 = RRPLRecord_length)
  /\ (forall r b, RRSFRecord_record r = Ok b ->
        len b = RRSFRecord_length /\ get_B b 2 = RRSFRecord_length)
  /\ (forall r b, RRRERecord_record r = Ok b ->
        len b = RRRERecord_length /\ get_B b 2 = RRRERecord_length).
Proof.
  repeat apply conj; intros r b.
  - unfold RRSPRecord_record.
    destruct (pack_Bs _) as [h|] eqn:Eh; [|discriminate]. cbn [bind].
    intros H. apply Ok_inj in H. subst b.
    destruct (fixed_record_length "SP" _ _ [] h [] eq_refl Eh eq_refl) as [L B].
    rewrite app_nil_r in L, B. split; [exact L | exact B].
  - unfold RRRRRecord_record.
    destruct (pack_Bs _) as [h|] eqn:Eh; [|discriminate]. cbn [bind].
    intros H. apply Ok_inj in H. subst b.
    destruct (fixed_record_length "RR" _ _ [] h [] eq_refl Eh eq_refl) as [L B].
    rewrite app_nil_r in L, B. split; [exact L | exact B].
  - unfold RRCERecord_record.
    destruct (ce_initialized r); [|discriminate]. cbn [negb].
    destruct (continuation_entry r) as [c|]; [|discriminate].
    cbn [getattr bind].
    destruct (RockRidgeContinuation_extent_location _); [|discriminate].
    cbn [bind].
    destruct (pack_Bs _) as [h|] eqn:Eh; [|discriminate]. cbn [bind].
    destruct (pack_Ls _) as [l|] eqn:El; [|discriminate]. cbn [bind].
    intros H. apply Ok_inj in H. subst b.
    exact (fixed_record_length "CE" _ _ _ h l eq_refl Eh El).
  - unfold RRESRecord_record.
    destruct (pack_Bs _) as [h|] eqn:Eh; [|discriminate]. cbn [bind].
    intros H. apply Ok_inj in H. subst b.
    destruct (fixed_record_length "ES" _ _ [] h [] eq_refl Eh eq_refl) as [L B].
    rewrite app_nil_r in L, B. split; [exact L | exact B].
  - unfold RRPNRecord_record.
    destruct (pack_Bs _) as [h|] eqn:Eh; [|discriminate]. cbn [bind].
    destruct (pack_Ls _) as [l|] eqn:El; [|discriminate]. cbn [bind].
    intros H. apply Ok_inj in H. subst b.
    exact (fixed_record_length "PN" _ _ _ h l eq_refl Eh El).
  - unfold RRCLRecord_record.
    destruct (pack_Bs _) as [h|] eqn:Eh; [|discriminate]. cbn [bind].
    destruct (pack_Ls _) as [l|] eqn:El; [|discriminate]. cbn [bind].
    intros H. apply Ok_inj in H. subst b.
    exact (fixed_record_length "CL" _ _ _ h l eq_refl Eh El).
  - unfold RRPLRecord_record.
    destruct (pack_Bs _) as [h|] eqn:Eh; [|discriminate]. cbn [bind].
    destruct (pack_Ls _) as [l|] eqn:El; [|discriminate]. cbn [bind].
    intros H. apply Ok_inj in H. subst b.
    exact (fixed_record_length "PL" _ _ _ h l eq_refl Eh El).
  - unfold RRSFRecord_record.
    destruct (pack_Bs _) as [h|] eqn:Eh; [|discriminate]. cbn [bind].
    destruct (pack_Ls _) as [l|] eqn:El; [|discriminate]. cbn [bind].
    destruct (pack_B _) as [d|] eqn:Ed; [|discriminate]. cbn [bind].
    intros H. apply Ok_inj in H. subst b.
    destruct (fixed_record_length "SF" _ _ _ h l eq_refl Eh El) as [L B].
    assert (Hd : len d = 1).
    { apply pack_B_inv in Ed. destruct Ed as [_ ->]. reflexivity. }
    split.
    + rewrite !len_app in L. rewrite !len_app, Hd.
      cbn [length] in L. unfold RRSFRecord_length. lia.
    + apply pack_Bs_inv in Eh. subst h. reflexivity.
  - unfold RRRERecord_record.
    destruct (pack_Bs _) as [h|] eqn:Eh; [|discriminate]. cbn [bind].
    intros H. apply Ok_inj in H. subst b.
    destruct (fixed_record_length "RE" _ _ [] h [] eq_refl Eh eq_refl) as [L B].
    rewrite app_nil_r in L, B. split; [exact L | exact B].
Qed.

Lemma fixed_codecs_length_agreement_witness :
  exists b,
    RRCLRecord_record (mkCL 25) = Ok b
    /\ len b = 12 /\ get_B b 2 = 12.
Proof.
  destruct (RRCLRecord_record (mkCL 25)) as [b|] eqn:E;
    [|vm_compute in E; discriminate E].
  exists b. split; [reflexivity|].
  destruct fixed_codecs_length_agreement as (_ & _ & _ & _ & _ & Hcl & _).
  exact (Hcl (mkCL 25) b E).
Defined.

Lemma tagged_record_length (tag : string) (su_len : Z) (bs : list Z)
  (h body : str) :
  length (lit tag) = 2%nat ->
  pack_Bs (su_len :: bs) = Ok h ->
  len (lit tag ++ h ++ body) = 3 + Z.of_nat (length bs) + len body
  /\ get_B (lit tag ++ h ++ body) 2 = su_len.
Proof.
  intros Ht Hh.
  assert (Hb : 0 <= su_len < 256).
  { cbn [pack_Bs] in Hh.
    destruct (pack_B su_len) as [a|] eqn:E; [|discriminate].
    apply pack_B_inv in E. tauto. }
  apply pack_Bs_inv in Hh. subst h.
  split.
  - rewrite !len_app, len_map_chr. unfold len at 1. rewrite Ht.
    cbn [length]. lia.
  - destruct (lit tag) as [|t0 [|t1 [|]]]; try discriminate Ht.
    cbn [map app]. unfold get_B. cbn [nth]. apply ord_chr. exact Hb.
Qed.

Lemma sl_component_record_len (c a : str) :
  sl_component_record c = Ok a -> len a = RRSLRecord_component_length c.
Proof.
  unfold sl_component_record, RRSLRecord_component_length, is_special_comp.
  destruct (str_eqb c (lit "."));
    [intros H; apply pack_Bs_inv in H; subst a; reflexivity|].
  destruct (str_eqb c (lit ".."));
    [intros H; apply pack_Bs_inv in H; subst a; reflexivity|].
  destruct (str_eqb c (lit "/"));
    [intros H; apply pack_Bs_inv in H; subst a; reflexivity|].
  cbn [orb]. destruct (pack_Bs _) as [p|] eqn:E; [|discriminate].
  apply pack_Bs_inv in E. subst p. cbn [bind]. intros H.
  apply Ok_inj in H. subst a. rewrite len_app.
  change (len (map chr [0; len c])) with 2. reflexivity.
Qed.

Lemma sl_components_record_len (comps : list str) (body : str) :
  sl_components_record comps = Ok body ->
  5 + len body = RRSLRecord_length comps.
Proof.
  revert body. induction comps as [|c r IH]; intros body; cbn [sl_components_record].
  - intros H. apply Ok_inj in H. subst body. reflexivity.
  - destruct (sl_component_record c) as [a|] eqn:Ea; [|discriminate].
    destruct (sl_components_record r) as [b|] eqn:Eb; [|discriminate].
    cbn [bind]. intros H. apply Ok_inj in H. subst body.
    rewrite RRSLRecord_length_cons, len_app, <- (IH b eq_refl).
    rewrite (sl_component_record_len _ _ Ea). lia.
Qed.

Lemma tf_record_field_len (flags i : Z) (o : option Date) :
  valid_tf_field flags i o ->
  len (tf_record_field o)
  = if bit_set flags i then date_size (tf_datetype flags) else 0.
Proof.
  unfold valid_tf_field. destruct (bit_set flags i).
  - intros (d & -> & _ & Hl). exact Hl.
  - intros ->. reflexivity.
Qed.

(** X2.  The variable-length records agree with their [length()] too: an
    SL, NM or ER record that encodes has as many bytes as [length()] gives
    for its content and declares that number; so does a TF record that holds
    exactly the timestamps its flags announce. *)
Theorem variable_codecs_length_agreement :
  (forall r b, RRSLRecord_record r = Ok b ->
     len b = RRSLRecord_length (symlink_components r) /\ get_B b 2 = len b)
  /\ (forall r b, RRNMRecord_record r = Ok b ->
        len b = RRNMRecord_length (posix_name r) /\ get_B b 2 = len b)
  /\ (forall r b, RRERRecord_record r = Ok b ->
        len b = RRERRecord_length (ext_id r) (ext_des r) (ext_src r)
        /\ get_B b 2 = len b)
  /\ (forall r, valid_TF r ->
        exists b, RRTFRecord_record r = Ok b
                  /\ len b = RRTFRecord_length (time_flags r)
                  /\ get_B b 2 = len b).
Proof.
  repeat apply conj.
  - intros r b. unfold RRSLRecord_record.
    destruct (pack_Bs _) as [h|] eqn:Eh; [|discriminate]. cbn [bind].
    destruct (sl_components_record _) as [body|] eqn:Eb; [|discriminate].
    cbn [bind]. intros H. apply Ok_inj in H. subst b.
    destruct (tagged_record_length "SL" _ _ h body eq_refl Eh) as [L B].
    rewrite L, B. apply sl_components_record_len in Eb.
    cbn [length]. split; lia.
  - intros r b. unfold RRNMRecord_record.
    destruct (pack_Bs _) as [h|] eqn:Eh; [|discriminate]. cbn [bind].
    intros H. apply Ok_inj in H. subst b.
    destruct (tagged_record_length "NM" _ _ h (posix_name r) eq_refl Eh)
      as [L B].
    rewrite L, B. unfold RRNMRecord_length. cbn [length]. split; lia.
  - intros r b. unfold RRERRecord_record.
    destruct (pack_Bs _) as [h|] eqn:Eh; [|discriminate]. cbn [bind].
    intros H. apply Ok_inj in H. subst b.
    destruct (tagged_record_length "ER" _ _ h
                (ext_id r ++ ext_des r ++ ext_src r) eq_refl Eh) as [L B].
    rewrite L, B, !len_app. unfold RRERRecord_length. cbn [length].
    split; lia.
  - intros r (Hf & H0 & H1 & H2 & H3 & H4 & H5 & H6).
    pose proof (RRTFRecord_length_range (time_flags r)) as Hlen.
    unfold RRTFRecord_record.
    destruct (pack_Bs _) as [h|] eqn:Eh;
      [|rewrite pack_Bs_ok in Eh by (range_ok; lia); discriminate].
    cbn [bind]. eexists. split; [reflexivity|].
    match goal with
    | |- len (lit "TF" ++ h ++ ?body) = _ /\ _ =>
        destruct (tagged_record_length "TF" _ _ h body eq_refl Eh) as [L B]
    end.
    rewrite L, B, !len_app.
    rewrite (tf_record_field_len _ _ _ H0), (tf_record_field_len _ _ _ H1),
      (tf_record_field_len _ _ _ H2), (tf_record_field_len _ _ _ H3),
      (tf_record_field_len _ _ _ H4), (tf_record_field_len _ _ _ H5),
      (tf_record_field_len _ _ _ H6).
    unfold RRTFRecord_length, tf_datetype. cbn [fold_left length].
    destruct (bit_set (time_flags r) 7), (bit_set (time_flags r) 0),
      (bit_set (time_flags r) 1), (bit_set (time_flags r) 2),
      (bit_set (time_flags r) 3), (bit_set (time_flags r) 4),
      (bit_set (time_flags r) 5), (bit_set (time_flags r) 6);
      cbn [date_size]; split; lia.
Qed.

(** The TF record [new] creates. *)
Lemma variable_codecs_length_agreement_witness :
  exists b, RRTFRecord_record (RRTFRecord_new epoch TF_FLAGS) = Ok b
            /\ len b = 26 /\ get_B b 2 = len b.
Proof.
  destruct variable_codecs_length_agreement as (_ & _ & _ & Htf).
  apply (Htf (RRTFRecord_new epoch TF_FLAGS)).
  unfold valid_TF. split; [unfold is_byte, TF_FLAGS; cbn; lia|].
  repeat split;
    (vm_compute;
     first [reflexivity
           | eexists; split; [reflexivity | split; reflexivity]]).
Defined.

(** * Further properties of the parse loop *)

Lemma parse_loop_from_reach (record : str) (flag : bool)
  (s0 st : parse_state) :
  parse_reach record flag s0 st ->
  forall n r, parse_loop n record flag st = Some r ->
              exists m, parse_loop m record flag s0 = Some r.
Proof.
  induction 1 as [|st st' _ IH E]; intros n r Hn.
  - exists n. exact Hn.
  - apply (IH (S n)). cbn [parse_loop]. rewrite E. exact Hn.
Qed.

Lemma parse_raises_from_reach (self : RockRidgeBase) (record : str)
  (skip : Z) (flag : bool) (st : parse_state) (slot : option string)
  (x : exn) :
  parse_reach record flag (parse_start self record skip) st ->
  parse_iter record flag st = Fail (ps_entry st) slot x ->
  parse_raises self record skip flag x.
Proof.
  intros Hreach E.
  destruct (parse_loop_from_reach _ _ _ _ Hreach 1
              (Aborted (ps_entry st) slot x)) as (m & Hm).
  - cbn [parse_loop]. rewrite E. reflexivity.
  - exists m, (ps_entry st), slot. unfold _parse. rewrite Hm. reflexivity.
Qed.

(** What a round does once it has read a header. *)
Lemma parse_iter_header (record : str) (flag : bool) (st : parse_state)
  (rtype : str) (su_len v : Z) :
  header_at record st = Some (rtype, su_len, v) ->
  parse_iter record flag st
  = if negb (v =? SU_ENTRY_VERSION)
    then Fail (ps_entry st) None
              (PyIsoException ("Invalid RR version " ++ fmt_d v ++ "!"))
    else match parse_dispatch rtype su_len (ps_left st)
                 (slice_from record (ps_offset st)) flag with
         | Abort slot x => Fail (ps_entry st) slot x
         | Assign assign =>
             Continue (mkPS (assign (ps_entry st)) (ps_offset st + su_len)
                            (ps_left st - su_len))
         end.
Proof.
  unfold header_at, parse_iter. cbv zeta.
  destruct (Z.leb_spec 4 (ps_left st)) as [H4|]; [|discriminate].
  destruct (Z.eqb_spec (len (slice record (ps_offset st) (ps_offset st + 4))) 4)
    as [Hl|]; [|discriminate].
  cbn [andb]. intros H. injection H as <- <- <-.
  destruct (Z.eqb_spec (ps_left st) 0); [lia|].
  destruct (Z.eqb_spec (ps_left st) 1); [lia|].
  destruct (Z.ltb_spec (ps_left st) 4); [lia|].
  rewrite calcsize_check_ok by exact Hl. reflexivity.
Qed.

Lemma str_eqb_neq (a b : str) : a <> b -> str_eqb a b = false.
Proof.
  intros H. destruct (str_eqb a b) eqn:E; [|reflexivity].
  apply str_eqb_eq in E. contradiction.
Qed.

Lemma parse_dispatch_unknown (rtype : str) (su_len left : Z) (rest : str)
  (flag : bool) :
  ~ In rtype known_tags ->
  parse_dispatch rtype su_len left rest flag
  = Abort None (PyIsoException_hexdump "Unknown SUSP record " rtype).
Proof.
  intros Hn. unfold parse_dispatch.
  repeat match goal with
         | |- context [str_eqb rtype (lit ?t)] =>
             rewrite (str_eqb_neq rtype (lit t))
               by (intros ->; apply Hn; unfold known_tags; cbn [map In]; tauto)
         end.
  reflexivity.
Qed.

(** X3.  A header whose version byte [v] is not 1 ends the parse with the
    message "Invalid RR version %d!" formatted with [v] ("Invalid RR version
    2!" for a version byte of 2), whatever its tag and wherever in the area
    it is read. *)
Theorem parse_rejects_version (self : RockRidgeBase) (record : str)
  (skip : Z) (flag : bool) (st : parse_state) (rtype : str) (su_len v : Z) :
  parse_reach record flag (parse_start self record skip) st ->
  header_at record st = Some (rtype, su_len, v) ->
  v <> 1 ->
  parse_raises self record skip flag
    (PyIsoException ("Invalid RR version " ++ fmt_d v ++ "!")).
Proof.
  intros Hreach Hh Hv.
  apply (parse_raises_from_reach _ _ _ _ st None); [exact Hreach|].
  rewrite (parse_iter_header _ _ _ _ _ _ Hh).
  unfold SU_ENTRY_VERSION. destruct (Z.eqb_spec v 1); [contradiction|].
  reflexivity.
Qed.

Lemma parse_rejects_version_witness :
  parse_raises RockRidgeBase_init rr_version_2 0 false
               (PyIsoException "Invalid RR version 2!").
Proof.
  apply (parse_rejects_version RockRidgeBase_init rr_version_2 0 false
           (parse_start RockRidgeBase_init rr_version_2 0) (lit "RR") 5 2).
  - constructor.
  - reflexivity.
  - discriminate.
Defined.

(** X4.  A header with a tag outside the sixteen the loop knows ends the
    parse with the message "Unknown SUSP record %s" formatted with
    [hexdump] of the two bytes of the tag: no record is skipped over. *)
Theorem parse_rejects_unknown_tag (self : RockRidgeBase) (record : str)
  (skip : Z) (flag : bool) (st : parse_state) (rtype : str) (su_len : Z) :
  parse_reach record flag (parse_start self record skip) st ->
  header_at record st = Some (rtype, su_len, 1) ->
  ~ In rtype known_tags ->
  parse_raises self record skip flag
    (PyIsoException_hexdump "Unknown SUSP record " rtype).
Proof.
  intros Hreach Hh Hn.
  apply (parse_raises_from_reach _ _ _ _ st None); [exact Hreach|].
  rewrite (parse_iter_header _ _ _ _ _ _ Hh). cbn [negb Z.eqb SU_ENTRY_VERSION Pos.eqb].
  rewrite parse_dispatch_unknown by exact Hn. reflexivity.
Qed.

Lemma parse_rejects_unknown_tag_witness :
  parse_raises RockRidgeBase_init zz_record 0 false
               (PyIsoException_hexdump "Unknown SUSP record " (lit "ZZ")).
Proof.
  apply (parse_rejects_unknown_tag RockRidgeBase_init zz_record 0 false
           (parse_start RockRidgeBase_init zz_record 0) (lit "ZZ") 4).
  - constructor.
  - reflexivity.
  - unfold known_tags. cbn [map In].
    intros H. repeat (destruct H as [H|H]; [discriminate H|]). exact H.
Defined.

(** X5.  An SP record is only taken in the first directory record of the
    root, and only with seven bytes left: read anywhere else, it ends the
    parse with "Invalid SUSP SP record", well-formed or not. *)
Theorem parse_rejects_misplaced_sp (self : RockRidgeBase) (record : str)
  (skip : Z) (flag : bool) (st : parse_state) (su_len : Z) :
  parse_reach record flag (parse_start self record skip) st ->
  header_at record st = Some (lit "SP", su_len, 1) ->
  flag = false \/ ps_left st < 7 ->
  parse_raises self record skip flag (PyIsoException "Invalid SUSP SP record").
Proof.
  intros Hreach Hh Hc.
  apply (parse_raises_from_reach _ _ _ _ st None); [exact Hreach|].
  rewrite (parse_iter_header _ _ _ _ _ _ Hh).
  cbn [negb Z.eqb SU_ENTRY_VERSION Pos.eqb].
  unfold parse_dispatch.
  change (str_eqb (lit "SP") (lit "SP")) with true. cbv iota.
  destruct Hc as [->|Hl].
  - rewrite orb_true_r. reflexivity.
  - destruct (Z.ltb_spec (ps_left st) 7); [reflexivity | lia].
Qed.

Lemma parse_rejects_misplaced_sp_witness :
  RRSPRecord_parse sp_wellformed = Ok (mkSP 0)
  /\ parse_raises RockRidgeBase_init sp_wellformed 0 false
                  (PyIsoException "Invalid SUSP SP record").
Proof.
  split; [reflexivity|].
  apply (parse_rejects_misplaced_sp RockRidgeBase_init sp_wellformed 0 false
           (parse_start RockRidgeBase_init sp_wellformed 0) 7).
  - constructor.
  - reflexivity.
  - left. reflexivity.
Defined.

(** X6.  A record whose declared length runs past the bytes that are left,
    or leaves two or three of them, ends the parse on the next round with
    "Not enough bytes left in the System Use field". *)
Theorem parse_rejects_overshoot (self : RockRidgeBase) (record : str)
  (skip : Z) (flag : bool) (st st' : parse_state) :
  parse_reach record flag (parse_start self record skip) st ->
  parse_iter record flag st = Continue st' ->
  ps_left st < declared_su_len record st
  \/ 2 <= ps_left st - declared_su_len record st < 4 ->
  parse_raises self record skip flag
    (PyIsoException "Not enough bytes left in the System Use field").
Proof.
  intros Hreach E Hc.
  apply (parse_raises_from_reach _ _ _ _ st' None).
  - eapply reach_round; eassumption.
  - destruct (parse_iter_continue _ _ _ _ E) as (_ & Hl & _).
    unfold parse_iter.
    destruct (Z.eqb_spec (ps_left st') 0); [lia|].
    destruct (Z.eqb_spec (ps_left st') 1); [lia|].
    destruct (Z.ltb_spec (ps_left st') 4); [reflexivity | lia].
Qed.

Lemma parse_rejects_overshoot_witness :
  parse_raises RockRidgeBase_init pd_overshoot 0 false
    (PyIsoException "Not enough bytes left in the System Use field").
Proof.
  apply (parse_rejects_overshoot RockRidgeBase_init pd_overshoot 0 false
           (parse_start RockRidgeBase_init pd_overshoot 0)
           (mkPS (set_rr_bytes_to_skip (Some 0) RockRidgeBase_init) 10 (-6))).
  - constructor.
  - reflexivity.
  - left. vm_compute. reflexivity.
Defined.


(** * Further properties of the decoders *)

Lemma len_slice (x : str) (lo hi : Z) :
  0 <= lo -> lo <= hi ->
  len (slice x lo hi) = Z.min hi (len x) - Z.min lo (len x).
Proof.
  intros H0 H1. unfold slice, norm_idx, len.
  destruct (Z.ltb_spec lo 0); [lia|]. destruct (Z.ltb_spec hi 0); [lia|].
  rewrite length_firstn, length_skipn. lia.
Qed.

Lemma calcsize_check_inv (x : str) (lo hi : Z) :
  0 <= lo -> lo < hi ->
  calcsize_check (slice x lo hi) (hi - lo) = Ok tt -> hi <= len x.
Proof.
  intros H0 H1. unfold calcsize_check.
  destruct (Z.eqb_spec (len (slice x lo hi)) (hi - lo)) as [E|]; [|discriminate].
  intros _. rewrite len_slice in E by lia. lia.
Qed.

Lemma get_B_slice (x : str) (lo hi : Z) (i : nat) :
  0 <= lo -> hi <= len x -> lo + Z.of_nat i < hi ->
  get_B (slice x lo hi) i = get_B x (Z.to_nat lo + i).
Proof.
  intros H0 H1 H2. rewrite slice_spec by lia. unfold get_B.
  rewrite nth_firstn.
  destruct (Nat.ltb_spec i (Z.to_nat (hi - lo))); [|lia].
  rewrite nth_skipn. reflexivity.
Qed.

(** The shape shared by the decoders of fixed-length records: unpack
    [rrstr[2:n]], then compare the first byte with the record's length. *)
Lemma fixed_parse_inv {A : Type} (rrstr : str) (n su_len : Z)
  (k : M A) (r : A) :
  2 < n ->
  (calcsize_check (slice rrstr 2 n) (n - 2) ;;;
   if negb (get_B (slice rrstr 2 n) 0 =? su_len)
   then PyIso "Invalid length on rock ridge extension"
   else k) = Ok r ->
  n <= len rrstr /\ get_B rrstr 2 = su_len /\ k = Ok r.
Proof.
  intros Hn. destruct (calcsize_check _ _) as [[]|] eqn:E; [|discriminate].
  apply calcsize_check_inv in E; [|lia|lia]. cbn [bind].
  rewrite get_B_slice by lia. change (Z.to_nat 2 + 0)%nat with 2%nat.
  destruct (Z.eqb_spec (get_B rrstr 2) su_len); [|discriminate].
  cbn [negb]. tauto.
Qed.

(** X7.  A decoder of a fixed-length record accepts only a buffer that
    holds the whole record and declares exactly the record's length: 5 for
    RR and ES, 28 for CE, 20 for PN, 12 for CL and PL, 21 for SF, 4 for RE,
    7 for SP, and 36 or 44 for PX. *)
Theorem fixed_decoders_enforce_length :
  (forall s r, RRSPRecord_parse s = Ok r -> 7 <= len s /\ get_B s 2 = 7)
  /\ (forall s r, RRRRRecord_parse s = Ok r -> 5 <= len s /\ get_B s 2 = 5)
  /\ (forall s r, RRCERecord_parse s = Ok r -> 28 <= len s /\ get_B s 2 = 28)
  /\ (forall s r, RRESRecord_parse s = Ok r -> 5 <= len s /\ get_B s 2 = 5)
  /\ (forall s r, RRPNRecord_parse s = Ok r -> 20 <= len s /\ get_B s 2 = 20)
  /\ (forall s r, RRCLRecord_parse s = Ok r -> 12 <= len s /\ get_B s 2 = 12)
  /\ (forall s r, RRPLRecord_parse s = Ok r -> 12 <= len s /\ get_B s 2 = 12)
  /\ (forall s r, RRSFRecord_parse s = Ok r -> 21 <= len s /\ get_B s 2 = 21)
  /\ (forall s r, RRRERecord_parse s = Ok r -> 4 <= len s /\ get_B s 2 = 4)
  /\ (forall s r, RRPXRecord_parse s = Ok r ->
        get_B s 2 <= len s /\ (get_B s 2 = 36 \/ get_B s 2 = 44)).
Proof.
  repeat apply conj; intros s r H.
  - apply (fixed_parse_inv s 7) in H; [tauto | lia].
  - apply (fixed_parse_inv s 5) in H; [tauto | lia].
  - apply (fixed_parse_inv s 28) in H; [tauto | lia].
  - apply (fixed_parse_inv s 5) in H; [tauto | lia].
  - apply (fixed_parse_inv s 20) in H; [tauto | lia].
  - apply (fixed_parse_inv s 12) in H; [tauto | lia].
  - apply (fixed_parse_inv s 12) in H; [tauto | lia].
  - apply (fixed_parse_inv s 21) in H; [tauto | lia].
  - apply (fixed_parse_inv s 4) in H; [tauto | lia].
  - unfold RRPXRecord_parse in H. cbv zeta in H.
    destruct (calcsize_check (slice s 2 4) 2) as [[]|] eqn:E; [|discriminate].
    apply (calcsize_check_inv s 2 4) in E; [|lia|lia]. cbn [bind] in H.
    rewrite get_B_slice in H by lia.
    change (Z.to_nat 2 + 0)%nat with 2%nat in H.
    destruct (Z.eqb_spec (get_B s 2) 36) as [E36|].
    + destruct (calcsize_check (slice s 4 36) 32) as [[]|] eqn:E2;
        [|discriminate].
      apply (calcsize_check_inv s 4 36) in E2; lia.
    + destruct (Z.eqb_spec (get_B s 2) 44) as [E44|]; [|discriminate].
      destruct (calcsize_check (slice s 4 44) 40) as [[]|] eqn:E2;
        [|discriminate].
      apply (calcsize_check_inv s 4 44) in E2; lia.
Qed.

Lemma fixed_decoders_enforce_length_witness :
  7 <= len sp_wellformed /\ get_B sp_wellformed 2 = 7.
Proof.
  destruct fixed_decoders_enforce_length as (Hsp & _).
  exact (Hsp sp_wellformed (mkSP 0) eq_refl).
Defined.

Lemma calcsize_check_short (x : str) (lo hi n : Z) :
  0 <= lo -> lo < hi -> len x < hi -> n = hi - lo ->
  calcsize_check (slice x lo hi) n = Raise StructError.
Proof.
  intros H0 H1 H2 ->. unfold calcsize_check. rewrite len_slice by lia.
  destruct (Z.eqb_spec (Z.min hi (len x) - Z.min lo (len x)) (hi - lo));
    [lia | reflexivity].
Qed.

Lemma calcsize_check_slice (x : str) (lo hi n : Z) :
  0 <= lo -> lo <= hi -> hi <= len x -> n = hi - lo ->
  calcsize_check (slice x lo hi) n = Ok tt.
Proof.
  intros H0 H1 H2 ->. apply calcsize_check_ok. rewrite len_slice by lia. lia.
Qed.

(** X8.  What the NM and ER decoders accept.  The NM decoder needs five
    bytes, flags whose low three bits are 0, 1, 2 or 4, and, unless the
    declared length is 5, none of the flag bits 1, 2 and 5; the name is then
    the bytes from 5 to the declared length.  The ER decoder needs eight
    bytes and checks nothing else, the declared length included. *)
Theorem nm_and_er_acceptance :
  (forall s r,
      RRNMRecord_parse s = Ok r <->
      5 <= len s
      /\ Z_in (Z.land (get_B s 4) 7) [0; 1; 2; 4] = true
      /\ (get_B s 2 = 5
          \/ bit_set (get_B s 4) 1 || bit_set (get_B s 4) 2
             || bit_set (get_B s 4) 5 = false)
      /\ r = mkNM (get_B s 4)
                  (if get_B s 2 =? 5 then [] else slice s 5 (get_B s 2)))
  /\ (forall s, (exists r, RRERRecord_parse s = Ok r) <-> 8 <= len s).
Proof.
  split.
  - intros s r. unfold RRNMRecord_parse. cbv zeta.
    destruct (Z.lt_ge_cases (len s) 5) as [Hs|Hs].
    { rewrite (calcsize_check_short s 2 5) by lia. cbn [bind].
      split; [discriminate | lia]. }
    rewrite (calcsize_check_slice s 2 5) by lia. cbn [bind].
    rewrite !get_B_slice by lia.
    change (Z.to_nat 2 + 0)%nat with 2%nat.
    change (Z.to_nat 2 + 2)%nat with 4%nat.
    replace (5 + (get_B s 2 - 5)) with (get_B s 2) by lia.
    replace (get_B s 2 - 5 =? 0) with (get_B s 2 =? 5)
      by (destruct (Z.eqb_spec (get_B s 2) 5),
            (Z.eqb_spec (get_B s 2 - 5) 0); lia || reflexivity).
    destruct (Z_in (Z.land (get_B s 4) 7) [0; 1; 2; 4]); cbn [negb].
    2: { split; [discriminate | intros (_ & H & _); discriminate H]. }
    destruct (Z.eqb_spec (get_B s 2) 5) as [E5|E5]; cbn [negb].
    + split.
      * intros H. apply Ok_inj in H. subst r. repeat split; [lia | tauto].
      * intros (_ & _ & _ & ->). reflexivity.
    + destruct (bit_set (get_B s 4) 1 || bit_set (get_B s 4) 2
                || bit_set (get_B s 4) 5).
      * split; [discriminate|]. intros (_ & _ & [H|H] & _);
          [contradiction | discriminate H].
      * cbn [app]. split.
        -- intros H. apply Ok_inj in H. subst r.
           repeat split; [lia | right; reflexivity].
        -- intros (_ & _ & _ & ->). reflexivity.
  - intros s. unfold RRERRecord_parse. cbv zeta.
    destruct (Z.lt_ge_cases (len s) 8) as [Hs|Hs].
    + rewrite (calcsize_check_short s 2 8) by lia. cbn [bind].
      split; [intros [r H]; discriminate H | lia].
    + rewrite (calcsize_check_slice s 2 8) by lia. cbn [bind].
      split; [intros _; lia | intros _; eexists; reflexivity].
Qed.

Lemma nm_and_er_acceptance_witness :
  RRNMRecord_parse nm_current_dir = Ok (mkNM 2 []).
Proof.
  destruct nm_and_er_acceptance as (Hnm & _).
  apply (Hnm nm_current_dir (mkNM 2 [])).
  repeat split; try reflexivity.
  left. reflexivity.
Defined.

Lemma sl_parse_loop_piece (fuel : nat) (rrstr : str) (off dl l : Z)
  (continued : bool) (name : str) (acc : list str) :
  0 < dl ->
  slice rrstr off (off + 2) = [chr (if continued then 1 else 0); chr l] ->
  is_byte l ->
  sl_parse_loop (S fuel) rrstr off dl name acc
  = let name' := name ++ slice rrstr (off + 2) (off + 2 + l) in
    sl_parse_loop fuel rrstr (off + 2 + l) (dl - 2 - l)
                  (if continued then name' else [])
                  (if continued then acc else acc ++ [name']).
Proof.
  intros Hdl Hs Hl. cbn [sl_parse_loop].
  destruct (Z.ltb_spec 0 dl); [|lia]. cbv zeta. rewrite Hs.
  rewrite calcsize_check_ok by reflexivity. cbn [bind].
  unfold get_B. cbn [nth]. rewrite (ord_chr l) by exact Hl.
  destruct continued.
  - rewrite (ord_chr 1) by lia. reflexivity.
  - rewrite (ord_chr 0) by lia. reflexivity.
Qed.

Lemma sl_parse_loop_pieces : forall pieces pre post name acc fuel,
  Forall (fun p => len (snd p) < 256) pieces ->
  len (concat (map sl_piece_bytes pieces)) <= Z.of_nat fuel ->
  sl_parse_loop fuel (pre ++ concat (map sl_piece_bytes pieces) ++ post)
                (len pre) (len (concat (map sl_piece_bytes pieces))) name acc
  = Ok (acc ++ sl_merge pieces name).
Proof.
  induction pieces as [|[c p] r IH]; intros pre post name acc fuel Hall Hfuel.
  - cbn [map concat sl_merge]. rewrite app_nil_r.
    destruct fuel; reflexivity.
  - inversion Hall as [|x y Hp Hr]; subst x y. cbn [snd] in Hp.
    pose proof (len_nonneg p) as Hp0.
    pose proof (len_nonneg (concat (map sl_piece_bytes r))) as Hr0.
    cbn [map concat] in *. set (body := concat (map sl_piece_bytes r)) in *.
    assert (Hpb : len (sl_piece_bytes (c, p)) = 2 + len p).
    { unfold sl_piece_bytes. cbn [fst snd]. rewrite len_app. reflexivity. }
    rewrite len_app, Hpb in Hfuel |- *.
    destruct fuel as [|fuel]; [lia|].
    rewrite (sl_parse_loop_piece fuel _ (len pre) _ (len p) c name acc).
    + cbv zeta.
      assert (Hslice : slice (pre ++ (sl_piece_bytes (c, p) ++ body) ++ post)
                             (len pre + 2) (len pre + 2 + len p) = p).
      { apply (slice_shape _ (pre ++ [chr (if c then 1 else 0); chr (len p)])
                           p (body ++ post));
          [|rewrite len_app; reflexivity | reflexivity].
        unfold sl_piece_bytes. cbn [fst snd].
        rewrite <- !app_assoc. reflexivity. }
      rewrite Hslice.
      replace (len pre + 2 + len p) with (len (pre ++ sl_piece_bytes (c, p)))
        by (rewrite len_app, Hpb; lia).
      replace (2 + len p + len body - 2 - len p) with (len body) by lia.
      replace (pre ++ (sl_piece_bytes (c, p) ++ body) ++ post)
        with ((pre ++ sl_piece_bytes (c, p)) ++ body ++ post)
        by (rewrite <- !app_assoc; reflexivity).
      subst body. rewrite IH by (assumption || lia).
      cbn [sl_merge]. destruct c; [reflexivity|].
      rewrite <- app_assoc. reflexivity.
    + lia.
    + apply (slice_shape _ pre [chr (if c then 1 else 0); chr (len p)]
                         (p ++ body ++ post));
        [|reflexivity | reflexivity].
      unfold sl_piece_bytes. cbn [fst snd]. rewrite <- !app_assoc. reflexivity.
    + unfold is_byte. lia.
Qed.

(** X9.  The SL decoder joins component records marked as continued: a run
    of component records comes back as one component per unmarked record,
    each made of the marked records before it and itself.  A marked record
    at the very end of the SL record is dropped. *)
Theorem sl_parse_joins_continued (flags : Z) (pieces : list sl_piece)
  (rest : str) :
  is_byte flags ->
  Forall (fun p => len (snd p) < 256) pieces ->
  5 + len (concat (map sl_piece_bytes pieces)) <= 255 ->
  RRSLRecord_parse (sl_pieces_record flags pieces ++ rest)
  = Ok (mkSL (sl_merge pieces []) flags).
Proof.
  intros Hf Hall Hlen.
  pose proof (len_nonneg (concat (map sl_piece_bytes pieces))) as H0.
  unfold sl_pieces_record, RRSLRecord_parse. cbv zeta.
  set (body := concat (map sl_piece_bytes pieces)) in *.
  cbn [lit list_ascii_of_string map app].
  rewrite (slice_spec _ 2 5) by (try (unfold len; cbn [length]); lia).
  change (Z.to_nat (5 - 2)) with 3%nat. change (Z.to_nat 2) with 2%nat.
  cbn [firstn skipn].
  rewrite calcsize_check_ok by reflexivity. cbn [bind].
  unfold get_B. cbn [nth]. rewrite !ord_chr by (unfold is_byte in *; lia).
  replace (5 + len body - 5) with (len body) by lia.
  match goal with
  | |- context [sl_parse_loop _ (?a :: ?b :: ?c :: ?d :: ?e :: ?x ++ ?y)] =>
      change (a :: b :: c :: d :: e :: x ++ y) with ([a; b; c; d; e] ++ x ++ y);
      change 5 with (len [a; b; c; d; e]) at 1
  end.
  subst body. rewrite sl_parse_loop_pieces by (assumption || lia).
  reflexivity.
Qed.

Lemma sl_parse_joins_continued_witness :
  RRSLRecord_parse
    (sl_pieces_record 0 [(true, lit "ab"); (false, lit "cd");
                         (false, lit "e"); (true, lit "lost")])
  = Ok (mkSL [lit "abcd"; lit "e"] 0).
Proof.
  rewrite <- (app_nil_r (sl_pieces_record _ _)).
  apply (sl_parse_joins_continued 0
           [(true, lit "ab"); (false, lit "cd"); (false, lit "e");
            (true, lit "lost")] []).
  - unfold is_byte. lia.
  - repeat constructor.
  - vm_compute. intros H. discriminate H.
Defined.

(** X10.  The SL decoder refuses a component record whose flags are not
    one of 0, 1, 2, 4 and 8, with the message "Invalid Rock Ridge symlink
    flags 0x%x" formatted with the flags byte, and one that stands for ".",
    ".." or "/" but declares content bytes. *)
Theorem sl_parse_rejects_component (s : str) :
  7 <= len s -> 5 < get_B s 2 ->
  (Z_in (get_B s 5) [0; 1; 2; 4; 8] = false ->
   RRSLRecord_parse s
   = Raise (PyIsoException
              ("Invalid Rock Ridge symlink flags 0x" ++ fmt_x (get_B s 5))))
  /\ (Z_in (get_B s 5) [2; 4; 8] = true -> get_B s 6 <> 0 ->
      RRSLRecord_parse s
      = Raise (PyIsoException
                 "Rock Ridge symlinks to dot or dotdot should have zero length")).
Proof.
  intros Hs Hl. unfold RRSLRecord_parse. cbv zeta.
  rewrite (calcsize_check_slice s 2 5) by lia. cbn [bind].
  rewrite !get_B_slice by lia. change (Z.to_nat 2 + 0)%nat with 2%nat.
  destruct (Z.to_nat (get_B s 2 - 5)) as [|fuel] eqn:Ef; [lia|].
  cbn [sl_parse_loop].
  destruct (Z.ltb_spec 0 (get_B s 2 - 5)); [|lia]. cbv zeta.
  rewrite (calcsize_check_slice s 5 (5 + 2)) by lia. cbn [bind].
  rewrite !get_B_slice by lia.
  change (Z.to_nat 5 + 0)%nat with 5%nat. change (Z.to_nat 5 + 1)%nat with 6%nat.
  split.
  - intros ->. reflexivity.
  - intros Hin Hne.
    assert (Hf : get_B s 5 = 2 \/ get_B s 5 = 4 \/ get_B s 5 = 8).
    { unfold Z_in in Hin. cbn [existsb] in Hin.
      rewrite !orb_true_iff, !Z.eqb_eq in Hin.
      destruct Hin as [?|[?|[?|?]]]; [tauto | tauto | tauto | discriminate]. }
    destruct (Z.eqb_spec (get_B s 6) 0); [contradiction|].
    destruct Hf as [Hf|[Hf|Hf]]; rewrite Hf; reflexivity.
Qed.

Lemma sl_parse_rejects_component_witness :
  RRSLRecord_parse sl_bad_flags
  = Raise (PyIsoException "Invalid Rock Ridge symlink flags 0x3").
Proof.
  apply (sl_parse_rejects_component sl_bad_flags);
    [vm_compute; intros H; discriminate H | reflexivity | reflexivity].
Defined.

(** * Further properties of the query and mutation API *)

(** ** File links *)

Lemma update_file_links_links (f : Z -> Z) (e e' : RockRidgeBase) :
  update_file_links f e = Ok e' ->
  exists n, src_file_links e = Ok n /\ src_file_links e' = Ok (f n)
            /\ initialized e' = initialized e.
Proof.
  unfold update_file_links, src_file_links.
  destruct (px_record e) as [px|] eqn:Epx.
  - intros H. apply Ok_inj in H. subst e'. exists (posix_file_links px).
    repeat split.
  - destruct (ce_record e) as [ce|] eqn:Ece; [|discriminate].
    destruct (continuation_entry ce) as [c|] eqn:Ecn; [|discriminate].
    cbn [getattr bind].
    destruct (px_record (cont_base c)) as [px|] eqn:Ec; [|discriminate].
    cbn [getattr bind].
    intros H. apply Ok_inj in H. subst e'. exists (posix_file_links px).
    cbn. rewrite Epx. repeat split.
Qed.

Lemma update_file_links_compose (f g : Z -> Z) (e e' : RockRidgeBase) :
  update_file_links f e = Ok e' ->
  update_file_links g e'
  = update_file_links (fun n => g (f n)) e.
Proof.
  unfold update_file_links.
  destruct (px_record e) as [px|] eqn:Epx.
  - intros H. apply Ok_inj in H. subst e'. cbn.
    destruct e, px. reflexivity.
  - destruct (ce_record e) as [ce|] eqn:Ece; [|discriminate].
    destruct (continuation_entry ce) as [c|] eqn:Ecn; [|discriminate].
    cbn [getattr bind].
    destruct (px_record (cont_base c)) as [px|] eqn:Ec; [|discriminate].
    cbn [getattr bind].
    intros H. apply Ok_inj in H. subst e'. cbn. rewrite Epx.
    destruct e, px. reflexivity.
Qed.

Lemma update_file_links_id (f : Z -> Z) (e e' : RockRidgeBase) :
  (forall n, f n = n) -> update_file_links f e = Ok e' -> e' = e.
Proof.
  intros Hf. unfold update_file_links.
  destruct (px_record e) as [px|] eqn:Epx.
  - intros H. apply Ok_inj in H. subst e'.
    destruct e, px. cbn [px_record] in Epx.
    unfold set_px_record, px_update_links.
    cbn [sp_record rr_record ce_record px_record er_record es_record pn_record
           sl_records nm_record cl_record pl_record tf_record sf_record
           re_record child_link parent_link rr_bytes_to_skip su_entry_version
           initialized posix_file_mode posix_file_links posix_user_id
           posix_group_id posix_serial_number].
    rewrite Hf, Epx. reflexivity.
  - destruct (ce_record e) as [ce|] eqn:Ece; [|discriminate].
    destruct (continuation_entry ce) as [c|] eqn:Ecn; [|discriminate].
    cbn [getattr bind].
    destruct (px_record (cont_base c)) as [px|] eqn:Ec; [|discriminate].
    cbn [getattr bind].
    intros H. apply Ok_inj in H. subst e'.
    destruct e. cbn [ce_record] in Ece. subst.
    destruct ce as [oc i]. cbn [continuation_entry ce_initialized] in *.
    subst oc. destruct c as [b o n off l].
    cbn [cont_base] in Ec.
    destruct b, px. cbn [px_record] in Ec.
    unfold set_ce_record, cont_update, set_px_record, px_update_links.
    cbn [sp_record rr_record ce_record px_record er_record es_record pn_record
           sl_records nm_record cl_record pl_record tf_record sf_record
           re_record child_link parent_link rr_bytes_to_skip su_entry_version
           initialized posix_file_mode posix_file_links posix_user_id
           posix_group_id posix_serial_number continuation_entry cont_base
           orig_extent_loc new_extent_loc continue_offset continue_length].
    rewrite Hf, Ec. reflexivity.
Qed.

(** X11.  Adding a file link and removing one undo each other, and each
    moves the link count by one, whether the PX record sits in the entry or
    in its continuation. *)
Theorem file_links_add_remove (e e' : RockRidgeBase) :
  RockRidge_add_to_file_links e = Ok e' ->
  RockRidge_remove_from_file_links e' = Ok e
  /\ exists n, src_file_links e = Ok n /\ src_file_links e' = Ok (n + 1).
Proof.
  unfold RockRidge_add_to_file_links, RockRidge_remove_from_file_links.
  destruct (initialized e) eqn:Hi; [|discriminate]. cbn [negb].
  intros H.
  destruct (update_file_links_links _ _ _ H) as (n & Hn & Hn' & Hi').
  split.
  - rewrite Hi', Hi. cbn [negb].
    rewrite (update_file_links_compose _ (fun n => n - 1) _ _ H).
    destruct (update_file_links (fun n0 => n0 + 1 - 1) e) as [e2|] eqn:E2.
    + f_equal.
      assert (Hid : forall m : Z, m + 1 - 1 = m) by (intros; lia).
      exact (update_file_links_id (fun m => m + 1 - 1) _ _ Hid E2).
    + unfold update_file_links in H, E2.
      destruct (px_record e); [discriminate|].
      destruct (ce_record e) as [ce|]; [|discriminate].
      destruct (continuation_entry ce) as [c|]; [|discriminate].
      cbn [getattr bind] in H, E2.
      destruct (px_record _); discriminate.
  - exists n. split; assumption.
Qed.

Lemma file_links_add_remove_witness :
  exists e',
    RockRidge_add_to_file_links entry_px_in_cont = Ok e'
    /\ RockRidge_remove_from_file_links e' = Ok entry_px_in_cont
    /\ src_file_links e' = Ok 2.
Proof.
  eexists. split; [reflexivity|].
  destruct (file_links_add_remove entry_px_in_cont _ eq_refl)
    as (Hr & n & Hn & Hn').
  split; [exact Hr|].
  rewrite Hn'. apply Ok_inj in Hn. rewrite <- Hn. reflexivity.
Defined.

(** X12.  On an initialized entry [copy_file_links] reads the link count
    of the source first and assigns it to the entry second; on either side
    the PX record of the entry itself is used when there is one, that of
    the continuation otherwise.  The call returns whenever a PX record is
    found on both sides, and whenever it returns the entry has the link
    count of the source.
    A source with neither a PX record nor a CE record makes it raise "No
    Rock Ridge file links and no continuation entry"; a source without a PX
    record whose CE record owns no continuation, or whose continuation has
    no PX record, makes it raise [AttributeError]; both whatever the entry
    holds.  Once the source has given its link count, an entry with neither
    a PX record nor a CE record makes the call raise the same "No Rock
    Ridge file links ...", and an entry without a PX record whose CE record
    owns no continuation, or whose continuation has no PX record, makes it
    raise [AttributeError]. *)
Theorem copy_file_links_copies (self src : RockRidgeBase) :
  initialized self = true ->
  (forall e', RockRidge_copy_file_links self src = Ok e' ->
              src_file_links e' = src_file_links src)
  /\ (forall n m, src_file_links src = Ok n -> src_file_links self = Ok m ->
                  exists e', RockRidge_copy_file_links self src = Ok e')
  /\ (px_record src = None -> ce_record src = None ->
      RockRidge_copy_file_links self src
      = Raise (PyIsoException
                 "No Rock Ridge file links and no continuation entry"))
  /\ (px_record src = None -> ce_record src <> None ->
      (forall c, continuation src = Some c -> px_record c = None) ->
      RockRidge_copy_file_links self src = Raise AttributeError)
  /\ (forall n, src_file_links src = Ok n ->
                px_record self = None -> ce_record self = None ->
                RockRidge_copy_file_links self src
                = Raise (PyIsoException
                           "No Rock Ridge file links and no continuation entry"))
  /\ (forall n, src_file_links src = Ok n ->
                px_record self = None -> ce_record self <> None ->
                (forall c, continuation self = Some c -> px_record c = None) ->
                RockRidge_copy_file_links self src = Raise AttributeError).
Proof.
  intros Hi. unfold RockRidge_copy_file_links. rewrite Hi. cbn [negb].
  assert (Hattr : forall e f,
             px_record e = None -> ce_record e <> None ->
             (forall c, continuation e = Some c -> px_record c = None) ->
             src_file_links e = Raise AttributeError
             /\ update_file_links f e = Raise AttributeError).
  { intros e f Hpx Hce Hc. unfold src_file_links, update_file_links.
    unfold continuation in Hc. rewrite Hpx.
    destruct (ce_record e) as [ce|]; [|contradiction].
    destruct (continuation_entry ce) as [c|]; [|split; reflexivity].
    cbn [getattr bind]. rewrite (Hc _ eq_refl). split; reflexivity. }
  repeat apply conj.
  - intros e' H. destruct (src_file_links src) as [n|]; [|discriminate].
    cbn [bind] in H.
    destruct (update_file_links_links _ _ _ H) as (m & _ & Hm & _).
    exact Hm.
  - intros n m Hn Hm. rewrite Hn. cbn [bind].
    unfold src_file_links in Hm. unfold update_file_links.
    destruct (px_record self); [eexists; reflexivity|].
    destruct (ce_record self) as [ce|]; [|discriminate].
    destruct (continuation_entry ce) as [c|]; [|discriminate].
    cbn [getattr bind] in *.
    destruct (px_record _); [eexists; reflexivity | discriminate].
  - intros Hpx Hce. unfold src_file_links. rewrite Hpx, Hce. reflexivity.
  - intros Hpx Hce Hc.
    rewrite (proj1 (Hattr src (fun n => n) Hpx Hce Hc)). reflexivity.
  - intros n Hn Hpx Hce. rewrite Hn. cbn [bind].
    unfold update_file_links. rewrite Hpx, Hce. reflexivity.
  - intros n Hn Hpx Hce Hc. rewrite Hn. cbn [bind].
    exact (proj2 (Hattr self _ Hpx Hce Hc)).
Qed.

Lemma copy_file_links_copies_witness :
  (exists e',
      RockRidge_copy_file_links entry_er_px_nm entry_px_in_cont = Ok e'
      /\ src_file_links e' = src_file_links entry_px_in_cont)
  /\ RockRidge_copy_file_links entry_er_px_nm entry_cont_no_px
     = Raise AttributeError
  /\ RockRidge_copy_file_links entry_cont_no_px entry_px_in_cont
     = Raise AttributeError.
Proof.
  destruct (copy_file_links_copies entry_er_px_nm entry_px_in_cont eq_refl)
    as (Hcopy & Hex & _).
  destruct (copy_file_links_copies entry_er_px_nm entry_cont_no_px eq_refl)
    as (_ & _ & _ & Hsrc & _).
  destruct (copy_file_links_copies entry_cont_no_px entry_px_in_cont eq_refl)
    as (_ & _ & _ & _ & _ & Hdst).
  split; [|split].
  - destruct (Hex 1 1 eq_refl eq_refl) as (e' & He').
    exists e'. split; [exact He' | exact (Hcopy e' He')].
  - apply Hsrc; [reflexivity | discriminate |].
    intros c Hc. injection Hc as <-. reflexivity.
  - apply (Hdst 1); [reflexivity | reflexivity | discriminate |].
    intros c Hc. injection Hc as <-. reflexivity.
Defined.

(** ** Name reconstruction after [new] *)

Lemma slice_to_from (x : str) (k : Z) : slice_to x k ++ slice_from x k = x.
Proof. unfold slice_to, slice_from. apply firstn_skipn. Qed.

Lemma RockRidge_name_slots (e : RockRidgeBase) :
  initialized e = true -> ce_owns e = true ->
  RockRidge_name e
  = Ok (slot_name (fst (nm_slots e)) ++ slot_name (snd (nm_slots e))).
Proof.
  intros Hi Ho. unfold RockRidge_name, nm_slots, continuation.
  unfold ce_owns in Ho. rewrite Hi. cbn [negb fst snd].
  destruct (ce_record e) as [ce|].
  - destruct (continuation_entry ce) as [c|]; [|discriminate Ho].
    cbn [getattr bind option_map].
    destruct (nm_record e) as [nm|], (nm_record (cont_base c));
      cbn [slot_name app]; rewrite ?app_nil_r; reflexivity.
  - destruct (nm_record e) as [nm|]; cbn [slot_name app];
      rewrite ?app_nil_r; reflexivity.
Qed.

Lemma new_nm_slots (a : new_args) (e : RockRidgeBase) (dr : Z)
  (e' : RockRidgeBase) (dr' : Z) :
  nm_slots e = (None, None) ->
  new_nm a (e, dr) = Ok (e', dr') ->
  slot_name (fst (nm_slots e')) ++ slot_name (snd (nm_slots e'))
  = match rr_name a with Some name => name | None => [] end.
Proof.
  intros H0. unfold new_nm. destruct (rr_name a) as [name|].
  - destruct (ALLOWED_DR_SIZE <? dr + RRNMRecord_length name).
    + destruct (update_ce _ _) as [e1|] eqn:E; [|discriminate].
      cbn [bind]. intros Hm.
      rewrite (mark_field_frame nm_slots _ _ _ _ _
                 ltac:(intros v; unfold safe, nm_slots; solve_safe) Hm).
      apply update_ce_cont_inv in E. destruct E as (ce & c & Ece & Ec & ->).
      unfold nm_slots, continuation. cbn. apply slice_to_from.
    + cbn [bind]. intros Hm.
      rewrite (mark_field_frame nm_slots _ _ _ _ _
                 ltac:(intros v; unfold safe, nm_slots; solve_safe) Hm).
      unfold nm_slots in *. injection H0 as _ H0.
      change (continuation (set_nm_record (Some (RRNMRecord_new name)) e))
        with (continuation e).
      rewrite H0. cbn. apply app_nil_r.
  - intros H. apply Ok_inj in H. injection H as <- _. rewrite H0. reflexivity.
Qed.

(** X13.  The name comes back whole: on the entry [new] builds, [name()]
    returns the alternate name it was given, split across the continuation
    or not, and the empty string when it was given none. *)
Theorem name_after_new (now : clock) (a : new_args) (e : RockRidgeBase)
  (n : Z) :
  RockRidge_new now RockRidgeBase_init a = Ok (e, n) ->
  RockRidge_name e
  = Ok (match rr_name a with Some name => name | None => [] end).
Proof.
  intros Hnew. pose proof (new_ce_owns _ _ _ _ Hnew) as Hown.
  unfold RockRidge_new in Hnew.
  destruct (RockRidge_new_layout now RockRidgeBase_init a) as [[e1 n1]|] eqn:E;
    [|discriminate].
  cbn [bind fst snd] in Hnew. injection Hnew as <- _.
  apply new_layout_trace in E.
  destruct E as (_ & t & Ht & H0 & -> & _).
  rewrite RockRidge_name_slots by (reflexivity || exact Hown).
  change (nm_slots (set_initialized true (fst (t_er t))))
    with (nm_slots (fst (t_er t))).
  destruct Ht as (E1 & E2 & E3 & E4 & E5 & E6 & E7 & E8 & E9 & E10).
  destruct t as [[e0 d0] [e1 d1] [e2 d2] [e3 d3] [e4 d4] [e5 d5] [e6 d6]
                 [e7 d7] [e8 d8] [e9 d9] [e10 d10]].
  cbn [t_ce t_sp t_rr t_nm t_px t_sl t_tf t_cl t_re t_pl t_er fst] in *.
  assert (S : forall f, (forall b, nm_record (f b) = nm_record b) ->
                        (forall b, ce_record (f b) = ce_record b) ->
                        safe nm_slots f).
  { intros f Hf Hc. unfold safe, nm_slots. safe_cont Hf Hc. }
  rewrite (new_er_frame nm_slots _ _ _ _ _
             ltac:(intros; apply S; reflexivity) E10).
  rewrite (new_pl_frame nm_slots _ _ _ _ _
             ltac:(intros; apply S; reflexivity) E9).
  rewrite (new_re_frame nm_slots _ _ _ _ _
             ltac:(intros; apply S; reflexivity) E8).
  rewrite (new_cl_frame nm_slots _ _ _ _ _
             ltac:(intros; apply S; reflexivity) E7).
  rewrite (new_tf_frame nm_slots _ _ _ _ _
             ltac:(intros; apply S; reflexivity)
             ltac:(intros; apply S; reflexivity) E6).
  rewrite (new_sl_frame nm_slots
             ltac:(intros; apply S; reflexivity)
             ltac:(apply S; reflexivity) _ _ _ _ _
             ltac:(intros; apply S; reflexivity) E5).
  rewrite (new_px_frame nm_slots _ _ _ _ _
             ltac:(intros; apply S; reflexivity)
             ltac:(intros; apply S; reflexivity) E4).
  apply (f_equal Ok). apply (new_nm_slots a e2 d2 e3 d3); [|exact E3].
  rewrite (new_rr_frame nm_slots _ _ _ _ _
             ltac:(intros; apply S; reflexivity) E2).
  rewrite (new_sp_frame nm_slots _ _ _ _ _
             ltac:(intros; apply S; reflexivity) E1).
  unfold new_ce in H0.
  destruct (ALLOWED_DR_SIZE <? new_estimate a); injection H0 as -> _;
    reflexivity.
Qed.

Lemma name_after_new_witness :
  exists e n ce,
    RockRidge_new epoch RockRidgeBase_init args_long_name = Ok (e, n)
    /\ ce_record e = Some ce
    /\ len (slot_name (nm_record e)) = 182
    /\ RockRidge_name e = Ok (repeat "n"%char 100 ++ repeat "m"%char 200).
Proof.
  destruct (RockRidge_new epoch RockRidgeBase_init args_long_name)
    as [[e n]|] eqn:E; [|vm_compute in E; discriminate E].
  exists e, n.
  pose proof (name_after_new epoch args_long_name e n E) as Hname.
  assert (Hce : exists ce, ce_record e = Some ce
                           /\ len (slot_name (nm_record e)) = 182).
  { vm_compute in E. apply Ok_inj in E. injection E as <- _.
    eexists. split; reflexivity. }
  destruct Hce as (ce & Hce & Hl).
  exists ce. repeat split; assumption.
Defined.

(** ** Relocation records after [new] *)

Lemma has_child_link_record_holds (e : RockRidgeBase) :
  initialized e = true -> ce_owns e = true ->
  RockRidge_has_child_link_record e
  = Ok (fst (holds_cl e) || snd (holds_cl e)).
Proof.
  intros Hi Ho. unfold RockRidge_has_child_link_record, holds_cl, continuation.
  unfold ce_owns in Ho. rewrite Hi. cbn [negb fst snd].
  destruct (ce_record e) as [ce|]; [|rewrite orb_false_r; reflexivity].
  destruct (continuation_entry ce) as [c|]; [|discriminate Ho].
  cbn [option_map getattr bind]. destruct (cl_record e); reflexivity.
Qed.

Lemma relocated_record_holds (e : RockRidgeBase) :
  initialized e = true -> ce_owns e = true ->
  RockRidge_relocated_record e = Ok (fst (holds_re e) || snd (holds_re e)).
Proof.
  intros Hi Ho. unfold RockRidge_relocated_record, holds_re, continuation.
  unfold ce_owns in Ho. rewrite Hi. cbn [negb fst snd].
  destruct (ce_record e) as [ce|]; [|rewrite orb_false_r; reflexivity].
  destruct (continuation_entry ce) as [c|]; [|discriminate Ho].
  cbn [option_map getattr bind]. destruct (re_record e); reflexivity.
Qed.

Lemma safe_holds_cl (f : RockRidgeBase -> RockRidgeBase) :
  (forall b, cl_record (f b) = cl_record b) ->
  (forall b, ce_record (f b) = ce_record b) ->
  safe holds_cl f.
Proof.
  intros Hf Hc. unfold safe, holds_cl. safe_cont Hf Hc.
Qed.

Lemma safe_holds_re (f : RockRidgeBase -> RockRidgeBase) :
  (forall b, re_record (f b) = re_record b) ->
  (forall b, ce_record (f b) = ce_record b) ->
  safe holds_re f.
Proof.
  intros Hf Hc. unfold safe, holds_re. safe_cont Hf Hc.
Qed.

Lemma new_cl_holds (a : new_args) (e : RockRidgeBase) (dr : Z)
  (e' : RockRidgeBase) (dr' : Z) :
  holds_cl e = (false, false) ->
  new_cl a (e, dr) = Ok (e', dr') ->
  fst (holds_cl e') || snd (holds_cl e') = rr_relocated_child a.
Proof.
  intros H0. unfold new_cl, place. destruct (rr_relocated_child a).
  - destruct (ALLOWED_DR_SIZE <? dr + RRCLRecord_length).
    + destruct (update_ce _ e) as [e1|] eqn:E; [|discriminate].
      cbn [bind]. intros H. apply Ok_inj in H. injection H as <- _.
      apply update_ce_cont_inv in E. destruct E as (ce & c & Ece & Ec & ->).
      unfold holds_cl, continuation. cbn. apply orb_true_r.
    + intros H. apply Ok_inj in H. injection H as <- _. reflexivity.
  - intros H. apply Ok_inj in H. injection H as <- _. rewrite H0. reflexivity.
Qed.

Lemma new_re_holds (a : new_args) (e : RockRidgeBase) (dr : Z)
  (e' : RockRidgeBase) (dr' : Z) :
  holds_re e = (false, false) ->
  new_re a (e, dr) = Ok (e', dr') ->
  fst (holds_re e') || snd (holds_re e') = rr_relocated a.
Proof.
  intros H0. unfold new_re, place. destruct (rr_relocated a).
  - destruct (ALLOWED_DR_SIZE <? dr + RRRERecord_length).
    + destruct (update_ce _ e) as [e1|] eqn:E; [|discriminate].
      cbn [bind]. intros H. apply Ok_inj in H. injection H as <- _.
      apply update_ce_cont_inv in E. destruct E as (ce & c & Ece & Ec & ->).
      unfold holds_re, continuation. cbn. apply orb_true_r.
    + intros H. apply Ok_inj in H. injection H as <- _. reflexivity.
  - intros H. apply Ok_inj in H. injection H as <- _. rewrite H0. reflexivity.
Qed.

Ltac safe_by lem := intros; apply lem; reflexivity.

(** X14.  The relocation queries answer what [new] was told: on the entry
    it builds, [has_child_link_record()] is the relocated-child flag and
    [relocated_record()] the relocated flag, whether the CL and RE records
    went to the entry or to its continuation. *)
Theorem relocation_queries_after_new (now : clock) (a : new_args)
  (e : RockRidgeBase) (n : Z) :
  RockRidge_new now RockRidgeBase_init a = Ok (e, n) ->
  RockRidge_has_child_link_record e = Ok (rr_relocated_child a)
  /\ RockRidge_relocated_record e = Ok (rr_relocated a).
Proof.
  intros Hnew. pose proof (new_ce_owns _ _ _ _ Hnew) as Hown.
  unfold RockRidge_new in Hnew.
  destruct (RockRidge_new_layout now RockRidgeBase_init a) as [[e1 n1]|] eqn:E;
    [|discriminate].
  cbn [bind fst snd] in Hnew. injection Hnew as <- _.
  apply new_layout_trace in E.
  destruct E as (_ & t & Ht & H0 & -> & _).
  rewrite has_child_link_record_holds, relocated_record_holds
    by (reflexivity || exact Hown).
  change (holds_cl (set_initialized true (fst (t_er t))))
    with (holds_cl (fst (t_er t))).
  change (holds_re (set_initialized true (fst (t_er t))))
    with (holds_re (fst (t_er t))).
  destruct Ht as (E1 & E2 & E3 & E4 & E5 & E6 & E7 & E8 & E9 & E10).
  destruct t as [[e0 d0] [e1 d1] [e2 d2] [e3 d3] [e4 d4] [e5 d5] [e6 d6]
                 [e7 d7] [e8 d8] [e9 d9] [e10 d10]].
  cbn [t_ce t_sp t_rr t_nm t_px t_sl t_tf t_cl t_re t_pl t_er fst] in *.
  assert (Hstart : holds_cl e0 = (false, false)
                   /\ holds_re e0 = (false, false)).
  { unfold new_ce in H0.
    destruct (ALLOWED_DR_SIZE <? new_estimate a); injection H0 as -> _;
      split; reflexivity. }
  destruct Hstart as [Hcl0 Hre0].
  split; apply (f_equal Ok).
  - rewrite (new_er_frame holds_cl _ _ _ _ _ ltac:(safe_by safe_holds_cl) E10).
    rewrite (new_pl_frame holds_cl _ _ _ _ _ ltac:(safe_by safe_holds_cl) E9).
    rewrite (new_re_frame holds_cl _ _ _ _ _ ltac:(safe_by safe_holds_cl) E8).
    apply (new_cl_holds a e6 d6 e7 d7); [|exact E7].
    rewrite (new_tf_frame holds_cl _ _ _ _ _ ltac:(safe_by safe_holds_cl)
               ltac:(safe_by safe_holds_cl) E6).
    rewrite (new_sl_frame holds_cl ltac:(safe_by safe_holds_cl)
               ltac:(safe_by safe_holds_cl) _ _ _ _ _
               ltac:(safe_by safe_holds_cl) E5).
    rewrite (new_px_frame holds_cl _ _ _ _ _ ltac:(safe_by safe_holds_cl)
               ltac:(safe_by safe_holds_cl) E4).
    rewrite (new_nm_frame holds_cl _ _ _ _ _ ltac:(safe_by safe_holds_cl)
               ltac:(safe_by safe_holds_cl) E3).
    rewrite (new_rr_frame holds_cl _ _ _ _ _ ltac:(safe_by safe_holds_cl) E2).
    rewrite (new_sp_frame holds_cl _ _ _ _ _ ltac:(safe_by safe_holds_cl) E1).
    exact Hcl0.
  - rewrite (new_er_frame holds_re _ _ _ _ _ ltac:(safe_by safe_holds_re) E10).
    rewrite (new_pl_frame holds_re _ _ _ _ _ ltac:(safe_by safe_holds_re) E9).
    apply (new_re_holds a e7 d7 e8 d8); [|exact E8].
    rewrite (new_cl_frame holds_re _ _ _ _ _ ltac:(safe_by safe_holds_re) E7).
    rewrite (new_tf_frame holds_re _ _ _ _ _ ltac:(safe_by safe_holds_re)
               ltac:(safe_by safe_holds_re) E6).
    rewrite (new_sl_frame holds_re ltac:(safe_by safe_holds_re)
               ltac:(safe_by safe_holds_re) _ _ _ _ _
               ltac:(safe_by safe_holds_re) E5).
    rewrite (new_px_frame holds_re _ _ _ _ _ ltac:(safe_by safe_holds_re)
               ltac:(safe_by safe_holds_re) E4).
    rewrite (new_nm_frame holds_re _ _ _ _ _ ltac:(safe_by safe_holds_re)
               ltac:(safe_by safe_holds_re) E3).
    rewrite (new_rr_frame holds_re _ _ _ _ _ ltac:(safe_by safe_holds_re) E2).
    rewrite (new_sp_frame holds_re _ _ _ _ _ ltac:(safe_by safe_holds_re) E1).
    exact Hre0.
Qed.

Lemma relocation_queries_after_new_witness :
  exists e n,
    RockRidge_new epoch RockRidgeBase_init args_relocated_full = Ok (e, n)
    /\ holds_cl e = (false, true) /\ holds_re e = (false, true)
    /\ RockRidge_has_child_link_record e = Ok true
    /\ RockRidge_relocated_record e = Ok true.
Proof.
  destruct (RockRidge_new epoch RockRidgeBase_init args_relocated_full)
    as [[e n]|] eqn:E; [|vm_compute in E; discriminate E].
  exists e, n. split; [reflexivity|].
  destruct (relocation_queries_after_new epoch args_relocated_full e n E)
    as [Hcl Hre].
  assert (Hh : holds_cl e = (false, true) /\ holds_re e = (false, true)).
  { vm_compute in E. apply Ok_inj in E. injection E as <- _.
    split; reflexivity. }
  destruct Hh. repeat split; assumption.
Defined.

(** ** Symlinks after [new] *)

Lemma is_symlink_has_sl (e : RockRidgeBase) :
  initialized e = true -> ce_owns e = true ->
  RockRidge_is_symlink e = Ok (has_sl e).
Proof.
  intros Hi Ho.
  unfold RockRidge_is_symlink, has_sl, cont_has_sl, continuation.
  unfold ce_owns in Ho. rewrite Hi.
  cbn [negb]. destruct (is_nil (sl_records e)); cbn [negb orb].
  - destruct (ce_record e) as [ce|]; [|reflexivity].
    destruct (continuation_entry ce) as [c|]; [|discriminate Ho].
    cbn [option_map getattr bind].
    destruct (is_nil _); reflexivity.
  - reflexivity.
Qed.

Lemma safe_has_sl (f : RockRidgeBase -> RockRidgeBase) :
  (forall b, sl_records (f b) = sl_records b) ->
  (forall b, ce_record (f b) = ce_record b) ->
  safe has_sl f.
Proof.
  intros Hf Hc. unfold safe, has_sl, cont_has_sl. safe_cont Hf Hc.
Qed.

Lemma update_ce_has_sl (G : RockRidgeContinuation -> RockRidgeContinuation)
  (e e' : RockRidgeBase) :
  (forall c, is_nil (sl_records (cont_base c)) = false ->
             is_nil (sl_records (cont_base (G c))) = false) ->
  has_sl e = true ->
  update_ce (ce_update_cont G) e = Ok e' -> has_sl e' = true.
Proof.
  intros HG He E.
  apply update_ce_cont_inv in E. destruct E as (ce & c & Ece & Ec & ->).
  unfold has_sl, cont_has_sl, continuation in *. rewrite Ece, Ec in He.
  cbn in *.
  destruct (is_nil (sl_records e)); cbn [negb orb] in *; [|reflexivity].
  destruct (is_nil (sl_records (cont_base c))) eqn:En; [discriminate He|].
  rewrite (HG c En). reflexivity.
Qed.

Lemma update_ce_makes_sl (G : RockRidgeContinuation -> RockRidgeContinuation)
  (e e' : RockRidgeBase) :
  (forall c, is_nil (sl_records (cont_base (G c))) = false) ->
  update_ce (ce_update_cont G) e = Ok e' -> has_sl e' = true.
Proof.
  intros HG E.
  apply update_ce_cont_inv in E. destruct E as (ce & c & Ece & Ec & ->).
  unfold has_sl, cont_has_sl, continuation. cbn.
  rewrite HG. apply orb_true_r.
Qed.

Lemma is_nil_snoc {A : Type} (l : list A) (x : A) : is_nil (l ++ [x]) = false.
Proof. destruct l; reflexivity. Qed.

Lemma meta_increment_has_sl (n : Z) (st st' : sl_state) :
  has_sl (sl_entry st) = true ->
  meta_increment n st = Ok st' -> has_sl (sl_entry st') = true.
Proof.
  intros He. unfold meta_increment. destruct (sl_in_cont st).
  - destruct (update_ce _ _) as [e1|] eqn:E; [|discriminate].
    cbn [bind]. intros H. apply Ok_inj in H. subst st'. cbn [sl_entry].
    refine (update_ce_has_sl _ _ _ _ He E).
    intros c Hc. exact Hc.
  - intros H. apply Ok_inj in H. subst st'. exact He.
Qed.

Lemma curr_add_component_has_sl (comp : str) (st st' : sl_state) :
  curr_add_component comp st = Ok st' -> has_sl (sl_entry st') = true.
Proof.
  unfold curr_add_component.
  destruct (RRSLRecord_add_component _ _) as [sl|]; [|discriminate].
  cbn [bind]. destruct (sl_in_cont st).
  - destruct (update_ce _ _) as [e1|] eqn:E; [|discriminate].
    cbn [bind]. intros H. apply Ok_inj in H. subst st'. cbn [sl_entry].
    refine (update_ce_makes_sl _ _ _ _ E).
    intros c. unfold replace_last. cbn.
    apply is_nil_snoc.
  - intros H. apply Ok_inj in H. subst st'. cbn [sl_entry].
    unfold has_sl, replace_last. cbn. rewrite is_nil_snoc. reflexivity.
Qed.

Lemma cont_append_sl_has_sl (sl : RRSLRecord) (e e' : RockRidgeBase) :
  cont_append_sl sl e = Ok e' -> has_sl e' = true.
Proof.
  unfold cont_append_sl. apply update_ce_makes_sl.
  intros c. cbn. apply is_nil_snoc.
Qed.

Lemma curr_move_to_cont_has_sl (rest : str) (st st' : sl_state) :
  curr_move_to_cont rest st = Ok st' -> has_sl (sl_entry st') = true.
Proof.
  unfold curr_move_to_cont.
  destruct (cont_append_sl _ _) as [e1|] eqn:E; [|discriminate].
  cbn [bind]. apply meta_increment_has_sl. cbn [sl_entry].
  exact (cont_append_sl_has_sl _ _ _ E).
Qed.

Lemma new_sl_comp_has_sl (comp : str) (st st' : sl_state) :
  new_sl_comp comp st = Ok st' -> has_sl (sl_entry st') = true.
Proof.
  unfold new_sl_comp. destruct (_ <? 255).
  - destruct (curr_add_component comp st) as [s1|] eqn:E1; [|discriminate].
    cbn [bind]. apply meta_increment_has_sl.
    exact (curr_add_component_has_sl _ _ _ E1).
  - destruct (_ <? 255).
    + destruct (curr_add_component _ st) as [s1|] eqn:E1; [|discriminate].
      cbn [bind].
      destruct (meta_increment _ s1) as [s2|] eqn:E2; [|discriminate].
      cbn [bind]. apply curr_move_to_cont_has_sl.
    + apply curr_move_to_cont_has_sl.
Qed.

Lemma new_sl_comps_has_sl (comps : list str) (st st' : sl_state) :
  has_sl (sl_entry st) = true ->
  new_sl_comps comps st = Ok st' -> has_sl (sl_entry st') = true.
Proof.
  revert st. induction comps as [|comp r IH]; intros st He; cbn [new_sl_comps].
  - intros H. apply Ok_inj in H. subst st'. exact He.
  - destruct (new_sl_comp comp st) as [s1|] eqn:E1; [|discriminate].
    cbn [bind]. apply IH. exact (new_sl_comp_has_sl _ _ _ E1).
Qed.

Lemma new_sl_has_sl (a : new_args) (e : RockRidgeBase) (dr : Z)
  (e' : RockRidgeBase) (dr' : Z) :
  has_sl e = false ->
  new_sl a (e, dr) = Ok (e', dr') ->
  has_sl e' = match symlink_path a with Some _ => true | None => false end.
Proof.
  intros H0. unfold new_sl. destruct (symlink_path a) as [path|].
  - intros H.
    assert (Hst : exists st0 st2,
               has_sl (sl_entry st0) = true
               /\ (exists st1, meta_increment 5 st0 = Ok st1
                               /\ new_sl_comps (split path) st1 = Ok st2)
               /\ mark_field "SL" (sl_entry st2, sl_dr_len st2) = Ok (e', dr')).
    { destruct (_ <? ALLOWED_DR_SIZE).
      - cbn [bind] in H.
        destruct (meta_increment 5 _) as [s1|] eqn:E1; [|discriminate H].
        cbn [bind] in H.
        destruct (new_sl_comps _ s1) as [s2|] eqn:E2; [|discriminate H].
        cbn [bind] in H. eexists _, s2. split; [|split; [exists s1; split|]].
        2: exact E1. 2: exact E2. 2: exact H.
        cbn [sl_entry]. unfold has_sl. cbn. rewrite is_nil_snoc. reflexivity.
      - destruct (cont_append_sl _ e) as [e1|] eqn:E0; [|discriminate H].
        cbn [bind] in H.
        destruct (meta_increment 5 _) as [s1|] eqn:E1; [|discriminate H].
        cbn [bind] in H.
        destruct (new_sl_comps _ s1) as [s2|] eqn:E2; [|discriminate H].
        cbn [bind] in H. eexists _, s2. split; [|split; [exists s1; split|]].
        2: exact E1. 2: exact E2. 2: exact H.
        cbn [sl_entry]. exact (cont_append_sl_has_sl _ _ _ E0). }
    destruct Hst as (st0 & st2 & He0 & (st1 & E1 & E2) & Hm).
    rewrite (mark_field_frame has_sl _ _ _ _ _
               ltac:(intros; apply safe_has_sl; reflexivity) Hm).
    apply (new_sl_comps_has_sl _ _ _ (meta_increment_has_sl _ _ _ He0 E1) E2).
  - intros H. apply Ok_inj in H. injection H as <- _. exact H0.
Qed.

(** X15.  [is_symlink()] answers what [new] was told: on the entry it
    builds, [is_symlink()] is true exactly when a symlink path was given,
    wherever the SL records went and however many there are. *)
Theorem is_symlink_after_new (now : clock) (a : new_args)
  (e : RockRidgeBase) (n : Z) :
  RockRidge_new now RockRidgeBase_init a = Ok (e, n) ->
  RockRidge_is_symlink e
  = Ok (match symlink_path a with Some _ => true | None => false end).
Proof.
  intros Hnew. pose proof (new_ce_owns _ _ _ _ Hnew) as Hown.
  unfold RockRidge_new in Hnew.
  destruct (RockRidge_new_layout now RockRidgeBase_init a) as [[e1 n1]|] eqn:E;
    [|discriminate].
  cbn [bind fst snd] in Hnew. injection Hnew as <- _.
  apply new_layout_trace in E.
  destruct E as (_ & t & Ht & H0 & -> & _).
  rewrite is_symlink_has_sl by (reflexivity || exact Hown).
  change (has_sl (set_initialized true (fst (t_er t))))
    with (has_sl (fst (t_er t))).
  destruct Ht as (E1 & E2 & E3 & E4 & E5 & E6 & E7 & E8 & E9 & E10).
  destruct t as [[e0 d0] [e1 d1] [e2 d2] [e3 d3] [e4 d4] [e5 d5] [e6 d6]
                 [e7 d7] [e8 d8] [e9 d9] [e10 d10]].
  cbn [t_ce t_sp t_rr t_nm t_px t_sl t_tf t_cl t_re t_pl t_er fst] in *.
  assert (Hstart : has_sl e0 = false).
  { unfold new_ce in H0.
    destruct (ALLOWED_DR_SIZE <? new_estimate a); injection H0 as -> _;
      reflexivity. }
  apply (f_equal Ok).
  rewrite (new_er_frame has_sl _ _ _ _ _ ltac:(safe_by safe_has_sl) E10).
  rewrite (new_pl_frame has_sl _ _ _ _ _ ltac:(safe_by safe_has_sl) E9).
  rewrite (new_re_frame has_sl _ _ _ _ _ ltac:(safe_by safe_has_sl) E8).
  rewrite (new_cl_frame has_sl _ _ _ _ _ ltac:(safe_by safe_has_sl) E7).
  rewrite (new_tf_frame has_sl _ _ _ _ _ ltac:(safe_by safe_has_sl)
             ltac:(safe_by safe_has_sl) E6).
  apply (new_sl_has_sl a e4 d4 e5 d5); [|exact E5].
  rewrite (new_px_frame has_sl _ _ _ _ _ ltac:(safe_by safe_has_sl)
             ltac:(safe_by safe_has_sl) E4).
  rewrite (new_nm_frame has_sl _ _ _ _ _ ltac:(safe_by safe_has_sl)
             ltac:(safe_by safe_has_sl) E3).
  rewrite (new_rr_frame has_sl _ _ _ _ _ ltac:(safe_by safe_has_sl) E2).
  rewrite (new_sp_frame has_sl _ _ _ _ _ ltac:(safe_by safe_has_sl) E1).
  exact Hstart.
Qed.

Lemma is_symlink_after_new_witness :
  exists e n c,
    RockRidge_new epoch RockRidgeBase_init args_symlink_cut = Ok (e, n)
    /\ continuation e = Some c
    /\ Z.of_nat (length (sl_records e)) = 1
    /\ Z.of_nat (length (sl_records c)) = 1
    /\ RockRidge_is_symlink e = Ok true.
Proof.
  destruct (RockRidge_new epoch RockRidgeBase_init args_symlink_cut)
    as [[e n]|] eqn:E; [|vm_compute in E; discriminate E].
  pose proof (is_symlink_after_new epoch args_symlink_cut e n E) as Hs.
  vm_compute in E. apply Ok_inj in E. injection E as <- <-.
  eexists _, _, _. split; [reflexivity|]. split; [reflexivity|].
  split; [reflexivity|]. split; [reflexivity|]. exact Hs.
Defined.

(** ** [new] when everything fits *)

Lemma place_fits (f : RockRidgeBase -> RockRidgeBase) (n : Z)
  (e : RockRidgeBase) (dr : Z) :
  dr + n <= ALLOWED_DR_SIZE -> place f n (e, dr) = Ok (f e, dr + n).
Proof.
  intros H. unfold place.
  destruct (ALLOWED_DR_SIZE <? dr + n) eqn:E; [|reflexivity].
  apply Z.ltb_lt in E. lia.
Qed.

Lemma RRSLRecord_length_snoc (l : list str) (c : str) :
  RRSLRecord_length (l ++ [c])
  = RRSLRecord_length l + RRSLRecord_component_length c.
Proof.
  unfold RRSLRecord_length. rewrite fold_left_app. reflexivity.
Qed.

Lemma RRSLRecord_length_app (l r : list str) :
  RRSLRecord_length (l ++ r) = RRSLRecord_length l + (RRSLRecord_length r - 5).
Proof.
  unfold RRSLRecord_length at 1. rewrite fold_left_app.
  rewrite RRSLRecord_length_fold. unfold RRSLRecord_length. lia.
Qed.

Lemma new_sl_comps_fits (comps : list str) :
  forall (e0 : RockRidgeBase) (d : Z) (done : list str),
    RRSLRecord_length (done ++ comps) <= 252 ->
    new_sl_comps comps
      (mkSLS (set_sl_records [mkSL done 0] e0) d (mkSL done 0) false)
    = Ok (mkSLS (set_sl_records [mkSL (done ++ comps) 0] e0)
                (d + (RRSLRecord_length comps - 5))
                (mkSL (done ++ comps) 0) false).
Proof.
  induction comps as [|c r IH]; intros e0 d done Hl; cbn [new_sl_comps].
  - rewrite app_nil_r. unfold RRSLRecord_length. cbn [fold_left].
    rewrite Z.sub_diag, Z.add_0_r. reflexivity.
  - pose proof (RRSLRecord_component_length_bounds c) as [Hc2 Hcl].
    pose proof (RRSLRecord_length_lower r) as Hr.
    pose proof (RRSLRecord_length_lower done) as Hd.
    assert (Hsum : RRSLRecord_length (done ++ c :: r)
                   = RRSLRecord_length done + RRSLRecord_component_length c
                     + (RRSLRecord_length r - 5)).
    { rewrite RRSLRecord_length_app, RRSLRecord_length_cons. lia. }
    assert (Hspecial : 2 + len c <= RRSLRecord_component_length c + 2).
    { unfold RRSLRecord_component_length, is_special_comp.
      destruct (str_eqb c (lit ".")) eqn:E1;
        [apply str_eqb_eq in E1; subst c; cbn; lia|].
      destruct (str_eqb c (lit "..")) eqn:E2;
        [apply str_eqb_eq in E2; subst c; cbn; lia|].
      destruct (str_eqb c (lit "/")) eqn:E3;
        [apply str_eqb_eq in E3; subst c; cbn; lia|].
      cbn [orb]. lia. }
    unfold new_sl_comp. cbn [sl_curr].
    unfold RRSLRecord_current_length. cbn [symlink_components].
    destruct (RRSLRecord_length done + 2 + len c <? 255) eqn:E;
      [|apply Z.ltb_ge in E; lia].
    unfold curr_add_component. cbn [sl_curr sl_in_cont sl_entry sl_dr_len].
    unfold RRSLRecord_add_component, RRSLRecord_current_length.
    cbn [symlink_components sl_flags].
    destruct (255 <? RRSLRecord_length done + 2 + len c) eqn:E';
      [apply Z.ltb_lt in E'; apply Z.ltb_lt in E; lia|].
    cbn [bind]. unfold meta_increment. cbn [sl_in_cont sl_entry sl_dr_len sl_curr bind].
    replace (set_sl_records
               (replace_last (sl_records (set_sl_records [mkSL done 0] e0))
                             (mkSL (done ++ [c]) 0))
               (set_sl_records [mkSL done 0] e0))
      with (set_sl_records [mkSL (done ++ [c]) 0] e0) by reflexivity.
    rewrite IH by (rewrite <- app_assoc; exact Hl).
    rewrite <- app_assoc. cbn [app].
    rewrite RRSLRecord_length_cons.
    replace (d + RRSLRecord_component_length c + (RRSLRecord_length r - 5))
      with (d + (RRSLRecord_component_length c + RRSLRecord_length r - 5))
      by lia.
    reflexivity.
Qed.

Lemma mark_field_bit (name : string) (bit : Z) (e : RockRidgeBase) (dr : Z) :
  rr_field_bit name = Ok bit ->
  mark_field name (e, dr)
  = Ok (match rr_record e with
        | Some rr =>
            set_rr_record
              (Some (mkRRf (Z.lor (rr_flags rr) (Z.shiftl 1 bit)))) e
        | None => e
        end, dr).
Proof.
  intros Hb. unfold mark_field, RRRRRecord_append_field.
  destruct (rr_record e); [|reflexivity]. rewrite Hb. reflexivity.
Qed.

Lemma new_sl_fits (a : new_args) (p : str) (e : RockRidgeBase) (dr : Z) :
  symlink_path a = Some p ->
  sl_records e = [] ->
  0 <= dr ->
  dr + RRSLRecord_length (split p) <= ALLOWED_DR_SIZE - 5 ->
  new_sl a (e, dr)
  = mark_field "SL" (set_sl_records [RRSLRecord_new (Some p)] e,
                     dr + RRSLRecord_length (split p)).
Proof.
  intros Hp Hnil Hdr Hfit. unfold new_sl. rewrite Hp.
  pose proof (RRSLRecord_length_lower (split p)) as Hl.
  unfold ALLOWED_DR_SIZE in *.
  destruct (dr + 5 + 2 + 1 <? 254) eqn:E; [|apply Z.ltb_ge in E; lia].
  cbn [bind]. unfold meta_increment at 1.
  cbn [sl_in_cont sl_entry sl_dr_len sl_curr bind].
  rewrite Hnil. cbn [app]. unfold RRSLRecord_new at 1 2.
  rewrite (new_sl_comps_fits (split p) e (dr + 5) []) by (cbn [app]; lia).
  cbn [bind sl_entry sl_dr_len app].
  replace (dr + 5 + (RRSLRecord_length (split p) - 5))
    with (dr + RRSLRecord_length (split p)) by lia.
  reflexivity.
Qed.

Lemma fits_not_first (a : new_args) :
  fits a -> is_first_dir_record_of_root a = false.
Proof.
  intros (_ & Hc & He). destruct (is_first_dir_record_of_root a) eqn:E;
    [|reflexivity].
  exfalso. unfold new_estimate in He. rewrite E in He.
  assert (Her : RRERRecord_length EXT_ID EXT_DES EXT_SRC = 237)
    by reflexivity.
  rewrite Her in He. clear Her.
  assert (Htf : RRTFRecord_length TF_FLAGS = 26) by reflexivity.
  rewrite Htf in He. clear Htf.
  unfold ALLOWED_DR_SIZE in He.
  destruct (rr_name a) as [nm|]; [pose proof (len_nonneg nm)|];
    (destruct (symlink_path a) as [p|];
     [pose proof (RRSLRecord_length_lower (split p))|]);
    destruct (String.eqb (rr_version a) "1.09"),
      (rr_relocated_child a), (rr_relocated a), (rr_relocated_parent a);
    autounfold with rr_consts in He; cbn [String.eqb Ascii.eqb Bool.eqb] in He;
    lia.
Qed.

Lemma new_sl_none (a : new_args) (st : layout) :
  symlink_path a = None -> new_sl a st = Ok st.
Proof. intros H. unfold new_sl. rewrite H. reflexivity. Qed.

Ltac entry_slots :=
  cbn [rr_record sl_records ce_record set_sp_record set_rr_record
       set_nm_record set_px_record set_sl_records set_tf_record
       set_cl_record set_re_record set_pl_record set_er_record
       set_su_entry_version set_initialized RockRidgeBase_init
       sp_record px_record er_record es_record pn_record nm_record
       cl_record pl_record tf_record sf_record re_record child_link
       parent_link rr_bytes_to_skip su_entry_version initialized
       rr_flags fst snd bind].

Ltac fit_step p :=
  first
    [ rewrite place_fits by (unfold ALLOWED_DR_SIZE; lia)
    | rewrite (mark_field_bit "NM" 3) by reflexivity
    | rewrite (mark_field_bit "PX" 0) by reflexivity
    | rewrite (mark_field_bit "SL" 2) by reflexivity
    | rewrite (mark_field_bit "TF" 7) by reflexivity
    | rewrite new_sl_none by reflexivity
    | rewrite (new_sl_fits _ p)
        by (try reflexivity; unfold ALLOWED_DR_SIZE; lia)
    | match goal with
      | |- context [254 <? ?x] =>
          let E := fresh in
          destruct (254 <? x) eqn:E; [apply Z.ltb_lt in E; lia|]; clear E
      end ];
  entry_slots.

Lemma new_layout_inline (now : clock) (a : new_args) :
  fits a ->
  RockRidge_new_layout now RockRidgeBase_init a
  = Ok (entry_inline now a, new_estimate a).
Proof.
  intros Hfits. pose proof (fits_not_first a Hfits) as Hfirst.
  destruct Hfits as (Hv & Hc & He).
  unfold RockRidge_new_layout. cbn [initialized RockRidgeBase_init].
  assert (Hver : negb (String.eqb (rr_version a) "1.09")
                 && negb (String.eqb (rr_version a) "1.12") = false).
  { destruct Hv as [-> | ->]; reflexivity. }
  rewrite Hver. clear Hver Hv.
  unfold new_ce.
  destruct (ALLOWED_DR_SIZE <? new_estimate a) eqn:E;
    [apply Z.ltb_lt in E; lia|]. clear E.
  unfold entry_inline, rr_inline.
  unfold new_sp, new_er. rewrite Hfirst.
  unfold new_estimate in *. rewrite Hfirst in *.
  assert (Htf : RRTFRecord_length TF_FLAGS = 26) by reflexivity.
  unfold new_tf, new_px, new_rr, new_nm, new_cl, new_re, new_pl.
  rewrite Htf in *. clear Htf.
  destruct a as [first name isd sym ver cl re pl curr].
  cbn [is_first_dir_record_of_root rr_name isdir symlink_path rr_version
       rr_relocated_child rr_relocated rr_relocated_parent curr_dr_len] in *.
  assert (Hnm : match name with Some n => 0 <= len n | None => True end)
    by (destruct name; [apply len_nonneg|exact I]).
  assert (Hsl : match sym with
                | Some p => 5 <= RRSLRecord_length (split p)
                | None => True
                end)
    by (destruct sym; [apply RRSLRecord_length_lower|exact I]).
  cbn [bind].
  destruct (String.eqb ver "1.09") eqn:Ev, name as [nm|], sym as [p|],
    cl, re, pl;
    autounfold with rr_consts in *;
    cbn [String.eqb Ascii.eqb Bool.eqb] in *;
    unfold ALLOWED_DR_SIZE in *;
    entry_slots; repeat fit_step p;
    apply (f_equal Ok); (apply f_equal2; [reflexivity | lia]).
Qed.

(** X16.  When the estimate fits the directory record, [new] succeeds and
    needs no continuation: it creates no CE record, puts the whole symlink
    in one SL record, and returns exactly the estimate, padded to an even
    length.  The estimate is the current length plus the [length()] of every
    record asked for. *)
Theorem new_fits_without_continuation (now : clock) (a : new_args) :
  fits a ->
  exists e,
    RockRidge_new now RockRidgeBase_init a
    = Ok (e, new_estimate a + new_estimate a mod 2)
    /\ ce_record e = None
    /\ sl_records e = match symlink_path a with
                      | Some p => [RRSLRecord_new (Some p)]
                      | None => []
                      end.
Proof.
  intros Hfits. exists (entry_inline now a).
  unfold RockRidge_new. rewrite (new_layout_inline now a Hfits).
  cbn [bind fst snd]. repeat split.
Qed.

Lemma new_fits_without_continuation_witness :
  fits args_small_symlink
  /\ exists e,
      RockRidge_new epoch RockRidgeBase_init args_small_symlink = Ok (e, 140)
      /\ ce_record e = None
      /\ map symlink_components (sl_records e)
         = [[lit "usr"; lit ".."; lit "lib"; lit "libc.so"]].
Proof.
  assert (Hfits : fits args_small_symlink).
  { unfold fits. split; [left; reflexivity|].
    split; [cbn; lia | vm_compute; discriminate]. }
  split; [exact Hfits|].
  destruct (new_fits_without_continuation epoch args_small_symlink Hfits)
    as (e & Hnew & Hce & Hsl).
  exists e. split; [exact Hnew|]. split; [exact Hce|].
  rewrite Hsl. reflexivity.
Defined.

(** ** The symlink target after [new] *)

Lemma slice_to_snoc (x : str) (c : ascii) : slice_to (x ++ [c]) (-1) = x.
Proof.
  unfold slice_to, norm_idx, len. rewrite length_app. cbn [length].
  cbn [Z.ltb Z.compare].
  replace (Z.to_nat (Z.max 0 (-1 + Z.of_nat (length x + 1))))
    with (length x) by lia.
  rewrite firstn_app, Nat.sub_diag, firstn_all. cbn [firstn].
  apply app_nil_r.
Qed.

Lemma no_slash_not_slash (x : str) :
  ~ In "/"%char x -> str_eqb x (lit "/") = false.
Proof.
  intros H. destruct (str_eqb x (lit "/")) eqn:E; [|reflexivity].
  apply str_eqb_eq in E. subst x. exfalso. apply H. left. reflexivity.
Qed.

Lemma join_split_aux (x : str) : forall (cur acc : str),
  ~ In "/"%char cur ->
  fold_left (fun ret comp =>
               let ret := ret ++ comp in
               if negb (str_eqb comp (lit "/")) then ret ++ lit "/" else ret)
            (split_aux cur x) acc
  = acc ++ rev cur ++ x ++ lit "/".
Proof.
  induction x as [|c r IH]; intros cur acc Hcur; cbn [split_aux].
  - cbn [fold_left]. rewrite no_slash_not_slash.
    + cbn [negb app]. rewrite <- app_assoc. reflexivity.
    + intros Hin. apply Hcur. apply in_rev. exact Hin.
  - destruct (Ascii.eqb c "/") eqn:E.
    + apply Ascii.eqb_eq in E. subst c. cbn [fold_left].
      rewrite no_slash_not_slash
        by (intros Hin; apply Hcur; apply in_rev; exact Hin).
      cbn [negb]. rewrite IH by (intros []).
      cbn [rev app lit list_ascii_of_string].
      rewrite <- !app_assoc. reflexivity.
    + rewrite IH.
      * cbn [rev]. rewrite <- !app_assoc. reflexivity.
      * intros [Hin|Hin]; [|exact (Hcur Hin)].
        subst c. rewrite Ascii.eqb_refl in E. discriminate E.
Qed.

Lemma RRSLRecord_str_split (p : str) :
  RRSLRecord_str (RRSLRecord_new (Some p)) = p.
Proof.
  unfold RRSLRecord_str, RRSLRecord_new, split. cbn [symlink_components].
  rewrite join_split_aux by (intros []).
  cbn [rev app lit list_ascii_of_string]. apply slice_to_snoc.
Qed.

(** X17.  A symlink that fits comes back whole: when [new] needs no
    continuation, [symlink_path()] on the entry it builds returns the path
    it was given, with every "." and ".." and empty component in place.  The
    one exception is the path "/", which comes back as the empty string. *)
Theorem symlink_path_after_new (now : clock) (a : new_args) (p : str)
  (e : RockRidgeBase) (n : Z) :
  fits a ->
  symlink_path a = Some p ->
  RockRidge_new now RockRidgeBase_init a = Ok (e, n) ->
  RockRidge_symlink_path e = Ok (if str_eqb p (lit "/") then [] else p).
Proof.
  intros Hfits Hp Hnew. unfold RockRidge_new in Hnew.
  rewrite (new_layout_inline now a Hfits) in Hnew.
  cbn [bind fst snd] in Hnew. apply Ok_inj in Hnew. injection Hnew as <- _.
  unfold RockRidge_symlink_path, entry_inline.
  cbn [initialized sl_records ce_record negb]. rewrite Hp.
  cbn [is_nil orb]. unfold join_sl_records. cbn [fold_left app].
  rewrite RRSLRecord_str_split.
  destruct (str_eqb p (lit "/")) eqn:E; cbn [negb].
  - apply str_eqb_eq in E. subst p. reflexivity.
  - change (lit "/") with ["/"%char]. rewrite slice_to_snoc. reflexivity.
Qed.

Lemma symlink_path_after_new_witness :
  exists e n,
    RockRidge_new epoch RockRidgeBase_init args_small_symlink = Ok (e, n)
    /\ RockRidge_symlink_path e = Ok (lit "usr/../lib/libc.so").
Proof.
  destruct (RockRidge_new epoch RockRidgeBase_init args_small_symlink)
    as [[e n]|] eqn:E; [|vm_compute in E; discriminate E].
  exists e, n. split; [reflexivity|].
  refine (symlink_path_after_new epoch args_small_symlink
            (lit "usr/../lib/libc.so") e n _ eq_refl E).
  unfold fits. split; [left; reflexivity|].
  split; [cbn; lia | vm_compute; discriminate].
Defined.

(** ** The bytes of an entry that fits *)

Lemma append_record_len {A : Type} (rec : A -> M str) (o : option A)
  (ret : str) (L : Z) :
  (forall r, o = Some r -> exists b, rec r = Ok b /\ len b = L) ->
  exists ret',
    append_record rec o ret = Ok ret'
    /\ len ret' = len ret + match o with Some _ => L | None => 0 end.
Proof.
  intros H. destruct o as [r|]; cbn [append_record].
  - destruct (H r eq_refl) as (b & -> & Hb). cbn [bind].
    eexists. split; [reflexivity|]. rewrite len_app. lia.
  - eexists. split; [reflexivity|]. lia.
Qed.

Lemma RRNMRecord_new_record (name : str) :
  RRNMRecord_length name <= 255 ->
  exists b, RRNMRecord_record (RRNMRecord_new name) = Ok b
            /\ len b = RRNMRecord_length name.
Proof.
  intros H. pose proof (len_nonneg name). unfold RRNMRecord_length in *.
  unfold RRNMRecord_record, RRNMRecord_new, RRNMRecord_length.
  cbn [posix_name posix_name_flags].
  rewrite pack_Bs_ok by (repeat constructor; unfold SU_ENTRY_VERSION; lia).
  cbn [bind]. eexists. split; [reflexivity|].
  rewrite !len_app, len_map_chr. change (len (lit "NM")) with 2.
  cbn [length]. lia.
Qed.

Lemma RRSLRecord_new_record (p : str) :
  RRSLRecord_length (split p) <= 255 ->
  exists b, RRSLRecord_record (RRSLRecord_new (Some p)) = Ok b
            /\ len b = RRSLRecord_length (split p).
Proof.
  intros H. pose proof (RRSLRecord_length_lower (split p)).
  destruct (sl_components_record_ok (split p) H) as (_ & body & Hb & Hl).
  unfold RRSLRecord_record, RRSLRecord_new. cbn [symlink_components sl_flags].
  rewrite pack_Bs_ok by (repeat constructor; unfold SU_ENTRY_VERSION; lia).
  rewrite Hb. cbn [bind]. eexists. split; [reflexivity|].
  rewrite !len_app, len_map_chr. change (len (lit "SL")) with 2.
  cbn [length]. lia.
Qed.

Lemma RRTFRecord_new_record (now : clock) :
  len (now DirectoryRecordDate) = date_size DirectoryRecordDate ->
  exists b, RRTFRecord_record (RRTFRecord_new now TF_FLAGS) = Ok b
            /\ len b = RRTFRecord_length TF_FLAGS.
Proof.
  intros H. eexists. split; [reflexivity|].
  change (RRTFRecord_length TF_FLAGS) with 26.
  rewrite !len_app. cbn [date_size] in H.
  change (len (tf_record_field
                 (creation_time (RRTFRecord_new now TF_FLAGS)))) with 0.
  change (len (tf_record_field
                 (access_time (RRTFRecord_new now TF_FLAGS))))
    with (len (now DirectoryRecordDate)).
  change (len (tf_record_field
                 (modification_time (RRTFRecord_new now TF_FLAGS))))
    with (len (now DirectoryRecordDate)).
  change (len (tf_record_field
                 (attribute_change_time (RRTFRecord_new now TF_FLAGS))))
    with (len (now DirectoryRecordDate)).
  change (len (tf_record_field
                 (backup_time (RRTFRecord_new now TF_FLAGS)))) with 0.
  change (len (tf_record_field
                 (expiration_time (RRTFRecord_new now TF_FLAGS)))) with 0.
  change (len (tf_record_field
                 (effective_time (RRTFRecord_new now TF_FLAGS)))) with 0.
  rewrite H. reflexivity.
Qed.

Ltac record_step L :=
  match goal with
  | |- context [append_record ?rec ?o ?ret] =>
      let r := fresh "ret" in
      let E := fresh "E" in
      let Hl := fresh "Hl" in
      let H := fresh "H" in
      assert (H : forall x, o = Some x ->
                            exists b, rec x = Ok b /\ len b = L);
      [ | destruct (append_record_len rec o ret L H) as (r & E & Hl);
          rewrite E; clear E H; cbn [bind] ]
  end.

(** X18.  The length [new] reports is the length [record()] writes: when
    [new] needs no continuation and the clock stamps 7-byte directory-record
    dates, [record()] on the new entry succeeds, and the current length plus
    the number of bytes written is the estimate, which [new] returns padded
    to an even length. *)
Theorem record_length_after_new (now : clock) (a : new_args)
  (e : RockRidgeBase) (n : Z) :
  fits a ->
  len (now DirectoryRecordDate) = date_size DirectoryRecordDate ->
  RockRidge_new now RockRidgeBase_init a = Ok (e, n) ->
  exists b,
    RockRidgeBase_record e = Ok b
    /\ n = (curr_dr_len a + len b) + (curr_dr_len a + len b) mod 2.
Proof.
  intros Hfits Hclock Hnew. unfold RockRidge_new in Hnew.
  rewrite (new_layout_inline now a Hfits) in Hnew.
  cbn [bind fst snd] in Hnew. apply Ok_inj in Hnew. injection Hnew as <- <-.
  pose proof (fits_not_first a Hfits) as Hfirst.
  destruct Hfits as (Hv & Hc & He).
  assert (Hparts :
            new_estimate a
            = curr_dr_len a
              + (if String.eqb (rr_version a) "1.09" then 5 else 0)
              + match rr_name a with
                | Some name => RRNMRecord_length name
                | None => 0
                end
              + 36
              + match symlink_path a with
                | Some p => RRSLRecord_length (split p)
                | None => 0
                end
              + 26
              + (if rr_relocated_child a then 12 else 0)
              + (if rr_relocated a then 4 else 0)
              + (if rr_relocated_parent a then 12 else 0)).
  { unfold new_estimate. rewrite Hfirst.
    change (RRTFRecord_length TF_FLAGS) with 26.
    destruct (rr_name a), (symlink_path a),
      (String.eqb (rr_version a) "1.09"),
      (rr_relocated_child a), (rr_relocated a), (rr_relocated_parent a);
      autounfold with rr_consts; cbn [String.eqb Ascii.eqb Bool.eqb]; lia. }
  assert (Hnm0 : 5 <= match rr_name a with
                      | Some name => RRNMRecord_length name
                      | None => 5
                      end).
  { destruct (rr_name a) as [name|]; [|lia].
    pose proof (len_nonneg name). unfold RRNMRecord_length. lia. }
  assert (Hsl0 : 5 <= match symlink_path a with
                      | Some p => RRSLRecord_length (split p)
                      | None => 5
                      end).
  { destruct (symlink_path a) as [p|]; [|lia].
    apply RRSLRecord_length_lower. }
  unfold ALLOWED_DR_SIZE in He. rewrite Hparts in He.
  assert (Hlen : exists b,
             RockRidgeBase_record (entry_inline now a) = Ok b
             /\ curr_dr_len a + len b = new_estimate a).
  { unfold RockRidgeBase_record, entry_inline.
    cbn [initialized negb sp_record rr_record nm_record px_record sl_records
         tf_record cl_record pl_record re_record ce_record er_record].
    rewrite Hfirst.
    record_step 0.
    { intros x Hx. discriminate Hx. }
    record_step 5.
    { unfold rr_inline.
      destruct (String.eqb (rr_version a) "1.09"); [|discriminate].
      destruct (rr_name a), (symlink_path a); intros x Hx;
        injection Hx as <-; eexists; split; reflexivity. }
    record_step (match rr_name a with
                 | Some name => RRNMRecord_length name
                 | None => 0
                 end).
    { destruct (rr_name a) as [name|]; [|discriminate].
      cbn [option_map]. intros x Hx. injection Hx as <-.
      apply RRNMRecord_new_record.
      destruct (String.eqb (rr_version a) "1.09"),
        (rr_relocated_child a), (rr_relocated a), (rr_relocated_parent a),
        (symlink_path a); lia. }
    record_step 36.
    { intros x Hx. injection Hx as <-.
      destruct (isdir a), (symlink_path a); eexists; split; reflexivity. }
    assert (Hsl : exists ret',
               append_records RRSLRecord_record
                 match symlink_path a with
                 | Some p => [RRSLRecord_new (Some p)]
                 | None => []
                 end ret2 = Ok ret'
               /\ len ret' = len ret2
                             + match symlink_path a with
                               | Some p => RRSLRecord_length (split p)
                               | None => 0
                               end).
    { destruct (symlink_path a) as [p|]; cbn [append_records].
      - destruct (RRSLRecord_new_record p) as (b & -> & Hb).
        + destruct (String.eqb (rr_version a) "1.09"),
            (rr_relocated_child a), (rr_relocated a),
            (rr_relocated_parent a), (rr_name a); lia.
        + cbn [bind]. eexists. split; [reflexivity|].
          rewrite len_app. lia.
      - eexists. split; [reflexivity|]. lia. }
    destruct Hsl as (ret3 & E & Hl3). rewrite E. clear E. cbn [bind].
    record_step 26.
    { intros x Hx. injection Hx as <-. apply RRTFRecord_new_record, Hclock. }
    record_step 12.
    { destruct (rr_relocated_child a); [|discriminate].
      intros x Hx. injection Hx as <-. eexists. split; reflexivity. }
    record_step 12.
    { destruct (rr_relocated_parent a); [|discriminate].
      intros x Hx. injection Hx as <-. eexists. split; reflexivity. }
    record_step 4.
    { destruct (rr_relocated a); [|discriminate].
      intros x Hx. injection Hx as <-. eexists. split; reflexivity. }
    record_step 0.
    { intros x Hx. discriminate Hx. }
    record_step 0.
    { intros x Hx. discriminate Hx. }
    eexists. split; [reflexivity|].
    rewrite Hparts. change (len []) with 0 in *.
    unfold rr_inline in *.
    destruct (rr_name a), (symlink_path a),
      (String.eqb (rr_version a) "1.09"),
      (rr_relocated_child a), (rr_relocated a), (rr_relocated_parent a);
      cbn [option_map] in *; lia. }
  destruct Hlen as (b & Hb & Hl). exists b. split; [exact Hb|].
  rewrite Hl. reflexivity.
Qed.

Lemma record_length_after_new_witness :
  exists e b,
    RockRidge_new epoch RockRidgeBase_init args_small_symlink = Ok (e, 140)
    /\ RockRidgeBase_record e = Ok b
    /\ 140 = (34 + len b) + (34 + len b) mod 2.
Proof.
  destruct (RockRidge_new epoch RockRidgeBase_init args_small_symlink)
    as [[e n]|] eqn:E; [|vm_compute in E; discriminate E].
  assert (Hfits : fits args_small_symlink).
  { unfold fits. split; [left; reflexivity|].
    split; [cbn; lia | vm_compute; discriminate]. }
  assert (Hn140 : n = 140).
  { vm_compute in E. apply Ok_inj in E. injection E as _ <-. reflexivity. }
  destruct (record_length_after_new epoch args_small_symlink e n Hfits
              eq_refl E) as (b & Hb & Hn).
  exists e, b. split; [rewrite Hn140; reflexivity|].
  split; [exact Hb|]. rewrite <- Hn140. exact Hn.
Defined.

(** ** Reading back what [record()] wrote *)

Lemma slice_from_app (pre x : str) : slice_from (pre ++ x) (len pre) = x.
Proof.
  unfold slice_from, norm_idx. pose proof (len_nonneg pre) as Hp.
  pose proof (len_nonneg x) as Hx.
  destruct (Z.ltb_spec (len pre) 0); [lia|].
  rewrite len_app, Z.min_l by lia. unfold len. rewrite Nat2Z.id.
  rewrite skipn_app, skipn_all, Nat.sub_diag. reflexivity.
Qed.

Lemma slice_head4 (pre b rest : str) :
  4 <= len b ->
  slice (pre ++ b ++ rest) (len pre) (len pre + 4) = firstn 4 b.
Proof.
  intros Hb. rewrite <- (firstn_skipn 4 b) at 1. rewrite <- app_assoc.
  apply slice_at; [reflexivity|].
  unfold len in *. rewrite length_firstn. lia.
Qed.

Lemma parse_iter_chunk (flag : bool) (pre b rest : str)
  (assign : RockRidgeBase -> RockRidgeBase) (e : RockRidgeBase) :
  chunk flag b assign ->
  parse_iter (pre ++ b ++ rest) flag (mkPS e (len pre) (len b + len rest))
  = Continue (mkPS (assign e) (len pre + len b) (len rest)).
Proof.
  intros (H4 & Hlen & Hver & Hd). pose proof (len_nonneg rest) as Hr.
  rewrite (parse_iter_header _ flag _ (firstn 2 b) (len b) SU_ENTRY_VERSION).
  - rewrite Z.eqb_refl. cbn [negb ps_left ps_offset ps_entry].
    rewrite slice_from_app, Hd.
    replace (len b + len rest - len b) with (len rest) by lia. reflexivity.
  - unfold header_at. cbn [ps_left ps_offset].
    rewrite slice_head4 by exact H4.
    assert (Hl4 : len (firstn 4 b) = 4).
    { unfold len in *. rewrite length_firstn. lia. }
    rewrite Hl4.
    destruct (Z.leb_spec 4 (len b + len rest)); [|lia].
    cbn [andb Z.eqb Pos.eqb].
    rewrite firstn_firstn. cbn [Nat.min].
    unfold get_B in *. rewrite !nth_firstn. cbn [Nat.ltb Nat.leb].
    rewrite Hlen, Hver. reflexivity.
Qed.

Lemma parse_loop_chunks (flag : bool)
  (cs : list (str * (RockRidgeBase -> RockRidgeBase))) :
  Forall (fun c => chunk flag (fst c) (snd c)) cs ->
  forall (pre : str) (e : RockRidgeBase),
    parse_loop (S (length cs)) (pre ++ concat (map fst cs)) flag
               (mkPS e (len pre) (len (concat (map fst cs))))
    = Some (Parsed (fold_left (fun e c => snd c e) cs e)).
Proof.
  induction 1 as [|[b f] cs Hc _ IH]; intros pre e.
  - reflexivity.
  - cbn [length map concat fold_left fst snd] in *.
    change (parse_loop (S (S (length cs))) ?r flag ?st)
      with (match parse_iter r flag st with
            | Break e => Some (Parsed e)
            | Fail e slot x => Some (Aborted e slot x)
            | Continue st' => parse_loop (S (length cs)) r flag st'
            end).
    rewrite len_app, (parse_iter_chunk flag pre b _ f e Hc).
    rewrite app_assoc, <- len_app. apply IH.
Qed.

Lemma chunks_for_nil (flag : bool) : chunks_for flag [] (fun e => e).
Proof. exists []. split; [constructor|]. split; reflexivity. Qed.

Lemma chunks_for_snoc (flag : bool) (area b : str)
  (f g : RockRidgeBase -> RockRidgeBase) :
  chunks_for flag area f -> chunk flag b g ->
  chunks_for flag (area ++ b) (fun e => g (f e)).
Proof.
  intros (cs & Hcs & -> & Hf) Hb. exists (cs ++ [(b, g)]). split.
  - apply Forall_app. split; [exact Hcs|]. constructor; [exact Hb|constructor].
  - split.
    + rewrite map_app, concat_app. cbn [map concat fst].
      rewrite app_nil_r. reflexivity.
    + intros e. rewrite fold_left_app. cbn [fold_left snd].
      rewrite Hf. reflexivity.
Qed.

Lemma parse_chunks_for (flag : bool) (area : str)
  (f : RockRidgeBase -> RockRidgeBase) (self : RockRidgeBase) :
  chunks_for flag area f ->
  exists fuel,
    _parse fuel self area 0 flag
    = Some (Parsed (set_initialized true
                      (set_su_entry_version (Some 1)
                         (f (set_rr_bytes_to_skip (Some 0) self))))).
Proof.
  intros (cs & Hcs & -> & Hf). exists (S (length cs)).
  unfold _parse, parse_start.
  pose proof (parse_loop_chunks flag cs Hcs []
                (set_rr_bytes_to_skip (Some 0) self)) as H.
  cbn [app] in H. change (len []) with 0 in H.
  change (0 + 0) with 0. rewrite H, Hf. reflexivity.
Qed.

Lemma append_record_chunk {A : Type} (flag : bool) (rec : A -> M str)
  (setter : A -> RockRidgeBase -> RockRidgeBase) (o : option A)
  (ret : str) (f : RockRidgeBase -> RockRidgeBase) :
  chunks_for flag ret f ->
  (forall r, o = Some r ->
             exists b, rec r = Ok b /\ chunk flag b (setter r)) ->
  exists ret',
    append_record rec o ret = Ok ret'
    /\ chunks_for flag ret'
         (fun e => match o with Some r => setter r (f e) | None => f e end).
Proof.
  intros Hch H. destruct o as [r|]; cbn [append_record].
  - destruct (H r eq_refl) as (b & -> & Hb). cbn [bind].
    eexists. split; [reflexivity|]. apply chunks_for_snoc; assumption.
  - eexists. split; [reflexivity|]. exact Hch.
Qed.

Lemma header_facts (tag : string) (su_len : Z) (bs : list Z) (h body : str) :
  length (lit tag) = 2%nat ->
  pack_Bs (su_len :: SU_ENTRY_VERSION :: bs) = Ok h ->
  firstn 2 (lit tag ++ h ++ body) = lit tag
  /\ get_B (lit tag ++ h ++ body) 2 = su_len
  /\ get_B (lit tag ++ h ++ body) 3 = SU_ENTRY_VERSION
  /\ len (lit tag ++ h ++ body) = 4 + Z.of_nat (length bs) + len body.
Proof.
  intros Ht Hh.
  assert (Hb : 0 <= su_len < 256).
  { cbn [pack_Bs] in Hh.
    destruct (pack_B su_len) as [a|] eqn:E; [|discriminate].
    apply pack_B_inv in E. tauto. }
  apply pack_Bs_inv in Hh. subst h.
  destruct (lit tag) as [|t0 [|t1 [|]]]; try discriminate Ht.
  cbn [map app firstn]. repeat split.
  - unfold get_B. cbn [nth]. apply ord_chr. exact Hb.
  - unfold len. cbn [length]. rewrite length_app, length_map. lia.
Qed.

Lemma chunk_intro {A : Type} (flag : bool) (parse : str -> M A)
  (setter : A -> RockRidgeBase -> RockRidgeBase) (r : A) (b : str)
  (slot : option string) :
  (forall su left rest,
      parse_dispatch (firstn 2 b) su left rest flag
      = match parse rest with
        | Ok x => Assign (setter x)
        | Raise x => Abort slot x
        end) ->
  (forall rest, parse (b ++ rest) = Ok r) ->
  4 <= len b -> get_B b 2 = len b -> get_B b 3 = SU_ENTRY_VERSION ->
  chunk flag b (setter r).
Proof.
  intros Hd Hp H4 H2 H3. repeat split; try assumption.
  intros rest left. rewrite Hd, Hp. reflexivity.
Qed.

(** For a record type whose [record()] and [parse()] round-trip on [r]:
    the bytes of [r], and the fact that they round-trip with any tail. *)
Ltac record_bytes RT parse r b Hb Hrt :=
  let Hx := fresh in
  destruct (RT (@nil ascii)) as (b & Hb & Hx); clear Hx;
  assert (Hrt : forall rest, parse (b ++ rest) = Ok r);
  [ let rest := fresh "rest" in
    let b' := fresh "b" in
    let Hb' := fresh in
    let Hp := fresh in
    intros rest; destruct (RT rest) as (b' & Hb' & Hp);
    rewrite Hb in Hb'; apply Ok_inj in Hb'; subst b'; exact Hp
  | ].

Lemma rr_chunk (flag : bool) (r : RRRRRecord) :
  is_byte (rr_flags r) ->
  exists b, RRRRRecord_record r = Ok b
            /\ chunk flag b (fun e => set_rr_record (Some r) e).
Proof.
  intros Hv.
  record_bytes (fun rest => RRRRRecord_round_trip r rest Hv)
               RRRRRecord_parse r b Hb Hrt.
  exists b. split; [exact Hb|].
  unfold RRRRRecord_record in Hb.
  destruct (pack_Bs _) as [h|] eqn:Eh; [|discriminate Hb].
  cbn [bind] in Hb. apply Ok_inj in Hb. subst b.
  destruct (header_facts "RR" _ _ h [] eq_refl Eh) as (Ht & H2 & H3 & Hl).
  rewrite app_nil_r in Ht, H2, H3, Hl.
  eapply (chunk_intro flag RRRRRecord_parse (fun r => set_rr_record (Some r))).
  - intros. rewrite Ht. reflexivity.
  - exact Hrt.
  - rewrite Hl. cbn. lia.
  - rewrite H2, Hl. reflexivity.
  - exact H3.
Qed.

Lemma nm_chunk (flag : bool) (r : RRNMRecord) :
  valid_NM r ->
  exists b, RRNMRecord_record r = Ok b
            /\ chunk flag b (fun e => set_nm_record (Some r) e).
Proof.
  intros Hv.
  record_bytes (fun rest => RRNMRecord_round_trip r rest Hv)
               RRNMRecord_parse r b Hb Hrt.
  exists b. split; [exact Hb|].
  unfold RRNMRecord_record in Hb.
  destruct (pack_Bs _) as [h|] eqn:Eh; [|discriminate Hb].
  cbn [bind] in Hb. apply Ok_inj in Hb. subst b.
  destruct (header_facts "NM" _ _ h (posix_name r) eq_refl Eh)
    as (Ht & H2 & H3 & Hl).
  pose proof (len_nonneg (posix_name r)).
  cbn [length] in Hl. unfold RRNMRecord_length in H2.
  eapply (chunk_intro flag RRNMRecord_parse (fun r => set_nm_record (Some r))).
  - intros. rewrite Ht. reflexivity.
  - exact Hrt.
  - lia.
  - lia.
  - exact H3.
Qed.

Lemma px_chunk (flag : bool) (r : RRPXRecord) :
  valid_PX r -> posix_serial_number r = 0 ->
  exists b, RRPXRecord_record r = Ok b
            /\ chunk flag b (fun e => set_px_record (Some r) e).
Proof.
  intros (V1 & V2 & V3 & V4) Hs.
  record_bytes (fun rest => RRPXRecord_round_trip r rest V1 V2 V3 V4 Hs)
               RRPXRecord_parse r b Hb Hrt.
  exists b. split; [exact Hb|].
  unfold RRPXRecord_record, RRPXRecord_record_v in Hb.
  destruct (pack_Bs _) as [h|] eqn:Eh; [|discriminate Hb].
  cbn [bind] in Hb.
  destruct (pack_Ls _) as [l|] eqn:El; [|discriminate Hb].
  cbn [bind String.eqb Ascii.eqb Bool.eqb negb andb] in Hb.
  apply Ok_inj in Hb. subst b.
  destruct (header_facts "PX" _ _ h l eq_refl Eh) as (Ht & H2 & H3 & Hl).
  apply pack_Ls_inv in El. rewrite El, len_concat_le32 in Hl.
  cbn [length] in Hl. rewrite <- El in Hl.
  eapply (chunk_intro flag RRPXRecord_parse (fun r => set_px_record (Some r))).
  - intros. rewrite Ht. reflexivity.
  - exact Hrt.
  - lia.
  - rewrite H2, Hl. reflexivity.
  - exact H3.
Qed.

Lemma sl_chunk (flag : bool) (r : RRSLRecord) :
  valid_SL r ->
  exists b, RRSLRecord_record r = Ok b
            /\ chunk flag b (fun e => set_sl_records (sl_records e ++ [r]) e).
Proof.
  intros Hv.
  record_bytes (fun rest => RRSLRecord_round_trip r rest Hv)
               RRSLRecord_parse r b Hb Hrt.
  exists b. split; [exact Hb|].
  unfold RRSLRecord_record in Hb.
  destruct (pack_Bs _) as [h|] eqn:Eh; [|discriminate Hb].
  cbn [bind] in Hb.
  destruct (sl_components_record _) as [body|] eqn:Eb; [|discriminate Hb].
  cbn [bind] in Hb. apply Ok_inj in Hb. subst b.
  destruct (header_facts "SL" _ _ h body eq_refl Eh) as (Ht & H2 & H3 & Hl).
  apply sl_components_record_len in Eb. pose proof (len_nonneg body).
  cbn [length] in Hl.
  eapply (chunk_intro flag RRSLRecord_parse
           (fun r e => set_sl_records (sl_records e ++ [r]) e)).
  - intros. rewrite Ht. reflexivity.
  - exact Hrt.
  - lia.
  - lia.
  - exact H3.
Qed.

Lemma tf_chunk (flag : bool) (r : RRTFRecord) :
  valid_TF r ->
  exists b, RRTFRecord_record r = Ok b
            /\ chunk flag b (fun e => set_tf_record (Some r) e).
Proof.
  intros Hv.
  record_bytes (fun rest => RRTFRecord_round_trip r rest Hv)
               RRTFRecord_parse r b Hb Hrt.
  exists b. split; [exact Hb|].
  destruct Hv as (Hf & H0 & H1 & H2 & H3 & H4 & H5 & H6).
  unfold RRTFRecord_record in Hb.
  destruct (pack_Bs _) as [h|] eqn:Eh; [|discriminate Hb].
  cbn [bind] in Hb. apply Ok_inj in Hb. subst b.
  match goal with
  | |- chunk _ (lit "TF" ++ h ++ ?body) _ =>
      destruct (header_facts "TF" _ _ h body eq_refl Eh)
        as (Ht & G2 & G3 & Hl);
      assert (Hbody : len body
                      = RRTFRecord_length (time_flags r) - 5)
  end.
  { rewrite !len_app.
    rewrite (tf_record_field_len _ _ _ H0), (tf_record_field_len _ _ _ H1),
      (tf_record_field_len _ _ _ H2), (tf_record_field_len _ _ _ H3),
      (tf_record_field_len _ _ _ H4), (tf_record_field_len _ _ _ H5),
      (tf_record_field_len _ _ _ H6).
    unfold RRTFRecord_length, tf_datetype. cbn [fold_left].
    destruct (bit_set (time_flags r) 7), (bit_set (time_flags r) 0),
      (bit_set (time_flags r) 1), (bit_set (time_flags r) 2),
      (bit_set (time_flags r) 3), (bit_set (time_flags r) 4),
      (bit_set (time_flags r) 5), (bit_set (time_flags r) 6);
      cbn [date_size]; lia. }
  rewrite Hbody in Hl. cbn [length] in Hl.
  pose proof (RRTFRecord_length_range (time_flags r)).
  eapply (chunk_intro flag RRTFRecord_parse (fun r => set_tf_record (Some r))).
  - intros. rewrite Ht. reflexivity.
  - exact Hrt.
  - lia.
  - lia.
  - exact G3.
Qed.

Lemma cl_chunk (flag : bool) (r : RRCLRecord) :
  is_u32 (child_log_block_num r) ->
  exists b, RRCLRecord_record r = Ok b
            /\ chunk flag b (fun e => set_cl_record (Some r) e).
Proof.
  intros Hv.
  record_bytes (fun rest => RRCLRecord_round_trip r rest Hv)
               RRCLRecord_parse r b Hb Hrt.
  exists b. split; [exact Hb|].
  unfold RRCLRecord_record in Hb.
  destruct (pack_Bs _) as [h|] eqn:Eh; [|discriminate Hb].
  cbn [bind] in Hb.
  destruct (pack_Ls _) as [l|] eqn:El; [|discriminate Hb].
  cbn [bind] in Hb. apply Ok_inj in Hb. subst b.
  destruct (header_facts "CL" _ _ h l eq_refl Eh) as (Ht & H2 & H3 & Hl).
  apply pack_Ls_inv in El. rewrite El, len_concat_le32 in Hl.
  cbn [length] in Hl. rewrite <- El in Hl.
  eapply (chunk_intro flag RRCLRecord_parse (fun r => set_cl_record (Some r))).
  - intros. rewrite Ht. reflexivity.
  - exact Hrt.
  - lia.
  - rewrite H2, Hl. reflexivity.
  - exact H3.
Qed.

Lemma pl_chunk (flag : bool) (r : RRPLRecord) :
  is_u32 (parent_log_block_num r) ->
  exists b, RRPLRecord_record r = Ok b
            /\ chunk flag b (fun e => set_pl_record (Some r) e).
Proof.
  intros Hv.
  record_bytes (fun rest => RRPLRecord_round_trip r rest Hv)
               RRPLRecord_parse r b Hb Hrt.
  exists b. split; [exact Hb|].
  unfold RRPLRecord_record in Hb.
  destruct (pack_Bs _) as [h|] eqn:Eh; [|discriminate Hb].
  cbn [bind] in Hb.
  destruct (pack_Ls _) as [l|] eqn:El; [|discriminate Hb].
  cbn [bind] in Hb. apply Ok_inj in Hb. subst b.
  destruct (header_facts "PL" _ _ h l eq_refl Eh) as (Ht & H2 & H3 & Hl).
  apply pack_Ls_inv in El. rewrite El, len_concat_le32 in Hl.
  cbn [length] in Hl. rewrite <- El in Hl.
  eapply (chunk_intro flag RRPLRecord_parse (fun r => set_pl_record (Some r))).
  - intros. rewrite Ht. reflexivity.
  - exact Hrt.
  - lia.
  - rewrite H2, Hl. reflexivity.
  - exact H3.
Qed.

Lemma re_chunk (flag : bool) (r : RRRERecord) :
  exists b, RRRERecord_record r = Ok b
            /\ chunk flag b (fun e => set_re_record (Some r) e).
Proof.
  record_bytes (fun rest => RRRERecord_round_trip r rest)
               RRRERecord_parse r b Hb Hrt.
  exists b. split; [exact Hb|].
  unfold RRRERecord_record in Hb.
  destruct (pack_Bs _) as [h|] eqn:Eh; [|discriminate Hb].
  cbn [bind] in Hb. apply Ok_inj in Hb. subst b.
  destruct (header_facts "RE" _ _ h [] eq_refl Eh) as (Ht & H2 & H3 & Hl).
  rewrite app_nil_r in Ht, H2, H3, Hl.
  eapply (chunk_intro flag RRRERecord_parse (fun r => set_re_record (Some r))).
  - intros. rewrite Ht. reflexivity.
  - exact Hrt.
  - rewrite Hl. cbn. lia.
  - rewrite H2, Hl. reflexivity.
  - exact H3.
Qed.

Ltac closed_range :=
  unfold is_byte, is_u32;
  split; [apply Z.leb_le; reflexivity | apply Z.ltb_lt; reflexivity].

Lemma valid_TF_new (now : clock) :
  len (now DirectoryRecordDate) = date_size DirectoryRecordDate ->
  valid_TF (RRTFRecord_new now TF_FLAGS).
Proof.
  intros Hc. unfold valid_TF.
  split; [closed_range|].
  repeat split;
    first [ reflexivity
          | exists (Date_new now DirectoryRecordDate);
            split; [reflexivity|]; split; [reflexivity | exact Hc] ].
Qed.

Lemma valid_NM_new (name : str) :
  RRNMRecord_length name <= 255 -> valid_NM (RRNMRecord_new name).
Proof.
  intros H. unfold valid_NM, RRNMRecord_new.
  cbn [posix_name posix_name_flags].
  split; [closed_range|]. split; [reflexivity|].
  split; [reflexivity | exact H].
Qed.

Lemma valid_SL_new (p : str) :
  RRSLRecord_length (split p) <= 255 -> valid_SL (RRSLRecord_new (Some p)).
Proof.
  intros H. unfold valid_SL, RRSLRecord_new.
  cbn [sl_flags symlink_components]. split; [closed_range | exact H].
Qed.

Lemma valid_PX_new (isd : bool) (sym : option str) :
  valid_PX (RRPXRecord_new isd sym)
  /\ posix_serial_number (RRPXRecord_new isd sym) = 0.
Proof.
  unfold valid_PX, is_u32. destruct isd, sym; repeat split;
    first [apply Z.leb_le; reflexivity | apply Z.ltb_lt; reflexivity].
Qed.

Lemma append_records_chunk {A : Type} (flag : bool) (rec : A -> M str)
  (setter : A -> RockRidgeBase -> RockRidgeBase) (l : list A) :
  forall (ret : str) (f : RockRidgeBase -> RockRidgeBase),
    chunks_for flag ret f ->
    (forall r, In r l -> exists b, rec r = Ok b /\ chunk flag b (setter r)) ->
    exists ret',
      append_records rec l ret = Ok ret'
      /\ chunks_for flag ret'
           (fun e => fold_left (fun e r => setter r e) l (f e)).
Proof.
  induction l as [|r l IH]; intros ret f Hch H; cbn [append_records fold_left].
  - eexists. split; [reflexivity | exact Hch].
  - destruct (H r (or_introl eq_refl)) as (b & -> & Hb). cbn [bind].
    apply (IH (ret ++ b) (fun e => setter r (f e))).
    + apply chunks_for_snoc; assumption.
    + intros r' Hr'. apply H. right. exact Hr'.
Qed.

Ltac chunk_step flag Hrec Hch setter :=
  match type of Hrec with
  | context [append_record ?rec ?o ?ret] =>
      let H := fresh "H" in
      let ret' := fresh "ret" in
      let E := fresh "E" in
      let Hch' := fresh "Hch" in
      assert (H : forall r, o = Some r ->
                            exists b, rec r = Ok b
                                      /\ chunk flag b (setter r));
      [ | destruct (append_record_chunk flag rec setter o ret _ Hch H)
            as (ret' & E & Hch');
          rewrite E in Hrec; cbn [bind] in Hrec;
          clear E H Hch; rename Hch' into Hch ]
  end.

(** X19.  What [new] builds and [record()] writes, [parse()] reads back:
    when [new] needs no continuation and the clock stamps 7-byte dates,
    parsing the bytes [record()] wrote for the new entry, from offset 0 into
    a fresh object, gives an entry with the same records in the same slots;
    it differs from the one [new] built only in remembering the offset. *)
Theorem parse_record_after_new (now : clock) (a : new_args)
  (e : RockRidgeBase) (n : Z) (b : str) :
  fits a ->
  len (now DirectoryRecordDate) = date_size DirectoryRecordDate ->
  RockRidge_new now RockRidgeBase_init a = Ok (e, n) ->
  RockRidgeBase_record e = Ok b ->
  exists fuel,
    RockRidge_parse fuel RockRidgeBase_init b
                    (is_first_dir_record_of_root a) 0
    = Some (Parsed (set_rr_bytes_to_skip (Some 0) e)).
Proof.
  intros Hfits Hclock Hnew Hrec. unfold RockRidge_new in Hnew.
  rewrite (new_layout_inline now a Hfits) in Hnew.
  cbn [bind fst snd] in Hnew. apply Ok_inj in Hnew. injection Hnew as <- _.
  pose proof (fits_not_first a Hfits) as Hfirst.
  destruct Hfits as (Hv & Hc & He).
  assert (Hnm : forall name, rr_name a = Some name ->
                             RRNMRecord_length name <= 255).
  { intros name Hn. unfold new_estimate in He. rewrite Hfirst, Hn in He.
    change (RRTFRecord_length TF_FLAGS) with 26 in He.
    unfold ALLOWED_DR_SIZE in He.
    destruct (String.eqb (rr_version a) "1.09"),
      (rr_relocated_child a), (rr_relocated a), (rr_relocated_parent a);
      (destruct (symlink_path a) as [p|];
       [pose proof (RRSLRecord_length_lower (split p))|]);
      autounfold with rr_consts in *;
      cbn [String.eqb Ascii.eqb Bool.eqb] in *; lia. }
  assert (Hsl : forall p, symlink_path a = Some p ->
                          RRSLRecord_length (split p) <= 255).
  { intros p Hp. unfold new_estimate in He. rewrite Hfirst, Hp in He.
    change (RRTFRecord_length TF_FLAGS) with 26 in He.
    unfold ALLOWED_DR_SIZE in He.
    destruct (String.eqb (rr_version a) "1.09"),
      (rr_relocated_child a), (rr_relocated a), (rr_relocated_parent a);
      (destruct (rr_name a) as [name|]; [pose proof (len_nonneg name)|]);
      autounfold with rr_consts in *;
      cbn [String.eqb Ascii.eqb Bool.eqb] in *; lia. }
  clear He Hc Hv.
  unfold RockRidgeBase_record, entry_inline in Hrec.
  cbn [initialized negb sp_record rr_record nm_record px_record sl_records
       tf_record cl_record pl_record re_record ce_record er_record] in Hrec.
  rewrite Hfirst in Hrec.
  set (flag := is_first_dir_record_of_root a).
  pose proof (chunks_for_nil flag) as Hch.
  chunk_step flag Hrec Hch (fun (r : RRSPRecord) (e : RockRidgeBase) => e).
  { intros r Hr. discriminate Hr. }
  chunk_step flag Hrec Hch (fun r => set_rr_record (Some r)).
  { intros r Hr. apply rr_chunk. unfold rr_inline in Hr.
    destruct (String.eqb (rr_version a) "1.09"); [|discriminate Hr].
    destruct (rr_name a), (symlink_path a); injection Hr as <-;
      closed_range. }
  chunk_step flag Hrec Hch (fun r => set_nm_record (Some r)).
  { intros r Hr. apply nm_chunk.
    destruct (rr_name a) as [name|]; [|discriminate Hr].
    cbn [option_map] in Hr. injection Hr as <-.
    apply valid_NM_new, Hnm. reflexivity. }
  chunk_step flag Hrec Hch (fun r => set_px_record (Some r)).
  { intros r Hr. injection Hr as <-.
    destruct (valid_PX_new (isdir a) (symlink_path a)) as [V S].
    apply px_chunk; assumption. }
  match type of Hrec with
  | context [append_records RRSLRecord_record ?l ?ret] =>
      destruct (append_records_chunk flag RRSLRecord_record
                  (fun r e => set_sl_records (sl_records e ++ [r]) e)
                  l ret _ Hch) as (ret' & E & Hch')
  end.
  { intros r Hr. apply sl_chunk.
    destruct (symlink_path a) as [p|] eqn:Ep; [|destruct Hr].
    destruct Hr as [<-|[]]. apply valid_SL_new, Hsl. reflexivity. }
  rewrite E in Hrec. cbn [bind] in Hrec. clear E Hch. rename Hch' into Hch.
  chunk_step flag Hrec Hch (fun r => set_tf_record (Some r)).
  { intros r Hr. injection Hr as <-. apply tf_chunk, valid_TF_new, Hclock. }
  chunk_step flag Hrec Hch (fun r => set_cl_record (Some r)).
  { intros r Hr. apply cl_chunk.
    destruct (rr_relocated_child a); [|discriminate Hr].
    injection Hr as <-. closed_range. }
  chunk_step flag Hrec Hch (fun r => set_pl_record (Some r)).
  { intros r Hr. apply pl_chunk.
    destruct (rr_relocated_parent a); [|discriminate Hr].
    injection Hr as <-. closed_range. }
  chunk_step flag Hrec Hch (fun r => set_re_record (Some r)).
  { intros r Hr. apply re_chunk. }
  chunk_step flag Hrec Hch (fun (r : RRCERecord) (e : RockRidgeBase) => e).
  { intros r Hr. discriminate Hr. }
  chunk_step flag Hrec Hch (fun (r : RRERRecord) (e : RockRidgeBase) => e).
  { intros r Hr. discriminate Hr. }
  apply Ok_inj in Hrec. subst b.
  destruct (parse_chunks_for flag _ _ RockRidgeBase_init Hch) as (fuel & Hp).
  exists fuel. unfold RockRidge_parse. cbn [initialized RockRidgeBase_init].
  fold RockRidgeBase_init. rewrite Hp. apply (f_equal Some), (f_equal Parsed).
  unfold entry_inline, rr_inline. subst flag. rewrite Hfirst.
  destruct (rr_name a), (symlink_path a),
    (String.eqb (rr_version a) "1.09"),
    (rr_relocated_child a), (rr_relocated a), (rr_relocated_parent a);
    reflexivity.
Qed.

Lemma parse_record_after_new_witness :
  exists e b fuel,
    RockRidge_new epoch RockRidgeBase_init args_small_symlink = Ok (e, 140)
    /\ RockRidgeBase_record e = Ok b
    /\ RockRidge_parse fuel RockRidgeBase_init b false 0
       = Some (Parsed (set_rr_bytes_to_skip (Some 0) e)).
Proof.
  destruct (RockRidge_new epoch RockRidgeBase_init args_small_symlink)
    as [[e n]|] eqn:E; [|vm_compute in E; discriminate E].
  assert (Hfits : fits args_small_symlink).
  { unfold fits. split; [left; reflexivity|].
    split; [cbn; lia | vm_compute; discriminate]. }
  assert (Hen : exists b, RockRidgeBase_record e = Ok b /\ n = 140).
  { vm_compute in E. apply Ok_inj in E. injection E as <- <-.
    eexists. split; [vm_compute; reflexivity | reflexivity]. }
  destruct Hen as (b & Hb & Hn).
  destruct (parse_record_after_new epoch args_small_symlink e n b Hfits
              eq_refl E Hb) as (fuel & Hp).
  exists e, b, fuel. split; [rewrite Hn; reflexivity|].
  split; [exact Hb | exact Hp].
Defined.

(** ** The parent link after [new] *)

Lemma safe_pl_view (f : RockRidgeBase -> RockRidgeBase) :
  (forall b, pl_record (f b) = pl_record b) ->
  (forall b, ce_record (f b) = ce_record b) ->
  safe pl_view f.
Proof.
  intros Hf Hc. unfold safe, pl_view. safe_cont Hf Hc.
Qed.

Lemma safe_parent_link (f : RockRidgeBase -> RockRidgeBase) :
  (forall b, parent_link (f b) = parent_link b) ->
  safe parent_link f.
Proof.
  intros Hf. unfold safe. split; [exact Hf|]. intros b ce l _. reflexivity.
Qed.

Lemma new_pl_view (a : new_args) (e : RockRidgeBase) (dr : Z)
  (e' : RockRidgeBase) (dr' : Z) :
  pl_view e = None ->
  new_pl a (e, dr) = Ok (e', dr') ->
  pl_view e' = if rr_relocated_parent a then Some 0 else None.
Proof.
  intros H0. unfold new_pl, place. destruct (rr_relocated_parent a).
  - destruct (ALLOWED_DR_SIZE <? dr + RRPLRecord_length).
    + destruct (update_ce _ e) as [e1|] eqn:E; [|discriminate].
      cbn [bind]. intros H. apply Ok_inj in H. injection H as <- _.
      apply update_ce_cont_inv in E. destruct E as (ce & c & Ece & Ec & ->).
      unfold pl_view, continuation in *. cbn.
      destruct (pl_record e); [discriminate H0|].
      reflexivity.
    + intros H. apply Ok_inj in H. injection H as <- _. reflexivity.
  - intros H. apply Ok_inj in H. injection H as <- _. exact H0.
Qed.

Lemma update_parent_link_view (e : RockRidgeBase) (link : DirectoryRecord) :
  initialized e = true -> ce_owns e = true ->
  parent_link e = Some link ->
  match pl_view e with
  | None =>
      RockRidge_update_parent_link e
      = Raise (PyIsoException "Could not find parent link record!")
  | Some _ =>
      forall bl,
        DirectoryRecord_extent_location link = Ok bl ->
        exists e', RockRidge_update_parent_link e = Ok e'
                   /\ pl_view e' = Some bl
  end.
Proof.
  intros Hi Ho Hl. unfold RockRidge_update_parent_link, pl_view, continuation.
  unfold ce_owns in Ho. rewrite Hi, Hl. cbn [negb].
  destruct (pl_record e) as [pl|] eqn:Epl.
  - intros bl Hbl. rewrite Hbl.
    cbn [bind]. eexists. split; reflexivity.
  - destruct (ce_record e) as [ce|]; [|reflexivity].
    destruct (continuation_entry ce) as [c|]; [|discriminate Ho].
    cbn [option_map getattr bind].
    destruct (pl_record (cont_base c)) as [pl|];
      cbn [option_map]; [|reflexivity].
    intros bl Hbl. rewrite Hbl.
    cbn [bind]. eexists. split; [reflexivity|].
    cbn [pl_record set_ce_record ce_record]. rewrite Epl. reflexivity.
Qed.

(** X20.  The parent link of a new entry.  On the entry [new] builds,
    [update_parent_link()] raises "No parent link found!" until a parent
    link is set.  With one set, it raises "Could not find parent link
    record!" unless [new] was told the entry is a relocated parent;
    if it was, the call stores the extent location that the linked
    directory record gives in the PL record, in the entry or in the
    continuation. *)
Theorem update_parent_link_after_new (now : clock) (a : new_args)
  (e : RockRidgeBase) (n : Z) :
  RockRidge_new now RockRidgeBase_init a = Ok (e, n) ->
  RockRidge_update_parent_link e
  = Raise (PyIsoException "No parent link found!")
  /\ forall link,
      if rr_relocated_parent a then
        forall bl,
          DirectoryRecord_extent_location link = Ok bl ->
          exists e',
            RockRidge_update_parent_link (set_parent_link (Some link) e)
            = Ok e'
            /\ pl_view e' = Some bl
      else
        RockRidge_update_parent_link (set_parent_link (Some link) e)
        = Raise (PyIsoException "Could not find parent link record!").
Proof.
  intros Hnew. pose proof (new_ce_owns _ _ _ _ Hnew) as Hown.
  unfold RockRidge_new in Hnew.
  destruct (RockRidge_new_layout now RockRidgeBase_init a) as [[e1 n1]|] eqn:E;
    [|discriminate].
  cbn [bind fst snd] in Hnew. injection Hnew as <- _.
  apply new_layout_trace in E.
  destruct E as (_ & t & Ht & H0 & -> & _).
  destruct Ht as (E1 & E2 & E3 & E4 & E5 & E6 & E7 & E8 & E9 & E10).
  destruct t as [[e0 d0] [e1 d1] [e2 d2] [e3 d3] [e4 d4] [e5 d5] [e6 d6]
                 [e7 d7] [e8 d8] [e9 d9] [e10 d10]].
  cbn [t_ce t_sp t_rr t_nm t_px t_sl t_tf t_cl t_re t_pl t_er fst] in *.
  assert (Hstart : pl_view e0 = None /\ parent_link e0 = None).
  { unfold new_ce in H0.
    destruct (ALLOWED_DR_SIZE <? new_estimate a); injection H0 as -> _;
      split; reflexivity. }
  destruct Hstart as [Hpl0 Hlink0].
  assert (Hview : pl_view e10
                  = if rr_relocated_parent a then Some 0 else None).
  { rewrite (new_er_frame pl_view _ _ _ _ _ ltac:(safe_by safe_pl_view) E10).
    apply (new_pl_view a e8 d8 e9 d9); [|exact E9].
    rewrite (new_re_frame pl_view _ _ _ _ _ ltac:(safe_by safe_pl_view) E8).
    rewrite (new_cl_frame pl_view _ _ _ _ _ ltac:(safe_by safe_pl_view) E7).
    rewrite (new_tf_frame pl_view _ _ _ _ _ ltac:(safe_by safe_pl_view)
               ltac:(safe_by safe_pl_view) E6).
    rewrite (new_sl_frame pl_view ltac:(safe_by safe_pl_view)
               ltac:(safe_by safe_pl_view) _ _ _ _ _
               ltac:(safe_by safe_pl_view) E5).
    rewrite (new_px_frame pl_view _ _ _ _ _ ltac:(safe_by safe_pl_view)
               ltac:(safe_by safe_pl_view) E4).
    rewrite (new_nm_frame pl_view _ _ _ _ _ ltac:(safe_by safe_pl_view)
               ltac:(safe_by safe_pl_view) E3).
    rewrite (new_rr_frame pl_view _ _ _ _ _ ltac:(safe_by safe_pl_view) E2).
    rewrite (new_sp_frame pl_view _ _ _ _ _ ltac:(safe_by safe_pl_view) E1).
    exact Hpl0. }
  assert (Hlink : parent_link e10 = None).
  { rewrite (new_er_frame parent_link _ _ _ _ _
               ltac:(safe_by safe_parent_link) E10).
    rewrite (new_pl_frame parent_link _ _ _ _ _
               ltac:(safe_by safe_parent_link) E9).
    rewrite (new_re_frame parent_link _ _ _ _ _
               ltac:(safe_by safe_parent_link) E8).
    rewrite (new_cl_frame parent_link _ _ _ _ _
               ltac:(safe_by safe_parent_link) E7).
    rewrite (new_tf_frame parent_link _ _ _ _ _
               ltac:(safe_by safe_parent_link)
               ltac:(safe_by safe_parent_link) E6).
    rewrite (new_sl_frame parent_link ltac:(safe_by safe_parent_link)
               ltac:(safe_by safe_parent_link) _ _ _ _ _
               ltac:(safe_by safe_parent_link) E5).
    rewrite (new_px_frame parent_link _ _ _ _ _
               ltac:(safe_by safe_parent_link)
               ltac:(safe_by safe_parent_link) E4).
    rewrite (new_nm_frame parent_link _ _ _ _ _
               ltac:(safe_by safe_parent_link)
               ltac:(safe_by safe_parent_link) E3).
    rewrite (new_rr_frame parent_link _ _ _ _ _
               ltac:(safe_by safe_parent_link) E2).
    rewrite (new_sp_frame parent_link _ _ _ _ _
               ltac:(safe_by safe_parent_link) E1).
    exact Hlink0. }
  split.
  - unfold RockRidge_update_parent_link.
    cbn [initialized set_initialized negb parent_link]. rewrite Hlink.
    reflexivity.
  - intros link.
    pose proof (update_parent_link_view
                  (set_parent_link (Some link) (set_initialized true e10))
                  link eq_refl Hown eq_refl) as Hu.
    change (pl_view (set_parent_link (Some link) (set_initialized true e10)))
      with (pl_view e10) in Hu.
    rewrite Hview in Hu. destruct (rr_relocated_parent a); exact Hu.
Qed.

Lemma update_parent_link_after_new_witness :
  exists e n ce e',
    RockRidge_new epoch RockRidgeBase_init args_relocated_parent = Ok (e, n)
    /\ ce_record e = Some ce
    /\ pl_record e = None
    /\ RockRidge_update_parent_link (set_parent_link (Some (mkDR (Ok 23))) e)
       = Ok e'
    /\ pl_view e' = Some 23.
Proof.
  destruct (RockRidge_new epoch RockRidgeBase_init args_relocated_parent)
    as [[e n]|] eqn:E; [|vm_compute in E; discriminate E].
  destruct (update_parent_link_after_new epoch args_relocated_parent e n E)
    as [_ Hup].
  destruct (Hup (mkDR (Ok 23)) 23 eq_refl) as (e' & He' & Hv).
  assert (Hce : exists ce, ce_record e = Some ce /\ pl_record e = None).
  { vm_compute in E. apply Ok_inj in E. injection E as <- _.
    eexists. split; reflexivity. }
  destruct Hce as (ce & Hce & Hpl).
  exists e, n, ce, e'. repeat split; assumption.
Defined.

(** ** The RR record after [new] *)

Lemma safe_rr_pair (f : RockRidgeBase -> RockRidgeBase) :
  (forall b, rr_record (f b) = rr_record b) ->
  (forall b, ce_record (f b) = ce_record b) ->
  safe rr_pair f.
Proof.
  intros Hf Hc. unfold safe, rr_pair. safe_cont Hf Hc.
Qed.

Lemma mark_field_rr (name : string) (bit : Z) (e : RockRidgeBase) (dr : Z)
  (e' : RockRidgeBase) (dr' : Z) :
  rr_field_bit name = Ok bit ->
  mark_field name (e, dr) = Ok (e', dr') ->
  rr_pair e' = rr_mark bit (rr_pair e).
Proof.
  intros Hb. rewrite (mark_field_bit name bit e dr Hb).
  intros H. apply Ok_inj in H. injection H as <- _.
  unfold rr_pair, rr_mark.
  destruct (rr_record e) as [rr|] eqn:Er; [reflexivity|].
  rewrite Er. reflexivity.
Qed.

Lemma new_rr_rr (a : new_args) (e : RockRidgeBase) (dr : Z)
  (e' : RockRidgeBase) (dr' : Z) :
  rr_pair e = (None, None) ->
  new_rr a (e, dr) = Ok (e', dr') ->
  if String.eqb (rr_version a) "1.09"
  then rr_pair e' = (Some 0, None) \/ rr_pair e' = (None, Some 0)
  else rr_pair e' = (None, None).
Proof.
  intros H0. unfold new_rr, place.
  destruct (String.eqb (rr_version a) "1.09").
  - destruct (ALLOWED_DR_SIZE <? dr + RRRRRecord_length).
    + destruct (update_ce _ e) as [e1|] eqn:E; [|discriminate].
      cbn [bind]. intros H. apply Ok_inj in H. injection H as <- _.
      apply update_ce_cont_inv in E. destruct E as (ce & c & Ece & Ec & ->).
      right. unfold rr_pair, continuation in *. cbn.
      destruct (rr_record e); [discriminate H0|]. reflexivity.
    + intros H. apply Ok_inj in H. injection H as <- _.
      left. unfold rr_pair in *. injection H0 as _ H0.
      change (continuation (set_rr_record (Some RRRRRecord_new) e))
        with (continuation e).
      rewrite H0. reflexivity.
  - intros H. apply Ok_inj in H. injection H as <- _. exact H0.
Qed.

Lemma new_nm_rr (a : new_args) (e : RockRidgeBase) (dr : Z)
  (e' : RockRidgeBase) (dr' : Z) :
  new_nm a (e, dr) = Ok (e', dr') ->
  rr_pair e' = match rr_name a with
               | Some _ => rr_mark 3 (rr_pair e)
               | None => rr_pair e
               end.
Proof.
  unfold new_nm. destruct (rr_name a) as [name|].
  - destruct (ALLOWED_DR_SIZE <? dr + RRNMRecord_length name).
    + destruct (update_ce _ _) as [e1|] eqn:E; [|discriminate].
      cbn [bind]. intros Hm.
      rewrite (mark_field_rr "NM" 3 _ _ _ _ eq_refl Hm).
      rewrite (update_ce_frame rr_pair _
                 (fun c => continue_length c + _)
                 _ _ (safe_rr_pair (set_nm_record _)
                        (fun _ => eq_refl) (fun _ => eq_refl)) E).
      reflexivity.
    + cbn [bind]. intros Hm.
      rewrite (mark_field_rr "NM" 3 _ _ _ _ eq_refl Hm). reflexivity.
  - intros H. apply Ok_inj in H. injection H as <- _. reflexivity.
Qed.

Lemma new_px_rr (a : new_args) (e : RockRidgeBase) (dr : Z)
  (e' : RockRidgeBase) (dr' : Z) :
  new_px a (e, dr) = Ok (e', dr') -> rr_pair e' = rr_mark 0 (rr_pair e).
Proof.
  unfold new_px.
  destruct (place _ _ _) as [[e1 dr1]|] eqn:E; [|discriminate].
  cbn [bind]. intros Hm.
  rewrite (mark_field_rr "PX" 0 _ _ _ _ eq_refl Hm).
  rewrite (place_frame rr_pair _ _ _ _ _ _
             (safe_rr_pair (set_px_record _)
                (fun _ => eq_refl) (fun _ => eq_refl)) E).
  reflexivity.
Qed.

Lemma new_tf_rr (now : clock) (e : RockRidgeBase) (dr : Z)
  (e' : RockRidgeBase) (dr' : Z) :
  new_tf now (e, dr) = Ok (e', dr') -> rr_pair e' = rr_mark 7 (rr_pair e).
Proof.
  unfold new_tf.
  destruct (place _ _ _) as [[e1 dr1]|] eqn:E; [|discriminate].
  cbn [bind]. intros Hm.
  rewrite (mark_field_rr "TF" 7 _ _ _ _ eq_refl Hm).
  rewrite (place_frame rr_pair _ _ _ _ _ _
             (safe_rr_pair (set_tf_record _)
                (fun _ => eq_refl) (fun _ => eq_refl)) E).
  reflexivity.
Qed.

Lemma new_sl_rr (a : new_args) (e : RockRidgeBase) (dr : Z)
  (e' : RockRidgeBase) (dr' : Z) :
  new_sl a (e, dr) = Ok (e', dr') ->
  rr_pair e' = match symlink_path a with
               | Some _ => rr_mark 2 (rr_pair e)
               | None => rr_pair e
               end.
Proof.
  assert (Hsl : forall F, safe rr_pair (fun b => set_sl_records (F b) b))
    by (intros; apply safe_rr_pair; reflexivity).
  assert (Hid : safe rr_pair (fun b => b))
    by (apply safe_rr_pair; reflexivity).
  unfold new_sl. destruct (symlink_path a) as [path|].
  - destruct (_ <? ALLOWED_DR_SIZE).
    + cbn [bind].
      destruct (meta_increment 5 _) as [s1|] eqn:E1; [|discriminate].
      cbn [bind].
      destruct (new_sl_comps _ s1) as [s2|] eqn:E2; [|discriminate].
      cbn [bind]. intros Hm.
      rewrite (mark_field_rr "SL" 2 _ _ _ _ eq_refl Hm).
      rewrite (new_sl_comps_frame rr_pair Hsl Hid _ _ _ E2).
      rewrite (meta_increment_frame rr_pair Hid _ _ _ E1).
      reflexivity.
    + destruct (cont_append_sl _ e) as [e1|] eqn:E0; [|discriminate].
      cbn [bind].
      destruct (meta_increment 5 _) as [s1|] eqn:E1; [|discriminate].
      cbn [bind].
      destruct (new_sl_comps _ s1) as [s2|] eqn:E2; [|discriminate].
      cbn [bind]. intros Hm.
      rewrite (mark_field_rr "SL" 2 _ _ _ _ eq_refl Hm).
      rewrite (new_sl_comps_frame rr_pair Hsl Hid _ _ _ E2).
      rewrite (meta_increment_frame rr_pair Hid _ _ _ E1).
      cbn [sl_entry].
      rewrite (cont_append_sl_frame rr_pair Hsl _ _ _ E0). reflexivity.
  - intros H. apply Ok_inj in H. injection H as <- _. reflexivity.
Qed.

(** X21.  The RR record of a new entry.  For version "1.12" [new] makes
    no RR record.  For version "1.09" the RR record either sits in the
    entry, and then its flags announce PX and TF always, NM when a name was
    given and SL when a symlink path was, and never CL, PL or RE, whichever
    of those records were made; or it went to the continuation, and then
    its flags stay 0. *)
Theorem rr_flags_after_new (now : clock) (a : new_args)
  (e : RockRidgeBase) (n : Z) :
  RockRidge_new now RockRidgeBase_init a = Ok (e, n) ->
  if String.eqb (rr_version a) "1.09"
  then rr_pair e
       = (Some (129 + (match rr_name a with Some _ => 8 | None => 0 end)
                + (match symlink_path a with Some _ => 4 | None => 0 end)),
          None)
       \/ rr_pair e = (None, Some 0)
  else rr_pair e = (None, None).
Proof.
  intros Hnew. unfold RockRidge_new in Hnew.
  destruct (RockRidge_new_layout now RockRidgeBase_init a) as [[e1 n1]|] eqn:E;
    [|discriminate].
  cbn [bind fst snd] in Hnew. injection Hnew as <- _.
  apply new_layout_trace in E.
  destruct E as (_ & t & Ht & H0 & -> & _).
  change (rr_pair (set_initialized true (fst (t_er t))))
    with (rr_pair (fst (t_er t))).
  destruct Ht as (E1 & E2 & E3 & E4 & E5 & E6 & E7 & E8 & E9 & E10).
  destruct t as [[e0 d0] [e1 d1] [e2 d2] [e3 d3] [e4 d4] [e5 d5] [e6 d6]
                 [e7 d7] [e8 d8] [e9 d9] [e10 d10]].
  cbn [t_ce t_sp t_rr t_nm t_px t_sl t_tf t_cl t_re t_pl t_er fst] in *.
  assert (Hstart : rr_pair e0 = (None, None)).
  { unfold new_ce in H0.
    destruct (ALLOWED_DR_SIZE <? new_estimate a); injection H0 as -> _;
      reflexivity. }
  rewrite (new_er_frame rr_pair _ _ _ _ _ ltac:(safe_by safe_rr_pair) E10).
  rewrite (new_pl_frame rr_pair _ _ _ _ _ ltac:(safe_by safe_rr_pair) E9).
  rewrite (new_re_frame rr_pair _ _ _ _ _ ltac:(safe_by safe_rr_pair) E8).
  rewrite (new_cl_frame rr_pair _ _ _ _ _ ltac:(safe_by safe_rr_pair) E7).
  rewrite (new_tf_rr _ _ _ _ _ E6), (new_sl_rr _ _ _ _ _ E5),
    (new_px_rr _ _ _ _ _ E4), (new_nm_rr _ _ _ _ _ E3).
  pose proof (new_rr_rr a e1 d1 e2 d2) as Hrr.
  rewrite (new_sp_frame rr_pair _ _ _ _ _ ltac:(safe_by safe_rr_pair) E1)
    in Hrr.
  specialize (Hrr Hstart E2).
  destruct (String.eqb (rr_version a) "1.09").
  - destruct Hrr as [-> | ->]; [left | right];
      destruct (rr_name a), (symlink_path a); reflexivity.
  - rewrite Hrr. destruct (rr_name a), (symlink_path a); reflexivity.
Qed.

Lemma rr_flags_after_new_witness :
  (exists e n,
      RockRidge_new epoch RockRidgeBase_init args_small_symlink = Ok (e, n)
      /\ rr_pair e = (Some 141, None))
  /\ (exists e n,
         RockRidge_new epoch RockRidgeBase_init args_rr_in_cont = Ok (e, n)
         /\ rr_pair e = (None, Some 0)
         /\ RockRidge_has_child_link_record e = Ok true).
Proof.
  split.
  - destruct (RockRidge_new epoch RockRidgeBase_init args_small_symlink)
      as [[e n]|] eqn:E; [|vm_compute in E; discriminate E].
    exists e, n. split; [reflexivity|].
    pose proof (rr_flags_after_new epoch args_small_symlink e n E) as H.
    assert (Hin : rr_record e <> None).
    { vm_compute in E. apply Ok_inj in E. injection E as <- _.
      discriminate. }
    cbn in H. destruct H as [H|H]; [exact H|].
    exfalso. apply Hin. unfold rr_pair in H. injection H as H _.
    destruct (rr_record e); [discriminate H | reflexivity].
  - destruct (RockRidge_new epoch RockRidgeBase_init args_rr_in_cont)
      as [[e n]|] eqn:E; [|vm_compute in E; discriminate E].
    exists e, n. split; [reflexivity|].
    pose proof (rr_flags_after_new epoch args_rr_in_cont e n E) as H.
    assert (Hin : rr_record e = None
                  /\ RockRidge_has_child_link_record e = Ok true).
    { vm_compute in E. apply Ok_inj in E. injection E as <- _.
      split; reflexivity. }
    destruct Hin as [Hin Hcl]. split; [|exact Hcl].
    cbn in H. destruct H as [H|H]; [|exact H].
    exfalso. unfold rr_pair in H. rewrite Hin in H. discriminate H.
Defined.

(** ** The lengths [new] keeps *)

Tactic Notation "slots_cbn" :=
  cbn [sp_record rr_record ce_record px_record er_record es_record pn_record
       sl_records nm_record cl_record pl_record tf_record sf_record
       re_record set_sp_record set_rr_record set_ce_record set_px_record
       set_er_record set_sl_records set_nm_record set_cl_record
       set_pl_record set_tf_record set_re_record set_su_entry_version
       set_initialized opt_size].
Tactic Notation "slots_cbn" "in" hyp(H) :=
  cbn [sp_record rr_record ce_record px_record er_record es_record pn_record
       sl_records nm_record cl_record pl_record tf_record sf_record
       re_record set_sp_record set_rr_record set_ce_record set_px_record
       set_er_record set_sl_records set_nm_record set_cl_record
       set_pl_record set_tf_record set_re_record set_su_entry_version
       set_initialized opt_size] in H.

Lemma sl_size_snoc (l : list RRSLRecord) (r : RRSLRecord) :
  sl_size (l ++ [r]) = sl_size l + RRSLRecord_length (symlink_components r).
Proof. unfold sl_size. rewrite fold_left_app. reflexivity. Qed.

Lemma safe_both {T : Type} (p : RockRidgeBase -> T)
  (f : RockRidgeBase -> RockRidgeBase) :
  (forall v b, p (set_ce_record v b) = p b) ->
  (forall b, p (f b) = p b) ->
  (forall b, ce_record (f b) = ce_record b) ->
  safe (both p) f.
Proof.
  intros Hp Hf Hc. unfold safe, both. split.
  - intros b. rewrite Hf, continuation_assign by apply Hc. reflexivity.
  - intros b ce l Hce. rewrite Hp, continuation_ce_step.
    unfold continuation. rewrite Hce.
    destruct (continuation_entry ce); cbn; rewrite ?Hf; reflexivity.
Qed.

Lemma vacant_both {A : Type} (p : RockRidgeBase -> option A)
  (e e0 : RockRidgeBase) :
  both p e = both p e0 -> vacant p e0 -> vacant p e.
Proof.
  unfold both, vacant. intros H [H0 Hc0]. injection H as H1 H2.
  split; [rewrite H1; exact H0|].
  intros c Hc. rewrite Hc in H2. cbn [option_map] in H2.
  destruct (continuation e0) as [c0|]; [|discriminate H2].
  cbn [option_map] in H2. injection H2 as ->. apply Hc0. reflexivity.
Qed.

Lemma entry_size_set_ce (e : RockRidgeBase) (ce ce' : RRCERecord) :
  ce_record e = Some ce ->
  entry_size (set_ce_record (Some ce') e) = entry_size e.
Proof. intros H. unfold entry_size. slots_cbn. rewrite H. reflexivity. Qed.

Lemma place_accounted (curr : Z) (assign : RockRidgeBase -> RockRidgeBase)
  (n : Z) (e : RockRidgeBase) (dr : Z) (e' : RockRidgeBase) (dr' : Z) :
  accounted curr (e, dr) ->
  (forall b, ce_record (assign b) = ce_record b) ->
  entry_size (assign e) = entry_size e + n ->
  (forall c, continuation e = Some c ->
             entry_size (assign c) = entry_size c + n) ->
  place assign n (e, dr) = Ok (e', dr') ->
  accounted curr (e', dr').
Proof.
  intros [Hd Hc] Hce He Hcont. cbn [fst snd] in *. unfold place.
  destruct (ALLOWED_DR_SIZE <? dr + n).
  - destruct (update_ce _ e) as [e1|] eqn:E; [|discriminate].
    cbn [bind]. intros H. apply Ok_inj in H. injection H as <- <-.
    apply update_ce_cont_inv in E. destruct E as (ce & c & Ece & Ec & ->).
    destruct (Hc ce Ece) as (c0 & Ec0 & Hlen).
    rewrite Ec in Ec0. injection Ec0 as <-.
    split; cbn [fst snd].
    + rewrite (entry_size_set_ce e ce _ Ece). exact Hd.
    + intros ce' Hce'. slots_cbn in Hce'. injection Hce' as <-.
      eexists. split; [reflexivity|].
      unfold RockRidgeContinuation_increment_length, cont_update.
      cbn [continue_length cont_base].
      rewrite (Hcont (cont_base c)), Hlen; [reflexivity|].
      unfold continuation. rewrite Ece, Ec. reflexivity.
  - intros H. apply Ok_inj in H. injection H as <- <-.
    split; cbn [fst snd].
    + rewrite He. lia.
    + intros ce Hce'. rewrite Hce in Hce'. apply Hc, Hce'.
Qed.

Lemma mark_field_accounted (curr : Z) (name : string) (st st' : layout) :
  accounted curr st -> mark_field name st = Ok st' -> accounted curr st'.
Proof.
  destruct st as [e dr]. intros [Hd Hc]. cbn [fst snd] in *.
  unfold mark_field. destruct (rr_record e) as [rr|] eqn:Err.
  - destruct (RRRRRecord_append_field rr name) as [rr'|]; [|discriminate].
    cbn [bind]. intros H. apply Ok_inj in H. subst st'.
    split; cbn [fst snd].
    + rewrite Hd. unfold entry_size. slots_cbn. rewrite Err. reflexivity.
    + exact Hc.
  - intros H. apply Ok_inj in H. subst st'. split; assumption.
Qed.

Lemma time_flags_new (now : clock) (flags : Z) :
  time_flags (RRTFRecord_new now flags) = flags.
Proof. reflexivity. Qed.

Ltac size_step H :=
  unfold entry_size; slots_cbn; rewrite H; cbn [opt_size];
  rewrite ?time_flags_new;
  cbn [ext_id ext_des ext_src RRERRecord_new];
  autounfold with rr_consts; lia.

Lemma new_sp_accounted (curr : Z) (a : new_args) (e : RockRidgeBase)
  (dr : Z) (e' : RockRidgeBase) (dr' : Z) :
  accounted curr (e, dr) -> vacant sp_record e ->
  new_sp a (e, dr) = Ok (e', dr') -> accounted curr (e', dr').
Proof.
  intros Ha [Hv Hvc]. unfold new_sp.
  destruct (is_first_dir_record_of_root a).
  - apply place_accounted; [exact Ha | reflexivity | size_step Hv |].
    intros ce Hce. specialize (Hvc ce Hce). size_step Hvc.
  - intros H. apply Ok_inj in H. injection H as <- <-. exact Ha.
Qed.

Lemma new_rr_accounted (curr : Z) (a : new_args) (e : RockRidgeBase)
  (dr : Z) (e' : RockRidgeBase) (dr' : Z) :
  accounted curr (e, dr) -> vacant rr_record e ->
  new_rr a (e, dr) = Ok (e', dr') -> accounted curr (e', dr').
Proof.
  intros Ha [Hv Hvc]. unfold new_rr.
  destruct (String.eqb (rr_version a) "1.09").
  - apply place_accounted; [exact Ha | reflexivity | size_step Hv |].
    intros ce Hce. specialize (Hvc ce Hce). size_step Hvc.
  - intros H. apply Ok_inj in H. injection H as <- <-. exact Ha.
Qed.

Lemma new_px_accounted (curr : Z) (a : new_args) (e : RockRidgeBase)
  (dr : Z) (e' : RockRidgeBase) (dr' : Z) :
  accounted curr (e, dr) -> vacant px_record e ->
  new_px a (e, dr) = Ok (e', dr') -> accounted curr (e', dr').
Proof.
  intros Ha [Hv Hvc]. unfold new_px.
  destruct (place _ _ _) as [[e1 dr1]|] eqn:E; [|discriminate].
  cbn [bind]. apply mark_field_accounted.
  revert E. apply place_accounted; [exact Ha | reflexivity | size_step Hv |].
  intros ce Hce. specialize (Hvc ce Hce). size_step Hvc.
Qed.

Lemma new_tf_accounted (curr : Z) (now : clock) (e : RockRidgeBase)
  (dr : Z) (e' : RockRidgeBase) (dr' : Z) :
  accounted curr (e, dr) -> vacant tf_record e ->
  new_tf now (e, dr) = Ok (e', dr') -> accounted curr (e', dr').
Proof.
  intros Ha [Hv Hvc]. unfold new_tf.
  destruct (place _ _ _) as [[e1 dr1]|] eqn:E; [|discriminate].
  cbn [bind]. apply mark_field_accounted.
  revert E. apply place_accounted; [exact Ha | reflexivity | size_step Hv |].
  intros ce Hce. specialize (Hvc ce Hce). size_step Hvc.
Qed.

Lemma new_cl_accounted (curr : Z) (a : new_args) (e : RockRidgeBase)
  (dr : Z) (e' : RockRidgeBase) (dr' : Z) :
  accounted curr (e, dr) -> vacant cl_record e ->
  new_cl a (e, dr) = Ok (e', dr') -> accounted curr (e', dr').
Proof.
  intros Ha [Hv Hvc]. unfold new_cl.
  destruct (rr_relocated_child a).
  - apply place_accounted; [exact Ha | reflexivity | size_step Hv |].
    intros ce Hce. specialize (Hvc ce Hce). size_step Hvc.
  - intros H. apply Ok_inj in H. injection H as <- <-. exact Ha.
Qed.

Lemma new_re_accounted (curr : Z) (a : new_args) (e : RockRidgeBase)
  (dr : Z) (e' : RockRidgeBase) (dr' : Z) :
  accounted curr (e, dr) -> vacant re_record e ->
  new_re a (e, dr) = Ok (e', dr') -> accounted curr (e', dr').
Proof.
  intros Ha [Hv Hvc]. unfold new_re.
  destruct (rr_relocated a).
  - apply place_accounted; [exact Ha | reflexivity | size_step Hv |].
    intros ce Hce. specialize (Hvc ce Hce). size_step Hvc.
  - intros H. apply Ok_inj in H. injection H as <- <-. exact Ha.
Qed.

Lemma new_pl_accounted (curr : Z) (a : new_args) (e : RockRidgeBase)
  (dr : Z) (e' : RockRidgeBase) (dr' : Z) :
  accounted curr (e, dr) -> vacant pl_record e ->
  new_pl a (e, dr) = Ok (e', dr') -> accounted curr (e', dr').
Proof.
  intros Ha [Hv Hvc]. unfold new_pl.
  destruct (rr_relocated_parent a).
  - apply place_accounted; [exact Ha | reflexivity | size_step Hv |].
    intros ce Hce. specialize (Hvc ce Hce). size_step Hvc.
  - intros H. apply Ok_inj in H. injection H as <- <-. exact Ha.
Qed.

Lemma new_er_accounted (curr : Z) (a : new_args) (e : RockRidgeBase)
  (dr : Z) (e' : RockRidgeBase) (dr' : Z) :
  accounted curr (e, dr) -> vacant er_record e ->
  new_er a (e, dr) = Ok (e', dr') -> accounted curr (e', dr').
Proof.
  intros Ha [Hv Hvc]. unfold new_er.
  destruct (is_first_dir_record_of_root a).
  - apply place_accounted; [exact Ha | reflexivity | size_step Hv |].
    intros ce Hce. specialize (Hvc ce Hce). size_step Hvc.
  - intros H. apply Ok_inj in H. injection H as <- <-. exact Ha.
Qed.

Lemma new_nm_accounted (curr : Z) (a : new_args) (e : RockRidgeBase)
  (dr : Z) (e' : RockRidgeBase) (dr' : Z) :
  accounted curr (e, dr) -> vacant nm_record e ->
  new_nm a (e, dr) = Ok (e', dr') -> accounted curr (e', dr').
Proof.
  intros [Hd Hc] [Hv Hvc]. cbn [fst snd] in *. unfold new_nm.
  destruct (rr_name a) as [name|].
  - destruct (ALLOWED_DR_SIZE <? dr + RRNMRecord_length name).
    + destruct (update_ce _ _) as [e1|] eqn:E; [|discriminate].
      apply update_ce_cont_inv in E. destruct E as (ce & c & Ece & Ec & ->).
      slots_cbn in Ece.
      cbn [bind]. apply mark_field_accounted.
      destruct (Hc ce Ece) as (c0 & Ec0 & Hlen).
      rewrite Ec in Ec0. injection Ec0 as <-.
      assert (Hvc' : nm_record (cont_base c) = None).
      { apply Hvc. unfold continuation. rewrite Ece, Ec. reflexivity. }
      split; cbn [fst snd].
      * unfold entry_size in *. slots_cbn. rewrite Hv, Ece in Hd.
        cbn [opt_size] in Hd. unfold RRNMRecord_set_continued, RRNMRecord_new.
        cbn [posix_name]. lia.
      * intros ce' Hce'. slots_cbn in Hce'. injection Hce' as <-.
        eexists. split; [reflexivity|].
        unfold RockRidgeContinuation_increment_length, cont_update.
        cbn [continue_length cont_base].
        rewrite Hlen. unfold entry_size. slots_cbn. rewrite Hvc'.
        cbn [opt_size]. unfold RRNMRecord_new. cbn [posix_name]. lia.
    + cbn [bind]. apply mark_field_accounted. split; cbn [fst snd].
      * unfold entry_size in *. slots_cbn. rewrite Hv in Hd.
        cbn [opt_size] in Hd. unfold RRNMRecord_new. cbn [posix_name]. lia.
      * exact Hc.
  - intros H. apply Ok_inj in H. injection H as <- <-. split; assumption.
Qed.

Lemma entry_size_set_sl (l : list RRSLRecord) (b : RockRidgeBase) :
  entry_size (set_sl_records l b)
  = entry_size b - sl_size (sl_records b) + sl_size l.
Proof. unfold entry_size. slots_cbn. lia. Qed.

Lemma entry_size_reset_ce (e : RockRidgeBase) (ce1 ce2 : RRCERecord) :
  entry_size (set_ce_record (Some ce2) (set_ce_record (Some ce1) e))
  = entry_size (set_ce_record (Some ce1) e).
Proof. reflexivity. Qed.

Lemma replace_last_snoc {A : Type} (pre : list A) (x y : A) :
  replace_last (pre ++ [x]) y = pre ++ [y].
Proof. unfold replace_last. rewrite removelast_last. reflexivity. Qed.

Lemma split_aux_single (x : str) : forall cur,
  ~ In "/"%char x -> split_aux cur x = [rev cur ++ x].
Proof.
  induction x as [|c r IH]; intros cur Hx; cbn [split_aux].
  - rewrite app_nil_r. reflexivity.
  - destruct (Ascii.eqb c "/") eqn:E.
    + apply Ascii.eqb_eq in E. subst c. exfalso. apply Hx. left. reflexivity.
    + rewrite IH by (intros H; apply Hx; right; exact H).
      cbn [rev]. rewrite <- app_assoc. reflexivity.
Qed.

Lemma split_single (x : str) : ~ In "/"%char x -> split x = [x].
Proof. intros H. unfold split. rewrite split_aux_single by exact H. reflexivity. Qed.

Lemma split_aux_no_slash (x : str) : forall cur,
  ~ In "/"%char cur ->
  Forall (fun c => ~ In "/"%char c) (split_aux cur x).
Proof.
  induction x as [|c r IH]; intros cur Hcur; cbn [split_aux].
  - constructor; [|constructor]. intros H. apply Hcur, in_rev, H.
  - destruct (Ascii.eqb c "/") eqn:E.
    + constructor.
      * intros H. apply Hcur, in_rev, H.
      * apply IH. intros [].
    + apply IH. intros [H|H]; [|exact (Hcur H)].
      subst c. rewrite Ascii.eqb_refl in E. discriminate E.
Qed.

Lemma split_no_slash (p : str) : Forall (fun c => ~ In "/"%char c) (split p).
Proof. apply split_aux_no_slash. intros []. Qed.

Lemma slice_to_incl (x : str) (k : Z) (c : ascii) :
  In c (slice_to x k) -> In c x.
Proof.
  intros H. rewrite <- (slice_to_from x k). apply in_or_app. left. exact H.
Qed.

Lemma slice_from_incl (x : str) (k : Z) (c : ascii) :
  In c (slice_from x k) -> In c x.
Proof.
  intros H. rewrite <- (slice_to_from x k). apply in_or_app. right. exact H.
Qed.

Lemma sl_add_inc (curr : Z) (comp : str) (st s1 s2 : sl_state) :
  sl_tracked curr st ->
  curr_add_component comp st = Ok s1 ->
  meta_increment (RRSLRecord_component_length comp) s1 = Ok s2 ->
  sl_tracked curr s2.
Proof.
  destruct st as [e dr cur ic].
  intros [[Hd Hc] (side & pre & Hside & Hrec)].
  unfold sl_side in Hside.
  cbn [sl_entry sl_dr_len sl_curr sl_in_cont fst snd] in *.
  unfold curr_add_component, RRSLRecord_add_component.
  cbn [sl_entry sl_dr_len sl_curr sl_in_cont].
  destruct (255 <? _); [discriminate|]. cbn [bind].
  assert (Hnew : forall b,
             sl_records b = pre ++ [cur] ->
             entry_size
               (set_sl_records
                  (replace_last (sl_records b)
                     (mkSL (symlink_components cur ++ [comp]) (sl_flags cur)))
                  b)
             = entry_size b + RRSLRecord_component_length comp).
  { intros b Hb. rewrite entry_size_set_sl, Hb, replace_last_snoc.
    rewrite !sl_size_snoc. cbn [symlink_components].
    rewrite RRSLRecord_length_snoc. lia. }
  destruct ic.
  - unfold continuation in Hside.
    destruct (ce_record e) as [ce|] eqn:Ece; [|discriminate Hside].
    destruct (continuation_entry ce) as [c|] eqn:Ec; [|discriminate Hside].
    cbn [option_map] in Hside. injection Hside as <-.
    rewrite (update_ce_cont_eq _ e ce c Ece Ec).
    cbn [bind]. intros H1. apply Ok_inj in H1. subst s1.
    unfold meta_increment. cbn [sl_in_cont sl_entry sl_dr_len sl_curr].
    step_cont. cbn [bind].
    intros H2. apply Ok_inj in H2. subst s2.
    destruct (Hc ce eq_refl) as (c0 & Ec0 & Hlen).
    rewrite Ec in Ec0. injection Ec0 as <-.
    split.
    + split; cbn [sl_entry sl_dr_len fst snd].
      * rewrite entry_size_reset_ce.
        rewrite (entry_size_set_ce _ _ _ Ece). exact Hd.
      * intros ce' Hce'. slots_cbn in Hce'. injection Hce' as <-.
        eexists. split; [reflexivity|].
        unfold RockRidgeContinuation_increment_length, cont_update.
        cbn [continue_length cont_base].
        rewrite (Hnew _ Hrec), Hlen. reflexivity.
    + unfold sl_side, continuation. cbn [sl_in_cont sl_entry sl_curr].
      slots_cbn. cbn [continuation_entry option_map].
      eexists _, pre. split; [reflexivity|].
      unfold RockRidgeContinuation_increment_length, cont_update.
      cbn [cont_base]. slots_cbn.
      rewrite Hrec. apply replace_last_snoc.
  - injection Hside as <-.
    intros H1. apply Ok_inj in H1. subst s1.
    unfold meta_increment. cbn [sl_in_cont sl_entry sl_dr_len sl_curr].
    intros H2. apply Ok_inj in H2. subst s2.
    split.
    + split; cbn [sl_entry sl_dr_len fst snd].
      * rewrite (Hnew _ Hrec). lia.
      * intros ce Hce. apply Hc. exact Hce.
    + unfold sl_side. cbn [sl_in_cont sl_entry sl_curr].
      eexists _, pre. split; [reflexivity|]. slots_cbn.
      rewrite Hrec. apply replace_last_snoc.
Qed.

Lemma sl_move (curr : Z) (rest : str) (st s2 : sl_state) :
  accounted curr (sl_entry st, sl_dr_len st) ->
  ~ In "/"%char rest ->
  curr_move_to_cont rest st = Ok s2 ->
  sl_tracked curr s2.
Proof.
  destruct st as [e dr cur ic]. intros [Hd Hc] Hrest.
  cbn [sl_entry sl_dr_len sl_curr sl_in_cont fst snd] in *.
  unfold curr_move_to_cont, cont_append_sl.
  remember (5 + RRSLRecord_component_length rest) as n eqn:Hn.
  cbn [sl_entry sl_dr_len].
  destruct (update_ce _ e) as [e1|] eqn:E0; [|discriminate].
  apply update_ce_cont_inv in E0. destruct E0 as (ce & c & Ece & Ec & ->).
  cbn [bind]. unfold meta_increment.
  cbn [sl_in_cont sl_entry sl_dr_len sl_curr].
  step_cont.
  cbn [bind]. intros H2. apply Ok_inj in H2. subst s2.
  destruct (Hc ce Ece) as (c0 & Ec0 & Hlen).
  rewrite Ec in Ec0. injection Ec0 as <-.
  split.
  - split; cbn [sl_entry sl_dr_len fst snd].
    + rewrite entry_size_reset_ce.
      rewrite (entry_size_set_ce _ _ _ Ece). exact Hd.
    + intros ce' Hce'. slots_cbn in Hce'. injection Hce' as <-.
      eexists. split; [reflexivity|].
      unfold RockRidgeContinuation_increment_length, cont_update.
      cbn [continue_length cont_base].
      rewrite entry_size_set_sl, sl_size_snoc, Hlen.
      unfold RRSLRecord_new. cbn [symlink_components].
      rewrite (split_single rest Hrest), RRSLRecord_length_cons.
      change (RRSLRecord_length []) with 5. lia.
  - unfold sl_side, continuation. cbn [sl_in_cont sl_entry sl_curr].
    slots_cbn. cbn [continuation_entry option_map].
    eexists _, _. split; [reflexivity|].
    unfold RockRidgeContinuation_increment_length, cont_update.
    cbn [cont_base]. slots_cbn. reflexivity.
Qed.

Lemma new_sl_comp_tracked (curr : Z) (comp : str) (st st' : sl_state) :
  sl_tracked curr st -> ~ In "/"%char comp ->
  new_sl_comp comp st = Ok st' -> sl_tracked curr st'.
Proof.
  intros Ht Hcomp. unfold new_sl_comp. destruct (_ <? 255).
  - destruct (curr_add_component comp st) as [s1|] eqn:E1; [|discriminate].
    cbn [bind]. apply (sl_add_inc curr comp st s1 st' Ht E1).
  - destruct (_ <? 255).
    + destruct (curr_add_component _ st) as [s1|] eqn:E1; [|discriminate].
      cbn [bind].
      destruct (meta_increment _ s1) as [s2|] eqn:E2; [|discriminate].
      cbn [bind]. intros Hm.
      pose proof (sl_add_inc curr _ st s1 s2 Ht E1 E2) as [Ha _].
      refine (sl_move curr _ s2 st' Ha _ Hm).
      intros H. apply Hcomp. exact (slice_from_incl _ _ _ H).
    + destruct Ht as [Ha _]. apply (sl_move curr comp st st' Ha Hcomp).
Qed.

Lemma new_sl_comps_tracked (curr : Z) (comps : list str) :
  Forall (fun c => ~ In "/"%char c) comps ->
  forall st st',
    sl_tracked curr st ->
    new_sl_comps comps st = Ok st' -> sl_tracked curr st'.
Proof.
  induction 1 as [|comp r Hc _ IH]; intros st st' Ht; cbn [new_sl_comps].
  - intros H. apply Ok_inj in H. subst st'. exact Ht.
  - destruct (new_sl_comp comp st) as [s1|] eqn:E1; [|discriminate].
    cbn [bind]. apply IH. exact (new_sl_comp_tracked curr comp st s1 Ht Hc E1).
Qed.

Lemma new_sl_accounted (curr : Z) (a : new_args) (e : RockRidgeBase)
  (dr : Z) (e' : RockRidgeBase) (dr' : Z) :
  accounted curr (e, dr) ->
  new_sl a (e, dr) = Ok (e', dr') -> accounted curr (e', dr').
Proof.
  intros [Hd Hc]. cbn [fst snd] in *. unfold new_sl.
  destruct (symlink_path a) as [path|].
  - intros H.
    assert (Hst : exists st1 st2,
               sl_tracked curr st1
               /\ new_sl_comps (split path) st1 = Ok st2
               /\ mark_field "SL" (sl_entry st2, sl_dr_len st2)
                  = Ok (e', dr')).
    { destruct (_ <? ALLOWED_DR_SIZE).
      - cbn [bind] in H. unfold meta_increment at 1 in H.
        cbn [sl_in_cont sl_entry sl_dr_len sl_curr bind] in H.
        destruct (new_sl_comps _ _) as [s2|] eqn:E2; [|discriminate H].
        cbn [bind] in H. eexists _, s2. split; [|split; [exact E2|exact H]].
        split.
        + split; cbn [sl_entry sl_dr_len fst snd].
          * rewrite entry_size_set_sl, sl_size_snoc.
            unfold RRSLRecord_new. cbn [symlink_components].
            change (RRSLRecord_length []) with 5. lia.
          * intros ce Hce. apply Hc. exact Hce.
        + unfold sl_side. cbn [sl_in_cont sl_entry sl_curr].
          eexists _, _. split; [reflexivity|]. reflexivity.
      - unfold cont_append_sl in H.
        destruct (update_ce _ e) as [e1|] eqn:E0; [|discriminate H].
        apply update_ce_cont_inv in E0.
        destruct E0 as (ce & c & Ece & Ec & ->).
        cbn [bind] in H. unfold meta_increment at 1 in H.
        cbn [sl_in_cont sl_entry sl_dr_len sl_curr] in H.
        step_cont_in H.
        cbn [bind] in H.
        destruct (new_sl_comps _ _) as [s2|] eqn:E2; [|discriminate H].
        cbn [bind] in H. eexists _, s2. split; [|split; [exact E2|exact H]].
        destruct (Hc ce Ece) as (c0 & Ec0 & Hlen).
        rewrite Ec in Ec0. injection Ec0 as <-.
        split.
        + split; cbn [sl_entry sl_dr_len fst snd].
          * rewrite entry_size_reset_ce.
            rewrite (entry_size_set_ce _ _ _ Ece). exact Hd.
          * intros ce' Hce'. slots_cbn in Hce'. injection Hce' as <-.
            eexists. split; [reflexivity|].
            unfold RockRidgeContinuation_increment_length, cont_update.
            cbn [continue_length cont_base].
            rewrite entry_size_set_sl, sl_size_snoc, Hlen.
            unfold RRSLRecord_new. cbn [symlink_components].
            change (RRSLRecord_length []) with 5. lia.
        + unfold sl_side, continuation. cbn [sl_in_cont sl_entry sl_curr].
          slots_cbn. cbn [continuation_entry option_map].
          eexists _, _. split; [reflexivity|].
          unfold RockRidgeContinuation_increment_length, cont_update.
          cbn [cont_base]. slots_cbn. reflexivity. }
    destruct Hst as (st1 & st2 & Ht & E2 & Hm).
    apply (mark_field_accounted curr "SL" _ _) in Hm; [exact Hm|].
    exact (proj1 (new_sl_comps_tracked curr (split path) (split_no_slash path)
                    st1 st2 Ht E2)).
  - intros H. apply Ok_inj in H. injection H as <- <-. split; assumption.
Qed.

Ltac safe_both_tac :=
  intros; apply safe_both; reflexivity.

Ltac vacant_start H0 :=
  unfold new_ce in H0;
  destruct (ALLOWED_DR_SIZE <? _); injection H0 as -> ->;
  (split;
   [ reflexivity
   | let c := fresh "c" in
     let Hc := fresh "Hc" in
     intros c Hc; unfold continuation in Hc; cbn in Hc;
     first [ discriminate Hc | injection Hc as <-; reflexivity ] ]).

(** X22.  [new] keeps its books, whatever the layout.  The length it
    returns is the current length plus the [length()] of every record it
    left in the entry, the CE record included, padded to an even number;
    and the length it gave the continuation is the sum of the [length()]
    of the records it left there. *)
Theorem new_keeps_books (now : clock) (a : new_args) (e : RockRidgeBase)
  (n : Z) :
  RockRidge_new now RockRidgeBase_init a = Ok (e, n) ->
  n = (curr_dr_len a + entry_size e) + (curr_dr_len a + entry_size e) mod 2
  /\ forall ce,
       ce_record e = Some ce ->
       exists c,
         continuation_entry ce = Some c
         /\ RockRidgeContinuation_length c = entry_size (cont_base c).
Proof.
  intros Hnew. unfold RockRidge_new in Hnew.
  destruct (RockRidge_new_layout now RockRidgeBase_init a) as [[e1 n1]|] eqn:E;
    [|discriminate].
  cbn [bind fst snd] in Hnew. injection Hnew as <- <-.
  apply new_layout_trace in E.
  destruct E as (_ & t & Ht & H0 & -> & ->).
  destruct Ht as (E1 & E2 & E3 & E4 & E5 & E6 & E7 & E8 & E9 & E10).
  destruct t as [[e0 d0] [e1 d1] [e2 d2] [e3 d3] [e4 d4] [e5 d5] [e6 d6]
                 [e7 d7] [e8 d8] [e9 d9] [e10 d10]].
  cbn [t_ce t_sp t_rr t_nm t_px t_sl t_tf t_cl t_re t_pl t_er fst snd] in *.
  assert (A0 : accounted (curr_dr_len a) (e0, d0)).
  { unfold new_ce in H0.
    destruct (ALLOWED_DR_SIZE <? _); injection H0 as -> ->.
    - split; cbn [fst snd]; [reflexivity|].
      intros ce Hce. slots_cbn in Hce. injection Hce as <-.
      eexists. split; reflexivity.
    - split; cbn [fst snd]; [unfold entry_size; cbn; lia|].
      intros ce Hce. discriminate Hce. }
  assert (Vsp : vacant sp_record e0) by (clear - H0; vacant_start H0).
  assert (Vrr : vacant rr_record e0) by (clear - H0; vacant_start H0).
  assert (Vnm : vacant nm_record e0) by (clear - H0; vacant_start H0).
  assert (Vpx : vacant px_record e0) by (clear - H0; vacant_start H0).
  assert (Vtf : vacant tf_record e0) by (clear - H0; vacant_start H0).
  assert (Vcl : vacant cl_record e0) by (clear - H0; vacant_start H0).
  assert (Vre : vacant re_record e0) by (clear - H0; vacant_start H0).
  assert (Vpl : vacant pl_record e0) by (clear - H0; vacant_start H0).
  assert (Ver : vacant er_record e0) by (clear - H0; vacant_start H0).
  pose proof (new_sp_accounted _ _ _ _ _ _ A0 Vsp E1) as A1.
  assert (F1 : forall T (p : RockRidgeBase -> T),
             (forall v b, p (set_ce_record v b) = p b) ->
             (forall v b, p (set_sp_record v b) = p b) ->
             both p e1 = both p e0).
  { intros T p Hce Hp.
    apply (new_sp_frame (both p) _ _ _ _ _
             ltac:(intros; apply safe_both; auto) E1). }
  assert (F2 : forall T (p : RockRidgeBase -> T),
             (forall v b, p (set_ce_record v b) = p b) ->
             (forall v b, p (set_rr_record v b) = p b) ->
             both p e2 = both p e1).
  { intros T p Hce Hp.
    apply (new_rr_frame (both p) _ _ _ _ _
             ltac:(intros; apply safe_both; auto) E2). }
  assert (F3 : forall T (p : RockRidgeBase -> T),
             (forall v b, p (set_ce_record v b) = p b) ->
             (forall v b, p (set_rr_record v b) = p b) ->
             (forall v b, p (set_nm_record v b) = p b) ->
             both p e3 = both p e2).
  { intros T p Hce Hrr Hp.
    apply (new_nm_frame (both p) _ _ _ _ _
             ltac:(intros; apply safe_both; auto)
             ltac:(intros; apply safe_both; auto) E3). }
  assert (F4 : forall T (p : RockRidgeBase -> T),
             (forall v b, p (set_ce_record v b) = p b) ->
             (forall v b, p (set_rr_record v b) = p b) ->
             (forall v b, p (set_px_record v b) = p b) ->
             both p e4 = both p e3).
  { intros T p Hce Hrr Hp.
    apply (new_px_frame (both p) _ _ _ _ _
             ltac:(intros; apply safe_both; auto)
             ltac:(intros; apply safe_both; auto) E4). }
  assert (F5 : forall T (p : RockRidgeBase -> T),
             (forall v b, p (set_ce_record v b) = p b) ->
             (forall v b, p (set_rr_record v b) = p b) ->
             (forall v b, p (set_sl_records v b) = p b) ->
             both p e5 = both p e4).
  { intros T p Hce Hrr Hp.
    apply (new_sl_frame (both p)
             ltac:(intros; apply safe_both; auto)
             ltac:(apply safe_both; auto) _ _ _ _ _
             ltac:(intros; apply safe_both; auto) E5). }
  assert (F6 : forall T (p : RockRidgeBase -> T),
             (forall v b, p (set_ce_record v b) = p b) ->
             (forall v b, p (set_rr_record v b) = p b) ->
             (forall v b, p (set_tf_record v b) = p b) ->
             both p e6 = both p e5).
  { intros T p Hce Hrr Hp.
    apply (new_tf_frame (both p) _ _ _ _ _
             ltac:(intros; apply safe_both; auto)
             ltac:(intros; apply safe_both; auto) E6). }
  assert (F7 : forall T (p : RockRidgeBase -> T),
             (forall v b, p (set_ce_record v b) = p b) ->
             (forall v b, p (set_cl_record v b) = p b) ->
             both p e7 = both p e6).
  { intros T p Hce Hp.
    apply (new_cl_frame (both p) _ _ _ _ _
             ltac:(intros; apply safe_both; auto) E7). }
  assert (F8 : forall T (p : RockRidgeBase -> T),
             (forall v b, p (set_ce_record v b) = p b) ->
             (forall v b, p (set_re_record v b) = p b) ->
             both p e8 = both p e7).
  { intros T p Hce Hp.
    apply (new_re_frame (both p) _ _ _ _ _
             ltac:(intros; apply safe_both; auto) E8). }
  assert (F9 : forall T (p : RockRidgeBase -> T),
             (forall v b, p (set_ce_record v b) = p b) ->
             (forall v b, p (set_pl_record v b) = p b) ->
             both p e9 = both p e8).
  { intros T p Hce Hp.
    apply (new_pl_frame (both p) _ _ _ _ _
             ltac:(intros; apply safe_both; auto) E9). }
  assert (A2 : accounted (curr_dr_len a) (e2, d2)).
  { refine (new_rr_accounted _ _ _ _ _ _ A1 _ E2).
    apply (vacant_both rr_record e1 e0); [|exact Vrr].
    apply F1; reflexivity. }
  assert (A3 : accounted (curr_dr_len a) (e3, d3)).
  { refine (new_nm_accounted _ _ _ _ _ _ A2 _ E3).
    apply (vacant_both nm_record e2 e0); [|exact Vnm].
    rewrite F2, F1; reflexivity. }
  assert (A4 : accounted (curr_dr_len a) (e4, d4)).
  { refine (new_px_accounted _ _ _ _ _ _ A3 _ E4).
    apply (vacant_both px_record e3 e0); [|exact Vpx].
    rewrite F3, F2, F1; reflexivity. }
  pose proof (new_sl_accounted _ _ _ _ _ _ A4 E5) as A5.
  assert (A6 : accounted (curr_dr_len a) (e6, d6)).
  { refine (new_tf_accounted _ _ _ _ _ _ A5 _ E6).
    apply (vacant_both tf_record e5 e0); [|exact Vtf].
    rewrite F5, F4, F3, F2, F1; reflexivity. }
  assert (A7 : accounted (curr_dr_len a) (e7, d7)).
  { refine (new_cl_accounted _ _ _ _ _ _ A6 _ E7).
    apply (vacant_both cl_record e6 e0); [|exact Vcl].
    rewrite F6, F5, F4, F3, F2, F1; reflexivity. }
  assert (A8 : accounted (curr_dr_len a) (e8, d8)).
  { refine (new_re_accounted _ _ _ _ _ _ A7 _ E8).
    apply (vacant_both re_record e7 e0); [|exact Vre].
    rewrite F7, F6, F5, F4, F3, F2, F1; reflexivity. }
  assert (A9 : accounted (curr_dr_len a) (e9, d9)).
  { refine (new_pl_accounted _ _ _ _ _ _ A8 _ E9).
    apply (vacant_both pl_record e8 e0); [|exact Vpl].
    rewrite F8, F7, F6, F5, F4, F3, F2, F1; reflexivity. }
  assert (A10 : accounted (curr_dr_len a) (e10, d10)).
  { refine (new_er_accounted _ _ _ _ _ _ A9 _ E10).
    apply (vacant_both er_record e9 e0); [|exact Ver].
    rewrite F9, F8, F7, F6, F5, F4, F3, F2, F1; reflexivity. }
  destruct A10 as [Hd Hc]. cbn [fst snd] in Hd, Hc.
  change (entry_size (set_initialized true e10)) with (entry_size e10).
  split; [rewrite Hd; reflexivity|].
  intros ce Hce. apply Hc. exact Hce.
Qed.

Lemma new_keeps_books_witness :
  exists e n ce c,
    RockRidge_new epoch RockRidgeBase_init args_spill = Ok (e, n)
    /\ ce_record e = Some ce
    /\ continuation_entry ce = Some c
    /\ n = 254 /\ entry_size e = 254
    /\ RockRidgeContinuation_length c = 377
    /\ entry_size (cont_base c) = 377.
Proof.
  destruct (RockRidge_new epoch RockRidgeBase_init args_spill)
    as [[e n]|] eqn:E; [|vm_compute in E; discriminate E].
  destruct (new_keeps_books epoch args_spill e n E) as [Hn Hc].
  assert (Hce : exists ce, ce_record e = Some ce /\ n = 254
                           /\ entry_size e = 254
                           /\ forall c, continuation_entry ce = Some c ->
                                        RockRidgeContinuation_length c = 377).
  { vm_compute in E. apply Ok_inj in E. injection E as <- <-.
    eexists. split; [reflexivity|]. split; [reflexivity|].
    split; [reflexivity|]. intros c Hc'. injection Hc' as <-. reflexivity. }
  destruct Hce as (ce & Hce & Hn254 & He & Hl).
  destruct (Hc ce Hce) as (c & Ec & Hlen).
  exists e, n, ce, c. split; [reflexivity|]. split; [exact Hce|].
  split; [exact Ec|].
  split; [exact Hn254|]. split; [exact He|]. split; [exact (Hl c Ec)|].
  rewrite <- Hlen. exact (Hl c Ec).
Defined.

(** ** The bytes [record()] writes *)

Ltac fixed_len tag :=
  let h := fresh "h" in
  let l := fresh "l" in
  let Eh := fresh "Eh" in
  let El := fresh "El" in
  let H := fresh "H" in
  destruct (pack_Bs _) as [h|] eqn:Eh; [|discriminate]; cbn [bind];
  first
    [ destruct (pack_Ls _) as [l|] eqn:El; [|discriminate]; cbn [bind];
      intros H; apply Ok_inj in H; subst;
      exact (proj1 (fixed_record_length tag _ _ _ h l eq_refl Eh El))
    | intros H; apply Ok_inj in H; subst;
      rewrite <- (app_nil_r h);
      exact (proj1 (fixed_record_length tag _ _ [] h [] eq_refl Eh eq_refl)) ].

Lemma RRSPRecord_record_len (r : RRSPRecord) (b : str) :
  RRSPRecord_record r = Ok b -> len b = RRSPRecord_length.
Proof. unfold RRSPRecord_record. fixed_len "SP"%string. Qed.

Lemma RRRRRecord_record_len (r : RRRRRecord) (b : str) :
  RRRRRecord_record r = Ok b -> len b = RRRRRecord_length.
Proof. unfold RRRRRecord_record. fixed_len "RR"%string. Qed.

Lemma RRCLRecord_record_len (r : RRCLRecord) (b : str) :
  RRCLRecord_record r = Ok b -> len b = RRCLRecord_length.
Proof. unfold RRCLRecord_record. fixed_len "CL"%string. Qed.

Lemma RRPLRecord_record_len (r : RRPLRecord) (b : str) :
  RRPLRecord_record r = Ok b -> len b = RRPLRecord_length.
Proof. unfold RRPLRecord_record. fixed_len "PL"%string. Qed.

Lemma RRRERecord_record_len (r : RRRERecord) (b : str) :
  RRRERecord_record r = Ok b -> len b = RRRERecord_length.
Proof. unfold RRRERecord_record. fixed_len "RE"%string. Qed.

Lemma RRCERecord_record_len (r : RRCERecord) (b : str) :
  RRCERecord_record r = Ok b -> len b = RRCERecord_length.
Proof.
  unfold RRCERecord_record.
  destruct (ce_initialized r); [|discriminate]. cbn [negb].
  destruct (continuation_entry r) as [c|]; [|discriminate].
  cbn [getattr bind].
  destruct (RockRidgeContinuation_extent_location _); [|discriminate].
  cbn [bind]. fixed_len "CE"%string.
Qed.

Lemma RRNMRecord_record_len (r : RRNMRecord) (b : str) :
  RRNMRecord_record r = Ok b -> len b = RRNMRecord_length (posix_name r).
Proof.
  unfold RRNMRecord_record.
  destruct (pack_Bs _) as [h|] eqn:Eh; [|discriminate]. cbn [bind].
  intros H. apply Ok_inj in H. subst b.
  destruct (tagged_record_length "NM" _ _ h (posix_name r) eq_refl Eh)
    as [L _].
  rewrite L. unfold RRNMRecord_length. cbn [length]. lia.
Qed.

Lemma RRERRecord_record_len (r : RRERRecord) (b : str) :
  RRERRecord_record r = Ok b ->
  len b = RRERRecord_length (ext_id r) (ext_des r) (ext_src r).
Proof.
  unfold RRERRecord_record.
  destruct (pack_Bs _) as [h|] eqn:Eh; [|discriminate]. cbn [bind].
  intros H. apply Ok_inj in H. subst b.
  destruct (tagged_record_length "ER" _ _ h
              (ext_id r ++ ext_des r ++ ext_src r) eq_refl Eh) as [L _].
  rewrite L, !len_app. unfold RRERRecord_length. cbn [length]. lia.
Qed.

Lemma RRSLRecord_record_len (r : RRSLRecord) (b : str) :
  RRSLRecord_record r = Ok b ->
  len b = RRSLRecord_length (symlink_components r).
Proof.
  unfold RRSLRecord_record.
  destruct (pack_Bs _) as [h|] eqn:Eh; [|discriminate]. cbn [bind].
  destruct (sl_components_record _) as [body|] eqn:Eb; [|discriminate].
  cbn [bind]. intros H. apply Ok_inj in H. subst b.
  destruct (tagged_record_length "SL" _ _ h body eq_refl Eh) as [L _].
  rewrite L. apply sl_components_record_len in Eb. cbn [length]. lia.
Qed.

Lemma RRTFRecord_record_len (r : RRTFRecord) (b : str) :
  valid_TF r ->
  RRTFRecord_record r = Ok b -> len b = RRTFRecord_length (time_flags r).
Proof.
  intros Hv Hb. destruct (tf_chunk false r Hv) as (b' & Hb' & _ & H2 & _).
  rewrite Hb in Hb'. apply Ok_inj in Hb'. subst b'.
  rewrite <- H2. unfold RRTFRecord_record in Hb.
  destruct (pack_Bs _) as [h|] eqn:Eh; [|discriminate Hb].
  cbn [bind] in Hb. apply Ok_inj in Hb. subst b.
  match goal with
  | |- get_B (lit "TF" ++ h ++ ?body) 2 = _ =>
      exact (proj2 (tagged_record_length "TF" _ _ h body eq_refl Eh))
  end.
Qed.

Lemma append_record_inv {A : Type} (rec : A -> M str) (L : A -> Z)
  (o : option A) (ret ret' : str) :
  (forall r b, o = Some r -> rec r = Ok b -> len b = L r) ->
  append_record rec o ret = Ok ret' ->
  len ret' = len ret + opt_size L o.
Proof.
  intros H. destruct o as [r|]; cbn [append_record opt_size].
  - destruct (rec r) as [b|] eqn:E; [|discriminate]. cbn [bind].
    intros Hr. apply Ok_inj in Hr. subst ret'.
    rewrite len_app, (H r b eq_refl E). reflexivity.
  - intros Hr. apply Ok_inj in Hr. subst ret'. lia.
Qed.

Lemma sl_size_cons (r : RRSLRecord) (l : list RRSLRecord) :
  sl_size (r :: l) = RRSLRecord_length (symlink_components r) + sl_size l.
Proof.
  unfold sl_size. cbn [fold_left]. rewrite Z.add_0_l.
  generalize (RRSLRecord_length (symlink_components r)). revert l.
  assert (G : forall l x y,
             fold_left (fun n r => n + RRSLRecord_length (symlink_components r))
                       l (x + y)
             = x + fold_left
                     (fun n r => n + RRSLRecord_length (symlink_components r))
                     l y).
  { induction l as [|r' l IH]; intros x y; cbn [fold_left]; [reflexivity|].
    rewrite <- Z.add_assoc. apply IH. }
  intros l x. rewrite <- (G l x 0), Z.add_0_r. reflexivity.
Qed.

Lemma append_records_inv (l : list RRSLRecord) : forall (ret ret' : str),
  append_records RRSLRecord_record l ret = Ok ret' ->
  len ret' = len ret + sl_size l.
Proof.
  induction l as [|r l IH]; intros ret ret'; cbn [append_records].
  - intros H. apply Ok_inj in H. subst ret'. unfold sl_size. cbn. lia.
  - destruct (RRSLRecord_record r) as [b|] eqn:E; [|discriminate].
    cbn [bind]. intros H. rewrite (IH _ _ H), len_app, sl_size_cons.
    rewrite (RRSLRecord_record_len r b E). lia.
Qed.

(** X23.  [record()] writes what the lengths add up to: when [record()]
    succeeds on an entry whose TF record, if it has one, holds exactly the
    timestamps its flags announce, the number of bytes is the sum of the
    [length()] of the records in the slots [record()] writes (SP, RR, NM,
    PX, SL, TF, CL, PL, RE, CE, ER). *)
Theorem record_writes_entry_size (e : RockRidgeBase) (b : str) :
  (forall tf, tf_record e = Some tf -> valid_TF tf) ->
  RockRidgeBase_record e = Ok b ->
  len b = entry_size e.
Proof.
  intros Htf. unfold RockRidgeBase_record.
  destruct (negb (initialized e)); [discriminate|].
  intros H.
  bind_step H r1 E1. bind_step H r2 E2. bind_step H r3 E3.
  bind_step H r4 E4. bind_step H r5 E5. bind_step H r6 E6.
  bind_step H r7 E7. bind_step H r8 E8. bind_step H r9 E9.
  bind_step H r10 E10. bind_step H r11 E11.
  apply Ok_inj in H. subst b.
  apply (append_record_inv _ (fun _ => RRSPRecord_length)) in E1;
    [|intros r b _; apply RRSPRecord_record_len].
  apply (append_record_inv _ (fun _ => RRRRRecord_length)) in E2;
    [|intros r b _; apply RRRRRecord_record_len].
  apply (append_record_inv _ (fun r => RRNMRecord_length (posix_name r)))
    in E3; [|intros r b _; apply RRNMRecord_record_len].
  apply (append_record_inv _ (fun _ => RRPXRecord_length)) in E4;
    [|intros r b _ Hb; exact (proj1 (RRPXRecord_record_length r b Hb))].
  apply append_records_inv in E5.
  apply (append_record_inv _ (fun r => RRTFRecord_length (time_flags r)))
    in E6; [|intros r b Hr; apply RRTFRecord_record_len, Htf, Hr].
  apply (append_record_inv _ (fun _ => RRCLRecord_length)) in E7;
    [|intros r b _; apply RRCLRecord_record_len].
  apply (append_record_inv _ (fun _ => RRPLRecord_length)) in E8;
    [|intros r b _; apply RRPLRecord_record_len].
  apply (append_record_inv _ (fun _ => RRRERecord_length)) in E9;
    [|intros r b _; apply RRRERecord_record_len].
  apply (append_record_inv _ (fun _ => RRCERecord_length)) in E10;
    [|intros r b _; apply RRCERecord_record_len].
  apply (append_record_inv _
           (fun r => RRERRecord_length (ext_id r) (ext_des r) (ext_src r)))
    in E11; [|intros r b _; apply RRERRecord_record_len].
  change (len []) with 0 in E1. unfold entry_size. lia.
Qed.

Lemma record_writes_entry_size_witness :
  exists e n b,
    RockRidge_new epoch RockRidgeBase_init args_small_symlink = Ok (e, n)
    /\ RockRidgeBase_record e = Ok b
    /\ len b = entry_size e
    /\ entry_size e = 105.
Proof.
  destruct (RockRidge_new epoch RockRidgeBase_init args_small_symlink)
    as [[e n]|] eqn:E; [|vm_compute in E; discriminate E].
  assert (He : exists b,
             RockRidgeBase_record e = Ok b
             /\ entry_size e = 105
             /\ (forall tf, tf_record e = Some tf -> valid_TF tf)).
  { vm_compute in E. apply Ok_inj in E. injection E as <- _.
    eexists. split; [vm_compute; reflexivity|]. split; [reflexivity|].
    intros tf Htf. injection Htf as <-.
    exact (valid_TF_new epoch eq_refl). }
  destruct He as (b & Hb & Hs & Hv).
  exists e, n, b. split; [reflexivity|]. split; [exact Hb|].
  split; [exact (record_writes_entry_size e b Hv Hb) | exact Hs].
Defined.
